(** * Alien invasion: a shallow embedding of [game2.py]

    The simulation engine of the game (class [Alien], class [Board], class
    [Player], [garbage_collect], [nuke_board] and the body of the main loop)
    is embedded as executable Rocq functions in a state-and-exception monad
    over an explicit object store.

    - Python objects of class [Alien] live in a store ([heap]); a reference
      is an index into it.  The grid and the [children] lists hold
      references, so the aliasing between the grid, the root registry and
      the lineage is the aliasing of the program.
    - A Python list is a [list]; indexing follows Python: an index [i] with
      [-len <= i < 0] counts from the end, anything outside [-len, len)
      raises [IndexError].
    - Python integers are [Z].
    - [random] is an arbitrary stream of integers read at a cursor:
      [randbelow n] is the next element modulo [n].
    - Console output ([print], [Board.__str__], [Player.__str__]) and the
      parsing of the input line are not part of the model; [printTree] and
      [printTrees] are modelled by the strings they build. *)

From Stdlib Require Import ZArith Lia Strings.String Strings.Ascii
  Numbers.DecimalString.
From stdpp Require Import base tactics option numbers list.

Local Open Scope Z_scope.

(** ** Constants of the module *)

Definition HEIGHT : Z := 8.
Definition WIDTH : Z := 8.
Definition STRENGTH : Z := 9.

(** ** Results: a value, a Python exception, or an exhausted step budget

    [BadRef] stands for a reference that is not in the store; Python has no
    such thing, it only arises for ill-formed stores.  [OutOfFuel] is the
    outcome of the one unbounded loop ([while stack:]) when the budget given
    to it runs out. *)

Inductive exn := IndexError | AttributeError | BadRef.

Inductive result (A : Type) :=
| Ok (a : A)
| Raise (e : exn)
| OutOfFuel.
Arguments Ok {A} a.
Arguments Raise {A} e.
Arguments OutOfFuel {A}.

(** ** Python list indexing *)

Definition py_index {A} (l : list A) (i : Z) : option nat :=
  let n := Z.of_nat (length l) in
  if decide (0 ≤ i < n) then Some (Z.to_nat i)
  else if decide (- n ≤ i < 0) then Some (Z.to_nat (n + i))
  else None.

(** [l[i]] *)
Definition getitem {A} (l : list A) (i : Z) : result A :=
  match py_index l i with
  | Some k => match l !! k with Some v => Ok v | None => Raise IndexError end
  | None => Raise IndexError
  end.

(** [l[i] = v] *)
Definition setitem {A} (l : list A) (i : Z) (v : A) : result (list A) :=
  match py_index l i with
  | Some k => Ok (<[k:=v]> l)
  | None => Raise IndexError
  end.

(** [range(n)] *)
Definition range (n : Z) : list Z := seqZ 0 n.

(** ** Objects *)

(** A reference to an [Alien] object: its index in the store. *)
Abbreviation ref := nat (only parsing).

(** The attributes of an [Alien].  Two are left out: [board], which is always
    the one board of the state, and [value], a block of memory that is never
    read. *)
Module Alien.
Record t := mk {
  coords : Z * Z;
  strength : Z;
  x : Z;
  y : Z;
  squished : bool;
  children : list (option ref)
}.
Definition set_coords (c : Z * Z) (a : t) : t :=
  mk c (strength a) (x a) (y a) (squished a) (children a).
Definition set_strength (s : Z) (a : t) : t :=
  mk (coords a) s (x a) (y a) (squished a) (children a).
Definition set_xy (c : Z * Z) (a : t) : t :=
  mk (coords a) (strength a) c.1 c.2 (squished a) (children a).
Definition set_squished (b : bool) (a : t) : t :=
  mk (coords a) (strength a) (x a) (y a) b (children a).
Definition set_children (l : list (option ref)) (a : t) : t :=
  mk (coords a) (strength a) (x a) (y a) (squished a) l.
End Alien.

Module Player.
Record t := mk {
  score : Z;
  strength : Z;
  turn : Z;
  consecutive_hits : Z
}.
Definition set_score (v : Z) (p : t) : t :=
  mk v (strength p) (turn p) (consecutive_hits p).
Definition set_strength (v : Z) (p : t) : t :=
  mk (score p) v (turn p) (consecutive_hits p).
Definition set_turn (v : Z) (p : t) : t :=
  mk (score p) (strength p) v (consecutive_hits p).
Definition set_consecutive_hits (v : Z) (p : t) : t :=
  mk (score p) (strength p) (turn p) v.
End Player.

Module Board.
Record t := mk {
  board : list (list (option ref));
  height : Z;
  width : Z
}.
Definition set_board (g : list (list (option ref))) (b : t) : t :=
  mk g (height b) (width b).
End Board.

(** The whole program state: the object store, the one board, its player,
    the driver's root registry [aliens] and the random stream. *)
Record World := mkWorld {
  heap : list Alien.t;
  board : Board.t;
  player : Player.t;
  aliens : list ref;
  rng : nat → Z;
  rpos : nat
}.

Definition set_heap (h : list Alien.t) (w : World) : World :=
  mkWorld h (board w) (player w) (aliens w) (rng w) (rpos w).
Definition set_board (b : Board.t) (w : World) : World :=
  mkWorld (heap w) b (player w) (aliens w) (rng w) (rpos w).
Definition set_player (p : Player.t) (w : World) : World :=
  mkWorld (heap w) (board w) p (aliens w) (rng w) (rpos w).
Definition set_aliens (l : list ref) (w : World) : World :=
  mkWorld (heap w) (board w) (player w) l (rng w) (rpos w).
Definition set_rpos (n : nat) (w : World) : World :=
  mkWorld (heap w) (board w) (player w) (aliens w) (rng w) n.

(** ** The monad of the program: state passing with exceptions *)

Definition M (A : Type) : Type := World → result (A * World).

Definition ret {A} (a : A) : M A := λ w, Ok (a, w).

Definition bind {A B} (m : M A) (k : A → M B) : M B :=
  λ w, match m w with
       | Ok (a, w') => k a w'
       | Raise e => Raise e
       | OutOfFuel => OutOfFuel
       end.

Declare Scope prog_scope.
Delimit Scope prog_scope with prog.
Notation "'do' x <- m ; k" := (bind m (λ x, k))
  (at level 10, x name, m at level 100, k at level 200) : prog_scope.
Notation "'do' ' p <- m ; k" := (bind m (λ x, match x with p => k end))
  (at level 10, p pattern, m at level 100, k at level 200) : prog_scope.
Notation "m ;; k" := (bind m (λ _, k))
  (at level 100, k at level 200, right associativity) : prog_scope.
Local Open Scope prog_scope.

Definition lift {A} (r : result A) : M A :=
  λ w, match r with
       | Ok a => Ok (a, w)
       | Raise e => Raise e
       | OutOfFuel => OutOfFuel
       end.

Definition gets {A} (f : World → A) : M A := λ w, Ok (f w, w).
Definition modify (f : World → World) : M unit := λ w, Ok (tt, f w).

(** [when c m]: [if c: m] *)
Definition when (c : bool) (m : M unit) : M unit := if c then m else ret tt.

(** [for x in l: body x] *)
Fixpoint for_each {A} (l : list A) (body : A → M unit) : M unit :=
  match l with
  | [] => ret tt
  | a :: l' => body a ;; for_each l' body
  end.

(** Reading and updating an object of the store. *)
Definition alien (r : ref) : M Alien.t :=
  λ w, match heap w !! r with
       | Some a => Ok (a, w)
       | None => Raise BadRef
       end.

Definition update (r : ref) (f : Alien.t → Alien.t) : M unit :=
  λ w, match heap w !! r with
       | Some a => Ok (tt, set_heap (<[r:=f a]> (heap w)) w)
       | None => Raise BadRef
       end.

Definition alloc (a : Alien.t) : M ref :=
  λ w, Ok (length (heap w), set_heap (heap w ++ [a]) w).

(** ** The random stream *)

Definition randbelow (n : Z) : M Z :=
  λ w, Ok (rng w (rpos w) `mod` n, set_rpos (S (rpos w)) w).

(** [random.randint(a, b)] *)
Definition randint (a b : Z) : M Z :=
  do r <- randbelow (b - a + 1); ret (a + r).

(** ** class Board: cell access *)

(** [Board.__init__]: [[[None for _ in range(width)] for _ in range(height)]] *)
Definition Board_init (height width : Z) : Board.t :=
  Board.mk (replicate (Z.to_nat height) (replicate (Z.to_nat width) None))
           height width.

(** [self.board[coords[0]][coords[1]]] *)
Definition getAlien (coords : Z * Z) : M (option ref) :=
  do g <- gets (λ w, Board.board (board w));
  do row <- lift (getitem g coords.1);
  lift (getitem row coords.2).

(** [self.board[c[0]][c[1]] = v]: the row is fetched, then assigned into;
    rows are objects of their own, so the outer list is not reassigned, which
    the model renders by writing the changed row back at the same index. *)
Definition set_cell (c : Z * Z) (v : option ref) : M unit :=
  do g <- gets (λ w, Board.board (board w));
  do row <- lift (getitem g c.1);
  do row' <- lift (setitem row c.2 v);
  do g' <- lift (setitem g c.1 row');
  modify (λ w, set_board (Board.set_board g' (board w)) w).

Definition addAlien (r : ref) : M unit :=
  do a <- alien r;
  set_cell (Alien.coords a) (Some r).

Definition clearCell (coords : Z * Z) : M unit :=
  set_cell coords None.

(** [isEmpty(coords)] with [coords] given *)
Definition isEmpty (coords : Z * Z) : M bool :=
  do o <- getAlien coords;
  ret (bool_decide (o = None)).

(** [all(p(c) for c in cells)]: stops at the first false *)
Fixpoint all_cells (cells : list (Z * Z)) (p : Z * Z → M bool) : M bool :=
  match cells with
  | [] => ret true
  | c :: cells' => do b <- p c; if b then all_cells cells' p else ret false
  end.

(** [(i, j) for i in range(n) for j in range(m)] *)
Definition cells_of (n m : Z) : list (Z * Z) :=
  i ← range n; j ← range m; [(i, j)].

(** [isEmpty()] with no argument: the whole board *)
Definition isEmpty_board : M bool :=
  do b <- gets board;
  all_cells (cells_of (Board.width b) (Board.height b)) isEmpty.

Definition moveAlien (oldCoords newCoords : Z * Z) : M unit :=
  do e_old <- isEmpty oldCoords;
  if e_old then ret tt else
  do e_new <- isEmpty newCoords;
  if negb e_new then ret tt else
  do o <- getAlien oldCoords;
  clearCell oldCoords;;
  set_cell newCoords o;;
  match o with
  | Some r => update r (Alien.set_xy newCoords)
  | None => lift (Raise AttributeError)
  end.

(** ** class Alien *)

(** [Alien.__init__]: the object exists with [coords] and [strength] when it
    registers itself on the board; the other attributes follow. *)
Definition Alien_init (coords : Z * Z) (strength : Z) : M ref :=
  do r <- alloc (Alien.mk coords strength coords.1 coords.2 false []);
  addAlien r;;
  ret r.

Definition doDeath (r : ref) : M unit :=
  update r (Alien.set_squished true);;
  do a <- alien r;
  clearCell (Alien.coords a).

Definition doPop (r : ref) (strength : Z) : M unit :=
  update r (λ a, Alien.set_strength (Alien.strength a - strength) a);;
  do a <- alien r;
  when (bool_decide (Alien.strength a < 1)) (doDeath r).

Definition doGrow (r : ref) : M unit :=
  do chance <- randint 0 9;
  do a <- alien r;
  when (bool_decide (Alien.strength a < STRENGTH) && bool_decide (chance > 7))
       (update r (λ a, Alien.set_strength (Alien.strength a + 1) a)).

Definition inRange (coords : Z * Z) : M bool :=
  do b <- gets board;
  ret (bool_decide (0 ≤ coords.1 < Board.width b)
       && bool_decide (0 ≤ coords.2 < Board.height b)).

(** The body of [doTravel] once the two offsets are drawn. *)
Definition doTravel_by (r : ref) (distx disty : Z) : M unit :=
  do a <- alien r;
  let newx := Alien.x a + distx in
  let newy := Alien.y a + disty in
  do ok <- inRange (newx, newy);
  when ok (moveAlien (Alien.coords a) (newx, newy);;
           update r (Alien.set_coords (newx, newy))).

Definition doTravel (r : ref) : M unit :=
  do distx <- randint (-1) 1;
  do disty <- randint (-1) 1;
  doTravel_by r distx disty.

Definition adjacent (a : Alien.t) : list (Z * Z) :=
  let x := Alien.x a in
  let y := Alien.y a in
  [(x + 1, y + 1); (x + 1, y); (x + 1, y - 1);
   (x, y + 1); (x, y - 1); (x - 1, y - 1);
   (x - 1, y); (x - 1, y + 1)].

(** [random.shuffle]: for [i] from [len - 1] down to [1], swap [l[i]] with
    [l[randbelow(i + 1)]]. *)
Definition swap {A} (l : list A) (i j : nat) : list A :=
  match l !! i, l !! j with
  | Some a, Some b => <[i:=b]> (<[j:=a]> l)
  | _, _ => l
  end.

Fixpoint shuffle_from {A} (i : nat) (l : list A) : M (list A) :=
  match i with
  | O => ret l
  | S i' =>
      do j <- randbelow (Z.of_nat i + 1);
      shuffle_from i' (swap l i (Z.to_nat j))
  end.

Definition shuffle {A} (l : list A) : M (list A) :=
  shuffle_from (length l - 1)%nat l.

(** The [for coords in adjacent] loop of [findEmptySpace]. *)
Fixpoint first_empty (cells : list (Z * Z)) : M (option (Z * Z)) :=
  match cells with
  | [] => ret None
  | c :: cells' =>
      do ok <- inRange c;
      if ok then
        do e <- isEmpty c;
        if e then ret (Some c) else first_empty cells'
      else first_empty cells'
  end.

Definition findEmptySpace (r : ref) : M (option (Z * Z)) :=
  do a <- alien r;
  do adj <- shuffle (adjacent a);
  first_empty adj.

(** The [for coords in adjacent] loop of [getNeighbor]. *)
Fixpoint collect_neighbors (cells : list (Z * Z)) (acc : list ref)
  : M (list ref) :=
  match cells with
  | [] => ret acc
  | c :: cells' =>
      do ok <- inRange c;
      if ok then
        do o <- getAlien c;
        match o with
        | Some n => collect_neighbors cells' (acc ++ [n])
        | None => collect_neighbors cells' acc
        end
      else collect_neighbors cells' acc
  end.

Definition getNeighbor (r : ref) : M (option ref) :=
  do a <- alien r;
  do neighbors <- collect_neighbors (adjacent a) [];
  match neighbors with
  | [] => ret None
  | _ =>
      do k <- randint 0 (Z.of_nat (length neighbors) - 1);
      do n <- lift (getitem neighbors k);
      ret (Some n)
  end.

Definition doSpawn (r : ref) : M unit :=
  do emptySpace <- findEmptySpace r;
  do neighbor <- getNeighbor r;
  do chance <- randint 0 9;
  match neighbor, emptySpace with
  | Some _, Some c =>
      when (bool_decide (chance > 6))
        (do a <- alien r;
         do child <- Alien_init c (Z.max 1 (Alien.strength a - 1));
         update r (λ a, Alien.set_children (Alien.children a ++ [Some child]) a))
  | _, _ => ret tt
  end.

Definition Alien_doTimestep (r : ref) : M unit :=
  doTravel r;;
  doSpawn r;;
  doGrow r.

(** ** class Board: the timestep *)

Definition Board_doTimestep : M unit :=
  do b <- gets board;
  for_each (cells_of (Board.width b) (Board.height b)) (λ c,
    do o <- getAlien c;
    match o with
    | Some r =>
        do a <- alien r;
        when (negb (Alien.squished a)) (Alien_doTimestep r)
    | None => ret tt
    end).

(** ** class Player *)

Definition Player_init : Player.t := Player.mk 0 1 0 0.

Definition Player_doTimestep : M unit :=
  modify (λ w, set_player (Player.set_turn (Player.turn (player w) + 1) (player w)) w).

(** The list comprehension of [trigger_bomb]: [dx] outer, [dy] inner, clipped
    with the module constants [WIDTH] and [HEIGHT]. *)
Definition affected_cells (epicenter : Z * Z) : list (Z * Z) :=
  dx ← [-1; 0; 1]; dy ← [-1; 0; 1];
  if bool_decide (0 ≤ epicenter.1 + dx < WIDTH)
     && bool_decide (0 ≤ epicenter.2 + dy < HEIGHT)
  then [(epicenter.1 + dx, epicenter.2 + dy)] else [].

(** [alien = getAlien(c); if alien: alien.doDeath()]; an [Alien] object is
    always truthy, so the test is [alien is not None]. *)
Definition kill_at (c : Z * Z) : M unit :=
  do o <- getAlien c;
  match o with
  | Some r => doDeath r
  | None => ret tt
  end.

Definition trigger_bomb (epicenter : Z * Z) : M unit :=
  for_each (affected_cells epicenter) kill_at.

(** ** Board.squish *)

Definition set_consecutive_hits (v : Z) : M unit :=
  modify (λ w, set_player (Player.set_consecutive_hits v (player w)) w).

Definition squish (coords : Z * Z) (strength : Z) : M Z :=
  do b <- gets board;
  if negb (bool_decide (0 ≤ coords.1 < Board.width b)
           && bool_decide (0 ≤ coords.2 < Board.height b))
  then ret (-1)
  else
    do e <- isEmpty coords;
    if e then ret (-1)
    else
      do o <- getAlien coords;
      match o with
      | Some r =>
          do a <- alien r;
          let score := if bool_decide (Alien.strength a > strength)
                       then strength else Alien.strength a in
          doPop r strength;;
          (if bool_decide (score > 0) then
             do p <- gets player;
             set_consecutive_hits (Player.consecutive_hits p + 1);;
             do p <- gets player;
             when (bool_decide (Player.consecutive_hits p >= 5))
                  (trigger_bomb coords;; set_consecutive_hits 0)
           else set_consecutive_hits 0);;
          ret score
      | None => ret (-1)
      end.

(** ** garbage_collect *)

(** An entry of the explicit stack: [(alien, parent, index_in_parent)].  The
    first component is a slot of a [children] list, hence possibly [None]. *)
Definition entry : Type := option ref * option ref * nat.

(** [for i, child in enumerate(current.children): stack.append((child, current, i))] *)
Definition child_entries (cur : ref) (l : list (option ref)) : list entry :=
  imap (λ i child, (child, Some cur, i)) l.

(** [parent.children[idx] = None] *)
Definition clear_slot (parent : ref) (idx : nat) : M unit :=
  do p <- alien parent;
  do l <- lift (setitem (Alien.children p) (Z.of_nat idx) None);
  update parent (Alien.set_children l).

(** The [while stack:] loop.  The stack is kept with its top first, so
    [stack.pop()] takes the head and the entries appended by the [for] loop
    go on top in reverse order.  Each iteration costs one unit of [fuel]. *)
Fixpoint gc_loop (fuel : nat) (stack : list entry) : M unit :=
  match fuel with
  | O => λ _, OutOfFuel
  | S fuel' =>
      match stack with
      | [] => ret tt
      | (current, parent, idx) :: stack' =>
          match current with
          | None => lift (Raise AttributeError)
          | Some cur =>
              do a <- alien cur;
              if Alien.squished a then
                match parent with
                | Some p => clear_slot p idx;; gc_loop fuel' stack'
                | None => gc_loop fuel' stack'
                end
              else
                gc_loop fuel'
                  (reverse (child_entries cur (Alien.children a)) ++ stack')
          end
      end
  end.

(** The body of [for root_alien in aliens]. *)
Definition gc_root (fuel : nat) (root_alien : ref) : M unit :=
  do a <- alien root_alien;
  if Alien.squished a then ret tt
  else
    gc_loop fuel [(Some root_alien, None, O)];;
    do a <- alien root_alien;
    when (negb (Alien.squished a))
      (update root_alien
         (λ a, Alien.set_children
                 (filter (λ child, child ≠ None) (Alien.children a)) a)).

(** The condition of the returned comprehension:
    [not alien.squished and alien.children or not alien.squished]. *)
Definition kept (a : Alien.t) : bool :=
  (negb (Alien.squished a) && bool_decide (Alien.children a ≠ []))
  || negb (Alien.squished a).

Fixpoint kept_roots (l : list ref) : M (list ref) :=
  match l with
  | [] => ret []
  | r :: l' =>
      do a <- alien r;
      do rest <- kept_roots l';
      ret (if kept a then r :: rest else rest)
  end.

Definition garbage_collect (fuel : nat) (aliens : list ref) : M (list ref) :=
  for_each aliens (gc_root fuel);;
  kept_roots aliens.

(** ** nuke_board *)

Definition nuke_board : M unit :=
  do b <- gets board;
  for_each (cells_of (Board.width b) (Board.height b)) kill_at.

(** ** The main loop *)

(** [alive_aliens]: the occupants of the grid, row by row, that are not
    squished; and the sum of their strengths. *)
Fixpoint total_strength (occupants : list (option ref)) : M Z :=
  match occupants with
  | [] => ret 0
  | None :: l => total_strength l
  | Some r :: l =>
      do a <- alien r;
      do t <- total_strength l;
      ret (if Alien.squished a then t else Alien.strength a + t)
  end.

Definition total_alien_strength : M Z :=
  do g <- gets (λ w, Board.board (board w));
  total_strength (concat g).

(** Lines 322-332: the nuke win condition.  Returns [true] when the loop
    is left by the [break]. *)
Definition win_by_nuke : M bool :=
  do p <- gets player;
  if bool_decide (Player.turn p > 5) then
    do total <- total_alien_strength;
    if bool_decide (total < Player.strength p) then
      nuke_board;; ret true
    else ret false
  else ret false.

(** Lines 318-320: the board is full. *)
Definition board_full : M bool :=
  all_cells (cells_of WIDTH HEIGHT) (λ c, do e <- isEmpty c; ret (negb e)).

(** Lines 334-341: the driver places a new alien. *)
Definition place_alien : M unit :=
  do x <- randint 0 (WIDTH - 1);
  do y <- randint 0 (HEIGHT - 1);
  do s <- randint 1 STRENGTH;
  do p <- gets player;
  let s := if bool_decide (Player.turn p = 0) then 5 else s in
  do e <- isEmpty (x, y);
  when e (do r <- Alien_init (x, y) s;
          modify (λ w, set_aliens (aliens w ++ [r]) w)).

(** Lines 357-365: the attack at the coordinates read from the input. *)
Definition attack (userx usery : Z) : M unit :=
  do p <- gets player;
  do score <- squish (userx, usery) (Player.strength p);
  do p <- gets player;
  let strength :=
    if bool_decide (score > 0)
    then Player.strength p + (if bool_decide (Player.strength p < STRENGTH) then 1 else 0)
    else Player.strength p - (if bool_decide (Player.strength p > 1) then 1 else 0) in
  modify (λ w, set_player
                 (Player.set_score (Player.score p + score)
                    (Player.set_strength strength p)) w).

(** Line 369: [aliens = garbage_collect(aliens)]. *)
Definition collect (fuel : nat) : M unit :=
  do l <- gets aliens;
  do l' <- garbage_collect fuel l;
  modify (set_aliens l').

(** What the player typed: coordinates, or a line without coordinates. *)
Inductive command := Coordinates (userx usery : Z) | NoCoordinates.

Inductive verdict := Running | GameOver | WinByNuke | WinEmpty.

(** One iteration of the [while] loop, for an input line other than [QUIT],
    [EXIT] and [TREES].  [c] is the line that [input()] (line 346) returns
    when the iteration gets there; it is not looked at when the loop is left
    on the full board or on the nuke before.  [game], further down, takes
    the lines of the input as the program reads them. *)
Definition main_turn (fuel : nat) (c : command) : M verdict :=
  do full <- board_full;
  if full then ret GameOver else
  do nuked <- win_by_nuke;
  if nuked then ret WinByNuke else
  place_alien;;
  match c with
  | Coordinates userx usery => attack userx usery
  | NoCoordinates => ret tt
  end;;
  Board_doTimestep;;
  Player_doTimestep;;
  collect fuel;;
  do e <- isEmpty_board;
  ret (if e then WinEmpty else Running).

(** The state at the start of [__main__]. *)
Definition initial (rng : nat → Z) : World :=
  mkWorld [] (Board_init HEIGHT WIDTH) Player_init [] rng O.

(** Several iterations of the loop, one for each line of [cmds], until the
    loop is left; the line of the iteration that leaves the loop before
    [input()] is not read by the program. *)
Fixpoint play (fuel : nat) (cmds : list command) : M verdict :=
  match cmds with
  | [] => ret Running
  | c :: cmds' =>
      do v <- main_turn fuel c;
      match v with
      | Running => play fuel cmds'
      | _ => ret v
      end
  end.

(** ** The core operations, one at a time *)

Inductive op :=
| OpPlace                       (* the driver places an alien *)
| OpAttack (userx usery : Z)    (* the player attacks a coordinate *)
| OpTravel (r : ref)            (* one alien moves *)
| OpSpawn (r : ref)             (* one alien reproduces *)
| OpGrow (r : ref)              (* one alien grows *)
| OpBomb (epicenter : Z * Z)    (* the area effect *)
| OpTimestep                    (* Board.doTimestep *)
| OpTick                        (* Player.doTimestep *)
| OpCollect (fuel : nat)        (* garbage collection of the registry *)
| OpNuke.                       (* nuke_board *)

Definition apply_op (o : op) : M unit :=
  match o with
  | OpPlace => place_alien
  | OpAttack userx usery => attack userx usery
  | OpTravel r => doTravel r
  | OpSpawn r => doSpawn r
  | OpGrow r => doGrow r
  | OpBomb epicenter => trigger_bomb epicenter
  | OpTimestep => Board_doTimestep
  | OpTick => Player_doTimestep
  | OpCollect fuel => collect fuel
  | OpNuke => nuke_board
  end.

Definition run_ops (ops : list op) : M unit := for_each ops apply_op.

(** ** Observations used in the statements *)

Definition grid (w : World) : list (list (option ref)) := Board.board (board w).

(** The coordinates accepted by the bounds test of [squish] and [inRange]. *)
Definition in_bounds (w : World) (c : Z * Z) : Prop :=
  0 ≤ c.1 < Board.width (board w) ∧ 0 ≤ c.2 < Board.height (board w).

(** The cells whose slot refers to [r], in row order. *)
Definition cells_of_row (r : ref) (i : nat) (row : list (option ref))
  : list (nat * nat) :=
  omap id (imap (λ j o, if decide (o = Some r) then Some (i, j) else None) row).

Definition cells_held (w : World) (r : ref) : list (nat * nat) :=
  concat (imap (cells_of_row r) (grid w)).

(** The board invariant of the data model: a live alien is referred to by
    exactly one slot of the grid, the one at its position [(x, y)].  That a
    cell holds at most one alien is built into the type of the grid. *)
Definition board_invariant (w : World) : Prop :=
  ∀ r a, heap w !! r = Some a → Alien.squished a = false →
         cells_held w r = [(Z.to_nat (Alien.x a), Z.to_nat (Alien.y a))].

(** An alien is live when it is not squished. *)
Definition live (w : World) (r : ref) : Prop :=
  ∃ a, heap w !! r = Some a ∧ Alien.squished a = false.

Definition dead (w : World) (r : ref) : Prop :=
  ∃ a, heap w !! r = Some a ∧ Alien.squished a = true.

(** The aliens counted by the nuke condition: on the grid and not squished. *)
Definition on_grid (w : World) (r : ref) : Prop := Some r ∈ concat (grid w).

(** A random stream given by its first draws; the rest is [0]. *)
Definition stream (draws : list Z) : nat → Z := λ n, default 0 (draws !! n).

(** ** Scenarios *)

(** The draws of one alien's timestep that leave everything in place but the
    travel offsets: [tx], [ty] select the offsets ([0] for [-1], [1] for [0],
    [2] for [+1]); then the seven swaps of the shuffle, the neighbour index
    when there is a neighbour, the spawn chance and the growth chance. *)
Definition quiet_step (tx ty : Z) (has_neighbor : bool) : list Z :=
  [tx; ty] ++ replicate 7 0 ++ (if has_neighbor then [0] else []) ++ [0; 0].

(** Two aliens side by side, as left by two placements: [0] at (3,4) with
    strength 5, [1] at (3,3) with strength [s]. *)
Definition side_by_side (s : Z) : M unit :=
  Alien_init (3, 4) 5;; Alien_init (3, 3) s;; ret tt.

(** Three turns of the game: an alien is placed at (3,4); a second one at
    (3,3) with strength 1, which then draws the offsets (0,+1) towards the
    first; the player attacks (3,3). *)
Definition blocked_then_hit_draws : list Z :=
  [3; 4; 0] ++ quiet_step 1 1 false
  ++ [3; 3; 0] ++ quiet_step 1 2 true ++ quiet_step 1 1 true
  ++ [3; 3; 0].

Definition blocked_then_hit : M verdict :=
  play 10 [NoCoordinates; NoCoordinates; Coordinates 3 3].

(** Seven turns.  An alien at (0,0) is attacked three times and dies, which
    brings the player's strength to 4; meanwhile aliens of strength 1 are
    placed at (3,4) and at (3,3), and from then on the second draws the
    offsets (0,+1) towards the first at every timestep.  On the seventh turn
    the nuke condition holds. *)
Definition nuke_draws : list Z :=
  [0; 0; 0] ++ quiet_step 1 1 false
  ++ [3; 4; 0] ++ quiet_step 1 1 false ++ quiet_step 1 1 false
  ++ [3; 3; 0] ++ quiet_step 1 2 true ++ quiet_step 1 1 true
  ++ [3; 3; 0] ++ quiet_step 1 2 true ++ quiet_step 1 1 true
  ++ [3; 3; 0] ++ quiet_step 1 2 true ++ quiet_step 1 1 true
  ++ [3; 3; 0] ++ quiet_step 1 2 true ++ quiet_step 1 1 true.

Definition nuke_game : list command :=
  [Coordinates 0 0; Coordinates 0 0; Coordinates 0 0;
   NoCoordinates; NoCoordinates; NoCoordinates].

(** Six attacks of strength 1: five on the alien at (0,0), then one on the
    alien at (5,5); both start with strength 9. *)
Definition two_targets : M unit :=
  Alien_init (0, 0) 9;; Alien_init (5, 5) 9;; ret tt.

Fixpoint squish_all (targets : list (Z * Z)) (strength : Z) : M (list Z) :=
  match targets with
  | [] => ret []
  | c :: targets' =>
      do s <- squish c strength;
      do rest <- squish_all targets' strength;
      ret (s :: rest)
  end.

(** A lineage of three generations: root [0], its child [1], and the dead
    grandchild [2]. *)
Definition lineage (sq0 sq1 sq2 : bool) : list Alien.t :=
  [Alien.mk (0, 0) 3 0 0 sq0 [Some 1%nat];
   Alien.mk (0, 1) 2 0 1 sq1 [Some 2%nat];
   Alien.mk (0, 2) 1 0 2 sq2 []].

Definition with_heap (h : list Alien.t) (l : list ref) : World :=
  set_aliens l (set_heap h (initial (stream []))).

(** ** Well-formed states

    The states of the program proper: the 8 by 8 board of [__main__], whose
    slots refer to objects of the store, and aliens whose [coords] name a
    cell of the board. *)

(** The content of a cell, read off the grid as [getAlien] does. *)
Definition cell_at (g : list (list (option ref))) (c : Z * Z)
  : result (option ref) :=
  match getitem g c.1 with
  | Ok row => getitem row c.2
  | Raise e => Raise e
  | OutOfFuel => OutOfFuel
  end.

(** The grid after [g[c[0]][c[1]] = v], for a cell of the grid. *)
Definition put_cell (g : list (list (option ref))) (c : Z * Z) (v : option ref)
  : list (list (option ref)) :=
  alter (λ row, <[Z.to_nat c.2:=v]> row) (Z.to_nat c.1) g.

Definition set_grid (g : list (list (option ref))) (w : World) : World :=
  set_board (Board.set_board g (board w)) w.

Definition on_board (c : Z * Z) : Prop :=
  0 ≤ c.1 < WIDTH ∧ 0 ≤ c.2 < HEIGHT.

Record well_formed (w : World) : Prop := {
  wf_height : Board.height (board w) = HEIGHT;
  wf_width : Board.width (board w) = WIDTH;
  wf_rows : length (grid w) = 8%nat;
  wf_cols : Forall (λ row, length row = 8%nat) (grid w);
  wf_refs : ∀ r, Some r ∈ concat (grid w) → (r < length (heap w))%nat;
  wf_coords : Forall (λ a, on_board (Alien.coords a)) (heap w)
}.

(** The slot at row [i], column [j] of a grid, if there is one. *)
Definition slot (g : list (list (option ref))) (i j : nat)
  : option (option ref) :=
  g !! i ≫= λ row, row !! j.

(** What a death, and so the area effect, may change in the store and on the
    grid: squished flags are raised and cells are emptied; strengths and
    coordinates stay. *)
Record only_kills (w w' : World) : Prop := {
  ok_heap : ∀ r a, heap w !! r = Some a →
            ∃ a', heap w' !! r = Some a'
                  ∧ Alien.strength a' = Alien.strength a
                  ∧ Alien.coords a' = Alien.coords a
                  ∧ (Alien.squished a = true → Alien.squished a' = true);
  ok_grid : ∀ i j, slot (grid w) i j = Some None →
                   slot (grid w') i j = Some None
}.

(** The state after [doDeath] of [r], whose record was [a]. *)
Definition after_death (r : ref) (a : Alien.t) (w : World) : World :=
  set_grid (put_cell (grid w) (Alien.coords a) None)
    (set_heap (<[r:=Alien.set_squished true a]> (heap w)) w).

(** A decision procedure for [well_formed], for concrete states. *)
Definition well_formed_check (w : World) : bool :=
  bool_decide (Board.height (board w) = HEIGHT)
  && bool_decide (Board.width (board w) = WIDTH)
  && bool_decide (length (grid w) = 8%nat)
  && forallb (λ row : list (option ref), bool_decide (length row = 8%nat)) (grid w)
  && forallb (λ o : option ref,
                match o with
                | Some r => bool_decide (r < length (heap w))%nat
                | None => true
                end) (concat (grid w))
  && forallb (λ a, bool_decide (0 ≤ (Alien.coords a).1 < WIDTH)
                   && bool_decide (0 ≤ (Alien.coords a).2 < HEIGHT)) (heap w).

(** The strength-2 target of the scenario: one alien at (3,3). *)
Definition weak_target : M ref := Alien_init (3, 3) 2.

(** ** How the store evolves

    An alien is healthy when it is squished or has a strength of at least 1.
    [evolves h h'] is what every operation of the game guarantees about the
    store: objects stay, squished flags are never lowered, healthy aliens
    stay healthy, and new aliens are healthy. *)
Definition healthy (a : Alien.t) : Prop :=
  Alien.squished a = false → 1 ≤ Alien.strength a.

Record evolves (h h' : list Alien.t) : Prop := {
  ev_old : ∀ r a, h !! r = Some a →
           ∃ a', h' !! r = Some a'
                 ∧ (Alien.squished a = true → Alien.squished a' = true)
                 ∧ (healthy a → healthy a');
  ev_new : ∀ r a', h' !! r = Some a' → h !! r = None → healthy a'
}.

(** A computation respects a relation on stores when every run that returns
    relates the store it started in to the store it ends in. *)
Definition respects (R : relation (list Alien.t)) {A} (m : M A) : Prop :=
  ∀ w a w', m w = Ok (a, w') → R (heap w) (heap w').

(** ** The lineage as a graph *)

(** [c] is in the child list of [p]. *)
Definition edge (w : World) (p c : ref) : Prop :=
  ∃ a, heap w !! p = Some a ∧ Some c ∈ Alien.children a.

(** Slot [i] of the child list of [p] refers to [c]. *)
Definition child_at (w : World) (p : ref) (i : nat) (c : ref) : Prop :=
  ∃ a, heap w !! p = Some a ∧ Alien.children a !! i = Some (Some c).

(** [n] can be reached from [r] through child lists. *)
Inductive reach (w : World) (r : ref) : ref → Prop :=
| reach_root : reach w r r
| reach_child p c : reach w r p → edge w p c → reach w r c.

(** [n] can be reached from [r] through live aliens only, [r] and [n]
    included. *)
Inductive live_path (w : World) (r : ref) : ref → Prop :=
| live_root : live w r → live_path w r r
| live_child p c : live_path w r p → edge w p c → live w c → live_path w r c.

Definition is_live (w : World) (r : ref) : bool :=
  match heap w !! r with
  | Some a => negb (Alien.squished a)
  | None => false
  end.

(** The shape of the lineage the program builds: the registry holds each
    root once, a root is the child of no one, an alien sits in one slot of
    one child list, and what the traversal can reach holds no [None]. *)
Record forest (w : World) (roots : list ref) : Prop := {
  fr_nodup : NoDup roots;
  fr_roots : ∀ r, r ∈ roots → is_Some (heap w !! r);
  fr_orphans : ∀ r p, r ∈ roots → ¬ edge w p r;
  fr_parent : ∀ p i p' i' c,
      child_at w p i c → child_at w p' i' c → p = p' ∧ i = i';
  fr_valid : ∀ r n a, r ∈ roots → live_path w r n → heap w !! n = Some a →
      Forall (λ s, ∃ c, s = Some c ∧ is_Some (heap w !! c)) (Alien.children a)
}.

(** The invariant of the traversal.  [w0] is the state the collection
    started in, [processed] the roots whose turn has come, [E] the aliens
    popped so far, [stack] the pending entries. *)
Record gc_inv (w0 : World) (processed E : list ref) (stack : list entry)
    (w : World) : Prop := {
  gi_len : length (heap w) = length (heap w0);
  gi_same : ∀ n a, heap w !! n = Some a →
      ∃ a0, heap w0 !! n = Some a0 ∧ Alien.squished a = Alien.squished a0;
  gi_edges : ∀ p c, edge w p c → edge w0 p c;
  gi_fresh : ∀ n, n ∉ E → heap w !! n = heap w0 !! n;
  gi_nodup : NoDup E;
  gi_bound : ∀ n, n ∈ E → (n < length (heap w0))%nat;
  gi_origin : ∀ n, n ∈ E → n ∈ processed ∨ ∃ p, p ∈ E ∧ edge w0 p n;
  gi_closed : ∀ p i c, p ∈ E → live w0 p → child_at w p i c →
      (c ∈ E ∧ live w0 c) ∨ (Some c, Some p, i) ∈ stack;
  gi_stack : ∀ c par i, (c, par, i) ∈ stack →
      ∃ n, c = Some n ∧ (n ∉ E) ∧
           (match par with
            | None => n ∈ processed
            | Some p => p ∈ E ∧ child_at w p i n
                        ∧ ∃ r, r ∈ processed ∧ live_path w0 r p
            end);
  gi_stack_nodup : NoDup ((stack.*1).*1)
}.

(** A registry of two lineages: the root [0] is dead and has the live child
    [1]; the root [2] is live, its child [3] is dead and has the live child
    [4]; its other child [5] is live and has the dead child [6]. *)
Definition two_lineages : list Alien.t :=
  [Alien.mk (0, 0) 1 0 0 true [Some 1%nat];
   Alien.mk (0, 1) 1 0 1 false [];
   Alien.mk (1, 0) 3 1 0 false [Some 3%nat; Some 5%nat];
   Alien.mk (1, 1) 0 1 1 true [Some 4%nat];
   Alien.mk (1, 2) 1 1 2 false [];
   Alien.mk (1, 3) 2 1 3 false [Some 6%nat];
   Alien.mk (1, 4) 0 1 4 true []].

(** The state after [parent.children[idx] = None]. *)
Definition cleared (p : nat) (i : nat) (ap : Alien.t) (w : World) : World :=
  set_heap (<[p:=Alien.set_children (<[i:=None]> (Alien.children ap)) ap]>
              (heap w)) w.

(** The state after the compaction of the child list of [r]. *)
Definition compacted (r : nat) (a : Alien.t) (w : World) : World :=
  set_heap (<[r:=Alien.set_children
                   (filter (λ child, child ≠ None) (Alien.children a)) a]>
              (heap w)) w.

(** Every slot of every child list, in store order. *)
Definition all_children (w : World) : list (option nat) :=
  concat (Alien.children <$> heap w).

(** A decision procedure for a sufficient condition of [forest], for
    concrete states. *)
Definition forest_check (w : World) (roots : list nat) : bool :=
  bool_decide (NoDup roots)
  && forallb (λ r, bool_decide (r < length (heap w))%nat) roots
  && forallb (λ s : option nat,
                match s with
                | Some c => bool_decide (c < length (heap w))%nat
                | None => false
                end) (all_children w)
  && bool_decide (NoDup (all_children w))
  && forallb (λ r, bool_decide (Some r ∉ all_children w)) roots.

(** ** Invariants of the state

    [invariant I m]: a run of [m] that starts in a state satisfying [I] and
    returns, ends in a state satisfying [I].  [yields I m P]: the value it
    returns satisfies [P]. *)
Definition invariant (I : World → Prop) {A} (m : M A) : Prop :=
  ∀ w a w', I w → m w = Ok (a, w') → I w'.

Definition yields (I : World → Prop) {A} (m : M A) (P : A → Prop) : Prop :=
  ∀ w a w', I w → m w = Ok (a, w') → P a.

(** What the collection may do to the store: a child list may lose aliens
    and gains none; the other five attributes of every alien, and the number
    of aliens, stay as they are. *)
Record prunes (h h' : list Alien.t) : Prop := {
  pr_len : length h' = length h;
  pr_node : ∀ n a, h !! n = Some a →
      ∃ a', h' !! n = Some a'
            ∧ Alien.squished a' = Alien.squished a
            ∧ Alien.strength a' = Alien.strength a
            ∧ Alien.coords a' = Alien.coords a
            ∧ Alien.x a' = Alien.x a
            ∧ Alien.y a' = Alien.y a
            ∧ ∀ c, Some c ∈ Alien.children a' → Some c ∈ Alien.children a
}.

(** ** Coherent boards

    A board is coherent when the [coords] of every occupant names the cell it
    occupies.  The program does not keep boards coherent (a refused move
    overwrites [coords]); on a coherent board a death empties the cell of the
    alien that dies. *)
Definition coherent (w : World) : Prop :=
  ∀ i j r, slot (grid w) i j = Some (Some r) →
           ∃ a, heap w !! r = Some a
                ∧ Alien.coords a = (Z.of_nat i, Z.of_nat j).

(** The invariant of a scan that kills what it finds, started in [w0]: the
    cells visited so far are empty, and an occupant of [w0] is either still
    in its cell or dead. *)
Record scanned (w0 : World) (visited : list (Z * Z)) (w : World) : Prop := {
  sc_wf : well_formed w;
  sc_coherent : coherent w;
  sc_occupants : ∀ i j r, slot (grid w0) i j = Some (Some r) →
      slot (grid w) i j = Some (Some r)
      ∨ (slot (grid w) i j = Some None ∧ dead w r);
  sc_visited : ∀ c, c ∈ visited →
      slot (grid w) (Z.to_nat c.1) (Z.to_nat c.2) = Some None
}.

(** ** Moves *)

(** The state after [moveAlien] has moved [r], whose record was [a], from
    [old] to [new]. *)
Definition moved (old new : Z * Z) (r : ref) (a : Alien.t) (w : World) : World :=
  set_heap (<[r:=Alien.set_xy new a]> (heap w))
    (set_grid (put_cell (put_cell (grid w) old None) new (Some r)) w).

(** ** Boards of other sizes *)

(** The state right after [Board(height, width)] and [Player(board, ...)],
    for any dimensions. *)
Definition blank (height width : Z) : World :=
  mkWorld [] (Board_init height width) Player_init [] (stream []) O.

(** ** The seed of [__main__] (lines 306-309)

    [sys.argv] is a list of strings, a string a list of code points, so that
    [ord] is the identity. *)
Definition seed_of (argv : list (list Z)) : Z :=
  if bool_decide (1 < length argv)%nat
  then match argv !! 1%nat with
       | Some arg => foldr Z.add 0 arg
       | None => 0
       end
  else 0.

(** ** Parts of the state an operation leaves alone *)

(** A property [P] of a part [proj] of the state (the player, the
    registry). *)
Definition untouched {X} (proj : World → X) (P : X → Prop) (w : World)
  : Prop := P (proj w).

(** ** The player's ranges *)

(** The ranges the main loop keeps the player in: a strength from 1 to
    [STRENGTH], fewer than five consecutive hits on the counter, a turn count
    that is not negative. *)
Record player_ok (p : Player.t) : Prop := {
  po_strength : 1 ≤ Player.strength p ≤ STRENGTH;
  po_hits : 0 ≤ Player.consecutive_hits p < 5;
  po_turn : 0 ≤ Player.turn p
}.

(** ** What the engine keeps true of aliens and grid

    [xy_ok]: the occupant of a cell has that cell as its position [x], [y].
    [capped]: no alien is stronger than [STRENGTH]. *)
Definition xy_ok (w : World) : Prop :=
  ∀ i j r, slot (grid w) i j = Some (Some r) →
           ∃ a, heap w !! r = Some a
                ∧ Alien.x a = Z.of_nat i ∧ Alien.y a = Z.of_nat j.

Definition capped (w : World) : Prop :=
  Forall (λ a, Alien.strength a ≤ STRENGTH) (heap w).

Record sane (w : World) : Prop := {
  sn_wf : well_formed w;
  sn_xy : xy_ok w;
  sn_cap : capped w
}.

(** The states of a game: sane, with the player in its ranges. *)
Definition game_state (w : World) : Prop :=
  sane w ∧ untouched player player_ok w.

(** ** The states of a game

    The states the program can be in for the random stream [rng]: those
    reached from the initial state by iterations of the main loop, or by any
    sequence of operations of the engine. *)
Definition reachable (rng : nat → Z) (w : World) : Prop :=
  (∃ ops, run_ops ops (initial rng) = Ok (tt, w))
  ∨ (∃ fuel cmds v, play fuel cmds (initial rng) = Ok (v, w)).

(** ** Draws

    [rolled w0 w]: [w] is [w0] but for the cursor of the random stream. *)
Definition rolled (w0 w : World) : Prop := ∃ k, w = set_rpos k w0.

(** ** Runs that return

    [runs I m]: started in a state satisfying [I], [m] returns; it raises
    nothing and does not run out of fuel.  [valid n]: the state is well
    formed and the references below [n] are in the store. *)
Definition runs (I : World → Prop) {A} (m : M A) : Prop :=
  ∀ w, I w → ∃ a w', m w = Ok (a, w').

Definition valid (n : nat) (w : World) : Prop :=
  well_formed w ∧ (n ≤ length (heap w))%nat.

(** The operations of the engine other than the collection, with the
    aliens they act on in the store. *)
Definition op_ready (w : World) (o : op) : Prop :=
  match o with
  | OpCollect _ => False
  | OpTravel r | OpSpawn r | OpGrow r => (r < length (heap w))%nat
  | _ => True
  end.

(** A decision procedure for [coherent] on well-formed states. *)
Definition coherent_check (w : World) : bool :=
  forallb (λ i, forallb (λ j,
    match slot (grid w) i j with
    | Some (Some r) =>
        match heap w !! r with
        | Some a => bool_decide (Alien.coords a = (Z.of_nat i, Z.of_nat j))
        | None => false
        end
    | _ => true
    end) (seq 0 8)) (seq 0 8).

(** A well-formed, coherent state past turn 5: one alien of strength 2 at
    (3,3), one of strength 1 at (3,4), a player of strength 4. *)
Definition late_game : World :=
  set_player (Player.mk 0 4 6 0)
    (set_grid (put_cell (put_cell (grid (initial (stream []))) (3, 3) (Some 0%nat))
                 (3, 4) (Some 1%nat))
       (set_heap [Alien.mk (3, 3) 2 3 3 false []; Alien.mk (3, 4) 1 3 4 false []]
          (initial (stream [])))).

(** ** printTree and printTrees (lines 250-264)

    Strings are those of the Standard Library; [str_int] is Python's [str]
    on integers.  The recursion of [printTree] is bounded by [fuel].  A slot
    of a child list may hold [None]: [str(None)] succeeds and the read of
    [alien.children] raises [AttributeError].  [printTrees] prints each tree
    as soon as it is built; the model returns the lines printed when all of
    them were. *)
Definition ANSI_RED : string := String (ascii_of_nat 27) "[91m".
Definition ANSI_END : string := String (ascii_of_nat 27) "[0m".

Definition str_int (z : Z) : string := NilZero.string_of_int (Z.to_int z).

(** [Alien.__str__] *)
Definition Alien_str (a : Alien.t) : string :=
  (ANSI_RED ++ str_int (Alien.strength a) ++ ANSI_END)%string.

(** [for child in alien.children: tree += printTree(child, depth + 1)] *)
Fixpoint tree_loop (rec : option ref → M string)
    (children : list (option ref)) (tree : string) : M string :=
  match children with
  | [] => ret tree
  | child :: children' =>
      do s <- rec child;
      tree_loop rec children' (tree ++ s)%string
  end.

Fixpoint printTree (fuel : nat) (node : option ref) (depth : Z) : M string :=
  match fuel with
  | O => λ _, OutOfFuel
  | S fuel' =>
      match node with
      | None => lift (Raise AttributeError)
      | Some r =>
          do a <- alien r;
          let tree := (Alien_str a ++ "(" ++ str_int depth ++ "):")%string in
          if bool_decide (length (Alien.children a) = 0%nat) then ret tree
          else tree_loop (λ child, printTree fuel' child (depth + 1))
                 (Alien.children a) tree
      end
  end.

Fixpoint printTrees (fuel : nat) (aliens : list ref) : M (list string) :=
  match aliens with
  | [] => ret []
  | r :: aliens' =>
      do tree <- printTree fuel (Some r) 0;
      do rest <- printTrees fuel aliens';
      ret (tree :: rest)
  end.

(** A well-formed state with a coherent board. *)
Definition tidy (w : World) : Prop := well_formed w ∧ coherent w.

(** ** References that are in the store

    [linked]: the registry and the child lists refer to aliens of the
    store. *)
Record linked (w : World) : Prop := {
  ln_registry : ∀ r, r ∈ aliens w → (r < length (heap w))%nat;
  ln_children : ∀ p a c, heap w !! p = Some a → Some c ∈ Alien.children a →
                         (c < length (heap w))%nat
}.

(** The entries of the stack of the traversal are usable: the alien and the
    parent are in the store and the index is one of the parent's list. *)
Definition stack_ok (w : World) (stack : list entry) : Prop :=
  ∀ cur par idx, (cur, par, idx) ∈ stack →
    (∀ c, cur = Some c → (c < length (heap w))%nat)
    ∧ (∀ p, par = Some p →
         ∃ ap, heap w !! p = Some ap
               ∧ (idx < length (Alien.children ap))%nat).

(** The slots that the pending entries of the traversal name still hold
    what was pushed, or [None]. *)
Definition stack_slots (w : World) (stack : list entry) : Prop :=
  ∀ c p i, (Some c, Some p, i) ∈ stack →
    ∃ ap, heap w !! p = Some ap
          ∧ (Alien.children ap !! i = Some (Some c)
             ∨ Alien.children ap !! i = Some None).

(** A result that is not an exception other than [AttributeError]. *)
Definition only_AttributeError {A} (r : result A) : Prop :=
  match r with
  | Ok _ => True
  | Raise e => e = AttributeError
  | OutOfFuel => True
  end.


(** The draws of a timestep of an alien that stays in place and
    reproduces: the offsets (0,0), the seven swaps of the shuffle, the
    neighbour index, the spawn chance 7 and the growth chance 0. *)
Definition spawn_step : list Z := [1; 1] ++ replicate 7 0 ++ [0; 7; 0].

(** The draws of four turns, for the lines: no coordinates, no coordinates,
    (5,4), no coordinates.  An alien of strength 5 is placed at (3,3).  On
    the second turn an alien of strength 1 is placed at (3,4); in the
    timestep it has a child at (4,4), which the same scan of the board
    reaches later and which has a child of its own at (5,4).  On the third
    turn the player hits (5,4) and kills the grandchild, and the collection
    of that turn writes [None] over it in the children of its parent.  The
    collection of the fourth turn pops that [None]. *)
Definition crash_draws : list Z :=
  [3; 3; 0] ++ quiet_step 1 1 false
  ++ [3; 4; 0] ++ quiet_step 1 1 true ++ spawn_step ++ spawn_step
     ++ quiet_step 1 1 true
  ++ [3; 3; 0] ++ quiet_step 1 1 true ++ quiet_step 1 1 true
     ++ quiet_step 1 1 true
  ++ [3; 3; 0] ++ quiet_step 1 1 true ++ quiet_step 1 1 true
     ++ quiet_step 1 1 true.

(** ** The main loop and the lines it reads (lines 317-373)

    The loop once more, now reading the standard input as the program does:
    [input()] (line 346) takes the next line, and it is reached only when the
    board is not full and the nuke condition does not hold, after the
    placement.  What is printed is left out. *)

(** Lines 318-341: the two tests that leave the loop, then the placement. *)
Definition turn_start : M (option verdict) :=
  do full <- board_full;
  if full then ret (Some GameOver) else
  do nuked <- win_by_nuke;
  if nuked then ret (Some WinByNuke) else
  place_alien;;
  ret None.

(** Lines 351-368, for a line that is no keyword: the attack, when the line
    holds coordinates, and the two timesteps. *)
Definition turn_steps (c : command) : M unit :=
  match c with
  | Coordinates userx usery => attack userx usery
  | NoCoordinates => ret tt
  end;;
  Board_doTimestep;;
  Player_doTimestep.

(** Lines 351-373: these steps, the collection, and the test of the empty
    board. *)
Definition turn_end (fuel : nat) (c : command) : M verdict :=
  turn_steps c;;
  collect fuel;;
  do e <- isEmpty_board;
  ret (if e then WinEmpty else Running).

(** A line of the input, as lines 347-359 sort it.  [Typed (Coordinates x y)]:
    the line holds two numbers, which [int()] converts to [x] and [y];
    [Typed NoCoordinates]: it holds no coordinates and is no keyword;
    [Trees]: it is [TREES]; [Quit]: it is [QUIT] or [EXIT].  A line whose
    numbers [int()] refuses (too many digits for the interpreter) is none of
    these. *)
Inductive line := Typed (c : command) | Trees | Quit.

Definition typed (l : line) : bool :=
  match l with Typed _ => true | _ => false end.

(** How a run ends: the loop is left by a [break], with the verdict printed;
    [QUIT] or [EXIT] was read; or [input()] is called and no line is
    left. *)
Inductive outcome := Left (v : verdict) | Quitted | Waiting.

(** The loop on the lines of the input; it returns with the lines that were
    not read.  [TREES] prints the trees of the registry and goes to the next
    iteration, which starts with the tests and the placement again. *)
Fixpoint game (fuel : nat) (lines : list line) : M (outcome * list line) :=
  do v <- turn_start;
  match v with
  | Some v => ret (Left v, lines)
  | None =>
      match lines with
      | [] => ret (Waiting, [])
      | Quit :: rest => ret (Quitted, rest)
      | Trees :: rest =>
          do l <- gets aliens;
          printTrees fuel l;;
          game fuel rest
      | Typed c :: rest =>
          do v <- turn_end fuel c;
          match v with
          | Running => game fuel rest
          | _ => ret (Left v, rest)
          end
      end
  end.

(** * Properties *)

(** ** Stepping through the monad *)

Lemma bind_ok {A B} (m : M A) (k : A → M B) w a w' :
  m w = Ok (a, w') → bind m k w = k a w'.
Proof. unfold bind. by intros ->. Qed.

Lemma bind_inv {A B} (m : M A) (k : A → M B) w b w' :
  bind m k w = Ok (b, w') →
  ∃ a w1, m w = Ok (a, w1) ∧ k a w1 = Ok (b, w').
Proof.
  unfold bind. destruct (m w) as [[a w1]| |]; [eauto | done..].
Qed.

Lemma lift_ok {A} (r : result A) a w : r = Ok a → lift r w = Ok (a, w).
Proof. by intros ->. Qed.

Lemma alien_inv r w a w' :
  alien r w = Ok (a, w') → heap w !! r = Some a ∧ w' = w.
Proof.
  unfold alien. destruct (heap w !! r); [|done]. by intros [= <- <-].
Qed.

Lemma heap_update w r f v w' :
  update r f w = Ok (v, w') →
  ∃ a, heap w !! r = Some a ∧ heap w' = <[r:=f a]> (heap w).
Proof.
  unfold update. destruct (heap w !! r) as [a|]; [|done].
  intros [= <- <-]. by exists a.
Qed.

(** Closed statements about concrete runs are settled by evaluation, one
    conjunct after the other so that each run fixes the state of the next. *)
Ltac eval_conj :=
  repeat (split; [vm_compute; reflexivity|]); vm_compute; reflexivity.

(** ** Python lists and the grid *)

Lemma py_index_neg {A} (l : list A) i :
  - Z.of_nat (length l) ≤ i < 0 →
  py_index l i = py_index l (i + Z.of_nat (length l)).
Proof.
  intros H. unfold py_index. repeat case_decide; try lia. f_equal. lia.
Qed.

Lemma py_index_nonneg {A} (l : list A) i :
  0 ≤ i < Z.of_nat (length l) → py_index l i = Some (Z.to_nat i).
Proof. intros H. unfold py_index. by rewrite decide_True. Qed.

Lemma getitem_neg {A} (l : list A) i :
  - Z.of_nat (length l) ≤ i < 0 →
  getitem l i = getitem l (i + Z.of_nat (length l)).
Proof. intros H. unfold getitem. by rewrite py_index_neg. Qed.

Lemma getitem_nonneg {A} (l : list A) i v :
  0 ≤ i → l !! Z.to_nat i = Some v → getitem l i = Ok v.
Proof.
  intros Hi Hl. unfold getitem.
  rewrite py_index_nonneg, Hl; [done|].
  apply lookup_lt_Some in Hl. lia.
Qed.

Lemma getitem_inv {A} (l : list A) i v :
  getitem l i = Ok v → ∃ k, py_index l i = Some k ∧ l !! k = Some v.
Proof.
  unfold getitem. destruct (py_index l i) as [k|]; [|done].
  destruct (l !! k) eqn:E; [|done]. intros [= <-]. eauto.
Qed.

Lemma setitem_inv {A} (l : list A) i v l' :
  setitem l i v = Ok l' → ∃ k, py_index l i = Some k ∧ l' = <[k:=v]> l.
Proof.
  unfold setitem. destruct (py_index l i) as [k|]; [|done].
  intros [= <-]. eauto.
Qed.

Lemma getAlien_cell_at c w : getAlien c w = lift (cell_at (grid w) c) w.
Proof.
  unfold getAlien, cell_at. rewrite (bind_ok _ _ w (grid w) w) by done.
  unfold bind, lift. by destruct (getitem (grid w) c.1).
Qed.

(** A lookup leaves the state alone. *)
Lemma getAlien_inv c w o w' :
  getAlien c w = Ok (o, w') → w' = w ∧ cell_at (grid w) c = Ok o.
Proof.
  rewrite getAlien_cell_at. unfold lift.
  destruct (cell_at (grid w) c); [|done..]. by intros [= <- <-].
Qed.

Lemma isEmpty_cell_at c w o :
  cell_at (grid w) c = Ok o → isEmpty c w = Ok (bool_decide (o = None), w).
Proof.
  intros H. unfold isEmpty.
  by rewrite (bind_ok _ _ w o w) by (rewrite getAlien_cell_at; by apply lift_ok).
Qed.

Lemma cell_at_slot g c o :
  0 ≤ c.1 → 0 ≤ c.2 →
  slot g (Z.to_nat c.1) (Z.to_nat c.2) = Some o → cell_at g c = Ok o.
Proof.
  intros H1 H2. unfold slot, cell_at.
  destruct (g !! Z.to_nat c.1) as [row|] eqn:Hrow; [simpl|done].
  intros Ho. rewrite (getitem_nonneg _ _ row) by done.
  by apply getitem_nonneg.
Qed.

Lemma elem_of_concat_slot g (o : option ref) :
  o ∈ concat g ↔ ∃ i j, slot g i j = Some o.
Proof.
  unfold slot. induction g as [|row g IH]; simpl.
  - split; [by intros ?%elem_of_nil | by intros (i & j & ?)].
  - rewrite elem_of_app, IH. split.
    + intros [(j & Hj)%list_elem_of_lookup | (i & j & Hij)].
      * by exists 0%nat, j.
      * by exists (S i), j.
    + intros ([|i] & j & Hij); simpl in Hij.
      * left. apply list_elem_of_lookup. eauto.
      * right. eauto.
Qed.

Lemma cell_at_elem g c o : cell_at g c = Ok o → o ∈ concat g.
Proof.
  unfold cell_at. destruct (getitem g c.1) as [row| |] eqn:Hrow; [|done..].
  intros (j & _ & Hj)%getitem_inv.
  apply getitem_inv in Hrow as (i & _ & Hi).
  apply elem_of_concat_slot. exists i, j. unfold slot. by rewrite Hi.
Qed.

Lemma slot_put_cell g c v i j :
  slot (put_cell g c v) i j =
    if decide (i = Z.to_nat c.1 ∧ j = Z.to_nat c.2)
    then (slot g i j ≫= λ _, Some v) else slot g i j.
Proof.
  unfold slot, put_cell.
  destruct (decide (i = Z.to_nat c.1)) as [->|Hi].
  - rewrite list_lookup_alter_eq.
    destruct (g !! Z.to_nat c.1) as [row|]; simpl.
    + destruct (decide (j = Z.to_nat c.2)) as [->|Hj].
      * rewrite decide_True by done.
        destruct (row !! Z.to_nat c.2) eqn:E; simpl.
        -- apply list_lookup_insert_eq. by apply lookup_lt_Some in E.
        -- apply lookup_ge_None. rewrite length_insert. by apply lookup_ge_None.
      * rewrite decide_False by (by intros [? ?]).
        by rewrite list_lookup_insert_ne.
    + by case_decide.
  - rewrite list_lookup_alter_ne by done.
    by rewrite decide_False by (by intros [? ?]).
Qed.

Lemma set_cell_ok w c v o :
  0 ≤ c.1 → 0 ≤ c.2 →
  slot (grid w) (Z.to_nat c.1) (Z.to_nat c.2) = Some o →
  set_cell c v w = Ok (tt, set_grid (put_cell (grid w) c v) w).
Proof.
  intros H1 H2. unfold slot.
  destruct (grid w !! Z.to_nat c.1) as [row|] eqn:Hrow; [simpl|done].
  intros Ho. unfold set_cell.
  rewrite (bind_ok _ _ w (grid w) w) by done.
  rewrite (bind_ok _ _ w row w) by (by apply lift_ok, getitem_nonneg).
  apply lookup_lt_Some in Ho as Hlt. apply lookup_lt_Some in Hrow as Hlt'.
  rewrite (bind_ok _ _ w (<[Z.to_nat c.2:=v]> row) w).
  2:{ apply lift_ok. unfold setitem. rewrite py_index_nonneg; [done|lia]. }
  rewrite (bind_ok _ _ w (put_cell (grid w) c v) w); [done|].
  apply lift_ok. unfold setitem. rewrite py_index_nonneg by lia.
  f_equal. unfold put_cell.
  apply list_eq. intros i. destruct (decide (i = Z.to_nat c.1)) as [->|].
  - rewrite list_lookup_insert_eq by done. rewrite list_lookup_alter_eq. by rewrite Hrow.
  - rewrite list_lookup_insert_ne by done. by rewrite list_lookup_alter_ne.
Qed.

(** A write to the grid that returns is a write to one of its cells. *)
Lemma set_cell_inv c v w w' :
  set_cell c v w = Ok (tt, w') →
  ∃ c', w' = set_grid (put_cell (grid w) c' v) w.
Proof.
  unfold set_cell. intros H.
  apply bind_inv in H as (g & ? & [= <- <-] & H).
  apply bind_inv in H as (row & w1 & H1 & H).
  apply bind_inv in H as (row' & w2 & H2 & H).
  apply bind_inv in H as (g' & w3 & H3 & H).
  unfold lift in *.
  destruct (getitem _ _) as [row0| |] eqn:Hrow; [|done..].
  injection H1 as <- <-.
  destruct (setitem row0 _ _) as [row1| |] eqn:Hset; [|done..].
  injection H2 as <- <-.
  destruct (setitem _ _ row1) as [g1| |] eqn:Hset'; [|done..].
  injection H3 as <- <-. injection H as <-.
  apply getitem_inv in Hrow as (i & Hi & Hrow).
  apply setitem_inv in Hset as (j & _ & ->).
  apply setitem_inv in Hset' as (i' & Hi' & ->).
  assert (i' = i) as -> by (unfold grid in *; congruence).
  exists (Z.of_nat i, Z.of_nat j). unfold set_grid. do 2 f_equal.
  unfold put_cell, grid in *. simpl. rewrite !Nat2Z.id.
  apply list_eq. intros k. apply lookup_lt_Some in Hrow as Hlt.
  destruct (decide (k = i)) as [->|].
  - rewrite list_lookup_insert_eq by done. rewrite list_lookup_alter_eq.
    by rewrite Hrow.
  - rewrite list_lookup_insert_ne by done. by rewrite list_lookup_alter_ne.
Qed.

(** ** Well-formed states *)

Lemma wf_slot w c :
  well_formed w → on_board c →
  ∃ o, slot (grid w) (Z.to_nat c.1) (Z.to_nat c.2) = Some o.
Proof.
  intros Hwf [H1 H2]. unfold slot, WIDTH, HEIGHT in *.
  destruct (lookup_lt_is_Some_2 (grid w) (Z.to_nat c.1)) as [row Hrow].
  { rewrite (wf_rows _ Hwf). lia. }
  rewrite Hrow. simpl.
  apply lookup_lt_is_Some_2.
  rewrite (Forall_lookup_1 _ _ _ _ (wf_cols _ Hwf) Hrow). lia.
Qed.

Lemma well_formed_put_cell w c v :
  well_formed w → (∀ r, v = Some r → (r < length (heap w))%nat) →
  well_formed (set_grid (put_cell (grid w) c v) w).
Proof.
  intros Hwf Hv. split; simpl; try apply Hwf.
  - unfold grid, put_cell. simpl. rewrite length_alter. apply Hwf.
  - unfold grid, put_cell. simpl. apply Forall_alter; [apply Hwf|].
    intros row _ Hrow. by rewrite length_insert.
  - intros r (i & j & Hij)%elem_of_concat_slot.
    change (grid (set_grid _ w)) with (put_cell (grid w) c v) in Hij.
    rewrite slot_put_cell in Hij. case_decide.
    + destruct (slot (grid w) i j); simplify_eq/=. by apply Hv.
    + apply (wf_refs _ Hwf). apply elem_of_concat_slot. eauto.
Qed.

Lemma well_formed_update w r a f :
  well_formed w → heap w !! r = Some a →
  Alien.coords (f a) = Alien.coords a →
  well_formed (set_heap (<[r:=f a]> (heap w)) w).
Proof.
  intros Hwf Hr Hc. split; simpl; try apply Hwf.
  - intros r' Hr'. rewrite length_insert. by apply (wf_refs _ Hwf).
  - apply Forall_insert; [apply Hwf|]. rewrite Hc.
    apply (Forall_lookup_1 _ _ _ _ (wf_coords _ Hwf) Hr).
Qed.

Lemma well_formed_set_player w p : well_formed w → well_formed (set_player p w).
Proof. intros Hwf. split; apply Hwf. Qed.

Lemma well_formed_check_sound w : well_formed_check w = true → well_formed w.
Proof.
  unfold well_formed_check. rewrite !andb_true_iff, !forallb_forall.
  intros [[[[[Hh Hw] Hr] Hc] Hrefs] Hcoords].
  apply bool_decide_eq_true in Hh, Hw, Hr.
  split; [done..| | |].
  - apply List.Forall_forall. intros row Hrow.
    apply Hc in Hrow. by apply bool_decide_eq_true in Hrow.
  - intros r Hin. rewrite list_elem_of_In in Hin. apply Hrefs in Hin.
    by apply bool_decide_eq_true in Hin.
  - apply List.Forall_forall. intros a Ha.
    apply Hcoords in Ha. apply andb_true_iff in Ha as [H1 H2].
    by apply bool_decide_eq_true in H1, H2.
Qed.

Lemma set_cell_wf c v w w' :
  well_formed w → (∀ r, v = Some r → (r < length (heap w))%nat) →
  set_cell c v w = Ok (tt, w') → well_formed w' ∧ heap w' = heap w.
Proof.
  intros Hwf Hv (c' & ->)%set_cell_inv.
  split; [by apply well_formed_put_cell|done].
Qed.

(** ** Relations on the store

    Rules for showing that a computation respects a preorder on stores. *)

Section Respects.
Context (R : relation (list Alien.t)) `{!PreOrder R}.

Lemma respects_ret {A} (a : A) : respects R (ret a).
Proof. intros w a' w' [= <- <-]. reflexivity. Qed.

Lemma respects_bind {A B} (m : M A) (k : A → M B) :
  respects R m → (∀ a, respects R (k a)) → respects R (bind m k).
Proof.
  intros Hm Hk w b w' (a & w1 & H1 & H2)%bind_inv.
  trans (heap w1); [by eapply Hm | by eapply Hk].
Qed.

Lemma respects_lift {A} (r : result A) : respects R (lift r).
Proof. intros w a w'. unfold lift. destruct r; intros [= <- <-]. reflexivity. Qed.

Lemma respects_gets {A} (f : World → A) : respects R (gets f).
Proof. intros w a w' [= <- <-]. reflexivity. Qed.

Lemma respects_modify (f : World → World) :
  (∀ w, heap (f w) = heap w) → respects R (modify f).
Proof. intros Hf w a w' [= <- <-]. rewrite Hf. reflexivity. Qed.

Lemma respects_alien r : respects R (alien r).
Proof.
  intros w a w'. unfold alien. destruct (heap w !! r); intros [= <- <-].
  reflexivity.
Qed.

Lemma respects_randbelow n : respects R (randbelow n).
Proof. intros w a w' [= <- <-]. reflexivity. Qed.

Lemma respects_when c m : respects R m → respects R (when c m).
Proof. intros Hm. destruct c; [done | apply respects_ret]. Qed.

Lemma respects_for_each {A} (l : list A) body :
  (∀ a, respects R (body a)) → respects R (for_each l body).
Proof.
  intros Hbody. induction l as [|a l IH]; simpl.
  - apply respects_ret.
  - apply respects_bind; [apply Hbody | by intros _].
Qed.

Lemma respects_update r f :
  (∀ h a, h !! r = Some a → R h (<[r:=f a]> h)) → respects R (update r f).
Proof.
  intros Hf w a w'. unfold update.
  destruct (heap w !! r) eqn:E; intros [= <- <-]. by apply Hf.
Qed.

Lemma respects_alloc a :
  (∀ h, R h (h ++ [a])) → respects R (alloc a).
Proof. intros Ha w r w' [= <- <-]. apply Ha. Qed.
End Respects.

Ltac respects_step :=
  lazymatch goal with
  | |- respects _ (bind _ _) =>
      refine (respects_bind _ _ _ _ _); [|intros ?; cbv beta]
  | |- respects _ (ret _) => refine (respects_ret _ _)
  | |- respects _ (lift _) => refine (respects_lift _ _)
  | |- respects _ (gets _) => refine (respects_gets _ _)
  | |- respects _ (alien _) => refine (respects_alien _ _)
  | |- respects _ (randbelow _) => refine (respects_randbelow _ _)
  | |- respects _ (modify _) => refine (respects_modify _ _ _); done
  | |- respects _ (when _ _) => refine (respects_when _ _ _ _)
  | |- respects _ (for_each _ _) =>
      refine (respects_for_each _ _ _ _); intros ?; cbv beta
  | |- respects _ (if ?b then _ else _) => destruct b
  | |- respects _ (match ?x with _ => _ end) => destruct x
  | |- respects _ (let _ := _ in _) => cbv zeta
  end.

Create HintDb respects.
Ltac respects := repeat (first [respects_step | solve [eauto with respects]]).

#[local] Hint Extern 1 (PreOrder _) => apply _ : respects.

(** The operations that leave the store alone respect every preorder. *)
Section Readers.
Context (R : relation (list Alien.t)) `{!PreOrder R}.

Lemma respects_randint a b : respects R (randint a b).
Proof. unfold randint. respects. Qed.

Lemma respects_getAlien c : respects R (getAlien c).
Proof. unfold getAlien. respects. Qed.

Lemma respects_set_cell c v : respects R (set_cell c v).
Proof. unfold set_cell. respects. Qed.

Local Hint Resolve respects_randint respects_getAlien respects_set_cell
  : respects.

Lemma respects_addAlien r : respects R (addAlien r).
Proof. unfold addAlien. respects. Qed.

Lemma respects_clearCell c : respects R (clearCell c).
Proof. unfold clearCell. respects. Qed.

Lemma respects_isEmpty c : respects R (isEmpty c).
Proof. unfold isEmpty. respects. Qed.

Lemma respects_inRange c : respects R (inRange c).
Proof. unfold inRange. respects. Qed.

Local Hint Resolve respects_addAlien respects_clearCell respects_isEmpty
  respects_inRange : respects.

Lemma respects_all_cells cells p :
  (∀ c, respects R (p c)) → respects R (all_cells cells p).
Proof. intros Hp. induction cells; simpl; respects. Qed.

Lemma respects_isEmpty_board : respects R isEmpty_board.
Proof. unfold isEmpty_board. respects. apply respects_all_cells. eauto with respects. Qed.

Lemma respects_board_full : respects R board_full.
Proof. unfold board_full. apply respects_all_cells. intros c. respects. Qed.

Lemma respects_shuffle_from {A} i (l : list A) : respects R (shuffle_from i l).
Proof. revert l. induction i; intros l; simpl; respects. Qed.

Lemma respects_first_empty cells : respects R (first_empty cells).
Proof. induction cells; simpl; respects. Qed.

Lemma respects_collect_neighbors cells acc :
  respects R (collect_neighbors cells acc).
Proof. revert acc. induction cells; intros acc; simpl; respects. Qed.

Local Hint Resolve respects_shuffle_from respects_first_empty
  respects_collect_neighbors : respects.

Lemma respects_findEmptySpace r : respects R (findEmptySpace r).
Proof. unfold findEmptySpace, shuffle. respects. Qed.

Lemma respects_getNeighbor r : respects R (getNeighbor r).
Proof. unfold getNeighbor. respects. Qed.

Lemma respects_Player_doTimestep : respects R Player_doTimestep.
Proof. unfold Player_doTimestep. respects. Qed.

Lemma respects_set_consecutive_hits v : respects R (set_consecutive_hits v).
Proof. unfold set_consecutive_hits. respects. Qed.

Lemma respects_total_strength l : respects R (total_strength l).
Proof. induction l as [|[r|] l IH]; simpl; respects. Qed.

Lemma respects_total_alien_strength : respects R total_alien_strength.
Proof. unfold total_alien_strength. respects. apply respects_total_strength. Qed.

Lemma respects_kept_roots l : respects R (kept_roots l).
Proof. induction l; simpl; respects. Qed.
End Readers.

#[local] Hint Resolve respects_randint respects_getAlien respects_set_cell
  respects_addAlien respects_clearCell respects_isEmpty respects_inRange
  respects_isEmpty_board respects_board_full respects_shuffle_from
  respects_first_empty respects_collect_neighbors respects_findEmptySpace
  respects_getNeighbor respects_Player_doTimestep
  respects_set_consecutive_hits respects_total_strength
  respects_total_alien_strength respects_kept_roots : respects.

Lemma respects_bind_with (R : relation (list Alien.t)) `{!PreOrder R}
    {A B} (P : A → Prop) (m : M A) (k : A → M B) :
  (∀ w a w', m w = Ok (a, w') → P a) →
  respects R m → (∀ a, P a → respects R (k a)) → respects R (bind m k).
Proof.
  intros HP Hm Hk w b w' (a & w1 & H1 & H2)%bind_inv.
  trans (heap w1); [by eapply Hm | eapply Hk; [by eapply HP | done]].
Qed.

Lemma randint_range a b w v w' :
  a ≤ b → randint a b w = Ok (v, w') → a ≤ v ≤ b.
Proof.
  intros Hab [= <- _]. pose proof (Z.mod_pos_bound (rng w (rpos w)) (b - a + 1)).
  lia.
Qed.

(** ** Invariants of the state

    Rules for showing that a computation keeps an invariant. *)

Section Invariant.
Context (I : World → Prop).

Lemma invariant_ret {A} (a : A) : invariant I (ret a).
Proof. by intros w a' w' Hw [= <- <-]. Qed.

Lemma invariant_bind {A B} (m : M A) (k : A → M B) :
  invariant I m → (∀ a, invariant I (k a)) → invariant I (bind m k).
Proof.
  intros Hm Hk w b w' Hw (a & w1 & H1 & H2)%bind_inv.
  eapply Hk; [|done]. by eapply Hm.
Qed.

Lemma invariant_bind_with {A B} (P : A → Prop) (m : M A) (k : A → M B) :
  yields I m P → invariant I m → (∀ a, P a → invariant I (k a)) →
  invariant I (bind m k).
Proof.
  intros HP Hm Hk w b w' Hw (a & w1 & H1 & H2)%bind_inv.
  eapply Hk; [by eapply HP| |done]. by eapply Hm.
Qed.

Lemma yields_bind {A B} (P : B → Prop) (m : M A) (k : A → M B) :
  invariant I m → (∀ a, yields I (k a) P) → yields I (bind m k) P.
Proof.
  intros Hm Hk w b w' Hw (a & w1 & H1 & H2)%bind_inv.
  eapply Hk; [|done]. by eapply Hm.
Qed.

Lemma yields_ret {A} (P : A → Prop) (a : A) : P a → yields I (ret a) P.
Proof. by intros Ha w a' w' Hw [= <- <-]. Qed.

Lemma invariant_lift {A} (r : result A) : invariant I (lift r).
Proof. intros w a w' Hw. unfold lift. by destruct r; intros [= <- <-]. Qed.

Lemma invariant_gets {A} (f : World → A) : invariant I (gets f).
Proof. by intros w a w' Hw [= <- <-]. Qed.

Lemma invariant_modify (f : World → World) :
  (∀ w, I w → I (f w)) → invariant I (modify f).
Proof. intros Hf w a w' Hw [= <- <-]. by apply Hf. Qed.

Lemma invariant_alien r : invariant I (alien r).
Proof. by intros w a w' Hw [_ ->]%alien_inv. Qed.

Lemma invariant_when c m : invariant I m → invariant I (when c m).
Proof. intros Hm. destruct c; [done | apply invariant_ret]. Qed.

Lemma invariant_for_each {A} (l : list A) body :
  (∀ a, invariant I (body a)) → invariant I (for_each l body).
Proof.
  intros Hbody. induction l as [|a l IH]; simpl.
  - apply invariant_ret.
  - apply invariant_bind; [apply Hbody | by intros _].
Qed.

Lemma invariant_update r f :
  (∀ w a, I w → heap w !! r = Some a →
          I (set_heap (<[r:=f a]> (heap w)) w)) →
  invariant I (update r f).
Proof.
  intros Hf w a w' Hw. unfold update.
  destruct (heap w !! r) eqn:E; intros [= <- <-]. by apply Hf.
Qed.

Lemma invariant_randbelow n :
  (∀ w k, I w → I (set_rpos k w)) → invariant I (randbelow n).
Proof. intros Hr w a w' Hw [= <- <-]. by apply Hr. Qed.
End Invariant.

Ltac invariant_step :=
  lazymatch goal with
  | |- invariant _ (bind _ _) =>
      refine (invariant_bind _ _ _ _ _); [|intros ?; cbv beta]
  | |- invariant _ (ret _) => refine (invariant_ret _ _)
  | |- invariant _ (lift _) => refine (invariant_lift _ _)
  | |- invariant _ (gets _) => refine (invariant_gets _ _)
  | |- invariant _ (alien _) => refine (invariant_alien _ _)
  | |- invariant _ (when _ _) => refine (invariant_when _ _ _ _)
  | |- invariant _ (for_each _ _) =>
      refine (invariant_for_each _ _ _ _); intros ?; cbv beta
  | |- invariant _ (if ?b then _ else _) => destruct b
  | |- invariant _ (match ?x with _ => _ end) => destruct x
  | |- invariant _ (let _ := _ in _) => cbv zeta
  end.

Create HintDb invariant.
Ltac invariant :=
  repeat (first [invariant_step | solve [eauto with invariant]]).

(** ** Well-formedness is an invariant of the game *)

Lemma wf_randbelow n : invariant well_formed (randbelow n).
Proof. apply invariant_randbelow. intros w k Hwf. split; apply Hwf. Qed.

Lemma wf_randint a b : invariant well_formed (randint a b).
Proof. unfold randint. invariant. apply wf_randbelow. Qed.

Lemma yields_randint a b :
  a ≤ b → yields well_formed (randint a b) (λ v, a ≤ v ≤ b).
Proof. intros Hab w v w' _ H. by apply (randint_range a b w v w'). Qed.

Lemma wf_getAlien c : invariant well_formed (getAlien c).
Proof. unfold getAlien. invariant. Qed.

#[local] Hint Resolve wf_randbelow wf_randint wf_getAlien : invariant.

Lemma wf_isEmpty c : invariant well_formed (isEmpty c).
Proof. unfold isEmpty. invariant. Qed.

Lemma wf_inRange c : invariant well_formed (inRange c).
Proof. unfold inRange. invariant. Qed.

Lemma yields_inRange c :
  yields well_formed (inRange c) (λ b, b = true → on_board c).
Proof.
  intros w b w' Hwf H Hb. unfold inRange in H.
  apply bind_inv in H as (bd & ? & [= <- <-] & [= <- <-]).
  apply andb_true_iff in Hb as [H1 H2].
  apply bool_decide_eq_true in H1, H2.
  rewrite (wf_width _ Hwf) in H1. rewrite (wf_height _ Hwf) in H2. done.
Qed.

#[local] Hint Resolve wf_isEmpty wf_inRange : invariant.

Lemma wf_clearCell c : invariant well_formed (clearCell c).
Proof.
  intros w [] w' Hwf H. by apply set_cell_wf in H as [? _].
Qed.

Lemma wf_addAlien r : invariant well_formed (addAlien r).
Proof.
  intros w [] w' Hwf H. unfold addAlien in H.
  apply bind_inv in H as (a & ? & [Ha ->]%alien_inv & H).
  apply set_cell_wf in H as [? _]; [done..|].
  intros ? [= <-]. by apply lookup_lt_Some in Ha.
Qed.

Lemma wf_update r f :
  (∀ a, on_board (Alien.coords a) → on_board (Alien.coords (f a))) →
  invariant well_formed (update r f).
Proof.
  intros Hf. apply invariant_update. intros w a Hwf Ha.
  split; simpl; try apply Hwf.
  - intros r' Hr'. rewrite length_insert. by apply (wf_refs _ Hwf).
  - apply Forall_insert; [apply Hwf|]. apply Hf.
    apply (Forall_lookup_1 _ _ _ _ (wf_coords _ Hwf) Ha).
Qed.

Lemma wf_moveAlien old new : invariant well_formed (moveAlien old new).
Proof.
  intros w [] w' Hwf H. unfold moveAlien in H.
  apply bind_inv in H as (e_old & w1 & H1 & H).
  apply wf_isEmpty in H1 as Hwf1; [|done].
  destruct e_old; [by injection H as <-|].
  apply bind_inv in H as (e_new & w2 & H2 & H).
  apply wf_isEmpty in H2 as Hwf2; [|done].
  destruct e_new; simpl in H; [|by injection H as <-].
  apply bind_inv in H as (o & ? & [-> Ho]%getAlien_inv & H).
  apply cell_at_elem in Ho.
  apply bind_inv in H as ([] & w3 & H3 & H).
  apply set_cell_wf in H3 as [Hwf3 Hheap3]; [|done..].
  apply bind_inv in H as ([] & w4 & H4 & H).
  apply set_cell_wf in H4 as [Hwf4 Hheap4]; [|done|].
  2:{ intros r ->. rewrite Hheap3. by apply (wf_refs _ Hwf2). }
  destruct o as [r|]; [|done].
  by apply (wf_update r (Alien.set_xy new)) in H.
Qed.

Lemma wf_Alien_init c s :
  on_board c → invariant well_formed (Alien_init c s).
Proof.
  intros Hc w r w' Hwf H. unfold Alien_init in H.
  apply bind_inv in H as (r' & w1 & [= <- <-] & H).
  apply bind_inv in H as ([] & w2 & H2 & [= <- <-]).
  apply wf_addAlien in H2; [done|].
  split; simpl; try apply Hwf.
  - intros r' Hr'. rewrite length_app. simpl.
    pose proof (wf_refs _ Hwf r' Hr'). lia.
  - apply Forall_app. split; [apply Hwf|]. by apply Forall_singleton.
Qed.

#[local] Hint Resolve wf_clearCell wf_addAlien wf_moveAlien : invariant.

Lemma wf_doDeath r : invariant well_formed (doDeath r).
Proof. unfold doDeath. invariant. by apply wf_update. Qed.

#[local] Hint Resolve wf_doDeath : invariant.

Lemma wf_doPop r s : invariant well_formed (doPop r s).
Proof. unfold doPop. invariant. by apply wf_update. Qed.

Lemma wf_doGrow r : invariant well_formed (doGrow r).
Proof. unfold doGrow. invariant. by apply wf_update. Qed.

Lemma wf_doTravel r : invariant well_formed (doTravel r).
Proof.
  unfold doTravel, doTravel_by. do 2 (invariant_step; [eauto with invariant|]).
  invariant_step; [apply invariant_alien|]. cbv zeta.
  match goal with
  | |- invariant _ (bind (inRange ?c) _) =>
      apply (invariant_bind_with _ (λ b, b = true → on_board c));
        [apply yields_inRange|eauto with invariant|]
  end.
  intros ok Hok. destruct ok; simpl; [|apply invariant_ret].
  invariant. apply wf_update. intros ? _. by apply Hok.
Qed.

Lemma wf_modify f :
  (∀ w, heap (f w) = heap w ∧ board (f w) = board w) →
  invariant well_formed (modify f).
Proof.
  intros Hf. apply invariant_modify. intros w Hwf.
  destruct (Hf w) as [Hh Hb].
  split; unfold grid; rewrite ?Hh, ?Hb; apply Hwf.
Qed.

Ltac wf_modify := apply wf_modify; by intros ?.

Lemma wf_shuffle_from {A} i (l : list A) :
  invariant well_formed (shuffle_from i l).
Proof. revert l. induction i; intros l; simpl; invariant. Qed.

Lemma wf_first_empty cells : invariant well_formed (first_empty cells).
Proof. induction cells; simpl; invariant. Qed.

Lemma yields_first_empty cells :
  yields well_formed (first_empty cells) (λ o, ∀ c, o = Some c → on_board c).
Proof.
  induction cells as [|c cells IH]; simpl.
  - by apply yields_ret.
  - intros w o w' Hwf H.
    apply bind_inv in H as (ok & w1 & H1 & H).
    pose proof (yields_inRange c w ok w1 Hwf H1) as Hc.
    apply wf_inRange in H1; [|done].
    destruct ok; [|by apply (IH w1 o w')].
    apply bind_inv in H as (e & w2 & H2 & H).
    apply wf_isEmpty in H2; [|done].
    destruct e; [|by apply (IH w2 o w')].
    injection H as <- <-. intros ? [= <-]. by apply Hc.
Qed.

Lemma wf_collect_neighbors cells acc :
  invariant well_formed (collect_neighbors cells acc).
Proof. revert acc. induction cells; intros acc; simpl; invariant. Qed.

#[local] Hint Resolve wf_shuffle_from wf_first_empty wf_collect_neighbors
  : invariant.

Lemma wf_findEmptySpace r : invariant well_formed (findEmptySpace r).
Proof. unfold findEmptySpace, shuffle. invariant. Qed.

Lemma yields_findEmptySpace r :
  yields well_formed (findEmptySpace r) (λ o, ∀ c, o = Some c → on_board c).
Proof.
  unfold findEmptySpace, shuffle.
  apply yields_bind; [apply invariant_alien|]. intros a.
  apply yields_bind; [apply wf_shuffle_from|]. intros adj.
  apply yields_first_empty.
Qed.

Lemma wf_getNeighbor r : invariant well_formed (getNeighbor r).
Proof. unfold getNeighbor. invariant. Qed.

#[local] Hint Resolve wf_findEmptySpace wf_getNeighbor wf_doPop wf_doGrow
  wf_doTravel : invariant.

Lemma wf_doSpawn r : invariant well_formed (doSpawn r).
Proof.
  unfold doSpawn.
  apply (invariant_bind_with _ (λ o, ∀ c, o = Some c → on_board c));
    [apply yields_findEmptySpace|eauto with invariant|].
  intros emptySpace Hempty. invariant.
  - apply wf_Alien_init. by apply Hempty.
  - by apply wf_update.
Qed.

#[local] Hint Resolve wf_doSpawn : invariant.

Lemma wf_Alien_doTimestep r : invariant well_formed (Alien_doTimestep r).
Proof. unfold Alien_doTimestep. invariant. Qed.

#[local] Hint Resolve wf_Alien_doTimestep : invariant.

Lemma wf_Board_doTimestep : invariant well_formed Board_doTimestep.
Proof. unfold Board_doTimestep. invariant. Qed.

Lemma wf_Player_doTimestep : invariant well_formed Player_doTimestep.
Proof. unfold Player_doTimestep. wf_modify. Qed.

Lemma wf_set_consecutive_hits v :
  invariant well_formed (set_consecutive_hits v).
Proof. unfold set_consecutive_hits. wf_modify. Qed.

Lemma wf_kill_at c : invariant well_formed (kill_at c).
Proof. unfold kill_at. invariant. Qed.

#[local] Hint Resolve wf_Board_doTimestep wf_Player_doTimestep
  wf_set_consecutive_hits wf_kill_at : invariant.

Lemma wf_trigger_bomb c : invariant well_formed (trigger_bomb c).
Proof. unfold trigger_bomb. invariant. Qed.

Lemma wf_nuke_board : invariant well_formed nuke_board.
Proof. unfold nuke_board. invariant. Qed.

#[local] Hint Resolve wf_trigger_bomb wf_nuke_board : invariant.

Lemma wf_squish c s : invariant well_formed (squish c s).
Proof. unfold squish. invariant. Qed.

Lemma wf_total_strength l : invariant well_formed (total_strength l).
Proof. induction l as [|[r|] l IH]; simpl; invariant. Qed.

#[local] Hint Resolve wf_squish wf_total_strength : invariant.

Lemma wf_win_by_nuke : invariant well_formed win_by_nuke.
Proof. unfold win_by_nuke, total_alien_strength. invariant. Qed.

Lemma wf_all_cells cells p :
  (∀ c, invariant well_formed (p c)) →
  invariant well_formed (all_cells cells p).
Proof. intros Hp. induction cells; simpl; invariant. Qed.

Lemma wf_board_full : invariant well_formed board_full.
Proof. unfold board_full. apply wf_all_cells. intros c. invariant. Qed.

Lemma wf_isEmpty_board : invariant well_formed isEmpty_board.
Proof.
  unfold isEmpty_board. invariant. apply wf_all_cells. eauto with invariant.
Qed.

Lemma wf_place_alien : invariant well_formed place_alien.
Proof.
  unfold place_alien.
  apply (invariant_bind_with _ (λ x, 0 ≤ x ≤ WIDTH - 1));
    [by apply yields_randint|eauto with invariant|]. intros x Hx.
  apply (invariant_bind_with _ (λ y, 0 ≤ y ≤ HEIGHT - 1));
    [by apply yields_randint|eauto with invariant|]. intros y Hy.
  invariant; [|wf_modify].
  apply wf_Alien_init. split; simpl; lia.
Qed.

Lemma wf_attack x y : invariant well_formed (attack x y).
Proof. unfold attack. invariant. wf_modify. Qed.

Lemma wf_clear_slot p idx : invariant well_formed (clear_slot p idx).
Proof. unfold clear_slot. invariant. by apply wf_update. Qed.

#[local] Hint Resolve wf_win_by_nuke wf_board_full wf_isEmpty_board
  wf_place_alien wf_attack wf_clear_slot : invariant.

Lemma wf_gc_loop fuel stack : invariant well_formed (gc_loop fuel stack).
Proof.
  revert stack. induction fuel as [|fuel IH]; intros stack; simpl; [done|].
  invariant.
Qed.

#[local] Hint Resolve wf_gc_loop : invariant.

Lemma wf_gc_root fuel r : invariant well_formed (gc_root fuel r).
Proof. unfold gc_root. invariant. by apply wf_update. Qed.

Lemma wf_kept_roots l : invariant well_formed (kept_roots l).
Proof. induction l; simpl; invariant. Qed.

#[local] Hint Resolve wf_gc_root wf_kept_roots : invariant.

Lemma wf_collect fuel : invariant well_formed (collect fuel).
Proof. unfold collect, garbage_collect. invariant. wf_modify. Qed.

#[local] Hint Resolve wf_collect : invariant.

Lemma wf_main_turn fuel c : invariant well_formed (main_turn fuel c).
Proof. unfold main_turn. invariant. Qed.

Lemma wf_apply_op o : invariant well_formed (apply_op o).
Proof. destruct o; simpl; eauto with invariant. Qed.

Lemma wf_initial rng : well_formed (initial rng).
Proof. apply well_formed_check_sound. reflexivity. Qed.

(** Every state of the game is well formed: the hypothesis of the theorems
    about [squish] holds wherever the program can call it. *)
Lemma well_formed_run_ops rng ops w :
  run_ops ops (initial rng) = Ok (tt, w) → well_formed w.
Proof.
  intros H. unfold run_ops in H.
  eapply (invariant_for_each well_formed ops apply_op wf_apply_op);
    [apply (wf_initial rng)|done].
Qed.

Lemma well_formed_play rng fuel cmds v w :
  play fuel cmds (initial rng) = Ok (v, w) → well_formed w.
Proof.
  assert (invariant well_formed (play fuel cmds)) as Hplay.
  { induction cmds as [|c cmds IH]; simpl; invariant.
    apply wf_main_turn. }
  intros H. by apply (Hplay _ _ _ (wf_initial rng)) in H.
Qed.

(** ** C1: a blocked move *)

(** What [doTravel] does when the board refuses the move (the alien's own
    cell is not occupied, or the destination is): the grid, [x] and [y] stay
    as they are and [coords] is overwritten with the destination. *)
Lemma doTravel_by_blocked w r a distx disty :
  heap w !! r = Some a →
  in_bounds w (Alien.x a + distx, Alien.y a + disty) →
  isEmpty (Alien.coords a) w = Ok (true, w)
  ∨ (isEmpty (Alien.coords a) w = Ok (false, w)
     ∧ isEmpty (Alien.x a + distx, Alien.y a + disty) w = Ok (false, w)) →
  doTravel_by r distx disty w =
    Ok (tt, set_heap
              (<[r:=Alien.set_coords (Alien.x a + distx, Alien.y a + disty) a]>
                 (heap w)) w).
Proof.
  intros Hr [Hx Hy] Hblocked. unfold doTravel_by.
  rewrite (bind_ok _ _ w a w) by (unfold alien; by rewrite Hr).
  rewrite (bind_ok _ _ w true w).
  2:{ unfold inRange. rewrite (bind_ok _ _ w (board w) w) by done.
      unfold ret. simpl in *. by rewrite !bool_decide_eq_true_2. }
  unfold when.
  assert (moveAlien (Alien.coords a)
            (Alien.x a + distx, Alien.y a + disty) w = Ok (tt, w)) as Hmove.
  { unfold moveAlien. destruct Hblocked as [He|[He Hd]].
    - by rewrite (bind_ok _ _ _ _ _ He).
    - rewrite (bind_ok _ _ _ _ _ He). by rewrite (bind_ok _ _ _ _ _ Hd). }
  rewrite (bind_ok _ _ _ _ _ Hmove).
  unfold update. by rewrite Hr.
Qed.

(** C1 (the code departs from it).  Aliens [0] at (3,4) and [1] at (3,3);
    alien [1] draws the offsets (0,+1).  The destination (3,4) is in bounds
    and occupied, the grid and [(x, y)] are unchanged, but the stored
    [coords] of alien [1] is now (3,4), the cell of alien [0]. *)
Theorem doTravel_blocked_overwrites_coords :
  ∃ w w' a a',
    side_by_side 1 (initial (stream [1; 2])) = Ok (tt, w)
    ∧ heap w !! 1%nat = Some a
    ∧ Alien.coords a = (3, 3) ∧ (Alien.x a, Alien.y a) = (3, 3)
    ∧ inRange (3, 4) w = Ok (true, w)
    ∧ getAlien (3, 4) w = Ok (Some 0%nat, w)
    ∧ doTravel 1%nat w = Ok (tt, w')
    ∧ heap w' !! 1%nat = Some a'
    ∧ board w' = board w
    ∧ (Alien.x a', Alien.y a') = (3, 3)
    ∧ Alien.coords a' = (3, 4).
Proof.
  do 4 eexists. eval_conj.
Qed.

(** ** C2: the board invariant *)

(** C2 (the code departs from it).  Three turns of the game: after the
    blocked move of alien [1] towards alien [0], the attack that kills alien
    [1] clears the cell named by its [coords], which is the cell of alien
    [0].  Alien [0] is then live and held by no cell, and the dead alien [1]
    still sits in the grid. *)
Theorem board_invariant_broken :
  ∃ w, blocked_then_hit (initial (stream blocked_then_hit_draws))
       = Ok (Running, w)
       ∧ live w 0%nat ∧ cells_held w 0%nat = []
       ∧ dead w 1%nat ∧ cells_held w 1%nat = [(3%nat, 3%nat)]
       ∧ ¬ board_invariant w.
Proof.
  eexists. split; [vm_compute; reflexivity|].
  split; [eexists; split; vm_compute; reflexivity|].
  split; [vm_compute; reflexivity|].
  split; [eexists; split; vm_compute; reflexivity|].
  split; [vm_compute; reflexivity|].
  intros H.
  specialize (H 0%nat (Alien.mk (3, 4) 5 3 4 false []) eq_refl eq_refl).
  vm_compute in H. discriminate.
Qed.

(** ** C3: strength and the squished flag *)

#[local] Instance evolves_preorder : PreOrder evolves.
Proof.
  split.
  - intros h. split; [|congruence]. intros r a Hr. by exists a.
  - intros h1 h2 h3 H12 H23. split.
    + intros r a Hr.
      destruct (ev_old _ _ H12 r a Hr) as (a2 & Hr2 & Hq2 & Hh2).
      destruct (ev_old _ _ H23 r a2 Hr2) as (a3 & Hr3 & Hq3 & Hh3).
      exists a3. auto.
    + intros r a3 Hr3 Hr1. destruct (h2 !! r) as [a2|] eqn:Hr2.
      * destruct (ev_old _ _ H23 r a2 Hr2) as (a3' & Hr3' & _ & Hh3).
        assert (a3' = a3) as -> by congruence.
        apply Hh3. by apply (ev_new _ _ H12 r).
      * by apply (ev_new _ _ H23 r).
Qed.

Lemma evolves_update h r a a' :
  h !! r = Some a →
  (Alien.squished a = true → Alien.squished a' = true) →
  (healthy a → healthy a') →
  evolves h (<[r:=a']> h).
Proof.
  intros Hr Hq Hh. apply lookup_lt_Some in Hr as Hlt. split.
  - intros r' b Hr'. destruct (decide (r' = r)) as [->|Hne].
    + rewrite list_lookup_insert_eq by done.
      assert (b = a) as -> by congruence. by exists a'.
    + rewrite list_lookup_insert_ne by done. by exists b.
  - intros r' b Hr' Hnone. apply lookup_ge_None in Hnone.
    apply lookup_lt_Some in Hr'. rewrite length_insert in Hr'. lia.
Qed.

Lemma evolves_alloc h a : healthy a → evolves h (h ++ [a]).
Proof.
  intros Ha. split.
  - intros r b Hr. exists b. split; [by apply lookup_app_l_Some|done].
  - intros r b Hr Hnone. apply lookup_ge_None in Hnone.
    rewrite lookup_app_r in Hr by done.
    rewrite list_lookup_singleton_Some in Hr. by destruct Hr as [_ <-].
Qed.

Lemma steady_update r f :
  (∀ a, (Alien.squished a = true → Alien.squished (f a) = true)
        ∧ (healthy a → healthy (f a))) →
  respects evolves (update r f).
Proof.
  intros Hf. refine (respects_update _ _ _ _). intros h a Hr.
  destruct (Hf a). by apply evolves_update with a.
Qed.

Ltac field_update :=
  apply steady_update; intros ?; split; unfold healthy; simpl;
  [ auto
  | intros ? ?;
    first [ by auto
          | match goal with
            | H : _ → _ |- _ => specialize (H ltac:(assumption)); lia
            end ] ].

Lemma steady_moveAlien old new : respects evolves (moveAlien old new).
Proof. unfold moveAlien. respects. field_update. Qed.

Lemma steady_Alien_init c s : 1 ≤ s → respects evolves (Alien_init c s).
Proof.
  intros Hs. unfold Alien_init. respects.
  refine (respects_alloc _ _ _). intros h. apply evolves_alloc.
  by intros _.
Qed.

Lemma steady_doDeath r : respects evolves (doDeath r).
Proof. unfold doDeath. respects. field_update. Qed.

Lemma steady_doPop r s : respects evolves (doPop r s).
Proof.
  intros w v w' H. unfold doPop in H.
  apply bind_inv in H as (? & w1 & (a & Hr & Hw1)%heap_update & H).
  apply lookup_lt_Some in Hr as Hlt.
  apply bind_inv in H as (a1 & ? & [Ha1 ->]%alien_inv & H).
  rewrite Hw1, list_lookup_insert_eq in Ha1 by done.
  injection Ha1 as <-. unfold when in H. simpl in H.
  case_bool_decide as Hlow.
  - unfold doDeath in H.
    apply bind_inv in H as (? & w2 & (a1 & Hr1 & Hw2)%heap_update & H).
    apply bind_inv in H as (a2 & ? & [_ ->]%alien_inv & H).
    apply (respects_clearCell eq) in H.
    rewrite Hw1, list_lookup_insert_eq in Hr1 by done. injection Hr1 as <-.
    rewrite <- H, Hw2, Hw1, list_insert_insert_eq.
    apply evolves_update with a; [done..|]. by intros _ [=].
  - assert (w' = w1) as -> by (by injection H).
    rewrite Hw1. apply evolves_update with a; [done..|].
    intros _ _. simpl. lia.
Qed.

Lemma steady_doGrow r : respects evolves (doGrow r).
Proof. unfold doGrow. respects. field_update. Qed.

Lemma steady_doTravel r : respects evolves (doTravel r).
Proof.
  unfold doTravel, doTravel_by. respects; [apply steady_moveAlien|].
  field_update.
Qed.

Lemma steady_doSpawn r : respects evolves (doSpawn r).
Proof.
  unfold doSpawn. respects; [apply steady_Alien_init; lia|]. field_update.
Qed.

#[local] Hint Resolve steady_moveAlien steady_doDeath steady_doPop
  steady_doGrow steady_doTravel steady_doSpawn : respects.

Lemma steady_Alien_doTimestep r : respects evolves (Alien_doTimestep r).
Proof. unfold Alien_doTimestep. respects. Qed.

#[local] Hint Resolve steady_Alien_doTimestep : respects.

Lemma steady_Board_doTimestep : respects evolves Board_doTimestep.
Proof. unfold Board_doTimestep. respects. Qed.

Lemma steady_kill_at c : respects evolves (kill_at c).
Proof. unfold kill_at. respects. Qed.

#[local] Hint Resolve steady_kill_at : respects.

Lemma steady_trigger_bomb c : respects evolves (trigger_bomb c).
Proof. unfold trigger_bomb. respects. Qed.

Lemma steady_nuke_board : respects evolves nuke_board.
Proof. unfold nuke_board. respects. Qed.

#[local] Hint Resolve steady_Board_doTimestep steady_trigger_bomb
  steady_nuke_board : respects.

Lemma steady_squish c s : respects evolves (squish c s).
Proof. unfold squish. respects. Qed.

Lemma steady_win_by_nuke : respects evolves win_by_nuke.
Proof. unfold win_by_nuke. respects. Qed.

#[local] Hint Resolve steady_squish steady_win_by_nuke : respects.

Lemma steady_place_alien : respects evolves place_alien.
Proof.
  unfold place_alien. do 2 (respects_step; [eauto with respects|]).
  apply (respects_bind_with _ (λ s, 1 ≤ s ≤ STRENGTH));
    [intros w s w'; by apply randint_range | eauto with respects |].
  intros s Hs. respects. apply steady_Alien_init. case_bool_decide; lia.
Qed.

Lemma steady_attack x y : respects evolves (attack x y).
Proof. unfold attack. respects. Qed.

Lemma steady_clear_slot p idx : respects evolves (clear_slot p idx).
Proof. unfold clear_slot. respects. field_update. Qed.

#[local] Hint Resolve steady_place_alien steady_attack steady_clear_slot
  : respects.

Lemma steady_gc_loop fuel stack : respects evolves (gc_loop fuel stack).
Proof.
  revert stack. induction fuel as [|fuel IH]; intros stack; simpl; [done|].
  respects.
Qed.

#[local] Hint Resolve steady_gc_loop : respects.

Lemma steady_gc_root fuel r : respects evolves (gc_root fuel r).
Proof. unfold gc_root. respects. field_update. Qed.

#[local] Hint Resolve steady_gc_root : respects.

Lemma steady_garbage_collect fuel l : respects evolves (garbage_collect fuel l).
Proof. unfold garbage_collect. respects. Qed.

#[local] Hint Resolve steady_garbage_collect : respects.

Lemma steady_collect fuel : respects evolves (collect fuel).
Proof. unfold collect. respects. Qed.

#[local] Hint Resolve steady_collect : respects.

Lemma steady_main_turn fuel c : respects evolves (main_turn fuel c).
Proof. unfold main_turn. respects. Qed.

Lemma steady_play fuel cmds : respects evolves (play fuel cmds).
Proof.
  induction cmds as [|c cmds IH]; simpl; respects. apply steady_main_turn.
Qed.

Lemma steady_apply_op o : respects evolves (apply_op o).
Proof. destruct o; simpl; eauto with respects. Qed.

Lemma steady_run_ops ops : respects evolves (run_ops ops).
Proof. unfold run_ops. respects. apply steady_apply_op. Qed.

(** C3, as stated, fails: a strength can be observed negative.  The alien
    placed on the first turn (strength 5) is attacked three times, with the
    player's strength going 1, 2, 3; the last attack leaves it with strength
    -1. *)
Lemma strength_observed_negative :
  ∃ w a,
    run_ops [OpPlace; OpAttack 3 3; OpAttack 3 3; OpAttack 3 3]
      (initial (stream [3; 3; 0])) = Ok (tt, w)
    ∧ heap w !! 0%nat = Some a
    ∧ Alien.strength a < 0.
Proof. do 2 eexists. eval_conj. Qed.

(** C3, as the code has it.  In every state reached from the initial state
    by a sequence of operations, an alien whose strength is below 1 is
    squished (so a live alien has a strength of at least 1, while the
    strength of a squished one may be negative); and a squished alien stays
    squished under every further sequence of operations. *)
Theorem strength_below_one_is_dead rng ops w :
  run_ops ops (initial rng) = Ok (tt, w) →
  (∀ r a, heap w !! r = Some a → Alien.strength a < 1 →
          Alien.squished a = true)
  ∧ (∀ ops' w' r, run_ops ops' w = Ok (tt, w') → dead w r → dead w' r).
Proof.
  intros Hrun. split.
  - intros r a Hr Hlow. apply steady_run_ops in Hrun.
    pose proof (ev_new _ _ Hrun r a Hr eq_refl) as Hh.
    destruct (Alien.squished a) eqn:Hq; [done|]. specialize (Hh Hq). lia.
  - intros ops' w' r Hrun' (a & Hr & Hq). apply steady_run_ops in Hrun'.
    destruct (ev_old _ _ Hrun' r a Hr) as (a' & Hr' & Hq' & _).
    exists a'. auto.
Qed.

Lemma strength_below_one_is_dead_witness :
  ∃ w, run_ops [OpPlace; OpAttack 3 3; OpAttack 3 3; OpAttack 3 3]
         (initial (stream [3; 3; 0])) = Ok (tt, w)
       ∧ (∀ r a, heap w !! r = Some a → Alien.strength a < 1 →
                 Alien.squished a = true)
       ∧ (∀ ops' w' r, run_ops ops' w = Ok (tt, w') → dead w r → dead w' r).
Proof.
  eexists. split; [vm_compute; reflexivity|].
  apply (strength_below_one_is_dead (stream [3; 3; 0])
           [OpPlace; OpAttack 3 3; OpAttack 3 3; OpAttack 3 3]).
  vm_compute. reflexivity.
Defined.

(** ** C4: the consecutive-hit counter *)

(** C4 (the code departs from it).  From a counter of 0, five attacks of
    strength 1 on the strength-9 alien at (0,0) each score 1; the fifth
    one sets off the bomb, which kills that alien (its strength is still 4),
    and resets the counter.  The sixth attack, on the alien at (5,5), scores
    1 as well, sets off nothing and leaves the counter at 1. *)
Theorem bomb_on_fifth_hit_not_sixth :
  ∃ w0 w5 w6 a0 a1,
    two_targets (initial (stream [])) = Ok (tt, w0)
    ∧ Player.consecutive_hits (player w0) = 0
    ∧ squish_all (replicate 5 (0, 0)) 1 w0 = Ok ([1; 1; 1; 1; 1], w5)
    ∧ heap w5 !! 0%nat = Some a0
    ∧ Alien.squished a0 = true ∧ Alien.strength a0 = 4
    ∧ Player.consecutive_hits (player w5) = 0
    ∧ squish (5, 5) 1 w5 = Ok (1, w6)
    ∧ heap w6 !! 1%nat = Some a1
    ∧ Alien.squished a1 = false
    ∧ Player.consecutive_hits (player w6) = 1.
Proof.
  do 5 eexists. eval_conj.
Qed.

(** The score computed by [squish]. *)
Lemma score_min strength s :
  (if bool_decide (s > strength) then strength else s) = Z.min strength s.
Proof. case_bool_decide; lia. Qed.

(** What the death of an alien, and so the area effect, leaves alone. *)
Lemma set_cell_player c v w w' :
  set_cell c v w = Ok (tt, w') → player w' = player w.
Proof.
  unfold set_cell. intros H.
  apply bind_inv in H as (g & ? & [= <- <-] & H).
  apply bind_inv in H as (row & w1 & H1 & H).
  apply bind_inv in H as (row' & w2 & H2 & H).
  apply bind_inv in H as (g' & w3 & H3 & H).
  unfold lift in *.
  destruct (getitem _ _); [|done..]. injection H1 as <- <-.
  destruct (setitem _ _ _); [|done..]. injection H2 as <- <-.
  destruct (setitem _ _ _); [|done..]. injection H3 as <- <-.
  by injection H as <-.
Qed.

Lemma update_player r f w w' :
  update r f w = Ok (tt, w') → player w' = player w.
Proof.
  unfold update. destruct (heap w !! r); [|done]. by intros [= <-].
Qed.

Lemma doDeath_player r w w' :
  doDeath r w = Ok (tt, w') → player w' = player w.
Proof.
  unfold doDeath. intros H.
  apply bind_inv in H as ([] & w1 & H1%update_player & H).
  apply bind_inv in H as (a & ? & [_ ->]%alien_inv & H).
  apply set_cell_player in H. congruence.
Qed.

Lemma doPop_player r s w w' :
  doPop r s w = Ok (tt, w') → player w' = player w.
Proof.
  unfold doPop. intros H.
  apply bind_inv in H as ([] & w1 & H1%update_player & H).
  apply bind_inv in H as (a & ? & [_ ->]%alien_inv & H).
  unfold when in H. case_bool_decide.
  - apply doDeath_player in H. congruence.
  - injection H as <-. done.
Qed.

Lemma trigger_bomb_player c w w' :
  trigger_bomb c w = Ok (tt, w') → player w' = player w.
Proof.
  unfold trigger_bomb. generalize (affected_cells c). intros cells.
  revert w. induction cells as [|c' cells IH]; intros w H; simpl in H.
  - by injection H as <-.
  - apply bind_inv in H as ([] & w1 & H1 & H). apply IH in H.
    rewrite H. clear H. unfold kill_at in H1.
    apply bind_inv in H1 as (o & ? & [-> _]%getAlien_inv & H1).
    destruct o as [r|]; [by apply doDeath_player in H1|].
    by injection H1 as <-.
Qed.

(** The consecutive-hit counter after an attack on an occupied cell: a
    positive score adds one, and the count that reaches 5 sets off the bomb
    and is reset in the same call; a score of zero or less resets it. *)
Lemma squish_counter w coords strength r a score w' :
  in_bounds w coords →
  getAlien coords w = Ok (Some r, w) → heap w !! r = Some a →
  squish coords strength w = Ok (score, w') →
  score = Z.min strength (Alien.strength a)
  ∧ Player.consecutive_hits (player w') =
      if bool_decide (score > 0)
      then if bool_decide (Player.consecutive_hits (player w) + 1 >= 5)
           then 0 else Player.consecutive_hits (player w) + 1
      else 0.
Proof.
  intros [Hx Hy] Hcell Hr. unfold squish.
  rewrite (bind_ok _ _ w (board w) w) by done.
  rewrite !bool_decide_eq_true_2 by done. simpl.
  rewrite (bind_ok _ _ w false w)
    by (unfold isEmpty; by rewrite (bind_ok _ _ _ _ _ Hcell)).
  rewrite (bind_ok _ _ _ _ _ Hcell).
  rewrite (bind_ok _ _ w a w) by (unfold alien; by rewrite Hr).
  rewrite score_min. intros H.
  apply bind_inv in H as ([] & w1 & Hp1%doPop_player & H).
  apply bind_inv in H as ([] & w2 & H & [= <- <-]).
  split; [done|]. case_bool_decide as Hscore.
  - apply bind_inv in H as (p & ? & [= <- <-] & H).
    apply bind_inv in H as ([] & ? & [= <-] & H).
    apply bind_inv in H as (p & ? & [= <- <-] & H).
    simpl in H. rewrite Hp1 in H. unfold when in H.
    case_bool_decide as Hfive.
    + apply bind_inv in H as ([] & w3 & _ & H). by injection H as <-.
    + by injection H as <-.
  - by injection H as <-.
Qed.

(** ** C5: a failed attack *)

(** C5.  When the target coordinate is outside the board, or the target cell
    is empty, [squish] returns -1 and the whole state (the player with its
    strength, score and consecutive hits, every alien, the grid) is the state
    it was called in. *)
Theorem squish_failure w coords strength :
  ¬ in_bounds w coords ∨ isEmpty coords w = Ok (true, w) →
  squish coords strength w = Ok (-1, w).
Proof.
  intros H. unfold squish.
  rewrite (bind_ok _ _ w (board w) w) by done.
  destruct (bool_decide (0 ≤ coords.1 < Board.width (board w))
            && bool_decide (0 ≤ coords.2 < Board.height (board w))) eqn:Hb;
    simpl; [|done].
  destruct H as [H|H].
  - exfalso. apply H. apply andb_prop in Hb as [H1 H2].
    by apply bool_decide_eq_true in H1, H2.
  - by rewrite (bind_ok _ _ _ _ _ H).
Qed.

Lemma squish_failure_witness :
  squish (10, 10) 1 (initial (stream [])) = Ok (-1, initial (stream []))
  ∧ squish (2, 2) 1 (initial (stream [])) = Ok (-1, initial (stream [])).
Proof.
  split.
  - apply squish_failure. left. unfold in_bounds. simpl. unfold WIDTH. lia.
  - apply squish_failure. right. reflexivity.
Defined.

(** ** C6: a successful attack *)

#[local] Instance only_kills_refl : Reflexive only_kills.
Proof. intros w. split; [|done]. intros r a Hr. by exists a. Qed.

#[local] Instance only_kills_trans : Transitive only_kills.
Proof.
  intros w1 w2 w3 H12 H23. split.
  - intros r a Hr.
    destruct (ok_heap _ _ H12 r a Hr) as (a2 & Hr2 & Hs2 & Hc2 & Hq2).
    destruct (ok_heap _ _ H23 r a2 Hr2) as (a3 & Hr3 & Hs3 & Hc3 & Hq3).
    exists a3. repeat split; [done|congruence..|auto].
  - intros i j Hij. apply (ok_grid _ _ H23), (ok_grid _ _ H12), Hij.
Qed.

Lemma doDeath_ok w r a :
  well_formed w → heap w !! r = Some a →
  doDeath r w = Ok (tt, after_death r a w).
Proof.
  intros Hwf Hr. unfold doDeath.
  set (w1 := set_heap (<[r:=Alien.set_squished true a]> (heap w)) w).
  rewrite (bind_ok _ _ w tt w1) by (unfold update; by rewrite Hr).
  assert (heap w1 !! r = Some (Alien.set_squished true a)) as Hr1.
  { apply list_lookup_insert_eq. by apply lookup_lt_Some in Hr. }
  rewrite (bind_ok _ _ w1 _ w1) by (unfold alien; by rewrite Hr1).
  unfold clearCell. simpl.
  pose proof (Forall_lookup_1 _ _ _ _ (wf_coords _ Hwf) Hr) as Hc.
  destruct (wf_slot w (Alien.coords a) Hwf Hc) as [o Ho].
  destruct Hc as [[??][??]].
  by rewrite (set_cell_ok w1 _ _ o).
Qed.

Lemma after_death_wf w r a :
  well_formed w → heap w !! r = Some a → well_formed (after_death r a w).
Proof.
  intros Hwf Hr. unfold after_death.
  set (w1 := set_heap _ w). change (grid w) with (grid w1).
  apply well_formed_put_cell; [|done].
  by apply (well_formed_update w r a (Alien.set_squished true)).
Qed.

Lemma after_death_only_kills w r a :
  heap w !! r = Some a → only_kills w (after_death r a w).
Proof.
  intros Hr. split.
  - intros r' a' Hr'. simpl. destruct (decide (r' = r)) as [->|Hne].
    + rewrite list_lookup_insert_eq by (by apply lookup_lt_Some in Hr).
      assert (a' = a) as -> by congruence. eexists. by repeat split.
    + rewrite list_lookup_insert_ne by done. by exists a'.
  - intros i j Hij.
    change (grid (after_death r a w))
      with (put_cell (grid w) (Alien.coords a) None).
    rewrite slot_put_cell. case_decide; [|done]. by rewrite Hij.
Qed.

Lemma for_each_ok {A} (P : World → Prop) (R : relation World)
    `{!Reflexive R, !Transitive R} (D : A → Prop) (body : A → M unit) l :
  Forall D l →
  (∀ a w, D a → P w → ∃ w', body a w = Ok (tt, w') ∧ P w' ∧ R w w') →
  ∀ w, P w → ∃ w', for_each l body w = Ok (tt, w') ∧ P w' ∧ R w w'.
Proof.
  intros Hl Hbody. induction Hl as [|a l Ha Hl IH]; intros w Hw; simpl.
  - by exists w.
  - destruct (Hbody a w Ha Hw) as (w1 & Hrun & Hw1 & HR1).
    destruct (IH w1 Hw1) as (w2 & Hrun2 & Hw2 & HR2).
    exists w2. rewrite (bind_ok _ _ _ _ _ Hrun). split; [done|].
    split; [done|]. by trans w1.
Qed.

Lemma kill_at_ok w c :
  well_formed w → on_board c →
  ∃ w', kill_at c w = Ok (tt, w') ∧ well_formed w' ∧ only_kills w w'.
Proof.
  intros Hwf Hc. destruct (wf_slot w c Hwf Hc) as [o Ho].
  unfold kill_at.
  rewrite (bind_ok _ _ w o w).
  2:{ rewrite getAlien_cell_at. apply lift_ok, cell_at_slot; [apply Hc..|done]. }
  destruct o as [r|]; [|by exists w].
  destruct (lookup_lt_is_Some_2 (heap w) r) as [a Ha].
  { apply (wf_refs _ Hwf), elem_of_concat_slot. eauto. }
  exists (after_death r a w).
  split; [by apply doDeath_ok|].
  split; [by apply after_death_wf | by apply after_death_only_kills].
Qed.

Lemma affected_cells_on_board epicenter :
  Forall on_board (affected_cells epicenter).
Proof.
  unfold affected_cells. simpl.
  repeat match goal with
         | |- context [bool_decide ?P && bool_decide ?Q] =>
             destruct (bool_decide_reflect P), (bool_decide_reflect Q); simpl
         end;
    repeat constructor; simpl; lia.
Qed.

Lemma trigger_bomb_ok w epicenter :
  well_formed w →
  ∃ w', trigger_bomb epicenter w = Ok (tt, w')
        ∧ well_formed w' ∧ only_kills w w'.
Proof.
  intros Hwf. unfold trigger_bomb.
  apply (for_each_ok well_formed only_kills on_board);
    [apply affected_cells_on_board | | done].
  intros c w1 Hc Hw1. by apply kill_at_ok.
Qed.

Lemma doPop_ok w r a strength :
  well_formed w → heap w !! r = Some a →
  ∃ w' a', doPop r strength w = Ok (tt, w')
    ∧ well_formed w' ∧ player w' = player w
    ∧ heap w' !! r = Some a'
    ∧ Alien.strength a' = Alien.strength a - strength
    ∧ Alien.coords a' = Alien.coords a
    ∧ (Alien.strength a - strength < 1 →
       Alien.squished a' = true
       ∧ slot (grid w') (Z.to_nat (Alien.coords a).1)
                        (Z.to_nat (Alien.coords a).2) = Some None).
Proof.
  intros Hwf Hr. unfold doPop.
  set (a1 := Alien.set_strength (Alien.strength a - strength) a).
  set (w1 := set_heap (<[r:=a1]> (heap w)) w).
  assert (heap w1 !! r = Some a1) as Hr1.
  { apply list_lookup_insert_eq. by apply lookup_lt_Some in Hr. }
  assert (well_formed w1) as Hwf1.
  { by apply (well_formed_update w r a
                (λ a, Alien.set_strength (Alien.strength a - strength) a)). }
  rewrite (bind_ok _ _ w tt w1) by (unfold update; by rewrite Hr).
  rewrite (bind_ok _ _ w1 a1 w1) by (unfold alien; by rewrite Hr1).
  unfold when. simpl. case_bool_decide as Hlt.
  - exists (after_death r a1 w1), (Alien.set_squished true a1).
    split; [by apply doDeath_ok|].
    split; [by apply after_death_wf|].
    split; [done|].
    split; [simpl; apply list_lookup_insert_eq; rewrite length_insert;
            by apply lookup_lt_Some in Hr|].
    split; [done|]. split; [done|]. intros _. split; [done|].
    change (grid (after_death r a1 w1))
      with (put_cell (grid w) (Alien.coords a) None).
    rewrite slot_put_cell, decide_True by done.
    pose proof (Forall_lookup_1 _ _ _ _ (wf_coords _ Hwf) Hr) as Hc.
    by destruct (wf_slot w _ Hwf Hc) as [o ->].
  - exists w1, a1. do 6 (split; [done|]). intros ?. lia.
Qed.

(** C6, as the code has it.  An attack on an in-bounds occupied cell of a
    well-formed board returns min(attack strength, target strength) as its
    score, and subtracts the full attack strength from the strength of the
    target; when the attack strength is at least the target's strength the
    target is squished and the cell named by its [coords] is empty
    afterwards. *)
Theorem squish_hit w coords strength r a :
  well_formed w → in_bounds w coords →
  getAlien coords w = Ok (Some r, w) → heap w !! r = Some a →
  ∃ w' a',
    squish coords strength w = Ok (Z.min strength (Alien.strength a), w')
    ∧ heap w' !! r = Some a'
    ∧ Alien.strength a' = Alien.strength a - strength
    ∧ (Alien.strength a ≤ strength →
       Alien.squished a' = true
       ∧ getAlien (Alien.coords a) w' = Ok (None, w')).
Proof.
  intros Hwf [Hx Hy] Hcell Hr. unfold squish.
  rewrite (bind_ok _ _ w (board w) w) by done.
  rewrite !bool_decide_eq_true_2 by done. simpl.
  rewrite (bind_ok _ _ w false w)
    by (unfold isEmpty; by rewrite (bind_ok _ _ _ _ _ Hcell)).
  rewrite (bind_ok _ _ _ _ _ Hcell).
  rewrite (bind_ok _ _ w a w) by (unfold alien; by rewrite Hr).
  destruct (doPop_ok w r a strength Hwf Hr)
    as (w1 & a1 & Hpop & Hwf1 & _ & Hr1 & Hs1 & Hc1 & Hdead1).
  rewrite (bind_ok _ _ _ _ _ Hpop). rewrite score_min.
  pose proof (Forall_lookup_1 _ _ _ _ (wf_coords _ Hwf) Hr) as [[??][??]].
  assert (∀ w2, only_kills w1 w2 →
     ∃ a', heap w2 !! r = Some a'
       ∧ Alien.strength a' = Alien.strength a - strength
       ∧ (Alien.strength a ≤ strength →
          Alien.squished a' = true
          ∧ getAlien (Alien.coords a) w2 = Ok (None, w2))) as Hfinal.
  { intros w2 Hk.
    destruct (ok_heap _ _ Hk r a1 Hr1) as (a2 & Hr2 & Hs2 & Hc2 & Hq2).
    exists a2. split; [done|]. split; [congruence|]. intros Hle.
    destruct Hdead1 as [Hq1 Hslot]; [lia|]. split; [auto|].
    rewrite getAlien_cell_at. apply lift_ok, cell_at_slot; [done..|].
    by apply (ok_grid _ _ Hk). }
  assert (∀ p, only_kills w1 (set_player p w1)) as Hplayer.
  { intros p. split; [|done]. intros r' a' Hr'. by exists a'. }
  match goal with
  | |- ∃ w' a', bind ?blk _ w1 = _ ∧ _ =>
      assert (∃ w2, blk w1 = Ok (tt, w2) ∧ only_kills w1 w2)
        as (w2 & Hblock & Hk)
  end.
  { case_bool_decide as Hscore.
    - rewrite (bind_ok _ _ w1 (player w1) w1) by done.
      set (w2 := set_player (Player.set_consecutive_hits
                               (Player.consecutive_hits (player w1) + 1)
                               (player w1)) w1).
      rewrite (bind_ok _ _ w1 tt w2) by done.
      rewrite (bind_ok _ _ w2 (player w2) w2) by done.
      unfold when. case_bool_decide as Hfive.
      + destruct (trigger_bomb_ok w2 coords) as (w3 & Hbomb & Hwf3 & Hk23);
          [by apply well_formed_set_player|].
        exists (set_player (Player.set_consecutive_hits 0 (player w3)) w3).
        split; [by rewrite (bind_ok _ _ _ _ _ Hbomb)|].
        trans w2; [apply Hplayer|]. trans w3; [done|].
        split; [|done]. intros r' a' Hr'. by exists a'.
      + exists w2. split; [done|apply Hplayer].
    - eexists. split; [reflexivity|apply Hplayer]. }
  rewrite (bind_ok _ _ _ _ _ Hblock).
  destruct (Hfinal w2 Hk) as (a' & Ha').
  by exists w2, a'.
Qed.

Lemma squish_hit_witness :
  ∃ w w' a',
    weak_target (initial (stream [])) = Ok (0%nat, w)
    ∧ squish (3, 3) 3 w = Ok (2, w')
    ∧ heap w' !! 0%nat = Some a'
    ∧ Alien.strength a' = -1
    ∧ Alien.squished a' = true
    ∧ getAlien (3, 3) w' = Ok (None, w').
Proof.
  eexists. 
  match goal with
  | |- ∃ w' a', ?setup = Ok (_, ?w) ∧ _ =>
      assert (setup = Ok (0%nat, w)) as Hsetup by (vm_compute; reflexivity)
  end.
  match type of Hsetup with
  | _ = Ok (_, ?w) =>
      destruct (squish_hit w (3, 3) 3 0%nat (Alien.mk (3, 3) 2 3 3 false []))
        as (w' & a' & Hsq & Ha' & Hs' & Hdead);
        [ apply well_formed_check_sound; vm_compute; reflexivity
        | unfold in_bounds; cbn; lia
        | reflexivity
        | reflexivity
        | ]
  end.
  destruct Hdead as [Hq Hcell]; [simpl; lia|].
  exists w', a'. by repeat (split; [done|]).
Defined.

(** C6, as stated, fails: the damage taken by the target is the attack
    strength, not min(attack strength, target strength).  A strength-2
    target attacked with strength 3 is left with strength -1, not 0. *)
Lemma squish_applies_full_strength :
  ∃ w w' a a',
    weak_target (initial (stream [])) = Ok (0%nat, w)
    ∧ heap w !! 0%nat = Some a
    ∧ squish (3, 3) 3 w = Ok (Z.min 3 (Alien.strength a), w')
    ∧ heap w' !! 0%nat = Some a'
    ∧ Alien.strength a' ≠ Alien.strength a - Z.min 3 (Alien.strength a).
Proof.
  do 4 eexists.
  repeat (split; [vm_compute; reflexivity|]).
  vm_compute. discriminate.
Qed.

(** ** C7: compaction of the child lists *)

(** C7 (the code departs from it).  Root [0] is live, its child [1] is live
    and the grandchild [2] is dead.  The collection visits [1] and writes
    [None] into its child list, but only the list of the root is compacted:
    the list of [1] is [[None]] afterwards.  Collecting the same registry
    again then fails on that slot with [AttributeError]. *)
Theorem gc_leaves_null_in_nested_list :
  ∃ w a0 a1,
    garbage_collect 10 [0%nat] (with_heap (lineage false false true) [0%nat])
    = Ok ([0%nat], w)
    ∧ heap w !! 0%nat = Some a0 ∧ Alien.children a0 = [Some 1%nat]
    ∧ heap w !! 1%nat = Some a1 ∧ Alien.children a1 = [None]
    ∧ ∀ fuel, garbage_collect (4 + fuel) [0%nat] w = Raise AttributeError.
Proof.
  do 3 eexists.
  split; [vm_compute; reflexivity|].
  split; [vm_compute; reflexivity|].
  split; [vm_compute; reflexivity|].
  split; [vm_compute; reflexivity|].
  split; [vm_compute; reflexivity|].
  intros fuel. reflexivity.
Qed.

(** ** C8: what the collection returns *)

Lemma edge_child_at w p c : edge w p c ↔ ∃ i, child_at w p i c.
Proof.
  unfold edge, child_at. split.
  - intros (a & Ha & (i & Hi)%list_elem_of_lookup). eauto.
  - intros (i & a & Ha & Hi). exists a. split; [done|].
    apply list_elem_of_lookup. eauto.
Qed.

Lemma live_path_live w r n : live_path w r n → live w n.
Proof. by destruct 1. Qed.

Lemma nodes_child_entries cur l :
  ((child_entries cur l).*1).*1 = l.
Proof.
  unfold child_entries. apply list_eq. intros i.
  rewrite !list_lookup_fmap, list_lookup_imap.
  by destruct (l !! i).
Qed.

Lemma elem_of_child_entries cur l c par i :
  (c, par, i) ∈ child_entries cur l ↔ par = Some cur ∧ l !! i = Some c.
Proof.
  unfold child_entries. rewrite list_elem_of_lookup. split.
  - intros (j & Hj). rewrite list_lookup_imap in Hj.
    destruct (l !! j) eqn:E; simplify_eq/=. done.
  - intros [-> Hi]. exists i. rewrite list_lookup_imap. by rewrite Hi.
Qed.

Lemma clear_slot_ok w p i ap s :
  heap w !! p = Some ap → Alien.children ap !! i = Some s →
  clear_slot p i w = Ok (tt, cleared p i ap w).
Proof.
  intros Hp Hi. unfold clear_slot.
  rewrite (bind_ok _ _ w ap w) by (unfold alien; by rewrite Hp).
  rewrite (bind_ok _ _ w (<[i:=None]> (Alien.children ap)) w).
  2:{ apply lift_ok. unfold setitem. apply lookup_lt_Some in Hi.
      rewrite py_index_nonneg by lia. by rewrite Nat2Z.id. }
  unfold update. by rewrite Hp.
Qed.

Lemma child_at_cleared w p i ap p' j c :
  heap w !! p = Some ap →
  child_at (cleared p i ap w) p' j c ↔
  child_at w p' j c ∧ ¬ (p' = p ∧ j = i).
Proof.
  intros Hp. unfold child_at, cleared. simpl.
  apply lookup_lt_Some in Hp as Hlt.
  destruct (decide (p' = p)) as [->|Hne].
  - rewrite list_lookup_insert_eq by done. split.
    + intros (a & [= <-] & Hj). simpl in Hj.
      apply list_lookup_insert_Some in Hj as [(_ & [=] & _)|[Hij Hj]].
      split; [eauto|]. by intros [_ ->].
    + intros [(a & Ha & Hj) Hij]. assert (a = ap) as -> by congruence.
      eexists. split; [done|]. simpl.
      rewrite list_lookup_insert_ne; [done|]. intros <-. by apply Hij.
  - rewrite list_lookup_insert_ne by done. split.
    + intros H. split; [done|]. by intros [? _].
    + by intros [H _].
Qed.

Section Traversal.
Variable w0 : World.
Variable roots : list nat.
Hypothesis Hforest : forest w0 roots.

Lemma gc_inv_init : gc_inv w0 [] [] [] w0.
Proof.
  split; try done.
  - intros n a Hn. by exists a.
  - constructor.
  - intros n Hn. by apply elem_of_nil in Hn.
  - intros n Hn. by apply elem_of_nil in Hn.
  - intros p i c Hp. by apply elem_of_nil in Hp.
  - intros c par i Hc. by apply elem_of_nil in Hc.
  - constructor.
Qed.

(** A popped alien is in the store as it was at the start, and when it is
    live it is on a live path from a root whose turn has come. *)
Lemma popped_entry processed E stack w n par i :
  (∀ r, r ∈ processed → r ∈ roots) →
  gc_inv w0 processed E ((Some n, par, i) :: stack) w →
  (n ∉ E) ∧ (Some n ∉ (stack.*1).*1)
  ∧ ∃ a, heap w !! n = Some a ∧ heap w0 !! n = Some a
         ∧ (Alien.squished a = false →
            ∃ r, r ∈ processed ∧ live_path w0 r n).
Proof.
  intros Hsub Hinv.
  destruct (gi_stack _ _ _ _ _ Hinv (Some n) par i) as (n' & [= <-] & HnE & Hpar);
    [left|].
  pose proof (gi_stack_nodup _ _ _ _ _ Hinv) as Hnd. simpl in Hnd.
  apply NoDup_cons in Hnd as [Hn_rest _].
  split; [done|]. split; [done|].
  assert (is_Some (heap w0 !! n)) as [a Ha].
  { destruct par as [p|].
    - destruct Hpar as (_ & Hslot & r & Hr & Hpath).
      assert (edge w0 p n) as (ap & Hap & Hin).
      { apply (gi_edges _ _ _ _ _ Hinv), edge_child_at. eauto. }
      pose proof (fr_valid _ _ Hforest r p ap (Hsub r Hr) Hpath Hap) as Hall.
      rewrite Forall_forall in Hall.
      destruct (Hall _ Hin) as (c & [= <-] & Hc). done.
    - by apply (fr_roots _ _ Hforest), Hsub. }
  exists a. rewrite (gi_fresh _ _ _ _ _ Hinv n HnE). split; [done|].
  split; [done|]. intros Hq.
  assert (live w0 n) as Hlive by (by exists a).
  destruct par as [p|].
  - destruct Hpar as (_ & Hslot & r & Hr & Hpath). exists r. split; [done|].
    apply live_child with p; [done| |done].
    apply (gi_edges _ _ _ _ _ Hinv), edge_child_at. eauto.
  - exists n. split; [done|]. by apply live_root.
Qed.

Lemma node_in_stack (stack : list entry) c par i :
  (c, par, i) ∈ stack → c ∈ (stack.*1).*1.
Proof.
  intros H. apply (list_elem_of_fmap_2 fst) in H.
  by apply (list_elem_of_fmap_2 fst) in H.
Qed.

(** The entries left on the stack after a pop are still in order for the
    larger set of popped aliens, provided their slots still hold. *)
Lemma rest_entries processed E stack w w' n par i :
  gc_inv w0 processed E ((Some n, par, i) :: stack) w →
  (∀ c' p' i', (Some c', Some p', i') ∈ stack →
               child_at w p' i' c' → child_at w' p' i' c') →
  ∀ c par' i', (c, par', i') ∈ stack →
    ∃ n', c = Some n' ∧ (n' ∉ n :: E) ∧
      (match par' with
       | None => n' ∈ processed
       | Some p => p ∈ n :: E ∧ child_at w' p i' n'
                   ∧ ∃ r, r ∈ processed ∧ live_path w0 r p
       end).
Proof.
  intros Hinv Hslots c par' i' Hin.
  destruct (gi_stack _ _ _ _ _ Hinv c par' i') as (n' & -> & HnE & Hpar);
    [by right|].
  pose proof (gi_stack_nodup _ _ _ _ _ Hinv) as Hnd. simpl in Hnd.
  apply NoDup_cons in Hnd as [Hn_rest _].
  exists n'. split; [done|]. split.
  - apply not_elem_of_cons. split; [|done]. intros ->.
    by apply Hn_rest, (node_in_stack _ _ par' i').
  - destruct par' as [p|]; [|done].
    destruct Hpar as (HpE & Hslot & Hr).
    split; [by right|]. split; [by apply Hslots|done].
Qed.

Lemma inv_pop_dead_root processed E stack w n i a :
  (∀ r, r ∈ processed → r ∈ roots) →
  gc_inv w0 processed E ((Some n, None, i) :: stack) w →
  heap w0 !! n = Some a → Alien.squished a = true →
  gc_inv w0 processed (n :: E) stack w.
Proof.
  intros Hsub Hinv Ha Hq.
  destruct (popped_entry _ _ _ _ _ _ _ Hsub Hinv)
    as (HnE & Hn_rest & _).
  destruct (gi_stack _ _ _ _ _ Hinv (Some n) None i) as (? & [= <-] & _ & Hproc);
    [left|].
  split; try apply Hinv.
  - intros n' Hn'. apply (gi_fresh _ _ _ _ _ Hinv).
    by apply not_elem_of_cons in Hn' as [_ ?].
  - apply NoDup_cons. split; [done|apply Hinv].
  - intros n' [->|Hn']%elem_of_cons; [|by apply (gi_bound _ _ _ _ _ Hinv)].
    by apply lookup_lt_Some in Ha.
  - intros n' [->|Hn']%elem_of_cons; [by left|].
    destruct (gi_origin _ _ _ _ _ Hinv n' Hn') as [?|(p & Hp & He)]; [by left|].
    right. exists p. split; [by right|done].
  - intros p j c [->|Hp]%elem_of_cons Hlive Hslot.
    { destruct Hlive as (a' & Ha' & Hq'). congruence. }
    destruct (gi_closed _ _ _ _ _ Hinv p j c Hp Hlive Hslot)
      as [[Hc Hcl]|[[=]|Hin]%elem_of_cons].
    + left. split; [by right|done].
    + by right.
  - by apply (rest_entries _ _ _ w _ _ _ i Hinv).
  - pose proof (gi_stack_nodup _ _ _ _ _ Hinv) as Hnd.
    by apply NoDup_cons in Hnd as [_ ?].
Qed.

Lemma inv_pop_dead_child processed E stack w n p i a :
  (∀ r, r ∈ processed → r ∈ roots) →
  gc_inv w0 processed E ((Some n, Some p, i) :: stack) w →
  heap w0 !! n = Some a → Alien.squished a = true →
  ∃ ap, heap w !! p = Some ap ∧ Alien.children ap !! i = Some (Some n)
        ∧ gc_inv w0 processed (n :: E) stack (cleared p i ap w).
Proof.
  intros Hsub Hinv Ha Hq.
  destruct (popped_entry _ _ _ _ _ _ _ Hsub Hinv)
    as (HnE & Hn_rest & _).
  destruct (gi_stack _ _ _ _ _ Hinv (Some n) (Some p) i)
    as (? & [= <-] & _ & HpE & (ap & Hp & Hi) & Hpath); [left|].
  exists ap. split; [done|]. split; [done|].
  apply lookup_lt_Some in Hp as Hlt.
  assert (edge w0 p n) as Hedge.
  { apply (gi_edges _ _ _ _ _ Hinv), edge_child_at. exists i, ap. done. }
  split.
  - unfold cleared. simpl. rewrite length_insert. apply Hinv.
  - intros n' a'. unfold cleared. simpl.
    destruct (decide (n' = p)) as [->|Hne].
    + rewrite list_lookup_insert_eq by done. intros [= <-].
      destruct (gi_same _ _ _ _ _ Hinv p ap Hp) as (a0 & ? & ?).
      by exists a0.
    + rewrite list_lookup_insert_ne by done. apply (gi_same _ _ _ _ _ Hinv).
  - intros p' c (j & Hj)%edge_child_at.
    apply child_at_cleared in Hj as [Hj _]; [|done].
    apply (gi_edges _ _ _ _ _ Hinv), edge_child_at. eauto.
  - intros n' Hn'. apply not_elem_of_cons in Hn' as [_ Hn'].
    unfold cleared. simpl. rewrite list_lookup_insert_ne.
    + by apply (gi_fresh _ _ _ _ _ Hinv).
    + by intros <-.
  - apply NoDup_cons. split; [done|apply Hinv].
  - intros n' [->|Hn']%elem_of_cons; [|by apply (gi_bound _ _ _ _ _ Hinv)].
    by apply lookup_lt_Some in Ha.
  - intros n' [->|Hn']%elem_of_cons.
    + right. exists p. split; [by right|done].
    + destruct (gi_origin _ _ _ _ _ Hinv n' Hn') as [?|(p' & Hp' & He)];
        [by left|].
      right. exists p'. split; [by right|done].
  - intros p' j c [->|Hp']%elem_of_cons Hlive Hslot.
    { destruct Hlive as (a' & Ha' & Hq'). congruence. }
    apply child_at_cleared in Hslot as [Hslot Hne]; [|done].
    destruct (gi_closed _ _ _ _ _ Hinv p' j c Hp' Hlive Hslot)
      as [[Hc Hcl]|[[= -> -> ->]|Hin]%elem_of_cons].
    + left. split; [by right|done].
    + by destruct Hne.
    + by right.
  - apply (rest_entries _ _ _ w _ _ _ i Hinv).
    intros c' p' i' Hin Hslot. apply child_at_cleared; [done|].
    split; [done|]. intros [-> ->].
    destruct Hslot as (ap' & Hp'' & Hi'). 
    assert (c' = n) as -> by congruence.
    by apply Hn_rest, (node_in_stack _ _ (Some p) i).
  - pose proof (gi_stack_nodup _ _ _ _ _ Hinv) as Hnd.
    by apply NoDup_cons in Hnd as [_ ?].
Qed.

Lemma edge_parent p p' c : edge w0 p c → edge w0 p' c → p = p'.
Proof.
  intros (i & Hi)%edge_child_at (i' & Hi')%edge_child_at.
  by destruct (fr_parent _ _ Hforest _ _ _ _ _ Hi Hi').
Qed.

(** The children of an alien that is popped live are new to the traversal. *)
Lemma children_unseen processed E stack w n par i c :
  (∀ r, r ∈ processed → r ∈ roots) →
  gc_inv w0 processed E ((Some n, par, i) :: stack) w →
  edge w0 n c →
  (c ∉ n :: E) ∧ (Some c ∉ (stack.*1).*1).
Proof.
  intros Hsub Hinv Hedge.
  destruct (popped_entry _ _ _ _ _ _ _ Hsub Hinv) as (HnE & _).
  assert (c ∉ E) as HcE.
  { intros [Hc|(p & Hp & He)]%(gi_origin _ _ _ _ _ Hinv).
    - apply (fr_orphans _ _ Hforest c n); [by apply Hsub|done].
    - by rewrite (edge_parent _ _ _ He Hedge) in Hp. }
  split.
  - apply not_elem_of_cons. split; [|done]. intros ->.
    destruct (gi_stack _ _ _ _ _ Hinv (Some n) par i)
      as (? & [= <-] & _ & Hpar); [left|].
    destruct par as [p|].
    + destruct Hpar as (Hp & Hslot & _).
      assert (edge w0 p n) as He.
      { apply (gi_edges _ _ _ _ _ Hinv), edge_child_at. eauto. }
      by rewrite (edge_parent _ _ _ He Hedge) in Hp.
    + apply (fr_orphans _ _ Hforest n n); [by apply Hsub|done].
  - intros (e1 & Hc & (e & -> & Hin)%list_elem_of_fmap)%list_elem_of_fmap.
    destruct e as [[c' par'] i']. simpl in Hc. subst c'.
    destruct (gi_stack _ _ _ _ _ Hinv (Some c) par' i')
      as (? & [= <-] & _ & Hpar); [by right|].
    destruct par' as [p|].
    + destruct Hpar as (Hp & Hslot & _).
      assert (edge w0 p c) as He.
      { apply (gi_edges _ _ _ _ _ Hinv), edge_child_at. eauto. }
      by rewrite (edge_parent _ _ _ He Hedge) in Hp.
    + apply (fr_orphans _ _ Hforest c n); [by apply Hsub|done].
Qed.

Lemma inv_pop_live processed E stack w n par i a :
  (∀ r, r ∈ processed → r ∈ roots) →
  gc_inv w0 processed E ((Some n, par, i) :: stack) w →
  heap w0 !! n = Some a → Alien.squished a = false →
  gc_inv w0 processed (n :: E)
    (reverse (child_entries n (Alien.children a)) ++ stack) w.
Proof.
  intros Hsub Hinv Ha Hq.
  destruct (popped_entry _ _ _ _ _ _ _ Hsub Hinv)
    as (HnE & Hn_rest & a' & Hw & Ha' & Hpath).
  assert (a' = a) as -> by congruence. clear Ha'.
  destruct (Hpath Hq) as (r & Hr & Hrn). clear Hpath.
  pose proof (fr_valid _ _ Hforest r n a (Hsub r Hr) Hrn Ha) as Hvalid.
  rewrite Forall_lookup in Hvalid.
  assert (∀ j c, Alien.children a !! j = Some (Some c) → edge w0 n c) as Hkid.
  { intros j c Hj. apply edge_child_at. exists j, a. done. }
  split; try apply Hinv.
  - intros n' Hn'. apply (gi_fresh _ _ _ _ _ Hinv).
    by apply not_elem_of_cons in Hn' as [_ ?].
  - apply NoDup_cons. split; [done|apply Hinv].
  - intros n' [->|Hn']%elem_of_cons; [|by apply (gi_bound _ _ _ _ _ Hinv)].
    by apply lookup_lt_Some in Ha.
  - intros n' [->|Hn']%elem_of_cons.
    + destruct (gi_stack _ _ _ _ _ Hinv (Some n) par i)
        as (? & [= <-] & _ & Hpar); [left|].
      destruct par as [p|]; [|by left].
      destruct Hpar as (Hp & Hslot & _). right. exists p.
      split; [by right|].
      apply (gi_edges _ _ _ _ _ Hinv), edge_child_at. eauto.
    + destruct (gi_origin _ _ _ _ _ Hinv n' Hn') as [?|(p' & Hp' & He)];
        [by left|].
      right. exists p'. split; [by right|done].
  - intros p' j c [->|Hp']%elem_of_cons Hlive Hslot.
    + right. apply elem_of_app. left. apply elem_of_reverse.
      apply elem_of_child_entries. split; [done|].
      destruct Hslot as (a' & Ha' & Hj). congruence.
    + destruct (gi_closed _ _ _ _ _ Hinv p' j c Hp' Hlive Hslot)
        as [[Hc Hcl]|[[= -> -> ->]|Hin]%elem_of_cons].
      * left. split; [by right|done].
      * left. split; [by left|]. by exists a.
      * right. apply elem_of_app. by right.
  - intros c par' i' [Hin|Hin]%elem_of_app.
    + apply elem_of_reverse, elem_of_child_entries in Hin as [-> Hi'].
      destruct (Hvalid _ _ Hi') as (c' & -> & _).
      exists c'. split; [done|].
      destruct (children_unseen _ _ _ _ _ _ _ c' Hsub Hinv (Hkid _ _ Hi'))
        as [Hc' _].
      split; [done|]. split; [by left|]. split; [by exists a|].
      by exists r.
    + by apply (rest_entries _ _ _ w _ _ par i Hinv).
  - rewrite !fmap_app, !fmap_reverse, nodes_child_entries.
    pose proof (gi_stack_nodup _ _ _ _ _ Hinv) as Hnd.
    rewrite !fmap_cons in Hnd. apply NoDup_cons in Hnd as [_ Hnd].
    apply NoDup_app. split; [|split; [|done]].
    + rewrite reverse_Permutation. apply NoDup_alt. intros j1 j2 s Hj1 Hj2.
      destruct (Hvalid _ _ Hj1) as (c & -> & _).
      eapply (fr_parent _ _ Hforest n j1 n j2 c); by exists a.
    + intros s Hs. rewrite elem_of_reverse in Hs.
      apply list_elem_of_lookup in Hs as (j & Hj).
      destruct (Hvalid _ _ Hj) as (c & -> & _).
      by destruct (children_unseen _ _ _ _ _ _ _ c Hsub Hinv (Hkid _ _ Hj)).
Qed.

Lemma popped_bound processed E stack w :
  gc_inv w0 processed E stack w → (length E ≤ length (heap w0))%nat.
Proof.
  intros Hinv.
  trans (length (seq 0 (length (heap w0)))); [|by rewrite length_seq].
  apply submseteq_length, NoDup_submseteq; [apply Hinv|].
  intros n Hn. apply elem_of_seq.
  pose proof (gi_bound _ _ _ _ _ Hinv n Hn). lia.
Qed.

(** The [while] loop runs to completion within the budget: every iteration
    pops an alien that was not popped before. *)
Lemma gc_loop_ok processed fuel :
  (∀ r, r ∈ processed → r ∈ roots) →
  ∀ stack E w,
    gc_inv w0 processed E stack w →
    (length (heap w0) - length E < fuel)%nat →
    ∃ w' E', gc_loop fuel stack w = Ok (tt, w')
             ∧ gc_inv w0 processed E' [] w'
             ∧ (∀ n, n ∈ E → n ∈ E')
             ∧ (∀ n par i, (Some n, par, i) ∈ stack → n ∈ E').
Proof.
  intros Hsub. induction fuel as [|fuel IH]; intros stack E w Hinv Hfuel;
    [lia|].
  destruct stack as [|[[c par] i] stack]; simpl.
  { exists w, E. split; [done|]. split; [done|]. split; [done|].
    intros n par i Hin. by apply elem_of_nil in Hin. }
  destruct (gi_stack _ _ _ _ _ Hinv c par i) as (n & -> & _); [left|].
  destruct (popped_entry _ _ _ _ _ _ _ Hsub Hinv)
    as (HnE & _ & a & Hw & Ha & _).
  rewrite (bind_ok _ _ w a w) by (unfold alien; by rewrite Hw).
  assert (∀ stack' w1,
    gc_inv w0 processed (n :: E) stack' w1 →
    (∀ e, e ∈ stack → e ∈ stack') →
    ∃ w' E', gc_loop fuel stack' w1 = Ok (tt, w')
             ∧ gc_inv w0 processed E' [] w'
             ∧ (∀ n', n' ∈ E → n' ∈ E')
             ∧ (∀ n' par' i', (Some n', par', i') ∈ (Some n, par, i) :: stack
                              → n' ∈ E')) as Hnext.
  { intros stack' w1 Hinv1 Hincl.
    pose proof (popped_bound _ _ _ _ Hinv1) as Hb. simpl in Hb.
    destruct (IH stack' (n :: E) w1 Hinv1) as (w' & E' & Hrun & Hinv' & HE & Hst);
      [simpl; lia|].
    exists w', E'. split; [done|]. split; [done|]. split.
    - intros n' Hn'. apply HE. by right.
    - intros n' par' i' [[= -> -> ->]|Hin]%elem_of_cons.
      + apply HE. by left.
      + by apply (Hst n' par' i'), Hincl. }
  destruct (Alien.squished a) eqn:Hq.
  - destruct par as [p|].
    + destruct (inv_pop_dead_child _ _ _ _ _ _ _ _ Hsub Hinv Ha Hq)
        as (ap & Hp & Hi & Hinv1).
      rewrite (bind_ok _ _ _ _ _ (clear_slot_ok _ _ _ _ _ Hp Hi)).
      by apply Hnext.
    + apply Hnext; [|done]. by apply (inv_pop_dead_root _ _ _ _ _ i a).
  - apply Hnext; [by apply (inv_pop_live _ _ _ _ _ par i)|].
    intros e He. apply elem_of_app. by right.
Qed.

Lemma inv_compacted processed E w r a :
  gc_inv w0 processed E [] w → r ∈ E → heap w !! r = Some a →
  gc_inv w0 processed E [] (compacted r a w).
Proof.
  intros Hinv HrE Hr. apply lookup_lt_Some in Hr as Hlt.
  assert (∀ p i c, child_at (compacted r a w) p i c → ∃ j, child_at w p j c)
    as Hslot.
  { intros p i c (a' & Ha' & Hi). unfold compacted in Ha'. simpl in Ha'.
    destruct (decide (p = r)) as [->|Hne].
    - rewrite list_lookup_insert_eq in Ha' by done. injection Ha' as <-.
      simpl in Hi. apply list_elem_of_lookup_2, list_elem_of_filter in Hi as [_ Hi].
      apply list_elem_of_lookup in Hi as (j & Hj). exists j, a. done.
    - rewrite list_lookup_insert_ne in Ha' by done. exists i, a'. done. }
  split; try apply Hinv.
  - unfold compacted. simpl. rewrite length_insert. apply Hinv.
  - intros n a'. unfold compacted. simpl.
    destruct (decide (n = r)) as [->|Hne].
    + rewrite list_lookup_insert_eq by done. intros [= <-].
      destruct (gi_same _ _ _ _ _ Hinv r a Hr) as (a0 & ? & ?). by exists a0.
    + rewrite list_lookup_insert_ne by done. apply (gi_same _ _ _ _ _ Hinv).
  - intros p c (i & Hi)%edge_child_at. apply Hslot in Hi as (j & Hj).
    apply (gi_edges _ _ _ _ _ Hinv), edge_child_at. eauto.
  - intros n Hn. unfold compacted. simpl. rewrite list_lookup_insert_ne.
    + by apply (gi_fresh _ _ _ _ _ Hinv).
    + by intros <-.
  - intros p i c Hp Hlive Hi. apply Hslot in Hi as (j & Hj).
    destruct (gi_closed _ _ _ _ _ Hinv p j c Hp Hlive Hj) as [?|Hin]; [by left|].
    by apply elem_of_nil in Hin.
  - intros c par i Hin. by apply elem_of_nil in Hin.
Qed.

Lemma inv_next_root processed E w r :
  gc_inv w0 processed E [] w → gc_inv w0 (r :: processed) E [] w.
Proof.
  intros Hinv. split; try apply Hinv.
  - intros n Hn. destruct (gi_origin _ _ _ _ _ Hinv n Hn) as [?|?]; [|by right].
    left. by right.
  - intros c par i Hin. by apply elem_of_nil in Hin.
Qed.

(** One root of the registry. *)
Lemma gc_root_ok processed E w r :
  (∀ r', r' ∈ processed → r' ∈ roots) → r ∈ roots → r ∉ processed →
  gc_inv w0 processed E [] w →
  ∃ w' E', gc_root (S (length (heap w0))) r w = Ok (tt, w')
           ∧ gc_inv w0 (r :: processed) E' [] w'
           ∧ (∀ n, n ∈ E → n ∈ E')
           ∧ (live w0 r → r ∈ E').
Proof.
  intros Hsub Hr Hnew Hinv.
  destruct (fr_roots _ _ Hforest r Hr) as [a Ha].
  assert (r ∉ E) as HrE.
  { intros [?|(p & _ & He)]%(gi_origin _ _ _ _ _ Hinv); [done|].
    by apply (fr_orphans _ _ Hforest r p). }
  assert (heap w !! r = Some a) as Hw
    by (by rewrite (gi_fresh _ _ _ _ _ Hinv r HrE)).
  unfold gc_root. rewrite (bind_ok _ _ w a w) by (unfold alien; by rewrite Hw).
  destruct (Alien.squished a) eqn:Hq.
  { exists w, E. split; [done|]. split; [by apply inv_next_root|].
    split; [done|]. intros (a' & Ha' & Hq'). congruence. }
  assert (gc_inv w0 (r :: processed) E [(Some r, None, 0%nat)] w) as Hinv0.
  { apply (inv_next_root _ _ _ r) in Hinv as Hinv'.
    split; try apply Hinv'.
    - intros p i c Hp Hlive Hi.
      destruct (gi_closed _ _ _ _ _ Hinv p i c Hp Hlive Hi) as [?|Hin];
        [by left|]. by apply elem_of_nil in Hin.
    - intros c par i [= -> -> ->]%list_elem_of_singleton.
      exists r. split; [done|]. split; [done|]. by left.
    - apply NoDup_singleton. }
  destruct (gc_loop_ok (r :: processed) (S (length (heap w0))))
    with (stack := [(Some r, @None nat, 0%nat)]) (E := E) (w := w)
    as (w1 & E1 & Hrun & Hinv1 & HE & Hst); [|done|lia|].
  { intros r' [->|?]%elem_of_cons; auto. }
  rewrite (bind_ok _ _ _ _ _ Hrun).
  assert (r ∈ E1) as HrE1 by (apply (Hst r None 0%nat); by left).
  destruct (lookup_lt_is_Some_2 (heap w1) r) as [a1 Ha1].
  { rewrite (gi_len _ _ _ _ _ Hinv1). by apply lookup_lt_Some in Ha. }
  destruct (gi_same _ _ _ _ _ Hinv1 r a1 Ha1) as (a0 & Ha0 & Hq1).
  assert (a0 = a) as -> by congruence.
  rewrite (bind_ok _ _ w1 a1 w1) by (unfold alien; by rewrite Ha1).
  rewrite Hq1, Hq. simpl.
  exists (compacted r a1 w1), E1.
  split; [unfold update; by rewrite Ha1|].
  split; [by apply inv_compacted|]. split; [done|]. done.
Qed.

(** The [for] loop over the registry. *)
Lemma gc_roots_ok todo :
  ∀ processed E w,
    (∀ r, r ∈ processed → r ∈ roots) → (∀ r, r ∈ todo → r ∈ roots) →
    NoDup todo → (∀ r, r ∈ todo → r ∉ processed) →
    gc_inv w0 processed E [] w →
    ∃ w' E' processed',
      for_each todo (gc_root (S (length (heap w0)))) w = Ok (tt, w')
      ∧ gc_inv w0 processed' E' [] w'
      ∧ (∀ n, n ∈ E → n ∈ E')
      ∧ (∀ r, r ∈ todo → live w0 r → r ∈ E').
Proof.
  induction todo as [|r todo IH]; intros processed E w Hsub Htodo Hnd Hnew Hinv;
    simpl.
  { exists w, E, processed. split; [done|]. split; [done|]. split; [done|].
    intros r Hr. by apply elem_of_nil in Hr. }
  apply NoDup_cons in Hnd as [Hr_todo Hnd].
  destruct (gc_root_ok processed E w r) as (w1 & E1 & Hrun & Hinv1 & HE & HrE);
    [done|apply Htodo; by left|apply Hnew; by left|done|].
  rewrite (bind_ok _ _ _ _ _ Hrun).
  destruct (IH (r :: processed) E1 w1) as (w2 & E2 & pr2 & Hrun2 & Hinv2 & HE2 & Hall).
  - intros r' [->|?]%elem_of_cons; [apply Htodo; by left|auto].
  - intros r' Hr'. apply Htodo. by right.
  - done.
  - intros r' Hr' [->|?]%elem_of_cons; [done|].
    apply (Hnew r'); [by right|done].
  - done.
  - exists w2, E2, pr2. split; [done|]. split; [done|]. split; [auto|].
    intros r' [->|Hr']%elem_of_cons Hlive; auto.
Qed.
End Traversal.

Lemma kept_negb a : kept a = negb (Alien.squished a).
Proof.
  unfold kept. destruct (Alien.squished a); simpl; [done|].
  by rewrite orb_true_r.
Qed.

Lemma kept_roots_ok w l :
  (∀ r, r ∈ l → is_Some (heap w !! r)) →
  kept_roots l w = Ok (filter (λ r, is_live w r = true) l, w).
Proof.
  induction l as [|r l IH]; intros Hl; simpl; [done|].
  destruct (Hl r) as [a Ha]; [by left|].
  rewrite (bind_ok _ _ w a w) by (unfold alien; by rewrite Ha).
  rewrite (bind_ok _ _ _ _ _ (IH (λ r' Hr', Hl r' (list_elem_of_further _ _ _ Hr')))).
  assert (is_live w r = negb (Alien.squished a)) as Hlive
    by (unfold is_live; by rewrite Ha).
  unfold ret. rewrite kept_negb, filter_cons, Hlive.
  by destruct (Alien.squished a).
Qed.

Lemma is_live_spec w r : is_live w r = true ↔ live w r.
Proof.
  unfold is_live, live. split.
  - destruct (heap w !! r) as [a|]; [|done]. intros H. exists a.
    split; [done|]. by destruct (Alien.squished a).
  - intros (a & -> & ->). done.
Qed.

(** On a registry whose lineage is a forest, [garbage_collect] returns
    with a budget of one more than the size of the store, and what it returns
    is the registry filtered by liveness: a dead root is dropped with
    everything below it.  The collection changes no squished flag and adds
    no alien to any child list; after it, whatever can be reached from a
    returned root was reachable from that root through live aliens only.
    Hence no child list reachable from a returned root refers to a dead
    alien, and an alien that is not a root and whose parents are all dead (a
    grandchild behind a dead intermediate node, say) can no longer be reached
    from the registry. *)
Lemma garbage_collect_keeps_live_roots w roots :
  forest w roots →
  ∃ w',
    garbage_collect (S (length (heap w))) roots w
      = Ok (filter (λ r, is_live w r = true) roots, w')
    ∧ (∀ r, r ∈ roots → dead w r →
            r ∉ filter (λ r, is_live w r = true) roots)
    ∧ (∀ n, live w' n ↔ live w n)
    ∧ (∀ p c, edge w' p c → edge w p c)
    ∧ (∀ r n, r ∈ roots → live w r → reach w' r n → live_path w r n)
    ∧ (∀ r p c, r ∈ roots → live w r → reach w' r p → edge w' p c →
                live w c)
    ∧ (∀ r g, r ∈ roots → live w r → g ∉ roots →
              (∀ p, edge w p g → dead w p) → ¬ reach w' r g).
Proof.
  intros Hforest.
  destruct (gc_roots_ok w roots Hforest roots [] [] w)
    as (w' & E & pr & Hrun & Hinv & _ & Hall);
    [by intros ? ?%elem_of_nil | done | apply Hforest
    | by intros ? _ ?%elem_of_nil | apply gc_inv_init |].
  assert (∀ n, live w' n ↔ live w n) as Hflags.
  { intros n. split.
    - intros (a & Ha & Hq).
      destruct (gi_same _ _ _ _ _ Hinv n a Ha) as (a0 & Ha0 & Hq0).
      exists a0. split; [done|congruence].
    - intros (a0 & Ha0 & Hq0).
      destruct (lookup_lt_is_Some_2 (heap w') n) as [a Ha].
      { rewrite (gi_len _ _ _ _ _ Hinv). by apply lookup_lt_Some in Ha0. }
      destruct (gi_same _ _ _ _ _ Hinv n a Ha) as (a0' & Ha0' & Hq).
      exists a. split; [done|congruence]. }
  assert (∀ r n, r ∈ roots → live w r → reach w' r n →
                 n ∈ E ∧ live_path w r n) as Hreach.
  { intros r n Hr Hlive. induction 1 as [|p c _ [HpE Hpath] Hedge].
    - split; [by apply Hall|by apply live_root].
    - apply edge_child_at in Hedge as Hslot. destruct Hslot as (i & Hi).
      destruct (gi_closed _ _ _ _ _ Hinv p i c HpE (live_path_live _ _ _ Hpath) Hi)
        as [[HcE Hc]|Hin]; [|by apply elem_of_nil in Hin].
      split; [done|]. apply live_child with p; [done| |done].
      by apply (gi_edges _ _ _ _ _ Hinv). }
  exists w'. split.
  { unfold garbage_collect. rewrite (bind_ok _ _ _ _ _ Hrun).
    rewrite kept_roots_ok.
    - f_equal. f_equal. apply list_filter_iff. intros r.
      rewrite !is_live_spec. apply Hflags.
    - intros r Hr. destruct (fr_roots _ _ Hforest r Hr) as [a Ha].
      apply lookup_lt_is_Some_2. rewrite (gi_len _ _ _ _ _ Hinv).
      by apply lookup_lt_Some in Ha. }
  split.
  { intros r _ (a & Ha & Hq) [Hlive _]%list_elem_of_filter.
    apply is_live_spec in Hlive as (a' & Ha' & Hq'). congruence. }
  split; [done|]. split; [apply Hinv|].
  split; [intros r n Hr Hlive Hrn; by apply Hreach|].
  split.
  - intros r p c Hr Hlive Hrp Hedge.
    apply (live_path_live w r), Hreach; [done..|].
    by apply reach_child with p.
  - intros r g Hr Hlive Hg Hparents Hrg. inversion Hrg as [|p c Hrp Hedge]; subst.
    + done.
    + destruct (Hreach r p Hr Hlive Hrp) as [_ Hpath].
      apply live_path_live in Hpath as (a & Ha & Hq).
      destruct (Hparents p) as (a' & Ha' & Hq');
        [by apply (gi_edges _ _ _ _ _ Hinv)|]. congruence.
Qed.

Lemma elem_of_concat_lookup {A} (ls : list (list A)) p l x :
  ls !! p = Some l → x ∈ l → x ∈ concat ls.
Proof.
  revert p. induction ls as [|l0 ls IH]; intros [|p] Hp Hx; simplify_eq/=.
  - apply elem_of_app. by left.
  - apply elem_of_app. right. by apply (IH p).
Qed.

Lemma NoDup_concat_lookup {A} (ls : list (list A)) p i p' i' l l' x :
  NoDup (concat ls) →
  ls !! p = Some l → l !! i = Some x →
  ls !! p' = Some l' → l' !! i' = Some x →
  p = p' ∧ i = i'.
Proof.
  revert p p'. induction ls as [|l0 ls IH]; intros p p' Hnd Hp Hi Hp' Hi';
    [done|].
  simpl in Hnd. apply NoDup_app in Hnd as (Hl0 & Hdisj & Hrest).
  apply list_elem_of_lookup_2 in Hi as Hx, Hi' as Hx'.
  destruct p as [|p], p' as [|p']; simpl in Hp, Hp'.
  - assert (l = l0) as -> by congruence.
    assert (l' = l0) as -> by congruence.
    split; [done|]. by apply (NoDup_lookup l0 i i' x).
  - assert (l = l0) as -> by congruence. exfalso. apply (Hdisj x Hx).
    by apply (elem_of_concat_lookup ls p' l').
  - assert (l' = l0) as -> by congruence. exfalso. apply (Hdisj x Hx').
    by apply (elem_of_concat_lookup ls p l).
  - by destruct (IH p p' Hrest Hp Hi Hp' Hi') as [-> ->].
Qed.

Lemma forest_check_sound w roots : forest_check w roots = true → forest w roots.
Proof.
  unfold forest_check. rewrite !andb_true_iff, !forallb_forall.
  intros [[[[Hnd Hroots] Hvalid] Hslots] Horphans].
  apply bool_decide_eq_true in Hnd, Hslots.
  assert (∀ p a s, heap w !! p = Some a → s ∈ Alien.children a →
                   s ∈ all_children w) as Hin.
  { intros p a s Hp Hs. apply (elem_of_concat_lookup _ p (Alien.children a));
      [|done]. by rewrite list_lookup_fmap, Hp. }
  split.
  - done.
  - intros r Hr. apply lookup_lt_is_Some_2.
    rewrite list_elem_of_In in Hr. apply Hroots in Hr.
    by apply bool_decide_eq_true in Hr.
  - intros r p Hr (a & Hp & Hs). rewrite list_elem_of_In in Hr.
    apply Horphans in Hr. apply bool_decide_eq_true in Hr.
    apply Hr. by apply (Hin p a).
  - intros p i p' i' c (a & Hp & Hi) (a' & Hp' & Hi').
    apply (NoDup_concat_lookup (Alien.children <$> heap w) p i p' i'
             (Alien.children a) (Alien.children a') (Some c)); try done.
    + by rewrite list_lookup_fmap, Hp.
    + by rewrite list_lookup_fmap, Hp'.
  - intros r n a _ _ Hn. apply Forall_forall. intros s Hs.
    pose proof (Hin n a s Hn Hs) as Hall. rewrite list_elem_of_In in Hall.
    apply Hvalid in Hall. destruct s as [c|]; [|done].
    exists c. split; [done|]. apply lookup_lt_is_Some_2.
    by apply bool_decide_eq_true in Hall.
Qed.

(** C8 (the code departs from it).  After three turns of a game the
    registry holds the aliens [0] and [1], both live, and [None] sits in the
    child list of alien [2], a child of [1], where the collection of the
    third turn wrote it over the dead grandchild.  On this state
    [garbage_collect] does not return the live roots: it raises
    [AttributeError], and with no budget does it return. *)
Theorem garbage_collect_raises_in_game :
  ∃ w a1 a2,
    play 10 [NoCoordinates; NoCoordinates; Coordinates 5 4]
      (initial (stream crash_draws)) = Ok (Running, w)
    ∧ aliens w = [0; 1]%nat ∧ live w 0 ∧ live w 1
    ∧ heap w !! 1%nat = Some a1 ∧ Alien.children a1 = [Some 2%nat]
    ∧ heap w !! 2%nat = Some a2 ∧ Alien.squished a2 = false
    ∧ Alien.children a2 = [None]
    ∧ (∀ fuel, garbage_collect (4 + fuel) (aliens w) w = Raise AttributeError)
    ∧ ∀ fuel res w', garbage_collect fuel (aliens w) w ≠ Ok (res, w').
Proof.
  do 3 eexists. split; [vm_compute; reflexivity|].
  split; [reflexivity|].
  split; [eexists; split; reflexivity|].
  split; [eexists; split; reflexivity|].
  do 5 (split; [reflexivity|]).
  split; [intros fuel; reflexivity|].
  intros fuel res w' H.
  do 4 (destruct fuel as [|fuel]; [by vm_compute in H|]).
  discriminate H.
Qed.

(** What the collection does on any store, forest or not. *)
#[local] Instance prunes_preorder : PreOrder prunes.
Proof.
  split.
  - intros h. split; [done|]. intros n a Hn. by exists a.
  - intros h1 h2 h3 H12 H23. split.
    + rewrite (pr_len _ _ H23). apply H12.
    + intros n a Hn.
      destruct (pr_node _ _ H12 n a Hn)
        as (a2 & Hn2 & Hq2 & Hs2 & Hc2 & Hx2 & Hy2 & Hk2).
      destruct (pr_node _ _ H23 n a2 Hn2)
        as (a3 & Hn3 & Hq3 & Hs3 & Hc3 & Hx3 & Hy3 & Hk3).
      exists a3. repeat split; [done|congruence..|auto].
Qed.

Lemma prunes_update h r a l :
  h !! r = Some a →
  (∀ c, Some c ∈ l → Some c ∈ Alien.children a) →
  prunes h (<[r:=Alien.set_children l a]> h).
Proof.
  intros Hr Hl. apply lookup_lt_Some in Hr as Hlt. split.
  - by rewrite length_insert.
  - intros n b Hn. destruct (decide (n = r)) as [->|Hne].
    + rewrite list_lookup_insert_eq by done.
      assert (b = a) as -> by congruence. eexists. by repeat split.
    + rewrite list_lookup_insert_ne by done. exists b. by repeat split.
Qed.

Lemma elem_of_insert_None {A} (l : list (option A)) i (c : A) :
  Some c ∈ <[i:=None]> l → Some c ∈ l.
Proof.
  intros (j & Hj)%list_elem_of_lookup.
  apply list_lookup_insert_Some in Hj as [(_ & [=] & _)|[_ Hj]].
  by apply list_elem_of_lookup_2 in Hj.
Qed.

Lemma prunes_clear_slot p idx : respects prunes (clear_slot p idx).
Proof.
  intros w [] w' H. unfold clear_slot in H.
  apply bind_inv in H as (a & ? & [Ha ->]%alien_inv & H).
  apply bind_inv in H as (l & ? & Hl & H).
  unfold lift in Hl.
  destruct (setitem _ _ _) as [l'| |] eqn:Hset; [|done..].
  injection Hl as <- <-. apply setitem_inv in Hset as (k & _ & ->).
  apply heap_update in H as (a' & Ha' & ->).
  assert (a' = a) as -> by congruence.
  apply prunes_update; [done|]. apply elem_of_insert_None.
Qed.

#[local] Hint Resolve prunes_clear_slot : respects.

Lemma prunes_gc_loop fuel stack : respects prunes (gc_loop fuel stack).
Proof.
  revert stack. induction fuel as [|fuel IH]; intros stack; simpl; [done|].
  respects.
Qed.

#[local] Hint Resolve prunes_gc_loop : respects.

Lemma prunes_gc_root fuel r : respects prunes (gc_root fuel r).
Proof.
  unfold gc_root. respects.
  refine (respects_update _ _ _ _). intros h root Hroot.
  apply prunes_update; [done|]. by intros c [_ ?]%list_elem_of_filter.
Qed.

#[local] Hint Resolve prunes_gc_root : respects.

Lemma kept_roots_inv l w res w' :
  kept_roots l w = Ok (res, w') →
  w' = w ∧ res = filter (λ r, is_live w r = true) l.
Proof.
  revert res w'. induction l as [|r l IH]; intros res w' H; simpl in H.
  - by injection H as <- <-.
  - apply bind_inv in H as (a & ? & [Ha ->]%alien_inv & H).
    apply bind_inv in H as (rest & w1 & [-> ->]%IH & [= <- <-]).
    split; [done|].
    assert (is_live w r = negb (Alien.squished a)) as Hlive
      by (unfold is_live; by rewrite Ha).
    rewrite kept_negb, filter_cons, Hlive. by destruct (Alien.squished a).
Qed.

(** Whenever the collection returns, on any store, it returns the registry
    filtered by liveness and has only pruned child lists. *)
Lemma garbage_collect_returns_live_roots fuel roots w res w' :
  garbage_collect fuel roots w = Ok (res, w') →
  res = filter (λ r, is_live w r = true) roots
  ∧ prunes (heap w) (heap w').
Proof.
  unfold garbage_collect. intros H.
  apply bind_inv in H as ([] & w1 & H1 & [-> ->]%kept_roots_inv).
  assert (prunes (heap w) (heap w1)) as Hpr.
  { revert H1. apply respects_for_each; [apply _|]. intros r. respects. }
  split; [|done]. apply list_filter_iff. intros r. unfold is_live.
  destruct (heap w !! r) as [a|] eqn:Ha.
  - destruct (pr_node _ _ Hpr r a Ha) as (a' & -> & -> & _). done.
  - apply lookup_ge_None in Ha. rewrite <- (pr_len _ _ Hpr) in Ha.
    apply lookup_ge_None in Ha. by rewrite Ha.
Qed.

(** ** C9: the nuke *)

(** The nuke condition is not evaluated before the seventh turn: with a turn
    count of at most 5 nothing happens, whatever the strengths. *)
Lemma win_by_nuke_early w :
  Player.turn (player w) ≤ 5 → win_by_nuke w = Ok (false, w).
Proof.
  intros H. unfold win_by_nuke.
  rewrite (bind_ok _ _ w (player w) w) by done.
  rewrite bool_decide_eq_false_2; [done|lia].
Qed.

(** What the nuke does on a coherent board. *)
Lemma scanned_step w0 visited w c :
  on_board c → scanned w0 visited w →
  ∃ w', kill_at c w = Ok (tt, w') ∧ scanned w0 (visited ++ [c]) w'.
Proof.
  intros Hc Hsc. pose proof (sc_wf _ _ _ Hsc) as Hwf.
  destruct (wf_slot w c Hwf Hc) as [o Ho].
  destruct Hc as [[Hc1 ?] [Hc2 ?]].
  unfold kill_at.
  rewrite (bind_ok _ _ w o w)
    by (rewrite getAlien_cell_at; by apply lift_ok, cell_at_slot).
  destruct o as [r|].
  - destruct (sc_coherent _ _ _ Hsc _ _ r Ho) as (a & Ha & Hcoords).
    rewrite !Z2Nat.id in Hcoords by done.
    assert (Alien.coords a = c) as Hac by (by destruct c).
    exists (after_death r a w). split; [by apply doDeath_ok|].
    assert (∀ i j, slot (grid (after_death r a w)) i j =
                   if decide (i = Z.to_nat c.1 ∧ j = Z.to_nat c.2)
                   then Some None else slot (grid w) i j) as Hgrid.
    { intros i j.
      change (grid (after_death r a w))
        with (put_cell (grid w) (Alien.coords a) None).
      rewrite slot_put_cell, Hac. case_decide as Hij; [|done].
      destruct Hij as [-> ->]. by rewrite Ho. }
    assert (dead (after_death r a w) r) as Hdead.
    { exists (Alien.set_squished true a). split; [|done]. simpl.
      apply list_lookup_insert_eq. by apply lookup_lt_Some in Ha. }
    split.
    + by apply after_death_wf.
    + intros i j r' Hij. rewrite Hgrid in Hij. case_decide; [done|].
      destruct (sc_coherent _ _ _ Hsc _ _ r' Hij) as (a' & Ha' & Hc').
      destruct (ok_heap _ _ (after_death_only_kills w r a Ha) r' a' Ha')
        as (a'' & Ha'' & _ & Hc'' & _).
      exists a''. split; [done|congruence].
    + intros i j r' Hij. rewrite Hgrid.
      destruct (sc_occupants _ _ _ Hsc i j r' Hij) as [Hstill|[Hgone Hd]].
      * case_decide as Hcell; [|by left]. right. split; [done|].
        destruct Hcell as [-> ->]. by assert (r' = r) as -> by congruence.
      * right. split; [by case_decide|].
        destruct Hd as (a' & Ha' & Hq').
        destruct (ok_heap _ _ (after_death_only_kills w r a Ha) r' a' Ha')
          as (a'' & Ha'' & _ & _ & Hq'').
        exists a''. auto.
    + intros c' [Hold| ->%list_elem_of_singleton]%elem_of_app; rewrite Hgrid.
      * case_decide; [done|]. by apply (sc_visited _ _ _ Hsc).
      * by rewrite decide_True.
  - exists w. split; [done|]. split; try apply Hsc.
    intros c' [Hold| ->%list_elem_of_singleton]%elem_of_app; [|done].
    by apply (sc_visited _ _ _ Hsc).
Qed.

Lemma scanned_all w0 cells :
  Forall on_board cells →
  ∀ visited w, scanned w0 visited w →
  ∃ w', for_each cells kill_at w = Ok (tt, w')
        ∧ scanned w0 (visited ++ cells) w'.
Proof.
  induction 1 as [|c cells Hc _ IH]; intros visited w Hsc; simpl.
  - exists w. by rewrite app_nil_r.
  - destruct (scanned_step w0 visited w c Hc Hsc) as (w1 & Hrun & Hsc1).
    destruct (IH _ _ Hsc1) as (w2 & Hrun2 & Hsc2).
    exists w2. rewrite (bind_ok _ _ _ _ _ Hrun).
    split; [done|]. by rewrite <- app_assoc in Hsc2.
Qed.

Lemma elem_of_cells_of n m c :
  c ∈ cells_of n m ↔ 0 ≤ c.1 < n ∧ 0 ≤ c.2 < m.
Proof.
  unfold cells_of, range. rewrite list_elem_of_bind. split.
  - intros (i & (j & ->%list_elem_of_singleton & Hj%elem_of_seqZ)%list_elem_of_bind
              & Hi%elem_of_seqZ).
    simpl. lia.
  - intros [H1 H2]. exists c.1. split; [|apply elem_of_seqZ; lia].
    apply list_elem_of_bind. exists c.2.
    split; [destruct c; apply list_elem_of_singleton; done|apply elem_of_seqZ; lia].
Qed.

(** On a well-formed and coherent board the nuke kills every occupant and
    leaves the board empty. *)
Lemma nuke_board_coherent w :
  well_formed w → coherent w →
  ∃ w', nuke_board w = Ok (tt, w')
        ∧ (∀ r, on_grid w r → dead w' r)
        ∧ (∀ c, on_board c → getAlien c w' = Ok (None, w')).
Proof.
  intros Hwf Hco. unfold nuke_board.
  rewrite (bind_ok _ _ w (board w) w) by done.
  rewrite (wf_width _ Hwf), (wf_height _ Hwf).
  destruct (scanned_all w (cells_of WIDTH HEIGHT)) with (visited := @nil (Z * Z)) (w := w)
    as (w' & Hrun & Hsc).
  { apply Forall_forall. intros c Hc. by apply elem_of_cells_of in Hc. }
  { split; [done..| |].
    - intros i j r Hij. by left.
    - intros c Hc. by apply elem_of_nil in Hc. }
  exists w'. split; [done|].
  assert (∀ c, on_board c →
            slot (grid w') (Z.to_nat c.1) (Z.to_nat c.2) = Some None) as Hempty.
  { intros c Hc. apply (sc_visited _ _ _ Hsc). simpl.
    by apply elem_of_cells_of. }
  split.
  - intros r (i & j & Hij)%elem_of_concat_slot.
    destruct (sc_occupants _ _ _ Hsc i j r Hij) as [Hstill|[_ Hd]]; [|done].
    exfalso.
    assert (on_board (Z.of_nat i, Z.of_nat j)) as Hc.
    { unfold slot in Hij.
      destruct (grid w !! i) as [row|] eqn:Hrow; [|done]. simpl in Hij.
      apply lookup_lt_Some in Hrow as Hi, Hij as Hj.
      rewrite (Forall_lookup_1 _ _ _ _ (wf_cols _ Hwf) Hrow) in Hj.
      rewrite (wf_rows _ Hwf) in Hi. unfold on_board, WIDTH, HEIGHT. simpl.
      lia. }
    apply Hempty in Hc. simpl in Hc. rewrite !Nat2Z.id in Hc. congruence.
  - intros c Hc. rewrite getAlien_cell_at.
    apply lift_ok, cell_at_slot; [apply Hc..|by apply Hempty].
Qed.

(** X27.  Past turn 5, with the aliens weaker than the player, the check
    wins and on a well-formed and coherent board nothing survives it: every
    alien of the grid is squished and every cell of the board is empty. *)
Lemma win_by_nuke_coherent w total :
  well_formed w → coherent w →
  Player.turn (player w) > 5 →
  total_alien_strength w = Ok (total, w) →
  total < Player.strength (player w) →
  ∃ w', win_by_nuke w = Ok (true, w')
        ∧ (∀ r, on_grid w r → dead w' r)
        ∧ (∀ c, on_board c → getAlien c w' = Ok (None, w')).
Proof.
  intros Hwf Hco Hturn Htotal Hless.
  destruct (nuke_board_coherent w Hwf Hco) as (w' & Hrun & Hdead & Hempty).
  exists w'. split; [|done]. unfold win_by_nuke.
  rewrite (bind_ok _ _ w (player w) w) by done.
  rewrite bool_decide_eq_true_2 by done.
  rewrite (bind_ok _ _ _ _ _ Htotal).
  rewrite bool_decide_eq_true_2 by done.
  by rewrite (bind_ok _ _ _ _ _ Hrun).
Qed.

(** C9 (the code departs from it).  After six turns the turn count is 6, the
    live aliens on the grid are [1] at (3,4) and [2] at (3,3), both of
    strength 1, and the player's strength is 4.  The seventh turn ends in a
    win by nuke, yet alien [1] is not killed: the scan reaches (3,3) first,
    and the death of alien [2] clears the cell named by its [coords], (3,4),
    before the scan gets there.  The board is well formed but not coherent:
    alien [2] was refused a move to (3,4) and kept the new [coords]. *)
Theorem nuke_skips_displaced_alien :
  ∃ w w',
    play 10 nuke_game (initial (stream nuke_draws)) = Ok (Running, w)
    ∧ Player.turn (player w) = 6
    ∧ Player.strength (player w) = 4
    ∧ total_alien_strength w = Ok (2, w)
    ∧ live w 1%nat ∧ on_grid w 1%nat ∧ live w 2%nat ∧ on_grid w 2%nat
    ∧ well_formed w ∧ ¬ coherent w
    ∧ main_turn 10 NoCoordinates w = Ok (WinByNuke, w')
    ∧ dead w' 2%nat
    ∧ live w' 1%nat.
Proof.
  do 2 eexists.
  split; [vm_compute; reflexivity|].
  split; [vm_compute; reflexivity|].
  split; [vm_compute; reflexivity|].
  split; [vm_compute; reflexivity|].
  split; [eexists; split; vm_compute; reflexivity|].
  split; [apply list_elem_of_lookup; by exists 28%nat|].
  split; [eexists; split; vm_compute; reflexivity|].
  split; [apply list_elem_of_lookup; by exists 27%nat|].
  split; [by apply well_formed_check_sound; vm_compute|].
  split.
  { intros Hco. destruct (Hco 3%nat 3%nat 2%nat) as (a & Ha & Hc); [done|].
    vm_compute in Ha. injection Ha as <-. discriminate Hc. }
  split; [vm_compute; reflexivity|].
  split; eexists; split; vm_compute; reflexivity.
Qed.

(** ** C10: the unguarded lookup *)

(** C10.  On a board whose grid has [h] rows of [wd] cells, a lookup at
    [(x, y)] with [-h <= x < 0] and [y] a valid column does not raise: it
    returns the content of row [h + x], the row at the opposite edge, while
    the bounds test [inRange] rejects the coordinate; likewise a negative
    [y] with [-wd <= y < 0] reads column [wd + y]. *)
Theorem getAlien_negative_wraps w x y row :
  (- Z.of_nat (length (grid w)) ≤ x < 0 →
   getAlien (x, y) w = getAlien (Z.of_nat (length (grid w)) + x, y) w) ∧
  (- Z.of_nat (length (grid w)) ≤ x < 0 →
   grid w !! Z.to_nat (Z.of_nat (length (grid w)) + x) = Some row →
   0 ≤ y < Z.of_nat (length row) →
   getAlien (x, y) w = Ok (default None (row !! Z.to_nat y), w)
   ∧ inRange (x, y) w = Ok (false, w)) ∧
  (0 ≤ x → grid w !! Z.to_nat x = Some row →
   - Z.of_nat (length row) ≤ y < 0 →
   getAlien (x, y) w = getAlien (x, Z.of_nat (length row) + y) w
   ∧ inRange (x, y) w = Ok (false, w)).
Proof.
  split; [|split].
  - intros Hx. unfold getAlien. simpl.
    rewrite !(bind_ok _ _ w (grid w) w) by done.
    rewrite getitem_neg by done. by rewrite Z.add_comm.
  - intros Hx Hrow Hy. split.
    + unfold getAlien. simpl.
      rewrite (bind_ok _ _ w (grid w) w) by done.
      rewrite getitem_neg by done. rewrite Z.add_comm.
      rewrite (bind_ok _ _ w row w)
        by (apply lift_ok, getitem_nonneg; [lia|done]).
      unfold lift, getitem. rewrite py_index_nonneg by done.
      destruct (row !! Z.to_nat y) eqn:E; [done|].
      apply lookup_ge_None in E. lia.
    + unfold inRange. rewrite (bind_ok _ _ w (board w) w) by done.
      unfold ret. simpl. rewrite bool_decide_eq_false_2; [done|lia].
  - intros Hx Hrow Hy. split.
    + unfold getAlien. simpl.
      rewrite !(bind_ok _ _ w (grid w) w) by done.
      rewrite !(bind_ok _ _ w row w)
        by (by apply lift_ok, getitem_nonneg).
      unfold lift. rewrite getitem_neg by done. by rewrite Z.add_comm.
    + unfold inRange. rewrite (bind_ok _ _ w (board w) w) by done.
      unfold ret. simpl.
      rewrite (bool_decide_eq_false_2 (0 ≤ y < _)); [|lia].
      by rewrite andb_false_r.
Qed.

Lemma getAlien_negative_wraps_witness :
  ∃ w, (Alien_init (7, 0) 3 (initial (stream [])) = Ok (0%nat, w)
        ∧ getAlien (-1, 0) w = Ok (Some 0%nat, w)
        ∧ inRange (-1, 0) w = Ok (false, w)).
Proof.
  eexists. split; [vm_compute; reflexivity|].
  match goal with |- getAlien _ ?w = _ ∧ _ =>
    pose proof (getAlien_negative_wraps w (-1) 0 (Some 0%nat :: replicate 7 None))
      as (_ & H & _)
  end.
  apply H; [cbn; lia | reflexivity | cbn; lia].
Defined.

(** * Further properties of the engine *)

(** * Further properties of the engine *)

(** ** Board: writing and reading a cell *)

Lemma py_index_lt {A} (l : list A) i k :
  py_index l i = Some k → (k < length l)%nat.
Proof. unfold py_index. repeat case_decide; intros [= <-]; lia. Qed.

Lemma py_index_length {A B} (l : list A) (l' : list B) i :
  length l = length l' → py_index l i = py_index l' i.
Proof. unfold py_index. by intros ->. Qed.

Lemma cell_at_nonneg g c :
  0 ≤ c.1 → 0 ≤ c.2 →
  cell_at g c = match slot g (Z.to_nat c.1) (Z.to_nat c.2) with
                | Some o => Ok o
                | None => Raise IndexError
                end.
Proof.
  intros H1 H2. unfold cell_at, slot, getitem, py_index.
  destruct (decide (0 ≤ c.1 < Z.of_nat (length g))) as [Hlt|Hge].
  - destruct (lookup_lt_is_Some_2 g (Z.to_nat c.1)) as [row ->]; [lia|]. simpl.
    destruct (decide (0 ≤ c.2 < Z.of_nat (length row))) as [Hlt'|Hge'].
    + by destruct (row !! Z.to_nat c.2).
    + rewrite decide_False by lia.
      rewrite (lookup_ge_None_2 row) by lia. done.
  - rewrite decide_False by lia.
    rewrite (lookup_ge_None_2 g) by lia. done.
Qed.

(** A write that returns is a write to the cell that Python's indexing
    selects. *)
Lemma set_cell_exact c v w w' :
  set_cell c v w = Ok (tt, w') →
  ∃ i j row, py_index (grid w) c.1 = Some i ∧ grid w !! i = Some row
             ∧ py_index row c.2 = Some j
             ∧ w' = set_grid (put_cell (grid w) (Z.of_nat i, Z.of_nat j) v) w.
Proof.
  unfold set_cell. intros H.
  apply bind_inv in H as (g & ? & [= <- <-] & H).
  apply bind_inv in H as (row & w1 & H1 & H).
  apply bind_inv in H as (row' & w2 & H2 & H).
  apply bind_inv in H as (g' & w3 & H3 & H).
  unfold lift in *.
  destruct (getitem _ _) as [row0| |] eqn:Hrow; [|done..].
  injection H1 as <- <-.
  destruct (setitem row0 _ _) as [row1| |] eqn:Hset; [|done..].
  injection H2 as <- <-.
  destruct (setitem _ _ row1) as [g1| |] eqn:Hset'; [|done..].
  injection H3 as <- <-. injection H as <-.
  apply getitem_inv in Hrow as (i & Hi & Hrow).
  apply setitem_inv in Hset as (j & Hj & ->).
  apply setitem_inv in Hset' as (i' & Hi' & ->).
  assert (i' = i) as -> by (unfold grid in *; congruence).
  exists i, j, row0. split_and!; [done..|].
  unfold set_grid. do 2 f_equal.
  unfold put_cell, grid in *. simpl. rewrite !Nat2Z.id.
  apply list_eq. intros k. apply lookup_lt_Some in Hrow as Hlt.
  destruct (decide (k = i)) as [->|].
  - rewrite list_lookup_insert_eq by done. rewrite list_lookup_alter_eq.
    by rewrite Hrow.
  - rewrite list_lookup_insert_ne by done. by rewrite list_lookup_alter_ne.
Qed.

Lemma set_cell_getAlien c v w w' :
  set_cell c v w = Ok (tt, w') → getAlien c w' = Ok (v, w').
Proof.
  intros (i & j & row & Hi & Hrow & Hj & ->)%set_cell_exact.
  rewrite getAlien_cell_at. apply lift_ok.
  change (grid (set_grid ?g w)) with g.
  unfold cell_at, put_cell. simpl. rewrite !Nat2Z.id.
  unfold getitem at 1.
  rewrite (py_index_length _ (grid w)) by apply length_alter.
  rewrite Hi, list_lookup_alter_eq, Hrow. simpl.
  unfold getitem.
  rewrite (py_index_length _ row) by apply length_insert.
  rewrite Hj, list_lookup_insert_eq; [done|]. by apply py_index_lt in Hj.
Qed.

Lemma set_cell_frame c v w w' c' :
  set_cell c v w = Ok (tt, w') →
  0 ≤ c.1 → 0 ≤ c.2 → 0 ≤ c'.1 → 0 ≤ c'.2 → c' ≠ c →
  cell_at (grid w') c' = cell_at (grid w) c'.
Proof.
  intros (i & j & row & Hi & Hrow & Hj & ->)%set_cell_exact H1 H2 H1' H2' Hne.
  change (grid (set_grid ?g w)) with g.
  rewrite !cell_at_nonneg by done. rewrite slot_put_cell. simpl.
  rewrite !Nat2Z.id. rewrite decide_False; [done|].
  intros [Hi' Hj']. apply Hne.
  unfold py_index in Hi, Hj. repeat case_decide; simplify_eq; try lia.
  destruct c, c'; simpl in *. f_equal; lia.
Qed.

(** X1.  A cell that was written reads back what was written: after
    [addAlien] the alien is found at its [coords], after [clearCell] the cell
    is empty; the other cells of the grid, the store, the player and the
    registry are as before. *)
Theorem cell_write_then_read w w' :
  (∀ r a, heap w !! r = Some a → addAlien r w = Ok (tt, w') →
          getAlien (Alien.coords a) w' = Ok (Some r, w'))
  ∧ (∀ c, clearCell c w = Ok (tt, w') → isEmpty c w' = Ok (true, w'))
  ∧ (∀ c v, set_cell c v w = Ok (tt, w') →
       heap w' = heap w ∧ player w' = player w ∧ aliens w' = aliens w
       ∧ ∀ c', 0 ≤ c.1 → 0 ≤ c.2 → 0 ≤ c'.1 → 0 ≤ c'.2 → c' ≠ c →
               getAlien c' w' = lift (cell_at (grid w) c') w').
Proof.
  split_and!.
  - intros r a Ha H. unfold addAlien in H.
    rewrite (bind_ok _ _ w a w) in H by (unfold alien; by rewrite Ha).
    by apply (set_cell_getAlien _ _ w).
  - intros c H. unfold clearCell in H. apply set_cell_getAlien in H.
    unfold isEmpty. by rewrite (bind_ok _ _ _ _ _ H).
  - intros c v H. pose proof H as (i & j & row & _ & _ & _ & ->)%set_cell_exact.
    split_and!; [done..|].
    intros c' ? ? ? ? Hne. rewrite getAlien_cell_at.
    by rewrite (set_cell_frame c v w _ c' H).
Qed.

Lemma cell_write_then_read_witness :
  ∃ w', Alien_init (3, 3) 2 (initial (stream [])) = Ok (0%nat, w')
        ∧ getAlien (3, 3) w' = Ok (Some 0%nat, w').
Proof.
  eexists. split; [vm_compute; reflexivity|].
  set (w0 := set_heap [Alien.mk (3, 3) 2 3 3 false []] (initial (stream []))).
  refine (proj1 (cell_write_then_read w0 _) 0%nat (Alien.mk (3, 3) 2 3 3 false [])
            _ _); vm_compute; reflexivity.
Defined.


(** ** Board.moveAlien *)

Lemma getAlien_slot w c o :
  0 ≤ c.1 → 0 ≤ c.2 → getAlien c w = Ok (o, w) →
  slot (grid w) (Z.to_nat c.1) (Z.to_nat c.2) = Some o.
Proof.
  intros H1 H2 [_ H]%getAlien_inv. rewrite cell_at_nonneg in H by done.
  by destruct (slot _ _ _); simplify_eq.
Qed.

Lemma slot_getAlien w c o :
  0 ≤ c.1 → 0 ≤ c.2 →
  slot (grid w) (Z.to_nat c.1) (Z.to_nat c.2) = Some o →
  getAlien c w = Ok (o, w).
Proof.
  intros H1 H2 H. rewrite getAlien_cell_at. by apply lift_ok, cell_at_slot.
Qed.

Lemma isEmpty_getAlien c w o :
  getAlien c w = Ok (o, w) → isEmpty c w = Ok (bool_decide (o = None), w).
Proof. intros H. unfold isEmpty. by rewrite (bind_ok _ _ _ _ _ H). Qed.

Lemma inRange_inv c w b w' :
  inRange c w = Ok (b, w') → w' = w ∧ (b = true ↔ in_bounds w c).
Proof.
  intros [= <- <-]. split; [done|]. unfold in_bounds.
  rewrite andb_true_iff, !bool_decide_eq_true. done.
Qed.

Lemma isEmpty_inv c w b w' :
  isEmpty c w = Ok (b, w') →
  w' = w ∧ ∃ o, cell_at (grid w) c = Ok o ∧ b = bool_decide (o = None).
Proof.
  unfold isEmpty. intros H.
  apply bind_inv in H as (o & ? & [-> Ho]%getAlien_inv & [= <- <-]). eauto.
Qed.

(** The state after a move of [r], whose record was [a], from [old] to
    [new]. *)
Lemma moveAlien_ok w old new r a :
  0 ≤ old.1 → 0 ≤ old.2 → 0 ≤ new.1 → 0 ≤ new.2 →
  getAlien old w = Ok (Some r, w) → getAlien new w = Ok (None, w) →
  heap w !! r = Some a →
  moveAlien old new w = Ok (tt, moved old new r a w).
Proof.
  intros Ho1 Ho2 Hn1 Hn2 Hold Hnew Ha. unfold moveAlien.
  rewrite (bind_ok _ _ _ _ _ (isEmpty_getAlien _ _ _ Hold)).
  rewrite bool_decide_eq_false_2 by done.
  rewrite (bind_ok _ _ _ _ _ (isEmpty_getAlien _ _ _ Hnew)).
  rewrite bool_decide_eq_true_2 by done. simpl.
  rewrite (bind_ok _ _ _ _ _ Hold).
  apply getAlien_slot in Hold as Hso, Hnew as Hsn; [|done..].
  unfold clearCell. rewrite (bind_ok _ _ _ _ _ (set_cell_ok _ _ _ _ Ho1 Ho2 Hso)).
  erewrite bind_ok; last first.
  { eapply (set_cell_ok _ new); [done..|].
    change (grid (set_grid ?g w)) with g. rewrite slot_put_cell.
    rewrite Hsn. by case_decide. }
  unfold update, moved. simpl. by rewrite Ha.
Qed.

(** What is read from the grid after the move. *)
Lemma moved_reads w old new r a :
  0 ≤ old.1 → 0 ≤ old.2 → 0 ≤ new.1 → 0 ≤ new.2 →
  getAlien old w = Ok (Some r, w) → getAlien new w = Ok (None, w) →
  getAlien new (moved old new r a w) = Ok (Some r, moved old new r a w)
  ∧ getAlien old (moved old new r a w) = Ok (None, moved old new r a w).
Proof.
  intros Ho1 Ho2 Hn1 Hn2 Hold Hnew.
  apply getAlien_slot in Hold as Hso, Hnew as Hsn; [|done..].
  assert (¬ (Z.to_nat old.1 = Z.to_nat new.1 ∧ Z.to_nat old.2 = Z.to_nat new.2))
    as Hne by (intros [E1 E2]; rewrite E1, E2 in Hso; congruence).
  split.
  - apply slot_getAlien; [done..|]. unfold moved, grid. simpl.
    fold (grid w). rewrite slot_put_cell, decide_True by done.
    rewrite slot_put_cell, Hsn. by case_decide.
  - apply slot_getAlien; [done..|]. unfold moved, grid. simpl.
    fold (grid w). rewrite slot_put_cell, decide_False by done.
    rewrite slot_put_cell, decide_True by done. by rewrite Hso.
Qed.

(** X2.  A move from an occupied cell of the board to an empty one returns:
    afterwards the alien is found in the new cell, the old cell is empty, the
    alien's [x] and [y] are the new cell; its [coords] and every other
    attribute, every other alien, the player and the registry are left as
    they were. *)
Theorem moveAlien_moves w old new r a :
  on_board old → on_board new →
  getAlien old w = Ok (Some r, w) → getAlien new w = Ok (None, w) →
  heap w !! r = Some a →
  ∃ w', moveAlien old new w = Ok (tt, w')
        ∧ getAlien new w' = Ok (Some r, w')
        ∧ getAlien old w' = Ok (None, w')
        ∧ heap w' =
            <[r:=Alien.mk (Alien.coords a) (Alien.strength a) new.1 new.2
                   (Alien.squished a) (Alien.children a)]> (heap w)
        ∧ player w' = player w ∧ aliens w' = aliens w.
Proof.
  intros [[Ho1 _] [Ho2 _]] [[Hn1 _] [Hn2 _]] Hold Hnew Ha.
  exists (moved old new r a w).
  split; [by apply moveAlien_ok|].
  destruct (moved_reads w old new r a) as [Hrn Hro]; done.
Qed.

Lemma moveAlien_moves_witness :
  ∃ w w', Alien_init (3, 3) 2 (initial (stream [])) = Ok (0%nat, w)
          ∧ moveAlien (3, 3) (3, 4) w = Ok (tt, w')
          ∧ getAlien (3, 4) w' = Ok (Some 0%nat, w').
Proof.
  eexists.
  destruct (moveAlien_moves
              (set_grid (put_cell (grid (initial (stream []))) (3, 3) (Some 0%nat))
                 (set_heap [Alien.mk (3, 3) 2 3 3 false []] (initial (stream []))))
              (3, 3) (3, 4) 0%nat (Alien.mk (3, 3) 2 3 3 false []))
    as (w' & Hrun & Hnew & _);
    [unfold on_board, WIDTH, HEIGHT; simpl; lia
    |unfold on_board, WIDTH, HEIGHT; simpl; lia
    |reflexivity|reflexivity|reflexivity|].
  exists w'. split; [vm_compute; reflexivity|]. split; [exact Hrun|exact Hnew].
Defined.

Lemma moveAlien_noop w old new o_old :
  getAlien old w = Ok (o_old, w) →
  o_old = None ∨ (∃ o_new, getAlien new w = Ok (Some o_new, w)) →
  moveAlien old new w = Ok (tt, w).
Proof.
  intros Hold Hcase. unfold moveAlien.
  rewrite (bind_ok _ _ _ _ _ (isEmpty_getAlien _ _ _ Hold)).
  destruct Hcase as [->|[o_new Hnew]]; [done|].
  case_bool_decide; [done|].
  rewrite (bind_ok _ _ _ _ _ (isEmpty_getAlien _ _ _ Hnew)).
  by rewrite bool_decide_eq_false_2.
Qed.

(** X3.  A move is refused, and the whole state is left as it is, when the
    old cell is empty or the new cell is occupied; in particular an alien is
    never written over another one. *)
Theorem moveAlien_refused w old new :
  isEmpty old w = Ok (true, w)
  ∨ (isEmpty old w = Ok (false, w) ∧ isEmpty new w = Ok (false, w)) →
  moveAlien old new w = Ok (tt, w).
Proof.
  intros [Hold|[Hold Hnew]].
  - apply isEmpty_inv in Hold as [_ (o & Ho & Hb)].
    apply (moveAlien_noop _ _ _ o).
    + rewrite getAlien_cell_at. by apply lift_ok.
    + left. symmetry in Hb. by apply bool_decide_eq_true in Hb.
  - apply isEmpty_inv in Hold as [_ (o & Ho & _)].
    apply isEmpty_inv in Hnew as [_ (o' & Ho' & Hb')].
    apply (moveAlien_noop _ _ _ o).
    + rewrite getAlien_cell_at. by apply lift_ok.
    + right. destruct o' as [n|]; [|done]. exists n.
      rewrite getAlien_cell_at. by apply lift_ok.
Qed.

Lemma moveAlien_refused_witness :
  moveAlien (3, 3) (3, 4) (initial (stream [])) = Ok (tt, initial (stream [])).
Proof.
  apply moveAlien_refused. left. reflexivity.
Defined.


(** ** Alien.doTravel *)

Lemma inRange_ok w c :
  inRange c w = Ok (bool_decide (0 ≤ c.1 < Board.width (board w))
                    && bool_decide (0 ≤ c.2 < Board.height (board w)), w).
Proof. done. Qed.

(** X4.  An alien that sits in the cell its [coords] and its [x], [y] name,
    and draws offsets towards an empty cell of the board, moves there: the
    new cell holds it, the old cell is empty, and [coords], [x] and [y] all
    name the new cell.  Nothing else changes: the store is the old one with
    that alien's record updated, the grid is the old one with these two
    cells written, and the dimensions of the board, the player, the
    registry and the random stream are as before. *)
Theorem doTravel_by_moves w r a distx disty :
  heap w !! r = Some a →
  Alien.coords a = (Alien.x a, Alien.y a) →
  0 ≤ Alien.x a → 0 ≤ Alien.y a →
  getAlien (Alien.coords a) w = Ok (Some r, w) →
  in_bounds w (Alien.x a + distx, Alien.y a + disty) →
  getAlien (Alien.x a + distx, Alien.y a + disty) w = Ok (None, w) →
  ∃ w', doTravel_by r distx disty w = Ok (tt, w')
        ∧ getAlien (Alien.x a + distx, Alien.y a + disty) w' = Ok (Some r, w')
        ∧ getAlien (Alien.coords a) w' = Ok (None, w')
        ∧ heap w' =
            <[r:=Alien.mk (Alien.x a + distx, Alien.y a + disty)
                   (Alien.strength a) (Alien.x a + distx) (Alien.y a + disty)
                   (Alien.squished a) (Alien.children a)]> (heap w)
        ∧ board w' =
            Board.set_board
              (put_cell (put_cell (grid w) (Alien.coords a) None)
                 (Alien.x a + distx, Alien.y a + disty) (Some r))
              (board w)
        ∧ player w' = player w ∧ aliens w' = aliens w
        ∧ rng w' = rng w ∧ rpos w' = rpos w.
Proof.
  intros Ha Hc Hx Hy Hold [Hn1 Hn2] Hnew. simpl in Hn1, Hn2.
  set (new := (Alien.x a + distx, Alien.y a + disty)) in *.
  assert (0 ≤ (Alien.coords a).1 ∧ 0 ≤ (Alien.coords a).2) as [Hc1 Hc2]
    by (by rewrite Hc).
  assert (0 ≤ new.1 ∧ 0 ≤ new.2) as [Hn1' Hn2'] by (simpl; lia).
  set (w1 := moved (Alien.coords a) new r a w).
  pose proof (moveAlien_ok w _ new r a Hc1 Hc2 Hn1' Hn2' Hold Hnew Ha)
    as Hmove. fold w1 in Hmove.
  destruct (moved_reads w _ new r a Hc1 Hc2 Hn1' Hn2' Hold Hnew)
    as [Hnew1 Hold1]. fold w1 in Hnew1, Hold1.
  assert (heap w1 = <[r:=Alien.set_xy new a]> (heap w)) as Hheap by done.
  assert (update r (Alien.set_coords new) w1
          = Ok (tt, set_heap (<[r:=Alien.set_coords new (Alien.set_xy new a)]>
                                (heap w1)) w1)) as Hup.
  { unfold update. rewrite Hheap, list_lookup_insert_eq; [done|].
    by apply lookup_lt_Some in Ha. }
  eexists. split.
  { unfold doTravel_by. rewrite (bind_ok _ _ w a w) by (unfold alien; by rewrite Ha).
    cbv zeta. fold new. rewrite (bind_ok _ _ _ _ _ (inRange_ok w new)).
    rewrite !bool_decide_eq_true_2 by done. simpl.
    rewrite (bind_ok _ _ _ _ _ Hmove). exact Hup. }
  split_and!; [| | |done..].
  - apply getAlien_inv in Hnew1 as [_ Hnew1]. rewrite getAlien_cell_at.
    by apply lift_ok.
  - apply getAlien_inv in Hold1 as [_ Hold1]. rewrite getAlien_cell_at.
    by apply lift_ok.
  - subst w1. unfold moved. simpl. by rewrite list_insert_insert_eq.
Qed.

Lemma doTravel_by_moves_witness :
  ∃ w w', Alien_init (3, 3) 2 (initial (stream [])) = Ok (0%nat, w)
          ∧ doTravel_by 0%nat 0 1 w = Ok (tt, w')
          ∧ getAlien (3, 4) w' = Ok (Some 0%nat, w').
Proof.
  eexists.
  destruct (doTravel_by_moves
              (set_grid (put_cell (grid (initial (stream []))) (3, 3) (Some 0%nat))
                 (set_heap [Alien.mk (3, 3) 2 3 3 false []] (initial (stream []))))
              0%nat (Alien.mk (3, 3) 2 3 3 false []) 0 1)
    as (w' & Hrun & Hnew & _);
    [reflexivity|reflexivity|simpl; lia|simpl; lia|reflexivity
    |unfold in_bounds; simpl; unfold WIDTH, HEIGHT; lia|reflexivity|].
  exists w'. split; [vm_compute; reflexivity|]. split; [exact Hrun|exact Hnew].
Defined.

(** What a move that returns has done. *)
Lemma moveAlien_inv old new w w' :
  moveAlien old new w = Ok (tt, w') →
  w' = w
  ∨ ∃ r a, cell_at (grid w) old = Ok (Some r) ∧ heap w !! r = Some a
           ∧ heap w' = <[r:=Alien.set_xy new a]> (heap w)
           ∧ player w' = player w ∧ aliens w' = aliens w.
Proof.
  unfold moveAlien. intros H.
  apply bind_inv in H as (e_old & w1 & H1 & H).
  unfold isEmpty in H1.
  apply bind_inv in H1 as (o1 & ? & [-> _]%getAlien_inv & [= <- <-]).
  case_bool_decide; [left; by injection H as <-|].
  apply bind_inv in H as (e_new & w2 & H2 & H).
  unfold isEmpty in H2.
  apply bind_inv in H2 as (o2 & ? & [-> _]%getAlien_inv & [= <- <-]).
  case_bool_decide; simpl in H; [|left; by injection H as <-].
  apply bind_inv in H as (o & ? & [-> Ho]%getAlien_inv & H).
  apply bind_inv in H as ([] & w3 & H3 & H).
  apply bind_inv in H as ([] & w4 & H4 & H).
  destruct o as [r|]; [|done]. right.
  apply set_cell_exact in H3 as (? & ? & ? & _ & _ & _ & ->).
  apply set_cell_exact in H4 as (? & ? & ? & _ & _ & _ & ->).
  unfold update in H. simpl in H.
  destruct (heap w !! r) as [a|] eqn:Ha; [|done]. injection H as <-.
  exists r, a. done.
Qed.

(** X5.  Whatever the state, a call of [doTravel] that returns has moved the
    alien's position [x], [y] by at most one cell along each axis, and has
    left its strength, its squished flag and its children alone. *)
Theorem doTravel_one_step r w w' a :
  heap w !! r = Some a → doTravel r w = Ok (tt, w') →
  ∃ a', heap w' !! r = Some a'
        ∧ -1 ≤ Alien.x a' - Alien.x a ≤ 1
        ∧ -1 ≤ Alien.y a' - Alien.y a ≤ 1
        ∧ Alien.strength a' = Alien.strength a
        ∧ Alien.squished a' = Alien.squished a
        ∧ Alien.children a' = Alien.children a.
Proof.
  intros Ha H. unfold doTravel in H.
  apply bind_inv in H as (distx & w1 & Hdx & H).
  apply bind_inv in H as (disty & w2 & Hdy & H).
  apply randint_range in Hdx as Hx; [|lia].
  apply randint_range in Hdy as Hy; [|lia].
  assert (heap w2 = heap w) as Hheap.
  { by injection Hdx as _ <-; injection Hdy as _ <-. }
  unfold doTravel_by in H.
  apply bind_inv in H as (a0 & ? & [Ha0 ->]%alien_inv & H).
  assert (a0 = a) as -> by congruence. cbv zeta in H.
  apply bind_inv in H as (ok & ? & [= <- <-] & H).
  destruct (bool_decide _ && bool_decide _); simpl in H.
  2:{ injection H as <-. exists a. split_and!; try done; lia. }
  apply bind_inv in H as ([] & w3 & Hmove & H).
  apply heap_update in H as (a3 & Ha3 & ->).
  apply lookup_lt_Some in Ha3 as Hlt.
  rewrite list_lookup_insert_eq by done.
  eexists; split; [done|].
  apply moveAlien_inv in Hmove as [->|(r0 & a1 & _ & Ha1 & Hheap3 & _)].
  - assert (a3 = a) as -> by congruence. simpl. split_and!; try done; lia.
  - rewrite Hheap3 in Ha3. destruct (decide (r0 = r)) as [->|Hne].
    + rewrite list_lookup_insert_eq in Ha3 by (by apply lookup_lt_Some in Ha1).
      assert (a1 = a) as -> by congruence. injection Ha3 as <-. simpl.
      split_and!; try done; lia.
    + rewrite list_lookup_insert_ne in Ha3 by done.
      assert (a3 = a) as -> by congruence. simpl. split_and!; try done; lia.
Qed.

Lemma doTravel_one_step_witness :
  ∃ w w' a', Alien_init (3, 3) 2 (initial (stream [])) = Ok (0%nat, w)
             ∧ doTravel 0%nat w = Ok (tt, w')
             ∧ heap w' !! 0%nat = Some a'
             ∧ -1 ≤ Alien.x a' - 3 ≤ 1.
Proof.
  eexists. eexists.
  edestruct (doTravel_one_step 0%nat
               (set_grid (put_cell (grid (initial (stream []))) (3, 3) (Some 0%nat))
                  (set_heap [Alien.mk (3, 3) 2 3 3 false []] (initial (stream [])))))
    as (a' & Ha' & Hx & _); [reflexivity|vm_compute; reflexivity|].
  exists a'. split; [vm_compute; reflexivity|]. split; [vm_compute; reflexivity|].
  split; [exact Ha'|exact Hx].
Defined.


(** ** Player.trigger_bomb: the cells of the blast *)

(** X6.  The cells of the blast are exactly the cells of the 8 by 8 board at
    most one row and one column away from the epicentre; for an epicentre
    off the edges there are nine of them. *)
Theorem affected_cells_spec epicenter :
  (∀ c, c ∈ affected_cells epicenter ↔
        on_board c ∧ -1 ≤ c.1 - epicenter.1 ≤ 1 ∧ -1 ≤ c.2 - epicenter.2 ≤ 1)
  ∧ (on_board (epicenter.1 - 1, epicenter.2 - 1) →
     on_board (epicenter.1 + 1, epicenter.2 + 1) →
     length (affected_cells epicenter) = 9%nat).
Proof.
  split.
  - intros c. unfold affected_cells. rewrite list_elem_of_bind. split.
    + intros (dx & (dy & Hc & Hdy)%list_elem_of_bind & Hdx).
      destruct (bool_decide _ && bool_decide _) eqn:E;
        [|by apply elem_of_nil in Hc].
      apply list_elem_of_singleton in Hc as ->.
      apply andb_true_iff in E as [E1%bool_decide_eq_true E2%bool_decide_eq_true].
      rewrite !elem_of_cons, elem_of_nil in Hdx, Hdy.
      unfold on_board. simpl. lia.
    + intros ([H1 H2] & Hx & Hy). exists (c.1 - epicenter.1). split.
      * apply list_elem_of_bind. exists (c.2 - epicenter.2). split.
        -- rewrite !bool_decide_eq_true_2 by lia. simpl.
           apply list_elem_of_singleton. destruct c; simpl. f_equal; lia.
        -- rewrite !elem_of_cons. lia.
      * rewrite !elem_of_cons. lia.
  - unfold on_board, affected_cells, WIDTH, HEIGHT. simpl. intros [H1 H2] [H3 H4].
    rewrite !bool_decide_eq_true_2 by lia. done.
Qed.

Lemma affected_cells_spec_witness :
  length (affected_cells (3, 3)) = 9%nat.
Proof.
  apply (proj2 (affected_cells_spec (3, 3))); unfold on_board, WIDTH, HEIGHT;
    simpl; lia.
Defined.

(** ** The attack of the main loop *)

Lemma squish_declines w coords strength :
  ¬ in_bounds w coords ∨ isEmpty coords w = Ok (true, w) →
  squish coords strength w = Ok (-1, w).
Proof.
  intros H. unfold squish.
  rewrite (bind_ok _ _ w (board w) w) by done.
  destruct (bool_decide (0 ≤ coords.1 < Board.width (board w))
            && bool_decide (0 ≤ coords.2 < Board.height (board w))) eqn:Hb;
    simpl; [|done].
  destruct H as [H|H].
  - exfalso. apply H. apply andb_prop in Hb as [H1 H2].
    by apply bool_decide_eq_true in H1, H2.
  - by rewrite (bind_ok _ _ _ _ _ H).
Qed.

(** X7.  An attack that misses (coordinates off the board, or an empty
    cell) costs the player one point of score and one point of strength,
    the latter only while the strength is above 1; the consecutive-hit
    counter is not reset by it, and the turn count, the aliens, the board
    and the registry are untouched. *)
Theorem attack_miss w userx usery :
  ¬ in_bounds w (userx, usery) ∨ isEmpty (userx, usery) w = Ok (true, w) →
  ∃ w', attack userx usery w = Ok (tt, w')
        ∧ Player.score (player w') = Player.score (player w) - 1
        ∧ Player.strength (player w') =
            (if bool_decide (Player.strength (player w) > 1)
             then Player.strength (player w) - 1
             else Player.strength (player w))
        ∧ Player.consecutive_hits (player w')
            = Player.consecutive_hits (player w)
        ∧ Player.turn (player w') = Player.turn (player w)
        ∧ heap w' = heap w ∧ board w' = board w ∧ aliens w' = aliens w.
Proof.
  intros H. eexists. split.
  { unfold attack. rewrite (bind_ok _ _ w (player w) w) by done.
    rewrite (bind_ok _ _ _ _ _ (squish_declines w _ _ H)).
    rewrite (bind_ok _ _ w (player w) w) by done.
    rewrite bool_decide_eq_false_2 by lia. reflexivity. }
  simpl. split_and!; try done; try lia. case_bool_decide; lia.
Qed.

Lemma attack_miss_witness :
  ∃ w', attack 10 10 (initial (stream [])) = Ok (tt, w')
        ∧ Player.score (player w') = -1.
Proof.
  destruct (attack_miss (initial (stream [])) 10 10) as (w' & H & Hs & _).
  { left. unfold in_bounds. simpl. unfold WIDTH. lia. }
  exists w'. split; [exact H|exact Hs].
Defined.

(** ** Scans of the whole board *)

Lemma all_cells_ok (f : Z * Z → bool) cells p w :
  (∀ c, c ∈ cells → p c w = Ok (f c, w)) →
  all_cells cells p w = Ok (forallb f cells, w).
Proof.
  induction cells as [|c cells IH]; intros Hp; simpl; [done|].
  rewrite (bind_ok _ _ _ _ _ (Hp c (list_elem_of_here _ _))).
  destruct (f c); simpl; [|done].
  apply IH. intros c' Hc'. apply Hp. by apply list_elem_of_further.
Qed.

Lemma all_cells_app cells cells' p w :
  (∀ c, c ∈ cells → p c w = Ok (true, w)) →
  all_cells (cells ++ cells') p w = all_cells cells' p w.
Proof.
  induction cells as [|c cells IH]; intros Hp; simpl; [done|].
  rewrite (bind_ok _ _ _ _ _ (Hp c (list_elem_of_here _ _))).
  apply IH. intros c' Hc'. apply Hp. by apply list_elem_of_further.
Qed.

Lemma wf_slot_bounds w i j o :
  well_formed w → slot (grid w) i j = Some o → (i < 8 ∧ j < 8)%nat.
Proof.
  intros Hwf Hij. unfold slot in Hij.
  destruct (grid w !! i) as [row|] eqn:Hrow; [|done]. simpl in Hij.
  apply lookup_lt_Some in Hrow as Hi, Hij as Hj.
  rewrite (Forall_lookup_1 _ _ _ _ (wf_cols _ Hwf) Hrow) in Hj.
  by rewrite (wf_rows _ Hwf) in Hi.
Qed.

(** X8.  On the board of the game, [isEmpty()] answers [True] exactly when
    every cell holds [None], and the board-full test of the main loop
    answers [True] exactly when no cell holds [None]; neither changes the
    state.  A squished alien that is still referred to by a cell counts as
    an occupant in both. *)
Theorem board_scans w :
  well_formed w →
  (∃ b, isEmpty_board w = Ok (b, w)
        ∧ (b = true ↔ ∀ o, o ∈ concat (grid w) → o = None))
  ∧ (∃ b, board_full w = Ok (b, w)
          ∧ (b = true ↔ ∀ o, o ∈ concat (grid w) → o ≠ None)).
Proof.
  intros Hwf.
  assert (∀ c, c ∈ cells_of WIDTH HEIGHT →
            ∃ o, slot (grid w) (Z.to_nat c.1) (Z.to_nat c.2) = Some o
                 ∧ getAlien c w = Ok (o, w)) as Hcell.
  { intros c Hc%elem_of_cells_of.
    destruct (wf_slot w c Hwf Hc) as [o Ho]. exists o. split; [done|].
    apply slot_getAlien; [apply Hc..|done]. }
  assert (∀ (P : option nat → Prop),
            (∀ c, c ∈ cells_of WIDTH HEIGHT →
               ∀ o, slot (grid w) (Z.to_nat c.1) (Z.to_nat c.2) = Some o → P o)
            ↔ ∀ o, o ∈ concat (grid w) → P o) as Hall.
  { intros P. split.
    - intros H o (i & j & Hij)%elem_of_concat_slot.
      destruct (wf_slot_bounds w i j o Hwf Hij) as [Hi Hj].
      apply (H (Z.of_nat i, Z.of_nat j)); [|simpl; by rewrite !Nat2Z.id].
      apply elem_of_cells_of. unfold WIDTH, HEIGHT. simpl. lia.
    - intros H c Hc o Ho. apply H. apply elem_of_concat_slot. eauto. }
  split.
  - exists (forallb (λ c, bool_decide
              (slot (grid w) (Z.to_nat c.1) (Z.to_nat c.2) = Some None))
              (cells_of WIDTH HEIGHT)).
    split.
    + unfold isEmpty_board. rewrite (bind_ok _ _ w (board w) w) by done.
      rewrite (wf_width _ Hwf), (wf_height _ Hwf).
      apply all_cells_ok. intros c Hc.
      destruct (Hcell c Hc) as (o & Ho & Hget).
      rewrite (isEmpty_getAlien _ _ _ Hget), Ho. do 2 f_equal.
      apply bool_decide_ext. split; congruence.
    + rewrite forallb_forall, <- (Hall (λ o, o = None)). split.
      * intros H c Hc o Ho. pose proof (proj1 (list_elem_of_In _ _) Hc) as Hin.
        apply H, bool_decide_eq_true in Hin. congruence.
      * intros H c Hc%list_elem_of_In. apply bool_decide_eq_true.
        destruct (Hcell c Hc) as (o & Ho & _). rewrite Ho.
        f_equal. by apply (H c Hc).
  - exists (forallb (λ c, negb (bool_decide
              (slot (grid w) (Z.to_nat c.1) (Z.to_nat c.2) = Some None)))
              (cells_of WIDTH HEIGHT)).
    split.
    + unfold board_full. apply all_cells_ok. intros c Hc.
      destruct (Hcell c Hc) as (o & Ho & Hget).
      rewrite (bind_ok _ _ _ _ _ (isEmpty_getAlien _ _ _ Hget)), Ho.
      unfold ret. do 3 f_equal. apply bool_decide_ext. split; congruence.
    + rewrite forallb_forall, <- (Hall (λ o, o ≠ None)). split.
      * intros H c Hc o Ho ->. pose proof (proj1 (list_elem_of_In _ _) Hc) as Hin.
        apply H, negb_true_iff, bool_decide_eq_false in Hin. done.
      * intros H c Hc%list_elem_of_In. apply negb_true_iff, bool_decide_eq_false.
        intros Ho. by apply (H c Hc None).
Qed.

Lemma board_scans_witness :
  ∃ b, isEmpty_board (initial (stream [])) = Ok (b, initial (stream []))
       ∧ (b = true ↔ ∀ o, o ∈ concat (grid (initial (stream []))) → o = None).
Proof.
  apply (board_scans (initial (stream []))).
  apply well_formed_check_sound. reflexivity.
Defined.


(** ** Boards that are not square *)

Lemma Board_init_slot height width i j :
  slot (Board.board (Board_init height width)) i j =
    if decide (i < Z.to_nat height ∧ j < Z.to_nat width)%nat
    then Some None else None.
Proof.
  unfold slot, Board_init. simpl.
  destruct (decide (i < Z.to_nat height)%nat) as [Hi|Hi].
  - rewrite lookup_replicate_2 by done. simpl.
    destruct (decide (j < Z.to_nat width)%nat) as [Hj|Hj].
    + rewrite lookup_replicate_2 by done. by rewrite decide_True.
    + rewrite lookup_ge_None_2 by (rewrite length_replicate; lia).
      by rewrite decide_False by lia.
  - rewrite lookup_ge_None_2 by (rewrite length_replicate; lia). simpl.
    by rewrite decide_False by lia.
Qed.

Lemma blank_getAlien height width c :
  0 ≤ c.1 → 0 ≤ c.2 →
  getAlien c (blank height width) =
    if decide (c.1 < height ∧ c.2 < width)
    then Ok (None, blank height width) else Raise IndexError.
Proof.
  intros H1 H2. rewrite getAlien_cell_at, cell_at_nonneg by done.
  change (grid (blank height width))
    with (Board.board (Board_init height width)).
  rewrite Board_init_slot. repeat case_decide; try done; lia.
Qed.

Lemma all_cells_raise cells c cells' p w e :
  (∀ c', c' ∈ cells → p c' w = Ok (true, w)) →
  p c w = Raise e →
  all_cells (cells ++ c :: cells') p w = Raise e.
Proof.
  intros Hp Hc. rewrite all_cells_app by done. simpl.
  unfold bind. by rewrite Hc.
Qed.

Lemma cells_of_split n m i j :
  0 ≤ i < n → 0 ≤ j < m →
  ∃ cells', cells_of n m
            = (cells_of i m ++ ((λ j', (i, j')) <$> range j)) ++ (i, j) :: cells'.
Proof.
  intros Hi Hj. unfold cells_of, range.
  assert (∀ k len, 0 ≤ k < len →
            seqZ 0 len = seqZ 0 k ++ k :: seqZ (Z.succ k) (Z.pred (len - k)))
    as Hsplit.
  { intros k len Hk. replace len with (k + (len - k)) at 1 by lia.
    rewrite seqZ_app by lia. f_equal. rewrite seqZ_cons by lia. done. }
  rewrite (Hsplit i n) by done. rewrite bind_app, bind_cons.
  rewrite (Hsplit j m) by done. rewrite bind_app, bind_cons. simpl.
  assert (∀ l : list Z, l ≫= (λ j0, [(i, j0)]) = (λ j', (i, j')) <$> l)
    as ->.
  { intros l. induction l as [|a l IH]; [done|].
    by rewrite bind_cons, fmap_cons, IH. }
  eexists. rewrite <- !app_assoc. simpl. reflexivity.
Qed.

Lemma cells_of_nil n m : n ≤ 0 ∨ m ≤ 0 → cells_of n m = [].
Proof.
  intros H. unfold cells_of, range. destruct (decide (n ≤ 0)) as [Hn|Hn].
  - by rewrite (seqZ_nil 0 n).
  - rewrite (seqZ_nil 0 m) by lia.
    induction (seqZ 0 n) as [|i l IH]; [done|]. by rewrite bind_cons, IH.
Qed.

(** X9.  [Board(height, width)] makes [height] rows of [width] columns,
    but the whole-board [isEmpty()] takes the first index from
    [range(width)] and the second from [range(height)].  On a new board
    whose two dimensions are positive and differ it raises [IndexError]; on
    every other new board (a square one, or one with a dimension that is not
    positive, where the scan visits no cell) it answers [True]. *)
Theorem isEmpty_board_square_only height width :
  (0 < height → 0 < width → height ≠ width →
   isEmpty_board (blank height width) = Raise IndexError)
  ∧ (height ≤ 0 ∨ width ≤ 0 ∨ height = width →
     isEmpty_board (blank height width) = Ok (true, blank height width)).
Proof.
  unfold isEmpty_board.
  rewrite (bind_ok _ _ _ (board (blank height width)) (blank height width))
    by done.
  change (Board.width (board (blank height width))) with width.
  change (Board.height (board (blank height width))) with height.
  assert (∀ c, 0 ≤ c.1 → 0 ≤ c.2 → c.1 < height → c.2 < width →
            isEmpty c (blank height width) = Ok (true, blank height width))
    as Hin.
  { intros c H1 H2 H3 H4. unfold isEmpty.
    rewrite (bind_ok _ _ _ None (blank height width)); [done|].
    rewrite blank_getAlien by done. by rewrite decide_True. }
  assert (∀ c, 0 ≤ c.1 → 0 ≤ c.2 → ¬ (c.1 < height ∧ c.2 < width) →
            isEmpty c (blank height width) = Raise IndexError) as Hout.
  { intros c H1 H2 H3. unfold isEmpty, bind.
    rewrite blank_getAlien by done. by rewrite decide_False. }
  split.
  - intros Hh Hw Hne. destruct (decide (height < width)) as [Hlt|Hge].
    + destruct (cells_of_split width height height 0) as [cells' ->]; [lia..|].
      apply all_cells_raise; [|apply Hout; simpl; lia].
      intros c [[H1 H2]%elem_of_cells_of|Hc]%elem_of_app.
      * apply Hin; lia.
      * unfold range in Hc. rewrite seqZ_nil in Hc by lia.
        by apply elem_of_nil in Hc.
    + destruct (cells_of_split width height 0 width) as [cells' ->]; [lia..|].
      apply all_cells_raise; [|apply Hout; simpl; lia].
      intros c [[H1 H2]%elem_of_cells_of|Hc]%elem_of_app; [lia|].
      apply list_elem_of_fmap in Hc as (j & -> & Hj%elem_of_seqZ).
      apply Hin; simpl; lia.
  - intros Hcase.
    destruct (decide (height ≤ 0 ∨ width ≤ 0)) as [Hnil|Hpos].
    + rewrite cells_of_nil; [done|]. destruct Hnil; auto.
    + assert (height = width) as <- by lia.
      rewrite (all_cells_ok (λ _, true)).
      * f_equal. f_equal. apply forallb_forall. done.
      * intros c [H1 H2]%elem_of_cells_of. apply Hin; lia.
Qed.

Lemma isEmpty_board_square_only_witness :
  isEmpty_board (blank 2 3) = Raise IndexError
  ∧ isEmpty_board (blank 0 5) = Ok (true, blank 0 5).
Proof.
  split.
  - apply (isEmpty_board_square_only 2 3); lia.
  - apply (isEmpty_board_square_only 0 5). left. lia.
Defined.

(** ** The seed *)

Lemma foldr_add_Permutation (l l' : list Z) :
  l ≡ₚ l' → foldr Z.add 0 l = foldr Z.add 0 l'.
Proof.
  induction 1; simpl; lia.
Qed.

(** X10.  The seed is 0 when no argument is given, and otherwise the sum of
    the code points of the first argument: it does not depend on the order
    of its characters, nor on the program name or further arguments, and the
    empty argument seeds like no argument. *)
Theorem seed_of_spec prog arg rest :
  seed_of [prog] = 0
  ∧ seed_of [] = 0
  ∧ seed_of (prog :: [] :: rest) = 0
  ∧ seed_of (prog :: arg :: rest) = foldr Z.add 0 arg
  ∧ (∀ prog' arg' rest', arg ≡ₚ arg' →
       seed_of (prog :: arg :: rest) = seed_of (prog' :: arg' :: rest')).
Proof.
  split_and!; try done.
  intros prog' arg' rest' Hp. unfold seed_of. simpl.
  rewrite ?bool_decide_eq_true_2 by (simpl; lia).
  by apply foldr_add_Permutation.
Qed.

Lemma seed_of_spec_witness :
  seed_of [[112]; [99; 97; 98]] = seed_of [[112]; [97; 98; 99]; [120]].
Proof.
  apply (seed_of_spec [112] [99; 97; 98] []).
  apply (Permutation_cons_append [97; 98] 99).
Defined.


(** ** What the engine leaves alone

    [proj] is a part of the state that writes to the store, to the board and
    to the random cursor do not reach: the player, the registry.  Every
    operation built from such writes keeps any property of that part. *)

Section Untouched.
Context {X : Type} (proj : World → X) (P : X → Prop).
Hypothesis proj_heap : ∀ h w, proj (set_heap h w) = proj w.
Hypothesis proj_board : ∀ b w, proj (set_board b w) = proj w.
Hypothesis proj_rpos : ∀ n w, proj (set_rpos n w) = proj w.
Hypothesis proj_aliens : ∀ l w, proj (set_aliens l w) = proj w.
Hypothesis proj_player : ∀ p w, proj (set_player p w) = proj w.

Local Abbreviation J := (untouched proj P).

Lemma un_update r f : invariant J (update r f).
Proof.
  apply invariant_update. intros w a Hw _. unfold untouched.
  by rewrite proj_heap.
Qed.

Lemma un_alloc a : invariant J (alloc a).
Proof.
  intros w r w' Hw [= <- <-]. unfold untouched. by rewrite proj_heap.
Qed.

Lemma un_randbelow n : invariant J (randbelow n).
Proof.
  apply invariant_randbelow. intros w k Hw. unfold untouched.
  by rewrite proj_rpos.
Qed.

Lemma un_set_cell c v : invariant J (set_cell c v).
Proof.
  unfold set_cell. invariant. apply invariant_modify. intros w Hw.
  unfold untouched. by rewrite proj_board.
Qed.

#[local] Hint Resolve un_update un_alloc un_randbelow un_set_cell : invariant.

Lemma un_randint a b : invariant J (randint a b).
Proof. unfold randint. invariant. Qed.

Lemma un_getAlien c : invariant J (getAlien c).
Proof. unfold getAlien. invariant. Qed.

#[local] Hint Resolve un_randint un_getAlien : invariant.

Lemma un_isEmpty c : invariant J (isEmpty c).
Proof. unfold isEmpty. invariant. Qed.

Lemma un_inRange c : invariant J (inRange c).
Proof. unfold inRange. invariant. Qed.

Lemma un_addAlien r : invariant J (addAlien r).
Proof. unfold addAlien. invariant. Qed.

Lemma un_clearCell c : invariant J (clearCell c).
Proof. unfold clearCell. invariant. Qed.

#[local] Hint Resolve un_isEmpty un_inRange un_addAlien un_clearCell
  : invariant.

Lemma un_all_cells cells p :
  (∀ c, invariant J (p c)) → invariant J (all_cells cells p).
Proof. intros Hp. induction cells; simpl; invariant. Qed.

Lemma un_isEmpty_board : invariant J isEmpty_board.
Proof. unfold isEmpty_board. invariant. apply un_all_cells. invariant. Qed.

Lemma un_board_full : invariant J board_full.
Proof. unfold board_full. apply un_all_cells. intros c. invariant. Qed.

Lemma un_moveAlien old new : invariant J (moveAlien old new).
Proof. unfold moveAlien. invariant. Qed.

Lemma un_Alien_init c s : invariant J (Alien_init c s).
Proof. unfold Alien_init. invariant. Qed.

Lemma un_doDeath r : invariant J (doDeath r).
Proof. unfold doDeath. invariant. Qed.

#[local] Hint Resolve un_isEmpty_board un_board_full un_moveAlien
  un_Alien_init un_doDeath : invariant.

Lemma un_doPop r s : invariant J (doPop r s).
Proof. unfold doPop. invariant. Qed.

Lemma un_doGrow r : invariant J (doGrow r).
Proof. unfold doGrow. invariant. Qed.

Lemma un_doTravel r : invariant J (doTravel r).
Proof. unfold doTravel, doTravel_by. invariant. Qed.

Lemma un_shuffle_from {A} i (l : list A) : invariant J (shuffle_from i l).
Proof. revert l. induction i; intros l; simpl; invariant. Qed.

Lemma un_first_empty cells : invariant J (first_empty cells).
Proof. induction cells; simpl; invariant. Qed.

Lemma un_collect_neighbors cells acc :
  invariant J (collect_neighbors cells acc).
Proof. revert acc. induction cells; intros acc; simpl; invariant. Qed.

#[local] Hint Resolve un_doPop un_doGrow un_doTravel un_shuffle_from
  un_first_empty un_collect_neighbors : invariant.

Lemma un_findEmptySpace r : invariant J (findEmptySpace r).
Proof. unfold findEmptySpace, shuffle. invariant. Qed.

Lemma un_getNeighbor r : invariant J (getNeighbor r).
Proof. unfold getNeighbor. invariant. Qed.

#[local] Hint Resolve un_findEmptySpace un_getNeighbor : invariant.

Lemma un_doSpawn r : invariant J (doSpawn r).
Proof. unfold doSpawn. invariant. Qed.

#[local] Hint Resolve un_doSpawn : invariant.

Lemma un_Alien_doTimestep r : invariant J (Alien_doTimestep r).
Proof. unfold Alien_doTimestep. invariant. Qed.

#[local] Hint Resolve un_Alien_doTimestep : invariant.

Lemma un_Board_doTimestep : invariant J Board_doTimestep.
Proof. unfold Board_doTimestep. invariant. Qed.

Lemma un_kill_at c : invariant J (kill_at c).
Proof. unfold kill_at. invariant. Qed.

#[local] Hint Resolve un_kill_at : invariant.

Lemma un_trigger_bomb c : invariant J (trigger_bomb c).
Proof. unfold trigger_bomb. invariant. Qed.

Lemma un_nuke_board : invariant J nuke_board.
Proof. unfold nuke_board. invariant. Qed.

Lemma un_total_strength l : invariant J (total_strength l).
Proof. induction l as [|[r|] l IH]; simpl; invariant. Qed.

#[local] Hint Resolve un_trigger_bomb un_nuke_board un_total_strength
  : invariant.

Lemma un_win_by_nuke : invariant J win_by_nuke.
Proof. unfold win_by_nuke, total_alien_strength. invariant. Qed.

Lemma un_clear_slot p idx : invariant J (clear_slot p idx).
Proof. unfold clear_slot. invariant. Qed.

#[local] Hint Resolve un_clear_slot : invariant.

Lemma un_gc_loop fuel stack : invariant J (gc_loop fuel stack).
Proof.
  revert stack. induction fuel as [|fuel IH]; intros stack; simpl; [done|].
  invariant.
Qed.

#[local] Hint Resolve un_gc_loop : invariant.

Lemma un_gc_root fuel r : invariant J (gc_root fuel r).
Proof. unfold gc_root. invariant. Qed.

Lemma un_kept_roots l : invariant J (kept_roots l).
Proof. induction l; simpl; invariant. Qed.

#[local] Hint Resolve un_gc_root un_kept_roots : invariant.

Lemma un_garbage_collect fuel l : invariant J (garbage_collect fuel l).
Proof. unfold garbage_collect. invariant. Qed.

(** The registry is written by the placement and by the collection only. *)
Lemma un_place_alien : invariant J place_alien.
Proof.
  unfold place_alien. invariant. apply invariant_modify. intros w Hw.
  unfold untouched. by rewrite proj_aliens.
Qed.

Lemma un_collect fuel : invariant J (collect fuel).
Proof.
  unfold collect. invariant; [apply un_garbage_collect|].
  apply invariant_modify. intros w Hw. unfold untouched.
  by rewrite proj_aliens.
Qed.

(** The player is written by the attack and by the turn count only. *)
Lemma un_set_consecutive_hits v : invariant J (set_consecutive_hits v).
Proof.
  apply invariant_modify. intros w Hw. unfold untouched.
  by rewrite proj_player.
Qed.

#[local] Hint Resolve un_set_consecutive_hits : invariant.

Lemma un_squish c s : invariant J (squish c s).
Proof. unfold squish. invariant. Qed.

#[local] Hint Resolve un_squish : invariant.

Lemma un_attack x y : invariant J (attack x y).
Proof.
  unfold attack. invariant. apply invariant_modify. intros w Hw.
  unfold untouched. by rewrite proj_player.
Qed.

Lemma un_Player_doTimestep : invariant J Player_doTimestep.
Proof.
  apply invariant_modify. intros w Hw. unfold untouched.
  by rewrite proj_player.
Qed.
End Untouched.


(** ** The player *)

Lemma player_kept {A} (m : M A) w a w' :
  (∀ P, invariant (untouched player P) m) →
  m w = Ok (a, w') → player w' = player w.
Proof. intros H Hrun. by apply (H (λ p, p = player w) w a w'). Qed.

Lemma registry_kept {A} (m : M A) w a w' :
  (∀ P, invariant (untouched aliens P) m) →
  m w = Ok (a, w') → aliens w' = aliens w.
Proof. intros H Hrun. by apply (H (λ p, p = aliens w) w a w'). Qed.

Ltac player_kept_by lem H :=
  eapply player_kept in H; [|intros ?; apply lem; done].

Lemma set_consecutive_hits_same p :
  Player.set_consecutive_hits (Player.consecutive_hits p) p = p.
Proof. by destruct p. Qed.

(** An attack writes nothing of the player but the consecutive-hit counter,
    which it leaves below five. *)
Lemma squish_player c s w score w' :
  squish c s w = Ok (score, w') →
  ∃ h, player w' = Player.set_consecutive_hits h (player w)
       ∧ (0 ≤ Player.consecutive_hits (player w) < 5 → 0 ≤ h < 5).
Proof.
  unfold squish. intros H.
  apply bind_inv in H as (b & ? & [= <- <-] & H).
  destruct (negb _).
  { injection H as <- <-. exists (Player.consecutive_hits (player w)).
    by rewrite set_consecutive_hits_same. }
  apply bind_inv in H as (e & w1 & He & H).
  player_kept_by @un_isEmpty He.
  destruct e.
  { injection H as <- <-. exists (Player.consecutive_hits (player w)).
    by rewrite He, set_consecutive_hits_same. }
  apply bind_inv in H as (o & w2 & Ho & H).
  player_kept_by @un_getAlien Ho.
  destruct o as [r|]; last first.
  { injection H as <- <-. exists (Player.consecutive_hits (player w)).
    by rewrite Ho, He, set_consecutive_hits_same. }
  apply bind_inv in H as (a & ? & [_ ->]%alien_inv & H). cbv zeta in H.
  apply bind_inv in H as ([] & w3 & Hpop & H).
  player_kept_by @un_doPop Hpop.
  apply bind_inv in H as ([] & w4 & H & [= <- <-]).
  assert (player w3 = player w) as Hp by congruence.
  case_bool_decide.
  - apply bind_inv in H as (p & ? & [= <- <-] & H).
    apply bind_inv in H as ([] & ? & [= <-] & H).
    apply bind_inv in H as (p & ? & [= <- <-] & H).
    simpl in H. unfold when in H.
    destruct (bool_decide (_ + 1 >= 5)) eqn:Hfive.
    + apply bind_inv in H as ([] & w5 & Hbomb & [= <-]).
      player_kept_by @un_trigger_bomb Hbomb. simpl in *.
      exists 0. rewrite Hbomb, Hp. split; [by destruct (player w)|lia].
    + injection H as <-. apply bool_decide_eq_false in Hfive.
      simpl. rewrite Hp in *. eexists. split; [done|lia].
  - injection H as <-. exists 0. simpl. rewrite Hp. split; [done|lia].
Qed.

Lemma player_ok_squish c s : invariant (untouched player player_ok) (squish c s).
Proof.
  intros w score w' [Hs Hh Ht] (h & Heq & Hhits)%squish_player.
  unfold untouched. rewrite Heq.
  split; simpl; [done|by apply Hhits|done].
Qed.

Lemma player_ok_attack x y : invariant (untouched player player_ok) (attack x y).
Proof.
  intros w [] w' Hw H. unfold attack in H.
  apply bind_inv in H as (p & ? & [= <- <-] & H).
  apply bind_inv in H as (score & w1 & Hsq & H).
  apply player_ok_squish in Hsq; [|done]. destruct Hsq as [Hs Hh Ht].
  apply bind_inv in H as (p & ? & [= <- <-] & [= <-]).
  unfold STRENGTH in *.
  split; simpl; [|done..]. unfold STRENGTH. repeat case_bool_decide; lia.
Qed.

Lemma player_ok_Player_doTimestep :
  invariant (untouched player player_ok) Player_doTimestep.
Proof.
  intros w [] w' [Hs Hh Ht] [= <-]. split; simpl; [done..|lia].
Qed.

Lemma player_ok_apply_op o : invariant (untouched player player_ok) (apply_op o).
Proof.
  destruct o; simpl;
    [by apply un_place_alien|apply player_ok_attack|by apply un_doTravel
    |by apply un_doSpawn|by apply un_doGrow|by apply un_trigger_bomb
    |by apply un_Board_doTimestep|apply player_ok_Player_doTimestep
    |by apply un_collect|by apply un_nuke_board].
Qed.

Lemma player_ok_main_turn fuel c :
  invariant (untouched player player_ok) (main_turn fuel c).
Proof.
  unfold main_turn. invariant;
    first [by apply un_board_full|by apply un_win_by_nuke
          |by apply un_place_alien|apply player_ok_attack
          |by apply un_Board_doTimestep|apply player_ok_Player_doTimestep
          |by apply un_collect|by apply un_isEmpty_board].
Qed.

Lemma player_ok_play fuel cmds :
  invariant (untouched player player_ok) (play fuel cmds).
Proof.
  induction cmds as [|c cmds IH]; simpl; invariant.
  apply player_ok_main_turn.
Qed.

(** X11.  In every state of a game, and after any sequence of operations
    of the engine from the initial state, the player's strength is between 1
    and 9, the consecutive-hit counter is between 0 and 4 and the turn count
    is not negative. *)
Theorem player_stays_in_range rng w :
  reachable rng w →
  1 ≤ Player.strength (player w) ≤ 9
  ∧ 0 ≤ Player.consecutive_hits (player w) ≤ 4
  ∧ 0 ≤ Player.turn (player w).
Proof.
  assert (untouched player player_ok (initial rng)) as Hinit.
  { split; simpl; unfold STRENGTH; lia. }
  intros H. cut (player_ok (player w)).
  { intros [Hs Hh Ht]. unfold STRENGTH in Hs. lia. }
  destruct H as [(ops & H)|(fuel & cmds & v & H)].
  - by apply (invariant_for_each _ ops apply_op player_ok_apply_op
                _ _ _ Hinit H).
  - by apply (player_ok_play fuel cmds _ _ _ Hinit H).
Qed.

Lemma player_stays_in_range_witness :
  ∃ w, play 10 [NoCoordinates; NoCoordinates; Coordinates 3 3]
         (initial (stream blocked_then_hit_draws)) = Ok (Running, w)
       ∧ 1 ≤ Player.strength (player w) ≤ 9.
Proof.
  eexists. split; [vm_compute; reflexivity|].
  eapply (player_stays_in_range (stream blocked_then_hit_draws)).
  right. exists 10%nat, [NoCoordinates; NoCoordinates; Coordinates 3 3], Running.
  vm_compute. reflexivity.
Defined.


(** ** The turn count *)

Lemma attack_turn x y w w' :
  attack x y w = Ok (tt, w') → Player.turn (player w') = Player.turn (player w).
Proof.
  unfold attack. intros H.
  apply bind_inv in H as (p & ? & [= <- <-] & H).
  apply bind_inv in H as (score & w1 & (h & Hp & _)%squish_player & H).
  apply bind_inv in H as (p & ? & [= <- <-] & [= <-]).
  simpl. by rewrite Hp.
Qed.

Lemma win_by_nuke_true w w' :
  win_by_nuke w = Ok (true, w') → Player.turn (player w) > 5.
Proof.
  unfold win_by_nuke. intros H.
  apply bind_inv in H as (p & ? & [= <- <-] & H).
  by case_bool_decide.
Qed.

(** ** Positions and strengths

    Two facts hold in every state of the game although [coords] can go
    stale: the occupant of a cell has that cell as its [x], [y], and no
    alien is stronger than [STRENGTH]. *)

Lemma getAlien_exact c w o w' :
  getAlien c w = Ok (o, w') →
  w' = w
  ∧ ∃ i j row, py_index (grid w) c.1 = Some i ∧ grid w !! i = Some row
               ∧ py_index row c.2 = Some j ∧ slot (grid w) i j = Some o.
Proof.
  intros [-> H]%getAlien_inv. split; [done|]. unfold cell_at in H.
  destruct (getitem (grid w) c.1) as [row| |] eqn:Hrow; [|done..].
  apply getitem_inv in Hrow as (i & Hi & Hrow).
  apply getitem_inv in H as (j & Hj & Ho).
  exists i, j, row. unfold slot. by rewrite Hrow.
Qed.

Lemma py_index_on_board {A} (l : list A) i k :
  0 ≤ i → py_index l i = Some k → k = Z.to_nat i.
Proof. intros Hi. unfold py_index. repeat case_decide; intros [= <-]; lia. Qed.

Lemma sane_update r f :
  (∀ a, Alien.x (f a) = Alien.x a) → (∀ a, Alien.y (f a) = Alien.y a) →
  (∀ a, on_board (Alien.coords a) → on_board (Alien.coords (f a))) →
  (∀ a, Alien.strength a ≤ STRENGTH → Alien.strength (f a) ≤ STRENGTH) →
  invariant sane (update r f).
Proof.
  intros Hx Hy Hc Hs. apply invariant_update. intros w a [Hwf Hxy Hcap] Ha.
  split.
  - apply (wf_update r f Hc w tt); [done|]. unfold update. by rewrite Ha.
  - intros i j r' Hij. destruct (Hxy i j r' Hij) as (a' & Ha' & Hx' & Hy').
    simpl. destruct (decide (r' = r)) as [->|Hne].
    + rewrite list_lookup_insert_eq by (by apply lookup_lt_Some in Ha).
      assert (a' = a) as -> by congruence.
      exists (f a). by rewrite Hx, Hy.
    + rewrite list_lookup_insert_ne by done. eauto.
  - apply Forall_insert; [done|]. apply Hs.
    apply (Forall_lookup_1 _ _ _ _ Hcap Ha).
Qed.

Lemma sane_randbelow n : invariant sane (randbelow n).
Proof.
  apply invariant_randbelow. intros w k [Hwf Hxy Hcap].
  split; [|done..]. split; apply Hwf.
Qed.

Lemma sane_modify f :
  (∀ w, heap (f w) = heap w ∧ board (f w) = board w) →
  invariant sane (modify f).
Proof.
  intros Hf. apply invariant_modify. intros w [Hwf Hxy Hcap].
  destruct (Hf w) as [Hh Hb]. split.
  - apply (wf_modify f Hf w tt); done.
  - unfold xy_ok, grid. rewrite Hh, Hb. apply Hxy.
  - unfold capped. by rewrite Hh.
Qed.

Ltac sane_modify := apply sane_modify; by intros ?.

Lemma sane_clearCell c : invariant sane (clearCell c).
Proof.
  intros w [] w' [Hwf Hxy Hcap] H. unfold clearCell in H.
  pose proof H as (c' & ->)%set_cell_inv. split.
  - by apply well_formed_put_cell.
  - intros i j r Hij.
    change (grid (set_grid ?g w)) with g in Hij.
    rewrite slot_put_cell in Hij. case_decide.
    + by destruct (slot (grid w) i j).
    + by apply Hxy.
  - done.
Qed.

#[local] Hint Resolve sane_randbelow sane_clearCell : invariant.

Lemma sane_randint a b : invariant sane (randint a b).
Proof. unfold randint. invariant. Qed.

Lemma sane_getAlien c : invariant sane (getAlien c).
Proof. unfold getAlien. invariant. Qed.

#[local] Hint Resolve sane_randint sane_getAlien : invariant.

Lemma sane_isEmpty c : invariant sane (isEmpty c).
Proof. unfold isEmpty. invariant. Qed.

Lemma sane_inRange c : invariant sane (inRange c).
Proof. unfold inRange. invariant. Qed.

#[local] Hint Resolve sane_isEmpty sane_inRange : invariant.

Lemma yields_sane {A} (m : M A) P :
  yields well_formed m P → yields sane m P.
Proof. intros H w a w' Hs. apply H, Hs. Qed.

(** The state after a write of [Some r] to a cell of the board, for an
    alien whose position is that cell. *)
Lemma sane_put_Some w c r a :
  sane w → on_board c → heap w !! r = Some a →
  Alien.x a = c.1 → Alien.y a = c.2 →
  sane (set_grid (put_cell (grid w) c (Some r)) w).
Proof.
  intros [Hwf Hxy Hcap] [[Hc1 _] [Hc2 _]] Ha Hx Hy. split.
  - apply well_formed_put_cell; [done|]. intros ? [= <-].
    by apply lookup_lt_Some in Ha.
  - intros i j r' Hij.
    change (grid (set_grid ?g w)) with g in Hij.
    rewrite slot_put_cell in Hij. case_decide as Hc.
    + destruct (slot (grid w) i j); simplify_eq/=.
      exists a. destruct Hc as [-> ->]. rewrite !Z2Nat.id by done. done.
    + by apply Hxy.
  - done.
Qed.

Lemma set_cell_on_board c v w w' :
  0 ≤ c.1 → 0 ≤ c.2 →
  set_cell c v w = Ok (tt, w') → w' = set_grid (put_cell (grid w) c v) w.
Proof.
  intros H1 H2 (i & j & row & Hi & _ & Hj & ->)%set_cell_exact.
  apply py_index_on_board in Hi as ->, Hj as ->; [|done..].
  rewrite !Z2Nat.id by done. by destruct c.
Qed.

Lemma sane_Alien_init c s :
  on_board c → s ≤ STRENGTH → invariant sane (Alien_init c s).
Proof.
  intros Hc Hs w r w' Hsane H. unfold Alien_init in H.
  apply bind_inv in H as (r' & w1 & [= <- <-] & H).
  apply bind_inv in H as ([] & w2 & H2 & [= <- <-]).
  unfold addAlien in H2.
  apply bind_inv in H2 as (a & ? & [Ha ->]%alien_inv & H2). simpl in Ha.
  rewrite lookup_app_r, Nat.sub_diag in Ha by done. injection Ha as <-.
  simpl in H2. apply set_cell_on_board in H2 as ->; [|apply Hc..].
  destruct Hsane as [Hwf Hxy Hcap].
  apply (sane_put_Some _ c _ (Alien.mk c s c.1 c.2 false []));
    [|done| |done|done].
  - split.
    + split; simpl; try apply Hwf.
      * intros r' Hr'. rewrite length_app. simpl.
        pose proof (wf_refs _ Hwf r' Hr'). lia.
      * apply Forall_app. split; [apply Hwf|]. by apply Forall_singleton.
    + intros i j r' Hij. destruct (Hxy i j r' Hij) as (a' & Ha' & ?).
      exists a'. split; [|done]. simpl. by apply lookup_app_l_Some.
    + apply Forall_app. split; [done|]. by apply Forall_singleton.
  - simpl. by rewrite lookup_app_r, Nat.sub_diag.
Qed.

Lemma sane_moveAlien old new :
  on_board new → invariant sane (moveAlien old new).
Proof.
  intros Hnew w [] w' Hsane H. unfold moveAlien in H.
  apply bind_inv in H as (e_old & w1 & H1 & H).
  unfold isEmpty in H1.
  apply bind_inv in H1 as (o1 & ? & [-> _]%getAlien_inv & [= <- <-]).
  case_bool_decide; [by injection H as <-|].
  apply bind_inv in H as (e_new & w2 & H2 & H).
  unfold isEmpty in H2.
  apply bind_inv in H2 as (o2 & ? & [-> _]%getAlien_inv & [= <- <-]).
  case_bool_decide; simpl in H; [|by injection H as <-].
  apply bind_inv in H as (o & ? & [-> Ho]%getAlien_exact & H).
  destruct Ho as (i & j & row & Hi & Hrow & Hj & Ho).
  apply bind_inv in H as ([] & w3 & H3 & H).
  apply bind_inv in H as ([] & w4 & H4 & H).
  destruct o as [r|]; [|done].
  unfold clearCell in H3.
  apply set_cell_exact in H3 as (i' & j' & row' & Hi' & Hrow' & Hj' & ->).
  assert (i' = i) as -> by congruence.
  assert (row' = row) as -> by congruence.
  assert (j' = j) as -> by congruence.
  apply set_cell_on_board in H4 as ->; [|apply Hnew..].
  unfold update in H. simpl in H.
  destruct (heap w !! r) as [a|] eqn:Ha; [|done]. injection H as <-.
  destruct Hsane as [Hwf Hxy Hcap].
  destruct Hnew as [[Hn1 ?] [Hn2 ?]].
  split.
  - apply (well_formed_update
             (set_grid (put_cell (grid (set_grid (put_cell (grid w)
                          (Z.of_nat i, Z.of_nat j) None) w)) new (Some r))
                (set_grid (put_cell (grid w) (Z.of_nat i, Z.of_nat j) None) w))
             r a (Alien.set_xy new)); [|done|done].
    apply (well_formed_put_cell (set_grid _ w)).
    + by apply well_formed_put_cell.
    + intros ? [= <-]. by apply lookup_lt_Some in Ha.
  - intros i0 j0 r0 Hij. unfold grid in Hij. simpl in Hij. fold (grid w) in Hij.
    rewrite slot_put_cell in Hij. simpl.
    case_decide as Hcell.
    + rewrite slot_put_cell in Hij.
      assert (r0 = r) as ->.
      { case_decide; destruct (slot (grid w) i0 j0); by simplify_eq/=. }
      rewrite list_lookup_insert_eq by (by apply lookup_lt_Some in Ha).
      eexists; split; [done|]. destruct Hcell as [-> ->]. simpl.
      by rewrite !Z2Nat.id by done.
    + rewrite slot_put_cell in Hij. simpl in Hij. rewrite !Nat2Z.id in Hij.
      case_decide as Hcell'; [by destruct (slot (grid w) i0 j0)|].
      destruct (Hxy i0 j0 r0 Hij) as (a0 & Ha0 & Hx0 & Hy0).
      destruct (decide (r0 = r)) as [->|Hne].
      * exfalso. destruct (Hxy i j r Ho) as (a1 & Ha1 & Hx1 & Hy1).
        apply Hcell'. assert (a1 = a0) as -> by congruence. lia.
      * rewrite list_lookup_insert_ne by done. eauto.
  - apply Forall_insert; [done|]. apply (Forall_lookup_1 _ _ _ _ Hcap Ha).
Qed.

Lemma sane_doDeath r : invariant sane (doDeath r).
Proof. unfold doDeath. invariant. by apply sane_update. Qed.

#[local] Hint Resolve sane_doDeath : invariant.

Lemma sane_doPop r s : 0 ≤ s → invariant sane (doPop r s).
Proof.
  intros Hs. unfold doPop. invariant. apply sane_update; try done.
  intros a Ha. simpl. lia.
Qed.

Lemma sane_doGrow r : invariant sane (doGrow r).
Proof.
  intros w [] w' Hsane H. unfold doGrow in H.
  apply bind_inv in H as (chance & w1 & H1 & H).
  apply sane_randint in H1; [|done].
  apply bind_inv in H as (a & ? & [Ha ->]%alien_inv & H).
  unfold when in H.
  destruct (bool_decide (Alien.strength a < STRENGTH)) eqn:Hlt;
    simpl in H; [|by injection H as <-].
  destruct (bool_decide (chance > 7)); [|by injection H as <-].
  apply bool_decide_eq_true in Hlt.
  unfold update in H. rewrite Ha in H. injection H as <-.
  destruct H1 as [Hwf Hxy Hcap]. split.
  - by apply (well_formed_update _ r a).
  - intros i j r' Hij. destruct (Hxy i j r' Hij) as (a' & Ha' & Hx' & Hy').
    simpl. destruct (decide (r' = r)) as [->|Hne].
    + rewrite list_lookup_insert_eq by (by apply lookup_lt_Some in Ha).
      assert (a' = a) as -> by congruence. eexists; split; [done|]. done.
    + rewrite list_lookup_insert_ne by done. eauto.
  - apply Forall_insert; [done|]. simpl. lia.
Qed.

Lemma sane_doTravel r : invariant sane (doTravel r).
Proof.
  unfold doTravel, doTravel_by. do 2 (invariant_step; [eauto with invariant|]).
  invariant_step; [apply invariant_alien|]. cbv zeta.
  match goal with
  | |- invariant _ (bind (inRange ?c) _) =>
      apply (invariant_bind_with _ (λ b, b = true → on_board c));
        [apply yields_sane, yields_inRange|eauto with invariant|]
  end.
  intros ok Hok. destruct ok; simpl; [|apply invariant_ret].
  invariant; [by apply sane_moveAlien; auto|].
  apply sane_update; try done. intros ? _. by apply Hok.
Qed.

Lemma sane_shuffle_from {A} i (l : list A) : invariant sane (shuffle_from i l).
Proof. revert l. induction i; intros l; simpl; invariant. Qed.

Lemma sane_first_empty cells : invariant sane (first_empty cells).
Proof. induction cells; simpl; invariant. Qed.

Lemma sane_collect_neighbors cells acc :
  invariant sane (collect_neighbors cells acc).
Proof. revert acc. induction cells; intros acc; simpl; invariant. Qed.

#[local] Hint Resolve sane_shuffle_from sane_first_empty
  sane_collect_neighbors : invariant.

Lemma sane_findEmptySpace r : invariant sane (findEmptySpace r).
Proof. unfold findEmptySpace, shuffle. invariant. Qed.

Lemma sane_getNeighbor r : invariant sane (getNeighbor r).
Proof. unfold getNeighbor. invariant. Qed.

#[local] Hint Resolve sane_findEmptySpace sane_getNeighbor sane_doGrow
  sane_doTravel : invariant.

Lemma yields_alien_capped r :
  yields sane (alien r) (λ a, Alien.strength a ≤ STRENGTH).
Proof.
  intros w a w' [_ _ Hcap] [Ha _]%alien_inv.
  apply (Forall_lookup_1 _ _ _ _ Hcap Ha).
Qed.

Lemma sane_doSpawn r : invariant sane (doSpawn r).
Proof.
  unfold doSpawn.
  apply (invariant_bind_with _ (λ o, ∀ c, o = Some c → on_board c));
    [apply yields_sane, yields_findEmptySpace|eauto with invariant|].
  intros emptySpace Hempty.
  do 2 (invariant_step; [eauto with invariant|]).
  invariant_step; [|apply invariant_ret].
  invariant_step; [|apply invariant_ret].
  invariant_step.
  apply (invariant_bind_with _ (λ a, Alien.strength a ≤ STRENGTH));
    [apply yields_alien_capped|apply invariant_alien|].
  intros a Ha. invariant.
  - apply sane_Alien_init; [by apply Hempty|]. unfold STRENGTH in *. lia.
  - by apply sane_update.
Qed.

#[local] Hint Resolve sane_doSpawn : invariant.

Lemma sane_Alien_doTimestep r : invariant sane (Alien_doTimestep r).
Proof. unfold Alien_doTimestep. invariant. Qed.

#[local] Hint Resolve sane_Alien_doTimestep : invariant.

Lemma sane_Board_doTimestep : invariant sane Board_doTimestep.
Proof. unfold Board_doTimestep. invariant. Qed.

Lemma sane_Player_doTimestep : invariant sane Player_doTimestep.
Proof. unfold Player_doTimestep. sane_modify. Qed.

Lemma sane_set_consecutive_hits v : invariant sane (set_consecutive_hits v).
Proof. unfold set_consecutive_hits. sane_modify. Qed.

Lemma sane_kill_at c : invariant sane (kill_at c).
Proof. unfold kill_at. invariant. Qed.

#[local] Hint Resolve sane_Board_doTimestep sane_Player_doTimestep
  sane_set_consecutive_hits sane_kill_at : invariant.

Lemma sane_trigger_bomb c : invariant sane (trigger_bomb c).
Proof. unfold trigger_bomb. invariant. Qed.

Lemma sane_nuke_board : invariant sane nuke_board.
Proof. unfold nuke_board. invariant. Qed.

#[local] Hint Resolve sane_trigger_bomb sane_nuke_board : invariant.

Lemma sane_squish c s : 0 ≤ s → invariant sane (squish c s).
Proof. intros Hs. unfold squish. invariant. by apply sane_doPop. Qed.

Lemma sane_total_strength l : invariant sane (total_strength l).
Proof. induction l as [|[r|] l IH]; simpl; invariant. Qed.

#[local] Hint Resolve sane_total_strength : invariant.

Lemma sane_win_by_nuke : invariant sane win_by_nuke.
Proof. unfold win_by_nuke, total_alien_strength. invariant. Qed.

Lemma sane_all_cells cells p :
  (∀ c, invariant sane (p c)) → invariant sane (all_cells cells p).
Proof. intros Hp. induction cells; simpl; invariant. Qed.

Lemma sane_board_full : invariant sane board_full.
Proof. unfold board_full. apply sane_all_cells. intros c. invariant. Qed.

Lemma sane_isEmpty_board : invariant sane isEmpty_board.
Proof.
  unfold isEmpty_board. invariant. apply sane_all_cells. eauto with invariant.
Qed.

Lemma sane_place_alien : invariant sane place_alien.
Proof.
  unfold place_alien.
  apply (invariant_bind_with _ (λ x, 0 ≤ x ≤ WIDTH - 1));
    [by apply yields_sane, yields_randint|eauto with invariant|]. intros x Hx.
  apply (invariant_bind_with _ (λ y, 0 ≤ y ≤ HEIGHT - 1));
    [by apply yields_sane, yields_randint|eauto with invariant|]. intros y Hy.
  apply (invariant_bind_with _ (λ s, 1 ≤ s ≤ STRENGTH));
    [by apply yields_sane, yields_randint|eauto with invariant|]. intros s Hs.
  invariant; [|sane_modify].
  apply sane_Alien_init; [split; simpl; lia|].
  case_bool_decide; unfold STRENGTH in *; lia.
Qed.

Lemma sane_clear_slot p idx : invariant sane (clear_slot p idx).
Proof. unfold clear_slot. invariant. by apply sane_update. Qed.

#[local] Hint Resolve sane_win_by_nuke sane_board_full sane_isEmpty_board
  sane_place_alien sane_clear_slot : invariant.

Lemma sane_gc_loop fuel stack : invariant sane (gc_loop fuel stack).
Proof.
  revert stack. induction fuel as [|fuel IH]; intros stack; simpl; [done|].
  invariant.
Qed.

#[local] Hint Resolve sane_gc_loop : invariant.

Lemma sane_gc_root fuel r : invariant sane (gc_root fuel r).
Proof. unfold gc_root. invariant. by apply sane_update. Qed.

Lemma sane_kept_roots l : invariant sane (kept_roots l).
Proof. induction l; simpl; invariant. Qed.

#[local] Hint Resolve sane_gc_root sane_kept_roots : invariant.

Lemma sane_collect fuel : invariant sane (collect fuel).
Proof. unfold collect, garbage_collect. invariant. sane_modify. Qed.

(** The attack strikes with the player's strength, which is positive. *)
Lemma game_state_attack x y : invariant game_state (attack x y).
Proof.
  intros w [] w' [Hsane Hp] H. split; [|by apply (player_ok_attack x y w tt)].
  unfold attack in H.
  apply bind_inv in H as (p & ? & [= <- <-] & H).
  apply bind_inv in H as (score & w1 & Hsq & H).
  apply sane_squish in Hsq; [|destruct Hp; lia|done].
  apply bind_inv in H as (p & ? & [= <- <-] & H).
  revert H. by apply sane_modify.
Qed.

Lemma game_state_intro {A} (m : M A) :
  invariant sane m → invariant (untouched player player_ok) m →
  invariant game_state m.
Proof.
  intros H1 H2 w a w' [Hs Hp] H. split; [by eapply H1|by eapply H2].
Qed.

Lemma game_state_apply_op o : invariant game_state (apply_op o).
Proof.
  destruct o; try apply game_state_attack;
    (apply game_state_intro;
     [simpl; eauto using sane_collect with invariant
     |apply player_ok_apply_op]).
Qed.

Lemma game_state_main_turn fuel c : invariant game_state (main_turn fuel c).
Proof.
  unfold main_turn. invariant;
    first [apply game_state_attack
          |apply game_state_intro;
           [eauto using sane_collect with invariant
           |first [by apply un_board_full|by apply un_win_by_nuke
                  |by apply un_place_alien|by apply un_Board_doTimestep
                  |apply player_ok_Player_doTimestep|by apply un_collect
                  |by apply un_isEmpty_board]]].
Qed.

Lemma game_state_initial rng : game_state (initial rng).
Proof.
  split; [split|].
  - apply wf_initial.
  - intros i j r Hij. exfalso.
    change (grid (initial rng)) with (Board.board (Board_init HEIGHT WIDTH)) in Hij.
    rewrite Board_init_slot in Hij. by case_decide.
  - apply Forall_nil_2.
  - split; simpl; unfold STRENGTH; lia.
Qed.

Lemma game_state_reachable rng w : reachable rng w → game_state w.
Proof.
  intros [(ops & H)|(fuel & cmds & v & H)].
  - by apply (invariant_for_each _ ops apply_op game_state_apply_op
                _ _ _ (game_state_initial rng) H).
  - assert (invariant game_state (play fuel cmds)) as Hplay.
    { clear. induction cmds as [|c cmds IH]; simpl; invariant.
      apply game_state_main_turn. }
    by apply (Hplay _ _ _ (game_state_initial rng) H).
Qed.

(** X13.  In every state of a game no alien is stronger than 9, whether it
    was placed by the driver, was spawned or has grown. *)
Theorem strength_never_above_cap rng w r a :
  reachable rng w → heap w !! r = Some a → Alien.strength a ≤ 9.
Proof.
  intros [[_ _ Hcap] _]%game_state_reachable Ha.
  apply (Forall_lookup_1 _ _ _ _ Hcap Ha).
Qed.

Lemma strength_never_above_cap_witness :
  ∃ w a, play 10 [NoCoordinates; NoCoordinates; Coordinates 3 3]
           (initial (stream blocked_then_hit_draws)) = Ok (Running, w)
         ∧ heap w !! 0%nat = Some a ∧ Alien.strength a ≤ 9.
Proof.
  eexists. eexists. split; [vm_compute; reflexivity|].
  split; [vm_compute; reflexivity|].
  eapply (strength_never_above_cap (stream blocked_then_hit_draws) _ 0%nat).
  - right. exists 10%nat, [NoCoordinates; NoCoordinates; Coordinates 3 3], Running.
    vm_compute. reflexivity.
  - vm_compute. reflexivity.
Defined.

(** X14.  In every state of a game the alien found in a cell of the board
    has that cell as its position [x], [y] (its [coords] may differ), so that
    no alien is found in two cells. *)
Theorem occupant_position rng w :
  reachable rng w →
  (∀ c r, on_board c → getAlien c w = Ok (Some r, w) →
          ∃ a, heap w !! r = Some a ∧ (Alien.x a, Alien.y a) = c)
  ∧ (∀ c c' r, on_board c → on_board c' →
               getAlien c w = Ok (Some r, w) →
               getAlien c' w = Ok (Some r, w) → c = c').
Proof.
  intros [[_ Hxy _] _]%game_state_reachable.
  assert (∀ c r, on_board c → getAlien c w = Ok (Some r, w) →
            ∃ a, heap w !! r = Some a ∧ (Alien.x a, Alien.y a) = c) as Hpos.
  { intros c r [[H1 _] [H2 _]] Hc. apply getAlien_slot in Hc; [|done..].
    destruct (Hxy _ _ _ Hc) as (a & Ha & Hx & Hy). exists a. split; [done|].
    rewrite Hx, Hy, !Z2Nat.id by done. by destruct c. }
  split; [done|].
  intros c c' r Hc Hc' H H'.
  destruct (Hpos c r Hc H) as (a & Ha & <-).
  destruct (Hpos c' r Hc' H') as (a' & Ha' & <-). congruence.
Qed.

Lemma occupant_position_witness :
  ∃ w a, play 10 [NoCoordinates; NoCoordinates; Coordinates 3 3]
           (initial (stream blocked_then_hit_draws)) = Ok (Running, w)
         ∧ heap w !! 1%nat = Some a
         ∧ (Alien.x a, Alien.y a) = (3, 3) ∧ Alien.coords a = (3, 4).
Proof.
  eexists. eexists. split; [vm_compute; reflexivity|].
  split; [vm_compute; reflexivity|]. split; [|vm_compute; reflexivity].
  edestruct (proj1 (occupant_position (stream blocked_then_hit_draws) _
                      ltac:(right; exists 10%nat,
                              [NoCoordinates; NoCoordinates; Coordinates 3 3],
                              Running; vm_compute; reflexivity))
               (3, 3) 1%nat) as (a & Ha & Hpos);
    [unfold on_board, WIDTH, HEIGHT; simpl; lia|vm_compute; reflexivity|].
  vm_compute in Ha. injection Ha as <-. exact Hpos.
Defined.


(** ** Looking around: findEmptySpace and getNeighbor *)

Section Rolled.
Context (w0 : World).

Lemma rolled_refl : rolled w0 w0.
Proof. exists (rpos w0). by destruct w0. Qed.

Lemma rolled_randbelow n : invariant (rolled w0) (randbelow n).
Proof. apply invariant_randbelow. intros w k [k' ->]. by exists k. Qed.

#[local] Hint Resolve rolled_randbelow : invariant.

Lemma rolled_randint a b : invariant (rolled w0) (randint a b).
Proof. unfold randint. invariant. Qed.

Lemma rolled_getAlien c : invariant (rolled w0) (getAlien c).
Proof. unfold getAlien. invariant. Qed.

#[local] Hint Resolve rolled_randint rolled_getAlien : invariant.

Lemma rolled_isEmpty c : invariant (rolled w0) (isEmpty c).
Proof. unfold isEmpty. invariant. Qed.

Lemma rolled_inRange c : invariant (rolled w0) (inRange c).
Proof. unfold inRange. invariant. Qed.

#[local] Hint Resolve rolled_isEmpty rolled_inRange : invariant.

Lemma rolled_shuffle_from {A} i (l : list A) :
  invariant (rolled w0) (shuffle_from i l).
Proof. revert l. induction i; intros l; simpl; invariant. Qed.

Lemma rolled_first_empty cells : invariant (rolled w0) (first_empty cells).
Proof. induction cells; simpl; invariant. Qed.

Lemma rolled_collect_neighbors cells acc :
  invariant (rolled w0) (collect_neighbors cells acc).
Proof. revert acc. induction cells; intros acc; simpl; invariant. Qed.

#[local] Hint Resolve rolled_shuffle_from rolled_first_empty
  rolled_collect_neighbors : invariant.

Lemma rolled_findEmptySpace r : invariant (rolled w0) (findEmptySpace r).
Proof. unfold findEmptySpace, shuffle. invariant. Qed.

Lemma rolled_getNeighbor r : invariant (rolled w0) (getNeighbor r).
Proof. unfold getNeighbor. invariant. Qed.
End Rolled.

Lemma rolled_same w0 w :
  rolled w0 w →
  heap w = heap w0 ∧ board w = board w0 ∧ player w = player w0
  ∧ aliens w = aliens w0.
Proof. by intros [k ->]. Qed.

(** The shuffle rearranges. *)
Lemma elem_of_swap {A} (l : list A) i j x : x ∈ swap l i j ↔ x ∈ l.
Proof.
  unfold swap. destruct (l !! i) as [a|] eqn:Hi; [|done].
  destruct (l !! j) as [b|] eqn:Hj; [|done].
  apply lookup_lt_Some in Hi as Hlti, Hj as Hltj.
  rewrite !list_elem_of_lookup. split.
  - intros [k Hk]. destruct (decide (k = i)) as [->|Hki].
    + rewrite list_lookup_insert_eq in Hk by (by rewrite length_insert).
      injection Hk as <-. eauto.
    + rewrite list_lookup_insert_ne in Hk by done.
      destruct (decide (k = j)) as [->|Hkj].
      * rewrite list_lookup_insert_eq in Hk by done. injection Hk as <-. eauto.
      * rewrite list_lookup_insert_ne in Hk by done. eauto.
  - intros [k Hk]. destruct (decide (k = i)) as [->|Hki].
    + exists j. destruct (decide (j = i)) as [->|Hji].
      * rewrite list_lookup_insert_eq by (by rewrite length_insert). congruence.
      * rewrite list_lookup_insert_ne by done.
        rewrite list_lookup_insert_eq by done. congruence.
    + destruct (decide (k = j)) as [->|Hkj].
      * exists i. rewrite list_lookup_insert_eq by (by rewrite length_insert).
        congruence.
      * exists k. by rewrite !list_lookup_insert_ne by done.
Qed.

Lemma elem_of_shuffle_from {A} i (l l' : list A) w w' x :
  shuffle_from i l w = Ok (l', w') → x ∈ l' ↔ x ∈ l.
Proof.
  revert l w. induction i as [|i IH]; intros l w H; simpl in H.
  - by injection H as <- <-.
  - apply bind_inv in H as (j & w1 & _ & H).
    apply IH in H. by rewrite H, elem_of_swap.
Qed.

(** The scan of [findEmptySpace]. *)
Lemma first_empty_inv cells w o w' :
  first_empty cells w = Ok (o, w') →
  w' = w
  ∧ match o with
    | Some c => c ∈ cells ∧ in_bounds w c ∧ cell_at (grid w) c = Ok None
    | None => ∀ c, c ∈ cells → in_bounds w c →
                   ∃ n, cell_at (grid w) c = Ok (Some n)
    end.
Proof.
  induction cells as [|c cells IH]; simpl; intros H.
  - injection H as <- <-. split; [done|]. by intros c ?%elem_of_nil.
  - apply bind_inv in H as (ok & ? & [-> Hok]%inRange_inv & H).
    assert (first_empty cells w = Ok (o, w') →
            ¬ (in_bounds w c ∧ cell_at (grid w) c = Ok None) →
            (in_bounds w c → ∃ n, cell_at (grid w) c = Ok (Some n)) →
            w' = w
            ∧ match o with
              | Some c0 => c0 ∈ c :: cells ∧ in_bounds w c0
                           ∧ cell_at (grid w) c0 = Ok None
              | None => ∀ c0, c0 ∈ c :: cells → in_bounds w c0 →
                              ∃ n, cell_at (grid w) c0 = Ok (Some n)
              end) as Hrest.
    { intros [-> Ho]%IH Hnot Hocc. split; [done|]. destruct o as [c0|].
      - destruct Ho as (? & ? & ?). split_and!; [|done..].
        by apply list_elem_of_further.
      - intros c0 [->|Hin]%elem_of_cons; [done|by apply Ho]. }
    destruct ok.
    + apply bind_inv in H as (e & ? & [-> (o' & Ho' & ->)]%isEmpty_inv & H).
      case_bool_decide as He.
      * injection H as <- <-. subst o'. split; [done|].
        split_and!; [apply list_elem_of_here|by apply Hok|done].
      * apply Hrest; [done| |].
        -- intros [_ Hc]. congruence.
        -- intros _. destruct o' as [n|]; [eauto|done].
    + apply Hrest; [done| |].
      * intros [Hc _]. apply Hok in Hc. done.
      * intros Hc. apply Hok in Hc. done.
Qed.

(** The answer of [findEmptySpace], in terms of the grid. *)
Lemma findEmptySpace_inv r a w o w' :
  heap w !! r = Some a → findEmptySpace r w = Ok (o, w') →
  rolled w w'
  ∧ match o with
    | Some c => c ∈ adjacent a ∧ in_bounds w c ∧ cell_at (grid w) c = Ok None
    | None => ∀ c, c ∈ adjacent a → in_bounds w c →
                   ∃ n, cell_at (grid w) c = Ok (Some n)
    end.
Proof.
  intros Ha H.
  pose proof (rolled_findEmptySpace w r w o w' (rolled_refl w) H) as Hrolled.
  split; [done|]. unfold findEmptySpace in H.
  apply bind_inv in H as (a' & ? & [Ha' ->]%alien_inv & H).
  assert (a' = a) as -> by congruence.
  apply bind_inv in H as (adj & w1 & Hsh & H).
  pose proof (rolled_shuffle_from w _ _ w _ w1 (rolled_refl w) Hsh) as [k ->].
  apply first_empty_inv in H as [_ H].
  change (grid (set_rpos k w)) with (grid w) in H.
  change (in_bounds (set_rpos k w)) with (in_bounds w) in H.
  destruct o as [c|].
  - destruct H as (Hin & ? & ?). split_and!; [|done..].
    by apply (elem_of_shuffle_from _ _ _ _ _ c Hsh).
  - intros c Hc. apply H. by apply (elem_of_shuffle_from _ _ _ _ _ c Hsh).
Qed.

(** X15.  [findEmptySpace] answers with a cell that is next to the alien's
    position, on the board and empty; it answers [None] only when every
    cell next to the position that is on the board is occupied.  It draws
    from the random stream and changes nothing else. *)
Theorem findEmptySpace_spec r a w o w' :
  heap w !! r = Some a → findEmptySpace r w = Ok (o, w') →
  rolled w w'
  ∧ match o with
    | Some c => c ∈ adjacent a ∧ inRange c w' = Ok (true, w')
                ∧ isEmpty c w' = Ok (true, w')
    | None => ∀ c, c ∈ adjacent a → inRange c w = Ok (true, w) →
                   isEmpty c w = Ok (false, w)
    end.
Proof.
  intros Ha H.
  destruct (findEmptySpace_inv _ _ _ _ _ Ha H) as [Hrolled Ho].
  split; [done|]. destruct Hrolled as [k ->]. destruct o as [c|].
  - destruct Ho as (Hc & Hin & Hcell). split_and!; [done| |].
    + rewrite inRange_ok. destruct Hin as [Hx Hy].
      by rewrite !bool_decide_eq_true_2.
    + by apply (isEmpty_cell_at c (set_rpos k w) None).
  - intros c Hc [_ Hin]%inRange_inv.
    destruct (Ho c Hc) as [n Hn]; [by apply Hin|].
    by apply (isEmpty_cell_at c w (Some n)).
Qed.

Lemma findEmptySpace_spec_witness :
  ∃ w o w', Alien_init (0, 0) 2 (initial (stream [])) = Ok (0%nat, w)
            ∧ findEmptySpace 0%nat w = Ok (Some o, w')
            ∧ isEmpty o w' = Ok (true, w').
Proof.
  eexists. eexists. eexists. split; [vm_compute; reflexivity|].
  split; [vm_compute; reflexivity|].
  match goal with
  | |- isEmpty ?c ?w' = _ =>
      edestruct (findEmptySpace_spec 0%nat (Alien.mk (0, 0) 2 0 0 false [])
                   (set_grid (put_cell (grid (initial (stream []))) (0, 0)
                                (Some 0%nat))
                      (set_heap [Alien.mk (0, 0) 2 0 0 false []]
                         (initial (stream []))))
                   (Some c) w') as (_ & _ & _ & He);
        [reflexivity|vm_compute; reflexivity|exact He]
  end.
Defined.

(** The scan of [getNeighbor]. *)
Lemma collect_neighbors_inv cells acc w l w' :
  collect_neighbors cells acc w = Ok (l, w') →
  w' = w
  ∧ ∀ n, n ∈ l ↔
         n ∈ acc ∨ ∃ c, c ∈ cells ∧ in_bounds w c
                        ∧ cell_at (grid w) c = Ok (Some n).
Proof.
  revert acc. induction cells as [|c cells IH]; simpl; intros acc H.
  - injection H as <- <-. split; [done|]. intros n. split; [by left|].
    intros [?|(c & ?%elem_of_nil & _)]; done.
  - apply bind_inv in H as (ok & ? & [-> Hok]%inRange_inv & H).
    destruct ok.
    + apply bind_inv in H as (o & ? & [-> Ho]%getAlien_inv & H).
      destruct o as [m|]; apply IH in H as [-> H]; (split; [done|]);
        intros n; rewrite H; clear H.
      * rewrite elem_of_app, list_elem_of_singleton. split.
        -- intros [[?| ->]|(c0 & ? & ? & ?)].
           ++ by left.
           ++ right. exists c. split_and!; [apply list_elem_of_here| |done].
              by apply Hok.
           ++ right. exists c0. split_and!; [by apply list_elem_of_further|done..].
        -- intros [?|(c0 & [->|?]%elem_of_cons & ? & ?)].
           ++ by left; left.
           ++ left; right. congruence.
           ++ right. eauto.
      * split.
        -- intros [?|(c0 & ? & ? & ?)]; [by left|].
           right. exists c0. split_and!; [by apply list_elem_of_further|done..].
        -- intros [?|(c0 & [->|?]%elem_of_cons & ? & ?)];
             [by left|congruence|right; eauto].
    + apply IH in H as [-> H]. split; [done|]. intros n. rewrite H. split.
      * intros [?|(c0 & ? & ? & ?)]; [by left|].
        right. exists c0. split_and!; [by apply list_elem_of_further|done..].
      * intros [?|(c0 & [->|?]%elem_of_cons & Hc & ?)]; [by left| |right; eauto].
        apply Hok in Hc. done.
Qed.

(** The answer of [getNeighbor], in terms of the grid. *)
Lemma getNeighbor_inv r a w o w' :
  heap w !! r = Some a → getNeighbor r w = Ok (o, w') →
  rolled w w'
  ∧ match o with
    | Some n => ∃ c, c ∈ adjacent a ∧ in_bounds w c
                     ∧ cell_at (grid w) c = Ok (Some n)
    | None => ∀ c n, c ∈ adjacent a → in_bounds w c →
                     cell_at (grid w) c ≠ Ok (Some n)
    end.
Proof.
  intros Ha H.
  pose proof (rolled_getNeighbor w r w o w' (rolled_refl w) H) as Hrolled.
  split; [done|]. unfold getNeighbor in H.
  apply bind_inv in H as (a' & ? & [Ha' ->]%alien_inv & H).
  assert (a' = a) as -> by congruence.
  apply bind_inv in H as (l & ? & [-> Hl]%collect_neighbors_inv & H).
  destruct l as [|n0 l].
  - injection H as <- <-. intros c n Hc Hin Hcell.
    apply (elem_of_nil n), Hl. right. eauto.
  - apply bind_inv in H as (k & w1 & _ & H).
    apply bind_inv in H as (n & w2 & H & [= <- <-]).
    unfold lift in H.
    destruct (getitem (n0 :: l) k) as [n'| |] eqn:Hget; [|done..].
    injection H as <- <-.
    apply getitem_inv in Hget as (i & _ & Hi).
    apply list_elem_of_lookup_2, Hl in Hi as [?%elem_of_nil|Hi]; done.
Qed.

(** X16.  [getNeighbor] answers with the occupant of a cell that is next
    to the alien's position and on the board, whether that occupant is
    squished or not; it answers [None] only when no such cell holds an
    alien.  It draws from the random stream and changes nothing else. *)
Theorem getNeighbor_spec r a w o w' :
  heap w !! r = Some a → getNeighbor r w = Ok (o, w') →
  rolled w w'
  ∧ match o with
    | Some n => ∃ c, c ∈ adjacent a ∧ inRange c w = Ok (true, w)
                     ∧ getAlien c w = Ok (Some n, w)
    | None => ∀ c n, c ∈ adjacent a → inRange c w = Ok (true, w) →
                     getAlien c w ≠ Ok (Some n, w)
    end.
Proof.
  intros Ha H.
  destruct (getNeighbor_inv _ _ _ _ _ Ha H) as [Hrolled Ho].
  split; [done|]. destruct o as [n|].
  - destruct Ho as (c & Hc & Hin & Hcell). exists c. split_and!; [done| |].
    + rewrite inRange_ok. destruct Hin as [Hx Hy].
      by rewrite !bool_decide_eq_true_2.
    + rewrite getAlien_cell_at. by apply lift_ok.
  - intros c n Hc [_ Hin]%inRange_inv [_ Hcell]%getAlien_inv.
    apply (Ho c n); [done|by apply Hin|done].
Qed.

Lemma getNeighbor_spec_witness :
  ∃ w w', Alien_init (0, 0) 2 (initial (stream [])) = Ok (0%nat, w)
          ∧ getNeighbor 0%nat w = Ok (None, w')
          ∧ getAlien (1, 1) w ≠ Ok (Some 0%nat, w).
Proof.
  eexists. eexists. split; [vm_compute; reflexivity|].
  split; [vm_compute; reflexivity|].
  edestruct (getNeighbor_spec 0%nat (Alien.mk (0, 0) 2 0 0 false [])
               (set_grid (put_cell (grid (initial (stream []))) (0, 0) (Some 0%nat))
                  (set_heap [Alien.mk (0, 0) 2 0 0 false []] (initial (stream []))))
               None)
    as (_ & Hnone); [reflexivity|vm_compute; reflexivity|].
  apply (Hnone (1, 1) 0%nat).
  - apply list_elem_of_here.
  - reflexivity.
Defined.


(** ** Alien.doSpawn *)

Lemma update_inv r f w w' :
  update r f w = Ok (tt, w') →
  ∃ a, heap w !! r = Some a ∧ w' = set_heap (<[r:=f a]> (heap w)) w.
Proof.
  unfold update. destruct (heap w !! r) as [a|]; [|done].
  intros [= <-]. eauto.
Qed.

Lemma Alien_init_inv c s w n w' :
  0 ≤ c.1 → 0 ≤ c.2 →
  Alien_init c s w = Ok (n, w') →
  n = length (heap w)
  ∧ w' = set_grid (put_cell (grid w) c (Some n))
           (set_heap (heap w ++ [Alien.mk c s c.1 c.2 false []]) w).
Proof.
  intros H1 H2 H. unfold Alien_init in H.
  apply bind_inv in H as (r' & w1 & [= <- <-] & H).
  apply bind_inv in H as ([] & w2 & Hadd & [= <- <-]).
  unfold addAlien in Hadd.
  apply bind_inv in Hadd as (a & ? & [Ha ->]%alien_inv & Hadd). simpl in Ha.
  rewrite lookup_app_r, Nat.sub_diag in Ha by done. injection Ha as <-.
  apply set_cell_on_board in Hadd; done.
Qed.

(** X17.  What [doSpawn] does when it returns: either nothing but draws,
    or exactly one birth.  The child is a new alien of strength
    [max(1, strength - 1)], not squished and without children, put in a cell
    that was empty, on the board and next to the parent's position; it is
    appended to the parent's children.  A birth needs an occupied cell next
    to the parent.  The registry and the player are left alone. *)
Theorem doSpawn_effect r a w w' :
  heap w !! r = Some a → doSpawn r w = Ok (tt, w') →
  player w' = player w ∧ aliens w' = aliens w
  ∧ ((heap w' = heap w ∧ board w' = board w)
     ∨ ∃ c n,
         c ∈ adjacent a ∧ in_bounds w c ∧ cell_at (grid w) c = Ok None
         ∧ (∃ c', c' ∈ adjacent a ∧ in_bounds w c'
                  ∧ cell_at (grid w) c' = Ok (Some n))
         ∧ heap w' =
             <[r:=Alien.set_children
                    (Alien.children a ++ [Some (length (heap w))]) a]>
               (heap w ++ [Alien.mk c (Z.max 1 (Alien.strength a - 1))
                             c.1 c.2 false []])
         ∧ board w' =
             Board.set_board (put_cell (grid w) c (Some (length (heap w))))
               (board w)).
Proof.
  intros Ha H. unfold doSpawn in H.
  apply bind_inv in H as (es & w1 & H1 & H).
  apply (findEmptySpace_inv r a) in H1 as [[k1 ->] Hes]; [|done].
  apply bind_inv in H as (nb & w2 & H2 & H).
  apply (getNeighbor_inv r a) in H2 as [[k2 ->] Hnb]; [|done].
  apply bind_inv in H as (chance & w3 & H3 & H).
  pose proof (rolled_randint _ _ _ _ _ _ (rolled_refl _) H3) as [k3 ->].
  simpl in *. clear H3.
  destruct nb as [n|]; [|injection H as <-; auto].
  destruct es as [c|]; [|injection H as <-; auto].
  unfold when in H. case_bool_decide; [|injection H as <-; auto].
  apply bind_inv in H as (a' & ? & [Ha' ->]%alien_inv & H). simpl in Ha'.
  assert (a' = a) as -> by congruence.
  destruct Hes as (Hc & Hin & Hempty).
  apply bind_inv in H as (child & w4 & Hinit & H).
  apply Alien_init_inv in Hinit as [-> ->]; [|apply Hin..].
  apply update_inv in H as (a1 & Ha1 & ->). simpl in *.
  rewrite lookup_app_l in Ha1 by (by apply lookup_lt_Some in Ha).
  assert (a1 = a) as -> by congruence.
  split_and!; [done..|]. right. exists c, n. split_and!; done.
Qed.

Lemma doSpawn_effect_witness :
  ∃ w w', Alien_init (0, 0) 2 (initial (stream [])) = Ok (0%nat, w)
          ∧ doSpawn 0%nat w = Ok (tt, w')
          ∧ aliens w' = aliens w.
Proof.
  eexists. eexists. split; [vm_compute; reflexivity|].
  split; [vm_compute; reflexivity|].
  eapply (doSpawn_effect 0%nat (Alien.mk (0, 0) 2 0 0 false [])
            (set_grid (put_cell (grid (initial (stream []))) (0, 0) (Some 0%nat))
               (set_heap [Alien.mk (0, 0) 2 0 0 false []] (initial (stream [])))));
    [reflexivity|vm_compute; reflexivity].
Defined.

(** X18.  An alien with no occupied cell next to its position never
    reproduces: the store and the board are as before. *)
Theorem doSpawn_needs_neighbor r a w w' :
  heap w !! r = Some a → doSpawn r w = Ok (tt, w') →
  (∀ c, c ∈ adjacent a → in_bounds w c → cell_at (grid w) c = Ok None) →
  heap w' = heap w ∧ board w' = board w.
Proof.
  intros Ha H Halone. unfold doSpawn in H.
  apply bind_inv in H as (es & w1 & H1 & H).
  apply (findEmptySpace_inv r a) in H1 as [[k1 ->] Hes]; [|done].
  apply bind_inv in H as (nb & w2 & H2 & H).
  apply (getNeighbor_inv r a) in H2 as [[k2 ->] Hnb]; [|done].
  apply bind_inv in H as (chance & w3 & H3 & H).
  pose proof (rolled_randint _ _ _ _ _ _ (rolled_refl _) H3) as [k3 ->].
  simpl in *.
  destruct nb as [n|]; [|by injection H as <-].
  destruct Hnb as (c & Hc & Hin & Hcell).
  specialize (Halone c Hc Hin). unfold grid in *. simpl in *. congruence.
Qed.

Lemma doSpawn_needs_neighbor_witness :
  ∃ w w', Alien_init (0, 0) 2 (initial (stream [])) = Ok (0%nat, w)
          ∧ doSpawn 0%nat w = Ok (tt, w')
          ∧ heap w' = heap w.
Proof.
  eexists. eexists. split; [vm_compute; reflexivity|].
  split; [vm_compute; reflexivity|].
  eapply (doSpawn_needs_neighbor 0%nat (Alien.mk (0, 0) 2 0 0 false [])
            (set_grid (put_cell (grid (initial (stream []))) (0, 0) (Some 0%nat))
               (set_heap [Alien.mk (0, 0) 2 0 0 false []] (initial (stream [])))));
    [reflexivity|vm_compute; reflexivity|].
  intros c Hc Hin. unfold adjacent in Hc. simpl in Hc.
  rewrite !elem_of_cons, elem_of_nil in Hc.
  unfold in_bounds in Hin. simpl in Hin.
  destruct Hc as [->|[->|[->|[->|[->|[->|[->|[->|[]]]]]]]]]; simpl in Hin;
    first [lia|reflexivity].
Defined.


(** ** The engine does not raise

    On the states of the game every operation of the engine but the
    collection returns: no coordinates typed by the player and no draw of
    the random stream make it raise. *)

Section Runs.
Context (I : World → Prop).

Lemma runs_ret {A} (a : A) : runs I (ret a).
Proof. intros w _. by exists a, w. Qed.

Lemma runs_gets {A} (f : World → A) : runs I (gets f).
Proof. intros w _. by exists (f w), w. Qed.

Lemma runs_modify f : runs I (modify f).
Proof. intros w _. by exists tt, (f w). Qed.

Lemma runs_randbelow n : runs I (randbelow n).
Proof. intros w _. by eexists _, _. Qed.

Lemma runs_alloc a : runs I (alloc a).
Proof. intros w _. by eexists _, _. Qed.

Lemma runs_bind_strong {A B} (J : A → World → Prop) (m : M A) (k : A → M B) :
  runs I m → (∀ w a w', I w → m w = Ok (a, w') → J a w') →
  (∀ a, runs (J a) (k a)) → runs I (bind m k).
Proof.
  intros Hm HJ Hk w Hw. destruct (Hm w Hw) as (a & w1 & H1).
  destruct (Hk a w1 (HJ _ _ _ Hw H1)) as (b & w2 & H2).
  exists b, w2. by rewrite (bind_ok _ _ _ _ _ H1).
Qed.

Lemma runs_bind {A B} (m : M A) (k : A → M B) :
  runs I m → invariant I m → (∀ a, runs I (k a)) → runs I (bind m k).
Proof.
  intros Hm Hinv Hk. apply (runs_bind_strong (λ _, I)); [done| |done].
  intros w a w' Hw H. by eapply Hinv.
Qed.

Lemma runs_bind_with {A B} (P : A → Prop) (m : M A) (k : A → M B) :
  runs I m → invariant I m → yields I m P →
  (∀ a, P a → runs I (k a)) → runs I (bind m k).
Proof.
  intros Hm Hinv HP Hk w Hw. destruct (Hm w Hw) as (a & w1 & H1).
  destruct (Hk a (HP _ _ _ Hw H1) w1 (Hinv _ _ _ Hw H1)) as (b & w2 & H2).
  exists b, w2. by rewrite (bind_ok _ _ _ _ _ H1).
Qed.

Lemma runs_when c m : runs I m → runs I (when c m).
Proof. intros Hm. destruct c; [done|apply runs_ret]. Qed.

Lemma runs_for_each {A} (l : list A) body :
  (∀ a, a ∈ l → runs I (body a)) → (∀ a, invariant I (body a)) →
  runs I (for_each l body).
Proof.
  intros Hbody Hinv. induction l as [|a l IH]; simpl; [apply runs_ret|].
  apply runs_bind; [apply Hbody, list_elem_of_here|apply Hinv|].
  intros _. apply IH. intros a' Ha'. by apply Hbody, list_elem_of_further.
Qed.
End Runs.

Lemma runs_weaken (I I' : World → Prop) {A} (m : M A) :
  (∀ w, I' w → I w) → runs I m → runs I' m.
Proof. intros HI Hm w Hw. by apply Hm, HI. Qed.

Lemma evolves_length h h' : evolves h h' → (length h ≤ length h')%nat.
Proof.
  intros [Hold _]. destruct (decide (length h ≤ length h')%nat); [done|].
  destruct (lookup_lt_is_Some_2 h (length h')) as [a Ha]; [lia|].
  destruct (Hold _ _ Ha) as (a' & Ha' & _).
  apply lookup_lt_Some in Ha'. lia.
Qed.

Lemma valid_invariant n {A} (m : M A) :
  invariant well_formed m → respects evolves m → invariant (valid n) m.
Proof.
  intros Hwf Hev w a w' [Hw Hn] H. split; [by eapply Hwf|].
  apply Hev, evolves_length in H. lia.
Qed.

Lemma valid_yields n {A} (m : M A) P :
  yields well_formed m P → yields (valid n) m P.
Proof. intros H w a w' [Hw _]. by apply H. Qed.

Lemma valid_le n n' w : (n' ≤ n)%nat → valid n w → valid n' w.
Proof. intros Hle [Hw Hn]. split; [done|lia]. Qed.

Ltac valid_inv :=
  apply valid_invariant; [solve [invariant]|solve [respects]].

Ltac runs_step :=
  lazymatch goal with
  | |- runs _ (bind _ _) =>
      refine (runs_bind _ _ _ _ _ _); [|try valid_inv|intros ?; cbv beta]
  | |- runs _ (ret _) => refine (runs_ret _ _)
  | |- runs _ (gets _) => refine (runs_gets _ _)
  | |- runs _ (modify _) => refine (runs_modify _ _)
  | |- runs _ (randbelow _) => refine (runs_randbelow _ _)
  | |- runs _ (alloc _) => refine (runs_alloc _ _)
  | |- runs _ (when _ _) => refine (runs_when _ _ _ _)
  | |- runs _ (if ?b then _ else _) => destruct b
  | |- runs _ (let _ := _ in _) => cbv zeta
  end.

Ltac as_runs :=
  match goal with
  | |- ∀ w, ?I w → ∃ a w', ?m w = Ok (a, w') => change (runs I m)
  end.

Create HintDb runs.
Ltac runs := repeat (first [runs_step | solve [eauto with runs]]).

Section Valid.
Context (n : nat).

Lemma runs_randint a b : runs (valid n) (randint a b).
Proof. unfold randint. runs. Qed.

Lemma runs_inRange c : runs (valid n) (inRange c).
Proof. unfold inRange. runs. Qed.

Lemma runs_getAlien c : on_board c → runs (valid n) (getAlien c).
Proof.
  intros Hc w [Hwf _]. destruct (wf_slot w c Hwf Hc) as [o Ho].
  exists o, w. apply slot_getAlien; [apply Hc..|done].
Qed.

Lemma getAlien_valid c w o w' :
  valid n w → getAlien c w = Ok (o, w') →
  match o with Some r => valid (S r `max` n) w' | None => valid n w' end.
Proof.
  intros [Hwf Hn] [-> Ho]%getAlien_inv. destruct o as [r|]; [|done].
  split; [done|]. apply cell_at_elem, (wf_refs _ Hwf) in Ho. lia.
Qed.

Lemma runs_isEmpty c : on_board c → runs (valid n) (isEmpty c).
Proof. intros Hc. unfold isEmpty. runs. by apply runs_getAlien. Qed.

Lemma runs_set_cell c v : on_board c → runs (valid n) (set_cell c v).
Proof.
  intros Hc w [Hwf _]. destruct (wf_slot w c Hwf Hc) as [o Ho].
  eexists _, _. apply (set_cell_ok _ _ _ o); [apply Hc..|done].
Qed.

Lemma runs_alien r : (r < n)%nat → runs (valid n) (alien r).
Proof.
  intros Hr w [_ Hn]. destruct (lookup_lt_is_Some_2 (heap w) r) as [a Ha]; [lia|].
  exists a, w. unfold alien. by rewrite Ha.
Qed.

Lemma yields_alien_coords r :
  yields (valid n) (alien r) (λ a, on_board (Alien.coords a)).
Proof.
  intros w a w' [Hwf _] [Ha _]%alien_inv.
  apply (Forall_lookup_1 _ _ _ _ (wf_coords _ Hwf) Ha).
Qed.

Lemma runs_update r f : (r < n)%nat → runs (valid n) (update r f).
Proof.
  intros Hr w [_ Hn]. destruct (lookup_lt_is_Some_2 (heap w) r) as [a Ha]; [lia|].
  eexists _, _. unfold update. by rewrite Ha.
Qed.

Lemma runs_moveAlien old new :
  on_board old → on_board new → runs (valid n) (moveAlien old new).
Proof.
  intros Hold Hnew w [Hwf _].
  destruct (wf_slot w old Hwf Hold) as [o Ho].
  destruct (wf_slot w new Hwf Hnew) as [o' Ho'].
  apply slot_getAlien in Ho as Hgo; [|apply Hold..].
  apply slot_getAlien in Ho' as Hgo'; [|apply Hnew..].
  destruct o as [r|]; last first.
  { exists tt, w. apply (moveAlien_noop _ _ _ None); [done|by left]. }
  destruct o' as [r'|].
  { exists tt, w. apply (moveAlien_noop _ _ _ (Some r)); [done|]. right. eauto. }
  destruct (lookup_lt_is_Some_2 (heap w) r) as [a Ha].
  { apply (wf_refs _ Hwf), elem_of_concat_slot. eauto. }
  eexists _, _.
  apply (moveAlien_ok _ _ _ r a);
    [apply Hold|apply Hold|apply Hnew|apply Hnew|done..].
Qed.

Lemma runs_doDeath r : (r < n)%nat → runs (valid n) (doDeath r).
Proof.
  intros Hr w [Hwf Hn].
  destruct (lookup_lt_is_Some_2 (heap w) r) as [a Ha]; [lia|].
  eexists _, _. by apply doDeath_ok.
Qed.

Lemma runs_doPop r s : (r < n)%nat → runs (valid n) (doPop r s).
Proof.
  intros Hr w [Hwf Hn].
  destruct (lookup_lt_is_Some_2 (heap w) r) as [a Ha]; [lia|].
  destruct (doPop_ok w r a s Hwf Ha) as (w' & a' & H & _). eauto.
Qed.

#[local] Hint Resolve runs_randint runs_inRange runs_alien runs_update
  runs_doDeath runs_doPop : runs.

Lemma runs_doGrow r : (r < n)%nat → runs (valid n) (doGrow r).
Proof. intros Hr. unfold doGrow. runs. Qed.

Lemma runs_doTravel r : (r < n)%nat → runs (valid n) (doTravel r).
Proof.
  intros Hr. unfold doTravel, doTravel_by.
  do 2 (runs_step; [eauto with runs|]).
  apply (runs_bind_with _ (λ a, on_board (Alien.coords a)));
    [eauto with runs|valid_inv|apply yields_alien_coords|].
  intros al Hal. cbv zeta.
  match goal with
  | |- runs _ (bind (inRange ?c) _) =>
      apply (runs_bind_with _ (λ b, b = true → on_board c));
        [eauto with runs|valid_inv|apply valid_yields, yields_inRange|]
  end.
  intros ok Hok. destruct ok; simpl; [|apply runs_ret].
  runs. apply runs_moveAlien; auto.
Qed.

Lemma runs_shuffle_from {A} i (l : list A) : runs (valid n) (shuffle_from i l).
Proof. revert l. induction i; intros l; simpl; runs. Qed.

Lemma runs_first_empty cells : runs (valid n) (first_empty cells).
Proof.
  induction cells as [|c cells IH]; simpl; [apply runs_ret|].
  apply (runs_bind_with _ (λ b, b = true → on_board c));
    [eauto with runs|valid_inv|apply valid_yields, yields_inRange|].
  intros ok Hok. destruct ok; [|done].
  runs_step; [by apply runs_isEmpty, Hok|]. by runs.
Qed.

Lemma runs_collect_neighbors cells acc :
  runs (valid n) (collect_neighbors cells acc).
Proof.
  revert acc. induction cells as [|c cells IH]; intros acc; simpl;
    [apply runs_ret|].
  apply (runs_bind_with _ (λ b, b = true → on_board c));
    [eauto with runs|valid_inv|apply valid_yields, yields_inRange|].
  intros ok Hok. destruct ok; [|done].
  runs_step; [by apply runs_getAlien, Hok|]. by destruct a.
Qed.

#[local] Hint Resolve runs_doGrow runs_doTravel runs_shuffle_from
  runs_first_empty runs_collect_neighbors : runs.

Lemma runs_findEmptySpace r : (r < n)%nat → runs (valid n) (findEmptySpace r).
Proof. intros Hr. unfold findEmptySpace, shuffle. runs. Qed.

Lemma runs_getNeighbor r : (r < n)%nat → runs (valid n) (getNeighbor r).
Proof.
  intros Hr. unfold getNeighbor. do 2 (runs_step; [eauto with runs|]).
  destruct a0 as [|n0 l]; [apply runs_ret|].
  apply (runs_bind_with _ (λ k, 0 ≤ k ≤ Z.of_nat (length (n0 :: l)) - 1));
    [eauto with runs|valid_inv| |].
  { apply valid_yields, yields_randint. simpl. lia. }
  intros k Hk.
  destruct (lookup_lt_is_Some_2 (n0 :: l) (Z.to_nat k)) as [v Hv]; [lia|].
  intros w Hw. exists (Some v), w.
  rewrite (bind_ok _ _ w v w); [done|].
  apply lift_ok, getitem_nonneg; [lia|done].
Qed.

Lemma runs_Alien_init c s : on_board c → runs (valid n) (Alien_init c s).
Proof.
  intros Hc w [Hwf Hn]. destruct (wf_slot w c Hwf Hc) as [o Ho].
  eexists _, _. unfold Alien_init.
  rewrite (bind_ok _ _ w (length (heap w)) _) by reflexivity.
  erewrite bind_ok; [reflexivity|].
  unfold addAlien. erewrite bind_ok; last first.
  { unfold alien. simpl. by rewrite lookup_app_r, Nat.sub_diag. }
  simpl. apply (set_cell_ok _ _ _ o); [apply Hc..|done].
Qed.
End Valid.

#[local] Hint Resolve runs_randint runs_inRange runs_alien runs_update
  runs_doDeath runs_doPop runs_doGrow runs_doTravel runs_shuffle_from
  runs_first_empty runs_collect_neighbors runs_findEmptySpace
  runs_getNeighbor : runs.

Lemma valid_grows n {A} (m : M A) w a w' :
  invariant well_formed m → respects evolves m →
  m w = Ok (a, w') → valid n w → valid n w'.
Proof. intros Hwf Hev H Hw. by apply (valid_invariant n m Hwf Hev w a w'). Qed.

Lemma valid_Alien_init n c s :
  on_board c → invariant (valid n) (Alien_init c s).
Proof.
  intros Hc w r w' [Hwf Hn] H. split; [by apply (wf_Alien_init c s Hc w r w')|].
  apply Alien_init_inv in H as [_ ->]; [|apply Hc..]. simpl.
  rewrite length_app. lia.
Qed.

Lemma runs_doSpawn n r : (r < n)%nat → runs (valid n) (doSpawn r).
Proof.
  intros Hr. unfold doSpawn.
  apply (runs_bind_with _ (λ o, ∀ c, o = Some c → on_board c));
    [eauto with runs|valid_inv|apply valid_yields, yields_findEmptySpace|].
  intros emptySpace Hempty.
  do 2 (runs_step; [eauto with runs|]).
  destruct a as [nb|]; [|apply runs_ret].
  destruct emptySpace as [c|]; [|apply runs_ret].
  apply runs_when. runs_step; [eauto with runs|].
  runs_step; [by apply runs_Alien_init, Hempty| |by eauto with runs].
  by apply valid_Alien_init, Hempty.
Qed.

Lemma runs_Alien_doTimestep n r :
  (r < n)%nat → runs (valid n) (Alien_doTimestep r).
Proof.
  intros Hr. unfold Alien_doTimestep. runs. by apply runs_doSpawn.
Qed.

Lemma runs_visit n (body : nat → M unit) c :
  on_board c →
  (∀ r k, (r < k)%nat → runs (valid k) (body r)) →
  runs (valid n) (do o <- getAlien c;
                  match o with Some r => body r | None => ret tt end).
Proof.
  intros Hc Hbody.
  apply (runs_bind_strong _
           (λ o w, match o with
                   | Some r => valid (S r `max` n) w
                   | None => valid n w
                   end)); [by apply runs_getAlien|apply getAlien_valid|].
  intros [r|]; [|apply runs_ret]. apply Hbody. lia.
Qed.

Lemma on_board_cells_of c : c ∈ cells_of WIDTH HEIGHT → on_board c.
Proof. by intros ?%elem_of_cells_of. Qed.

Lemma runs_Board_doTimestep n : runs (valid n) Board_doTimestep.
Proof.
  intros w Hw. unfold Board_doTimestep.
  rewrite (bind_ok _ _ w (board w) w) by done.
  rewrite (wf_width _ (proj1 Hw)), (wf_height _ (proj1 Hw)).
  revert w Hw. apply runs_for_each.
  - intros c Hc%on_board_cells_of.
    apply (runs_visit n (λ r, do a <- alien r;
                              when (negb (Alien.squished a))
                                   (Alien_doTimestep r))); [done|].
    intros r k Hr. runs. by apply runs_Alien_doTimestep.
  - intros c. valid_inv.
Qed.

Lemma runs_kill_at n c : on_board c → runs (valid n) (kill_at c).
Proof.
  intros Hc. apply (runs_visit n doDeath); [done|].
  intros r k Hr. by apply runs_doDeath.
Qed.

Lemma runs_trigger_bomb n c : runs (valid n) (trigger_bomb c).
Proof.
  unfold trigger_bomb. apply runs_for_each; [|intros c'; valid_inv].
  intros c' Hc'. apply runs_kill_at.
  by apply (proj1 (Forall_forall _ _) (affected_cells_on_board c)).
Qed.

Lemma runs_nuke_board n : runs (valid n) nuke_board.
Proof.
  intros w Hw. unfold nuke_board.
  rewrite (bind_ok _ _ w (board w) w) by done.
  rewrite (wf_width _ (proj1 Hw)), (wf_height _ (proj1 Hw)).
  revert w Hw. apply runs_for_each; [|intros c; valid_inv].
  intros c Hc%on_board_cells_of. by apply runs_kill_at.
Qed.

Lemma runs_set_consecutive_hits n v : runs (valid n) (set_consecutive_hits v).
Proof. apply runs_modify. Qed.

#[local] Hint Resolve runs_trigger_bomb runs_set_consecutive_hits : runs.

Lemma runs_squish n c s : runs (valid n) (squish c s).
Proof.
  intros w Hw. unfold squish.
  rewrite (bind_ok _ _ w (board w) w) by done.
  rewrite (wf_width _ (proj1 Hw)), (wf_height _ (proj1 Hw)).
  destruct (bool_decide (0 ≤ c.1 < WIDTH) && bool_decide (0 ≤ c.2 < HEIGHT))
    eqn:Hin; simpl; [|by eexists _, _].
  apply andb_true_iff in Hin as [H1%bool_decide_eq_true H2%bool_decide_eq_true].
  assert (on_board c) as Hc by done.
  revert w Hw. as_runs.
  runs_step; [by apply runs_isEmpty|].
  destruct a; [apply runs_ret|].
  apply (runs_bind_strong _
           (λ o w, match o with
                   | Some r => valid (S r `max` n) w
                   | None => valid n w
                   end)); [by apply runs_getAlien|apply getAlien_valid|].
  intros [r|]; [|apply runs_ret].
  assert (r < S r `max` n)%nat by lia. runs.
Qed.

Lemma runs_attack n x y : runs (valid n) (attack x y).
Proof. unfold attack. runs. apply runs_squish. Qed.

Lemma total_strength_ok l w :
  (∀ r, Some r ∈ l → (r < length (heap w))%nat) →
  ∃ t, total_strength l w = Ok (t, w).
Proof.
  induction l as [|[r|] l IH]; intros Hl; simpl.
  - by exists 0.
  - destruct (lookup_lt_is_Some_2 (heap w) r) as [a Ha].
    { apply Hl, list_elem_of_here. }
    destruct IH as [t Ht].
    { intros r' Hr'. by apply Hl, list_elem_of_further. }
    eexists. rewrite (bind_ok _ _ w a w) by (unfold alien; by rewrite Ha).
    by rewrite (bind_ok _ _ _ _ _ Ht).
  - apply IH. intros r' Hr'. by apply Hl, list_elem_of_further.
Qed.

Lemma runs_total_alien_strength n : runs (valid n) total_alien_strength.
Proof.
  intros w [Hwf _]. unfold total_alien_strength.
  rewrite (bind_ok _ _ w (grid w) w) by done.
  destruct (total_strength_ok (concat (grid w)) w (wf_refs _ Hwf)) as [t Ht].
  eauto.
Qed.

Lemma runs_win_by_nuke n : runs (valid n) win_by_nuke.
Proof.
  unfold win_by_nuke. runs;
    [apply runs_total_alien_strength|unfold total_alien_strength; valid_inv
    |apply runs_nuke_board].
Qed.

Lemma runs_all_cells n cells p :
  (∀ c, c ∈ cells → runs (valid n) (p c)) →
  (∀ c, invariant (valid n) (p c)) →
  runs (valid n) (all_cells cells p).
Proof.
  intros Hp Hinv. induction cells as [|c cells IH]; simpl; [apply runs_ret|].
  apply runs_bind; [apply Hp, list_elem_of_here|apply Hinv|].
  intros [|]; [|apply runs_ret].
  apply IH. intros c' Hc'. by apply Hp, list_elem_of_further.
Qed.

Lemma runs_board_full n : runs (valid n) board_full.
Proof.
  unfold board_full. apply runs_all_cells.
  - intros c Hc%on_board_cells_of. runs. by apply runs_isEmpty.
  - intros c. valid_inv.
Qed.

Lemma runs_isEmpty_board n : runs (valid n) isEmpty_board.
Proof.
  intros w Hw. unfold isEmpty_board.
  rewrite (bind_ok _ _ w (board w) w) by done.
  rewrite (wf_width _ (proj1 Hw)), (wf_height _ (proj1 Hw)).
  revert w Hw. apply runs_all_cells.
  - intros c Hc%on_board_cells_of. by apply runs_isEmpty.
  - intros c. valid_inv.
Qed.

Lemma runs_place_alien n : runs (valid n) place_alien.
Proof.
  unfold place_alien.
  apply (runs_bind_with _ (λ x, 0 ≤ x ≤ WIDTH - 1));
    [eauto with runs|valid_inv|by apply valid_yields, yields_randint|].
  intros x Hx.
  apply (runs_bind_with _ (λ y, 0 ≤ y ≤ HEIGHT - 1));
    [eauto with runs|valid_inv|by apply valid_yields, yields_randint|].
  intros y Hy.
  assert (on_board (x, y)) as Hc by (split; simpl; lia).
  runs_step; [eauto with runs|]. runs_step; [apply runs_gets|]. cbv zeta.
  runs_step; [by apply runs_isEmpty|].
  apply runs_when. runs_step; [by apply runs_Alien_init| |apply runs_modify].
  by apply valid_Alien_init.
Qed.

Lemma runs_Player_doTimestep n : runs (valid n) Player_doTimestep.
Proof. apply runs_modify. Qed.

(** X19.  On a well-formed state every operation of the engine other than
    the collection returns, whatever the coordinates of an attack or of a
    bomb and whatever the random stream, and the state it returns is well
    formed; the operations on one alien need that alien in the store. *)
Theorem engine_never_raises w o :
  well_formed w → op_ready w o →
  ∃ w', apply_op o w = Ok (tt, w') ∧ well_formed w'.
Proof.
  intros Hwf Hready.
  assert (∃ n, valid n w ∧ runs (valid n) (apply_op o)) as (n & Hv & Hruns).
  { destruct o; simpl in *; try done.
    - exists 0%nat. split; [split; [done|lia]|apply runs_place_alien].
    - exists 0%nat. split; [split; [done|lia]|apply runs_attack].
    - exists (S r). split; [by split|]. apply runs_doTravel. lia.
    - exists (S r). split; [by split|]. apply runs_doSpawn. lia.
    - exists (S r). split; [by split|]. apply runs_doGrow. lia.
    - exists 0%nat. split; [split; [done|lia]|apply runs_trigger_bomb].
    - exists 0%nat. split; [split; [done|lia]|apply runs_Board_doTimestep].
    - exists 0%nat. split; [split; [done|lia]|apply runs_Player_doTimestep].
    - exists 0%nat. split; [split; [done|lia]|apply runs_nuke_board]. }
  destruct (Hruns w Hv) as ([] & w' & H). exists w'. split; [done|].
  by apply (wf_apply_op o w tt w').
Qed.

Lemma engine_never_raises_witness :
  ∃ w', apply_op (OpAttack (-3) 99) (initial (stream [])) = Ok (tt, w')
        ∧ well_formed w'.
Proof.
  apply engine_never_raises; [|done].
  apply well_formed_check_sound. reflexivity.
Defined.


(** ** The bomb and the nuke on a coherent board *)

Lemma coherent_check_sound w :
  well_formed w → coherent_check w = true → coherent w.
Proof.
  intros Hwf H i j r Hij. unfold coherent_check in H.
  destruct (wf_slot_bounds w i j _ Hwf Hij) as [Hi Hj].
  rewrite forallb_forall in H. specialize (H i).
  rewrite forallb_forall in H.
  assert (In i (seq 0 8)) as Hini by (apply in_seq; lia).
  assert (In j (seq 0 8)) as Hinj by (apply in_seq; lia).
  specialize (H Hini j Hinj). rewrite Hij in H.
  destruct (heap w !! r) as [a|]; [|done].
  apply bool_decide_eq_true in H. eauto.
Qed.

Lemma late_game_ok : well_formed late_game ∧ coherent late_game.
Proof.
  assert (well_formed late_game) as Hwf
    by (apply well_formed_check_sound; reflexivity).
  split; [done|]. by apply coherent_check_sound.
Qed.

(** In a coherent state a death changes the cell of the alien that dies and
    its squished flag, nothing else. *)
Lemma kill_at_frame w c w' :
  well_formed w → coherent w → on_board c → kill_at c w = Ok (tt, w') →
  ∀ i j, (Z.of_nat i, Z.of_nat j) ≠ c →
         slot (grid w') i j = slot (grid w) i j
         ∧ ∀ r, slot (grid w) i j = Some (Some r) →
                heap w' !! r = heap w !! r.
Proof.
  intros Hwf Hco Hc H i j Hne. unfold kill_at in H.
  apply bind_inv in H as (o & ? & [-> Ho]%getAlien_exact & H).
  destruct o as [r|]; [|by injection H as <-].
  destruct Ho as (i0 & j0 & row & Hi0 & _ & Hj0 & Ho).
  destruct (Hco _ _ _ Ho) as (a & Ha & Hcoords).
  rewrite (doDeath_ok w r a Hwf Ha) in H. injection H as <-.
  change (grid (after_death r a w))
    with (put_cell (grid w) (Alien.coords a) None).
  destruct Hc as [[Hc1 _] [Hc2 _]].
  apply py_index_on_board in Hi0 as ->; [|done].
  assert (j0 = Z.to_nat c.2) as ->.
  { revert Hj0. unfold py_index. repeat case_decide; intros [= <-]; lia. }
  rewrite !Z2Nat.id in Hcoords by done.
  assert (Alien.coords a = c) as -> by (by destruct c).
  rewrite slot_put_cell. rewrite decide_False; last first.
  { intros [-> ->]. apply Hne. rewrite !Z2Nat.id by done. by destruct c. }
  split; [done|]. intros r' Hr'. simpl.
  destruct (decide (r' = r)) as [->|Hrr]; [|by rewrite list_lookup_insert_ne].
  exfalso. destruct (Hco _ _ _ Hr') as (a' & Ha' & Hcoords').
  apply Hne. destruct c. simpl in *. congruence.
Qed.

Lemma scanned_frame w0 cells :
  Forall on_board cells →
  ∀ visited w w', scanned w0 visited w →
  for_each cells kill_at w = Ok (tt, w') →
  ∀ i j, (Z.of_nat i, Z.of_nat j) ∉ cells →
         slot (grid w') i j = slot (grid w) i j
         ∧ ∀ r, slot (grid w) i j = Some (Some r) →
                heap w' !! r = heap w !! r.
Proof.
  induction 1 as [|c cells Hc _ IH]; intros visited w w' Hsc H i j Hij;
    simpl in H.
  - by injection H as <-.
  - apply bind_inv in H as ([] & w1 & H1 & H).
    destruct (scanned_step w0 visited w c Hc Hsc) as (w1' & Hrun & Hsc1).
    assert (w1' = w1) as -> by congruence.
    apply not_elem_of_cons in Hij as [Hne Hij].
    destruct (kill_at_frame w c w1 (sc_wf _ _ _ Hsc) (sc_coherent _ _ _ Hsc)
                Hc H1 i j Hne) as [Hs1 Hh1].
    destruct (IH _ _ _ Hsc1 H i j Hij) as [Hs2 Hh2].
    split; [congruence|]. intros r Hr. rewrite <- (Hh1 r Hr). apply Hh2.
    by rewrite Hs1.
Qed.

(** X20.  On a well-formed and coherent board the bomb returns, kills the
    occupants of the cells of the blast and empties these cells; the cells
    outside the blast and their occupants are exactly as before. *)
Theorem trigger_bomb_coherent w epicenter :
  well_formed w → coherent w →
  ∃ w', trigger_bomb epicenter w = Ok (tt, w')
        ∧ (∀ c r, c ∈ affected_cells epicenter →
                  getAlien c w = Ok (Some r, w) → dead w' r)
        ∧ (∀ c, c ∈ affected_cells epicenter → getAlien c w' = Ok (None, w'))
        ∧ (∀ c o, on_board c → c ∉ affected_cells epicenter →
                  getAlien c w = Ok (o, w) →
                  getAlien c w' = Ok (o, w')
                  ∧ ∀ r, o = Some r → heap w' !! r = heap w !! r).
Proof.
  intros Hwf Hco. unfold trigger_bomb.
  pose proof (affected_cells_on_board epicenter) as Hcells.
  assert (scanned w [] w) as Hsc0.
  { split; [done..| |].
    - intros i j r Hij. by left.
    - intros c Hc. by apply elem_of_nil in Hc. }
  destruct (scanned_all w _ Hcells [] w Hsc0) as (w' & Hrun & Hsc).
  exists w'. split; [done|]. split_and!.
  - intros c r Hc Hget.
    pose proof (proj1 (Forall_forall _ _) Hcells c Hc) as [[H1 _] [H2 _]].
    apply getAlien_slot in Hget; [|done..].
    destruct (sc_occupants _ _ _ Hsc _ _ r Hget) as [Hstill|[_ Hd]]; [|done].
    rewrite (sc_visited _ _ _ Hsc c) in Hstill; done.
  - intros c Hc.
    pose proof (proj1 (Forall_forall _ _) Hcells c Hc) as [[H1 _] [H2 _]].
    apply slot_getAlien; [done..|]. by apply (sc_visited _ _ _ Hsc).
  - intros c o [[H1 _] [H2 _]] Hout Hget.
    apply getAlien_slot in Hget; [|done..].
    destruct (scanned_frame w _ Hcells [] w w' Hsc0 Hrun
                (Z.to_nat c.1) (Z.to_nat c.2)) as [Hs Hh].
    { rewrite !Z2Nat.id by done. by destruct c. }
    split.
    + apply slot_getAlien; [done..|]. by rewrite Hs.
    + intros r ->. by apply Hh.
Qed.

Lemma trigger_bomb_coherent_witness :
  ∃ w', trigger_bomb (3, 3) late_game = Ok (tt, w')
        ∧ dead w' 0%nat ∧ dead w' 1%nat.
Proof.
  destruct (trigger_bomb_coherent late_game (3, 3))
    as (w' & Hrun & Hdead & _); [apply late_game_ok..|].
  exists w'. split; [exact Hrun|]. split.
  - apply (Hdead (3, 3)); [|reflexivity].
    vm_compute. do 4 apply list_elem_of_further. apply list_elem_of_here.
  - apply (Hdead (3, 4)); [|reflexivity].
    vm_compute. do 5 apply list_elem_of_further. apply list_elem_of_here.
Defined.

Lemma win_by_nuke_coherent_witness :
  ∃ w', win_by_nuke late_game = Ok (true, w')
        ∧ dead w' 0%nat ∧ dead w' 1%nat.
Proof.
  destruct (win_by_nuke_coherent late_game 3)
    as (w' & Hrun & Hdead & _);
    [apply late_game_ok|apply late_game_ok|simpl; lia|reflexivity|simpl; lia|].
  exists w'. split; [exact Hrun|]. split; apply Hdead.
  - apply list_elem_of_lookup. by exists 27%nat.
  - apply list_elem_of_lookup. by exists 28%nat.
Defined.


(** ** garbage_collect on any store *)

(** The collection writes [None] over squished aliens only, and the
    compaction takes out [None] only: an alien that is not squished stays in
    every child list it is in. *)
Lemma live_prunes w w1 n :
  prunes (heap w) (heap w1) → live w n → live w1 n.
Proof.
  intros Hpr (a & Ha & Hq).
  destruct (pr_node _ _ Hpr n a Ha) as (a1 & Ha1 & Hq1 & _).
  exists a1. split; [done|congruence].
Qed.

Lemma gc_loop_keeps_live fuel :
  ∀ stack w w',
    gc_loop fuel stack w = Ok (tt, w') → stack_slots w stack →
    ∀ p c, edge w p c → live w c → edge w' p c.
Proof.
  induction fuel as [|fuel IH]; intros stack w w' H Hst p c Hedge Hlive;
    simpl in H; [done|].
  destruct stack as [|[[current parent] idx] stack]; [by injection H as <-|].
  destruct current as [cur|]; [|done].
  apply bind_inv in H as (a & ? & [Ha ->]%alien_inv & H).
  assert (stack_slots w stack) as Hst'.
  { intros c' p' i' Hin. by apply Hst, list_elem_of_further. }
  destruct (Alien.squished a) eqn:Hsq.
  - destruct parent as [par|]; [|by apply (IH _ _ _ H Hst')].
    destruct (Hst cur par idx (list_elem_of_here _ _)) as (ap & Hap & Hslot).
    apply bind_inv in H as ([] & w1 & H1 & H).
    assert (w1 = cleared par idx ap w) as ->.
    { destruct Hslot as [Hs|Hs];
        rewrite (clear_slot_ok w par idx ap _ Hap Hs) in H1; congruence. }
    apply (IH _ _ _ H).
    + intros c' p' i' Hin. destruct (Hst' c' p' i' Hin) as (ap' & Hap' & Hs').
      unfold cleared. simpl. destruct (decide (p' = par)) as [->|Hne].
      * rewrite list_lookup_insert_eq by (by apply lookup_lt_Some in Hap).
        eexists. split; [done|]. simpl.
        assert (ap' = ap) as -> by congruence.
        destruct (decide (i' = idx)) as [->|Hi].
        -- right. apply list_lookup_insert_eq.
           destruct Hs' as [Hs'|Hs']; by apply lookup_lt_Some in Hs'.
        -- by rewrite list_lookup_insert_ne.
      * rewrite list_lookup_insert_ne by done. eauto.
    + destruct Hedge as (a0 & Ha0 & Hc). unfold edge, cleared. simpl.
      destruct (decide (p = par)) as [->|Hne].
      * rewrite list_lookup_insert_eq by (by apply lookup_lt_Some in Hap).
        eexists. split; [done|]. simpl.
        assert (a0 = ap) as -> by congruence.
        apply list_elem_of_lookup in Hc as [j Hj].
        apply list_elem_of_lookup. exists j.
        rewrite list_lookup_insert_ne; [done|]. intros <-.
        destruct Hslot as [Hs|Hs]; [|congruence].
        assert (c = cur) as -> by congruence.
        destruct Hlive as (a' & Ha' & Hq'). congruence.
      * rewrite list_lookup_insert_ne by done. eauto.
    + destruct Hlive as (a' & Ha' & Hq'). unfold live, cleared. simpl.
      destruct (decide (c = par)) as [->|Hne].
      * rewrite list_lookup_insert_eq by (by apply lookup_lt_Some in Hap).
        eexists. split; [done|]. simpl. congruence.
      * rewrite list_lookup_insert_ne by done. eauto.
  - apply (IH _ _ _ H); [|done..].
    intros c' p' i' [Hin|Hin]%elem_of_app; [|by apply Hst'].
    rewrite elem_of_reverse in Hin.
    apply elem_of_child_entries in Hin as [[= <-] Hi]. eauto.
Qed.

Lemma gc_root_keeps_live fuel r w w' :
  gc_root fuel r w = Ok (tt, w') →
  ∀ p c, edge w p c → live w c → edge w' p c.
Proof.
  intros H p c Hedge Hlive. unfold gc_root in H.
  apply bind_inv in H as (a & ? & [Ha ->]%alien_inv & H).
  destruct (Alien.squished a); [by injection H as <-|].
  apply bind_inv in H as ([] & w1 & H1 & H).
  assert (edge w1 p c) as (a0 & Ha0 & Hc).
  { apply (gc_loop_keeps_live _ _ _ _ H1); [|done..].
    intros c' p' i' [[=]|[]%elem_of_nil]%elem_of_cons. }
  apply bind_inv in H as (a1 & ? & [Ha1 ->]%alien_inv & H).
  unfold when in H. destruct (negb (Alien.squished a1)).
  2:{ injection H as <-. by exists a0. }
  apply heap_update in H as (a2 & Ha2 & Hheap).
  unfold edge. rewrite Hheap. destruct (decide (p = r)) as [->|Hne].
  - rewrite list_lookup_insert_eq by (by apply lookup_lt_Some in Ha2).
    eexists. split; [done|]. simpl.
    assert (a2 = a0) as -> by congruence. by apply list_elem_of_filter.
  - rewrite list_lookup_insert_ne by done. eauto.
Qed.

Lemma gc_roots_keep_live fuel l :
  ∀ w w', for_each l (gc_root fuel) w = Ok (tt, w') →
          ∀ p c, edge w p c → live w c → edge w' p c.
Proof.
  induction l as [|r l IH]; intros w w' H p c Hedge Hlive; simpl in H.
  - by injection H as <-.
  - apply bind_inv in H as ([] & w1 & H1 & H).
    apply (IH _ _ H).
    + by apply (gc_root_keeps_live _ _ _ _ H1).
    + apply (live_prunes w); [|done]. revert H1. apply prunes_gc_root.
Qed.

Lemma garbage_collect_keeps_live_children fuel roots w res w' :
  garbage_collect fuel roots w = Ok (res, w') →
  ∀ p c, edge w p c → live w c → edge w' p c.
Proof.
  unfold garbage_collect. intros H.
  apply bind_inv in H as ([] & w1 & H1 & [-> _]%kept_roots_inv).
  by apply (gc_roots_keep_live _ _ _ _ H1).
Qed.

(** X21.  Whenever the collection returns, on any store, shaped as a forest
    or not, it returns the aliens of its argument that are not squished, in
    their order.  In the store it has changed child lists only: the store
    holds as many aliens as before, and each of them has its [coords],
    [strength], [x], [y] and [squished] as before, and a child list in which
    every alien was in that list before and which still holds every alien
    of that list that is not squished.  The board (squished aliens are not
    taken off it), the player, the registry and the random stream are as
    before. *)
Theorem garbage_collect_only_prunes fuel roots w res w' :
  garbage_collect fuel roots w = Ok (res, w') →
  res = filter (λ r, is_live w r = true) roots
  ∧ length (heap w') = length (heap w)
  ∧ (∀ n a, heap w !! n = Some a →
       ∃ a', heap w' !! n = Some a'
             ∧ Alien.coords a' = Alien.coords a
             ∧ Alien.strength a' = Alien.strength a
             ∧ Alien.x a' = Alien.x a ∧ Alien.y a' = Alien.y a
             ∧ Alien.squished a' = Alien.squished a
             ∧ (∀ c, Some c ∈ Alien.children a' → Some c ∈ Alien.children a)
             ∧ (∀ c, Some c ∈ Alien.children a → live w c →
                     Some c ∈ Alien.children a'))
  ∧ board w' = board w ∧ player w' = player w ∧ aliens w' = aliens w
  ∧ rng w' = rng w ∧ rpos w' = rpos w.
Proof.
  intros H.
  destruct (garbage_collect_returns_live_roots _ _ _ _ _ H) as [-> Hpr].
  split_and!; [done|apply Hpr| | | | | |].
  - intros n a Hn.
    destruct (pr_node _ _ Hpr n a Hn)
      as (a' & Hn' & Hq & Hs & Hc & Hx & Hy & Hk).
    exists a'. split_and!; [done..|].
    intros c Hc' Hlive.
    destruct (garbage_collect_keeps_live_children _ _ _ _ _ H n c)
      as (a'' & Hn'' & Hc''); [by exists a|done|].
    by assert (a'' = a') as -> by congruence.
  - revert H. by apply (un_garbage_collect board (λ b, b = board w)).
  - revert H. by apply (un_garbage_collect player (λ b, b = player w)).
  - revert H. by apply (un_garbage_collect aliens (λ b, b = aliens w)).
  - revert H. by apply (un_garbage_collect rng (λ b, b = rng w)).
  - revert H. by apply (un_garbage_collect rpos (λ b, b = rpos w)).
Qed.

Lemma garbage_collect_only_prunes_witness :
  ∃ w', garbage_collect 8 [0; 2]%nat (with_heap two_lineages [0; 2]%nat)
        = Ok ([2%nat], w')
        ∧ board w' = board (with_heap two_lineages [0; 2]%nat).
Proof.
  eexists. split; [vm_compute; reflexivity|].
  eapply (garbage_collect_only_prunes 8 [0; 2]%nat).
  vm_compute. reflexivity.
Defined.

(** The traversal writes to the child lists of the aliens it pops; it pops
    what is on the stack and children of what it pops.  Aliens that are not
    on the stack and are no one's child are out of its reach. *)
Lemma gc_loop_protects (S : ref → Prop) fuel :
  ∀ stack w w',
    gc_loop fuel stack w = Ok (tt, w') →
    (∀ p c, edge w p c → ¬ S c) →
    (∀ c par i, (Some c, par, i) ∈ stack → ¬ S c) →
    (∀ c p i, (c, Some p, i) ∈ stack → ¬ S p) →
    ∀ s, S s → heap w' !! s = heap w !! s.
Proof.
  induction fuel as [|fuel IH]; intros stack w w' H Hedge Hcur Hpar s Hs;
    simpl in H; [done|].
  destruct stack as [|[[current parent] idx] stack]; [by injection H as <-|].
  destruct current as [cur|]; [|done].
  apply bind_inv in H as (a & ? & [Ha ->]%alien_inv & H).
  assert (∀ c par i, (Some c, par, i) ∈ stack → ¬ S c) as Hcur'.
  { intros c par i Hin. eapply Hcur. by apply list_elem_of_further. }
  assert (∀ c p i, (c, Some p, i) ∈ stack → ¬ S p) as Hpar'.
  { intros c p i Hin. eapply Hpar. by apply list_elem_of_further. }
  destruct (Alien.squished a).
  - destruct parent as [p|]; [|by apply (IH stack w w')].
    apply bind_inv in H as ([] & w1 & H1 & H).
    assert (prunes (heap w) (heap w1)) as Hpr
      by (revert H1; apply prunes_clear_slot).
    assert (heap w1 !! s = heap w !! s) as <-.
    { unfold clear_slot in H1.
      apply bind_inv in H1 as (ap & ? & [Hap ->]%alien_inv & H1).
      apply bind_inv in H1 as (l & ? & Hl & H1).
      unfold lift in Hl. destruct (setitem _ _ _); [|done..].
      injection Hl as <- <-.
      apply heap_update in H1 as (? & _ & ->).
      apply list_lookup_insert_ne. intros <-.
      by apply (Hpar (Some cur) p idx (list_elem_of_here _ _)). }
    eapply (IH stack w1 w'); [exact H| |done..].
    intros p' c (a' & Ha' & Hc).
    destruct (decide (length (heap w) ≤ p')%nat) as [Hge|Hlt].
    { apply lookup_lt_Some in Ha'. rewrite (pr_len _ _ Hpr) in Ha'. lia. }
    destruct (lookup_lt_is_Some_2 (heap w) p') as [a0 Ha0]; [lia|].
    destruct (pr_node _ _ Hpr _ _ Ha0) as (a1 & Ha1 & _ & _ & _ & _ & _ & Hsub).
    assert (a1 = a') as -> by congruence.
    apply (Hedge p'). exists a0. split; [done|]. by apply Hsub.
  - eapply IH; [exact H|done| | |done].
    + intros c par i [Hin|Hin]%elem_of_app; [|by eapply Hcur'].
      rewrite elem_of_reverse in Hin. unfold child_entries in Hin.
      apply list_elem_of_lookup in Hin as [k Hk].
      rewrite list_lookup_imap in Hk.
      destruct (Alien.children a !! k) as [o|] eqn:Ho; [|done].
      injection Hk as -> <- <-. apply (Hedge cur). exists a. split; [done|].
      by apply list_elem_of_lookup_2 in Ho.
    + intros c p i [Hin|Hin]%elem_of_app; [|by eapply Hpar'].
      rewrite elem_of_reverse in Hin. unfold child_entries in Hin.
      apply list_elem_of_lookup in Hin as [k Hk].
      rewrite list_lookup_imap in Hk.
      destruct (Alien.children a !! k) as [o|] eqn:Ho; [|done].
      injection Hk as _ <- _.
      by apply (Hcur cur parent idx), list_elem_of_here.
Qed.

Lemma prunes_edge w w1 p c :
  prunes (heap w) (heap w1) → edge w1 p c → edge w p c.
Proof.
  intros Hpr (a' & Ha' & Hc).
  destruct (decide (length (heap w) ≤ p)%nat) as [Hge|Hlt].
  { apply lookup_lt_Some in Ha'. rewrite (pr_len _ _ Hpr) in Ha'. lia. }
  destruct (lookup_lt_is_Some_2 (heap w) p) as [a0 Ha0]; [lia|].
  destruct (pr_node _ _ Hpr _ _ Ha0) as (a1 & Ha1 & _ & _ & _ & _ & _ & Hsub).
  assert (a1 = a') as -> by congruence.
  exists a0. split; [done|]. by apply Hsub.
Qed.

Lemma gc_root_protects (S : ref → Prop) fuel r w w' :
  gc_root fuel r w = Ok (tt, w') →
  (∀ p c, edge w p c → ¬ S c) → ¬ S r →
  ∀ s, S s → heap w' !! s = heap w !! s.
Proof.
  intros H Hedge Hr s Hs. unfold gc_root in H.
  apply bind_inv in H as (a & ? & [Ha ->]%alien_inv & H).
  destruct (Alien.squished a); [by injection H as <-|].
  apply bind_inv in H as ([] & w1 & H1 & H).
  assert (heap w1 !! s = heap w !! s) as <-.
  { apply (gc_loop_protects S fuel _ _ _ H1); [done| | |done].
    - intros c par i [[= -> -> ->]|[]%elem_of_nil]%elem_of_cons. done.
    - intros c p i [[=]|[]%elem_of_nil]%elem_of_cons. }
  apply bind_inv in H as (a1 & ? & [Ha1 ->]%alien_inv & H).
  unfold when in H. destruct (negb _); [|by injection H as <-].
  apply heap_update in H as (? & _ & ->).
  apply list_lookup_insert_ne. by intros <-.
Qed.

Lemma gc_roots_protect (S : ref → Prop) fuel l :
  ∀ w w', for_each l (gc_root fuel) w = Ok (tt, w') →
          (∀ p c, edge w p c → ¬ S c) → (∀ r, r ∈ l → ¬ S r) →
          ∀ s, S s → heap w' !! s = heap w !! s.
Proof.
  induction l as [|r l IH]; intros w w' H Hedge Hl s Hs; simpl in H.
  - by injection H as <-.
  - apply bind_inv in H as ([] & w1 & H1 & H).
    rewrite <- (gc_root_protects S fuel r w w1 H1 Hedge
                  (Hl r (list_elem_of_here _ _)) s Hs).
    apply (IH w1 w' H); [|intros r' Hr'; by apply Hl, list_elem_of_further|done].
    intros p c Hpc. apply (Hedge p), (prunes_edge w w1); [|done].
    revert H1. apply prunes_gc_root.
Qed.

Lemma gc_root_compacts fuel r w w' a' :
  gc_root fuel r w = Ok (tt, w') →
  heap w' !! r = Some a' → Alien.squished a' = false →
  None ∉ Alien.children a'.
Proof.
  intros H Ha' Hlive. unfold gc_root in H.
  apply bind_inv in H as (a & ? & [Ha ->]%alien_inv & H).
  destruct (Alien.squished a) eqn:Hsq.
  { injection H as <-. congruence. }
  apply bind_inv in H as ([] & w1 & H1 & H).
  apply bind_inv in H as (a1 & ? & [Ha1 ->]%alien_inv & H).
  unfold when in H. destruct (Alien.squished a1) eqn:Hsq1; simpl in H.
  { injection H as <-. congruence. }
  apply heap_update in H as (a2 & Ha2 & Hheap).
  rewrite Hheap, list_lookup_insert_eq in Ha'
    by (by apply lookup_lt_Some in Ha2).
  injection Ha' as <-. simpl. by intros [? _]%list_elem_of_filter.
Qed.

(** X22.  When the registry holds no alien twice and no alien of the
    registry is a child, a collection that returns leaves no [None] in the
    child list of any alien it returns: the lists of the live roots are
    compacted.  (The lists of the other aliens are not.) *)
Theorem garbage_collect_compacts_roots fuel roots w res w' :
  NoDup roots → (∀ r p, r ∈ roots → ¬ edge w p r) →
  garbage_collect fuel roots w = Ok (res, w') →
  ∀ r a', r ∈ res → heap w' !! r = Some a' → None ∉ Alien.children a'.
Proof.
  intros Hnd Horph H r a' Hr Ha'.
  pose proof (garbage_collect_returns_live_roots _ _ _ _ _ H) as [-> Hpr].
  apply list_elem_of_filter in Hr as [Hlive Hr].
  unfold garbage_collect in H.
  apply bind_inv in H as ([] & w1 & H1 & [-> _]%kept_roots_inv).
  assert (Alien.squished a' = false) as Hsq.
  { unfold is_live in Hlive. destruct (heap w !! r) as [a|] eqn:Ha; [|done].
    destruct (pr_node _ _ Hpr _ _ Ha) as (a1 & Ha1 & Hsq & _).
    assert (a1 = a') as -> by congruence.
    rewrite Hsq. by apply negb_true_iff. }
  clear Hlive Hpr. revert w H1 Horph r a' Hr Ha' Hsq.
  induction Hnd as [|r0 roots Hnotin Hnd IH]; intros w H1 Horph r a' Hr Ha' Hsq.
  { by apply elem_of_nil in Hr. }
  simpl in H1. apply bind_inv in H1 as ([] & w2 & H2 & H1).
  assert (prunes (heap w) (heap w2)) as Hpr
    by (revert H2; apply prunes_gc_root).
  assert (∀ r' p, r' ∈ r0 :: roots → ¬ edge w2 p r') as Horph2.
  { intros r' p Hr' Hedge. by apply (Horph r' p Hr'), (prunes_edge w w2). }
  apply elem_of_cons in Hr as [->|Hr].
  - rewrite (gc_roots_protect (λ s, s = r0) fuel roots w2 w1 H1) in Ha';
      [| |by intros r' Hr' ->|done].
    + by apply (gc_root_compacts fuel r0 w w2).
    + intros p c Hpc ->. apply (Horph2 r0 p); [apply list_elem_of_here|done].
  - eapply (IH w2 H1); [|exact Hr|exact Ha'|exact Hsq].
    intros r' p Hr'. by apply Horph2, list_elem_of_further.
Qed.

Lemma garbage_collect_compacts_roots_witness :
  ∃ w' a', garbage_collect 8 [0; 2]%nat (with_heap two_lineages [0; 2]%nat)
           = Ok ([2%nat], w')
           ∧ heap w' !! 2%nat = Some a' ∧ None ∉ Alien.children a'.
Proof.
  assert (NoDup [0; 2]%nat) as Hnd.
  { apply (bool_decide_eq_true_1 (NoDup [0; 2]%nat)). vm_compute. reflexivity. }
  assert (∀ r p, r ∈ [0; 2]%nat →
                 ¬ edge (with_heap two_lineages [0; 2]%nat) p r) as Horph.
  { intros r p Hr (a & Ha & Hc).
    assert (r = 0 ∨ r = 2)%nat as Hr'
      by (rewrite !elem_of_cons, elem_of_nil in Hr; tauto).
    do 7 (destruct p as [|p];
          [simpl in Ha; injection Ha as <-; simpl in Hc;
           repeat (apply elem_of_cons in Hc as [Hc|Hc];
                   [injection Hc as ->; lia|]);
           by apply elem_of_nil in Hc|]).
    done. }
  eexists. eexists. split; [vm_compute; reflexivity|].
  split; [vm_compute; reflexivity|].
  eapply (garbage_collect_compacts_roots 8 [0; 2]%nat
            (with_heap two_lineages [0; 2]%nat) [2%nat] _ Hnd Horph);
    [vm_compute; reflexivity|apply list_elem_of_here|vm_compute; reflexivity].
Defined.

(** ** garbage_collect on a forest *)

Lemma live_path_root w r n : live_path w r n → live w r.
Proof. by induction 1. Qed.

(** X28.  On a registry whose lineage is a forest (the registry holds each
    root once, the roots are in the store, a root is no one's child, no
    alien is in two slots, and the child lists that can be reached through
    live aliens hold aliens of the store and no [None]) the collection
    returns, with a budget of one more than the number of aliens
    in the store, the roots that are not squished, and changes no squished
    flag.  Afterwards what can be reached from a live root is exactly what
    could be reached from it through live aliens only, so that a live alien
    behind a squished one is lost; and the child list of each of these aliens
    holds exactly the aliens of its old list that are not squished: a
    squished child is gone from the list of its live parent, a live child
    stays. *)
Theorem garbage_collect_on_forest w roots :
  forest w roots →
  ∃ w',
    garbage_collect (S (length (heap w))) roots w
      = Ok (filter (λ r, is_live w r = true) roots, w')
    ∧ (∀ n, live w' n ↔ live w n)
    ∧ (∀ r n, r ∈ roots → live w r → (reach w' r n ↔ live_path w r n))
    ∧ (∀ r p c, r ∈ roots → live_path w r p →
                (edge w' p c ↔ edge w p c ∧ live w c)).
Proof.
  intros Hforest.
  destruct (garbage_collect_keeps_live_roots w roots Hforest)
    as (w' & Hrun & _ & Hflags & Hedges & Hreach & Hkids & _).
  pose proof (garbage_collect_keeps_live_children _ _ _ _ _ Hrun) as Hkept.
  assert (∀ r n, live_path w r n → reach w' r n) as Hback.
  { intros r n. induction 1 as [|p c _ IH Hedge Hlive]; [constructor|].
    apply reach_child with p; [done|]. by apply Hkept. }
  exists w'. split_and!; [done|done| |].
  - intros r n Hr Hlive. split; [by apply Hreach|apply Hback].
  - intros r p c Hr Hpath. split.
    + intros Hedge. split; [by apply Hedges|].
      apply (Hkids r p c Hr);
        [by apply live_path_root in Hpath|by apply Hback|done].
    + intros [Hedge Hlive]. by apply Hkept.
Qed.

Lemma garbage_collect_on_forest_witness :
  ∃ w', garbage_collect 8 [0; 2]%nat (with_heap two_lineages [0; 2]%nat)
        = Ok ([2%nat], w')
        ∧ edge w' 2 5 ∧ ¬ edge w' 2 3.
Proof.
  destruct (garbage_collect_on_forest
              (with_heap two_lineages [0; 2]%nat) [0; 2]%nat)
    as (w' & Hrun & _ & _ & Hedge).
  { apply forest_check_sound. vm_compute. reflexivity. }
  assert (live_path (with_heap two_lineages [0; 2]%nat) 2 2) as Hroot.
  { apply live_root. eexists. split; reflexivity. }
  assert (2%nat ∈ [0; 2]%nat) as Hin
    by apply list_elem_of_further, list_elem_of_here.
  exists w'. split; [exact Hrun|]. split.
  - apply (Hedge 2%nat 2%nat 5%nat Hin Hroot). split.
    + eexists. split; [reflexivity|].
      apply list_elem_of_further, list_elem_of_here.
    + eexists. split; reflexivity.
  - intros [_ (a & Ha & Hq)]%(Hedge 2%nat 2%nat 3%nat Hin Hroot).
    injection Ha as <-. discriminate Hq.
Defined.


(** ** printTree *)

Lemma tree_loop_inv rec l tree w s w' :
  (∀ c s1 wa w1, rec c wa = Ok (s1, w1) → w1 = wa) →
  tree_loop rec l tree w = Ok (s, w') →
  w' = w ∧ ∀ c, c ∈ l → ∃ s', rec c w = Ok (s', w).
Proof.
  intros Hrec. revert tree. induction l as [|c l IH]; intros tree H; simpl in H.
  - injection H as <- <-. split; [done|]. by intros c ?%elem_of_nil.
  - apply bind_inv in H as (s1 & w1 & H1 & H).
    pose proof (Hrec _ _ _ _ H1) as ->.
    apply IH in H as [-> Hl]. split; [done|].
    intros c' [->|Hc']%elem_of_cons; [eauto|by apply Hl].
Qed.

Lemma printTree_inv fuel :
  ∀ node depth w s w',
    printTree fuel node depth w = Ok (s, w') →
    w' = w
    ∧ ∃ r a, node = Some r ∧ heap w !! r = Some a
             ∧ ∀ c, c ∈ Alien.children a →
                    ∃ s', printTree (pred fuel) c (depth + 1) w = Ok (s', w).
Proof.
  induction fuel as [|fuel IH]; intros node depth w s w' H; simpl in H; [done|].
  destruct node as [r|]; [|done].
  apply bind_inv in H as (a & ? & [Ha ->]%alien_inv & H). cbv zeta in H.
  case_bool_decide as Hlen.
  - injection H as <- <-. split; [done|]. exists r, a. split_and!; [done..|].
    apply length_zero_iff_nil in Hlen. rewrite Hlen. by intros c ?%elem_of_nil.
  - apply tree_loop_inv in H as [-> Hl].
    + split; [done|]. exists r, a. split_and!; done.
    + intros c s1 wa w1 H1. by apply IH in H1 as [-> _].
Qed.

(** X23.  [printTree] changes nothing, and it returns only if no child
    list it can reach from the alien it is given holds [None]: on a [None]
    left behind by the collection it raises. *)
Theorem printTree_returns_without_None fuel r depth w s w' :
  printTree fuel (Some r) depth w = Ok (s, w') →
  w' = w
  ∧ ∀ n a, reach w r n → heap w !! n = Some a → None ∉ Alien.children a.
Proof.
  intros H. pose proof (printTree_inv _ _ _ _ _ _ H) as [-> _].
  split; [done|]. intros n a Hreach Ha Hnone.
  assert (∃ fuel' depth' s', printTree fuel' (Some n) depth' w = Ok (s', w))
    as (fuel' & depth' & s' & Hn).
  { clear a Ha Hnone. induction Hreach as [|p c _ IH (ap & Hp & Hc)]; [eauto|].
    destruct IH as (fuel' & depth' & s' & Hp').
    apply printTree_inv in Hp' as (_ & r' & a' & [= <-] & Ha' & Hkids).
    assert (a' = ap) as -> by congruence.
    destruct (Hkids _ Hc) as [s'' Hs'']. eauto. }
  apply printTree_inv in Hn as (_ & r' & a' & [= <-] & Ha' & Hkids).
  assert (a' = a) as -> by congruence.
  destruct (Hkids _ Hnone) as [s'' Hs''].
  by destruct (pred fuel').
Qed.

Lemma printTree_returns_without_None_witness :
  ∃ s, printTree 5 (Some 0%nat) 0 (with_heap (lineage false false true) [0%nat])
       = Ok (s, with_heap (lineage false false true) [0%nat])
       ∧ ∀ a, heap (with_heap (lineage false false true) [0%nat]) !! 1%nat
              = Some a → None ∉ Alien.children a.
Proof.
  eexists. split; [vm_compute; reflexivity|].
  intros a Ha.
  eapply (printTree_returns_without_None 5 0%nat 0
            (with_heap (lineage false false true) [0%nat]));
    [vm_compute; reflexivity| |exact Ha].
  eapply reach_child; [apply reach_root|].
  eexists. split; [reflexivity|]. apply list_elem_of_here.
Defined.

(** After the collection of C7 has left [None] in the list of alien [1],
    the trees of the same registry cannot be printed any more. *)
Lemma printTrees_after_collection :
  ∃ w, garbage_collect 10 [0%nat] (with_heap (lineage false false true) [0%nat])
       = Ok ([0%nat], w)
       ∧ ∀ fuel, printTrees (3 + fuel) [0%nat] w = Raise AttributeError.
Proof.
  eexists. split; [vm_compute; reflexivity|]. intros fuel. reflexivity.
Qed.


(** ** Where coherence is lost

    Every operation keeps the board coherent but one: the move that is
    refused because another alien is in the way. *)

Lemma tidy_update r f :
  (∀ a, Alien.coords (f a) = Alien.coords a) → invariant tidy (update r f).
Proof.
  intros Hf. apply invariant_update. intros w a [Hwf Hco] Ha. split.
  - by apply well_formed_update.
  - intros i j r' Hij. destruct (Hco i j r' Hij) as (a' & Ha' & Hc').
    simpl. destruct (decide (r' = r)) as [->|Hne].
    + rewrite list_lookup_insert_eq by (by apply lookup_lt_Some in Ha).
      assert (a' = a) as -> by congruence. exists (f a). by rewrite Hf.
    + rewrite list_lookup_insert_ne by done. eauto.
Qed.

Lemma tidy_randbelow n : invariant tidy (randbelow n).
Proof.
  apply invariant_randbelow. intros w k [Hwf Hco].
  split; [|done]. split; apply Hwf.
Qed.

Lemma tidy_modify f :
  (∀ w, heap (f w) = heap w ∧ board (f w) = board w) →
  invariant tidy (modify f).
Proof.
  intros Hf. apply invariant_modify. intros w [Hwf Hco].
  destruct (Hf w) as [Hh Hb]. split.
  - apply (wf_modify f Hf w tt); done.
  - unfold coherent, grid. rewrite Hh, Hb. apply Hco.
Qed.

Ltac tidy_modify := apply tidy_modify; by intros ?.

Lemma tidy_clearCell c : invariant tidy (clearCell c).
Proof.
  intros w [] w' [Hwf Hco] H. unfold clearCell in H.
  pose proof H as (c' & ->)%set_cell_inv. split.
  - by apply well_formed_put_cell.
  - intros i j r Hij.
    change (grid (set_grid ?g w)) with g in Hij.
    rewrite slot_put_cell in Hij. case_decide.
    + by destruct (slot (grid w) i j).
    + by apply Hco.
Qed.

#[local] Hint Resolve tidy_randbelow tidy_clearCell : invariant.

Lemma tidy_randint a b : invariant tidy (randint a b).
Proof. unfold randint. invariant. Qed.

Lemma tidy_getAlien c : invariant tidy (getAlien c).
Proof. unfold getAlien. invariant. Qed.

#[local] Hint Resolve tidy_randint tidy_getAlien : invariant.

Lemma tidy_isEmpty c : invariant tidy (isEmpty c).
Proof. unfold isEmpty. invariant. Qed.

Lemma tidy_inRange c : invariant tidy (inRange c).
Proof. unfold inRange. invariant. Qed.

#[local] Hint Resolve tidy_isEmpty tidy_inRange : invariant.

Lemma yields_tidy {A} (m : M A) P : yields well_formed m P → yields tidy m P.
Proof. intros H w a w' Hs. apply H, Hs. Qed.

Lemma tidy_Alien_init c s : on_board c → invariant tidy (Alien_init c s).
Proof.
  intros Hc w r w' [Hwf Hco] H.
  split; [by apply (wf_Alien_init c s Hc w r w')|].
  apply Alien_init_inv in H as [-> ->]; [|apply Hc..].
  intros i j r Hij. unfold grid in Hij. simpl in Hij. fold (grid w) in Hij.
  rewrite slot_put_cell in Hij. simpl. case_decide as Hcell.
  - destruct (slot (grid w) i j); simplify_eq/=.
    rewrite lookup_app_r, Nat.sub_diag by done. eexists; split; [done|].
    destruct Hcell as [-> ->]. destruct Hc as [[? _] [? _]]. simpl.
    rewrite !Z2Nat.id by done. by destruct c.
  - destruct (Hco i j r Hij) as (a & Ha & ?). exists a. split; [|done].
    by apply lookup_app_l_Some.
Qed.

Lemma tidy_doDeath r : invariant tidy (doDeath r).
Proof. unfold doDeath. invariant. by apply tidy_update. Qed.

#[local] Hint Resolve tidy_doDeath : invariant.

Lemma tidy_doPop r s : invariant tidy (doPop r s).
Proof. unfold doPop. invariant. by apply tidy_update. Qed.

Lemma tidy_doGrow r : invariant tidy (doGrow r).
Proof. unfold doGrow. invariant. by apply tidy_update. Qed.

Lemma tidy_shuffle_from {A} i (l : list A) : invariant tidy (shuffle_from i l).
Proof. revert l. induction i; intros l; simpl; invariant. Qed.

Lemma tidy_first_empty cells : invariant tidy (first_empty cells).
Proof. induction cells; simpl; invariant. Qed.

Lemma tidy_collect_neighbors cells acc :
  invariant tidy (collect_neighbors cells acc).
Proof. revert acc. induction cells; intros acc; simpl; invariant. Qed.

#[local] Hint Resolve tidy_doPop tidy_doGrow tidy_shuffle_from
  tidy_first_empty tidy_collect_neighbors : invariant.

Lemma tidy_findEmptySpace r : invariant tidy (findEmptySpace r).
Proof. unfold findEmptySpace, shuffle. invariant. Qed.

Lemma tidy_getNeighbor r : invariant tidy (getNeighbor r).
Proof. unfold getNeighbor. invariant. Qed.

#[local] Hint Resolve tidy_findEmptySpace tidy_getNeighbor : invariant.

Lemma tidy_doSpawn r : invariant tidy (doSpawn r).
Proof.
  unfold doSpawn.
  apply (invariant_bind_with _ (λ o, ∀ c, o = Some c → on_board c));
    [apply yields_tidy, yields_findEmptySpace|eauto with invariant|].
  intros emptySpace Hempty. invariant.
  - apply tidy_Alien_init. by apply Hempty.
  - by apply tidy_update.
Qed.

Lemma tidy_Player_doTimestep : invariant tidy Player_doTimestep.
Proof. unfold Player_doTimestep. tidy_modify. Qed.

Lemma tidy_set_consecutive_hits v : invariant tidy (set_consecutive_hits v).
Proof. unfold set_consecutive_hits. tidy_modify. Qed.

Lemma tidy_kill_at c : invariant tidy (kill_at c).
Proof. unfold kill_at. invariant. Qed.

#[local] Hint Resolve tidy_doSpawn tidy_Player_doTimestep
  tidy_set_consecutive_hits tidy_kill_at : invariant.

Lemma tidy_trigger_bomb c : invariant tidy (trigger_bomb c).
Proof. unfold trigger_bomb. invariant. Qed.

Lemma tidy_nuke_board : invariant tidy nuke_board.
Proof. unfold nuke_board. invariant. Qed.

#[local] Hint Resolve tidy_trigger_bomb tidy_nuke_board : invariant.

Lemma tidy_squish c s : invariant tidy (squish c s).
Proof. unfold squish. invariant. Qed.

#[local] Hint Resolve tidy_squish : invariant.

Lemma tidy_place_alien : invariant tidy place_alien.
Proof.
  unfold place_alien.
  apply (invariant_bind_with _ (λ x, 0 ≤ x ≤ WIDTH - 1));
    [by apply yields_tidy, yields_randint|eauto with invariant|]. intros x Hx.
  apply (invariant_bind_with _ (λ y, 0 ≤ y ≤ HEIGHT - 1));
    [by apply yields_tidy, yields_randint|eauto with invariant|]. intros y Hy.
  invariant; [|tidy_modify].
  apply tidy_Alien_init. split; simpl; lia.
Qed.

Lemma tidy_attack x y : invariant tidy (attack x y).
Proof. unfold attack. invariant. tidy_modify. Qed.

Lemma tidy_clear_slot p idx : invariant tidy (clear_slot p idx).
Proof. unfold clear_slot. invariant. by apply tidy_update. Qed.

#[local] Hint Resolve tidy_clear_slot : invariant.

Lemma tidy_gc_loop fuel stack : invariant tidy (gc_loop fuel stack).
Proof.
  revert stack. induction fuel as [|fuel IH]; intros stack; simpl; [done|].
  invariant.
Qed.

#[local] Hint Resolve tidy_gc_loop : invariant.

Lemma tidy_gc_root fuel r : invariant tidy (gc_root fuel r).
Proof. unfold gc_root. invariant. by apply tidy_update. Qed.

Lemma tidy_kept_roots l : invariant tidy (kept_roots l).
Proof. induction l; simpl; invariant. Qed.

#[local] Hint Resolve tidy_gc_root tidy_kept_roots : invariant.

Lemma tidy_collect fuel : invariant tidy (collect fuel).
Proof. unfold collect, garbage_collect. invariant. tidy_modify. Qed.

Lemma wf_doTravel_by r distx disty :
  invariant well_formed (doTravel_by r distx disty).
Proof.
  unfold doTravel_by. invariant_step; [apply invariant_alien|]. cbv zeta.
  match goal with
  | |- invariant _ (bind (inRange ?c) _) =>
      apply (invariant_bind_with _ (λ b, b = true → on_board c));
        [apply yields_inRange|eauto with invariant|]
  end.
  intros ok Hok. destruct ok; simpl; [|apply invariant_ret].
  invariant. apply wf_update. intros ? _. by apply Hok.
Qed.

(** A move that is not blocked by another alien. *)
Lemma tidy_doTravel_by w r a distx disty w' :
  tidy w → heap w !! r = Some a →
  getAlien (Alien.coords a) w = Ok (Some r, w) →
  ¬ in_bounds w (Alien.x a + distx, Alien.y a + disty)
  ∨ cell_at (grid w) (Alien.x a + distx, Alien.y a + disty) = Ok None
  ∨ (Alien.x a + distx, Alien.y a + disty) = Alien.coords a →
  doTravel_by r distx disty w = Ok (tt, w') → tidy w'.
Proof.
  intros [Hwf Hco] Ha Hcell Hfree H.
  split; [by apply (wf_doTravel_by r distx disty w tt w')|].
  set (new := (Alien.x a + distx, Alien.y a + disty)) in *.
  pose proof (Forall_lookup_1 _ _ _ _ (wf_coords _ Hwf) Ha)
    as [[Hc1 _] [Hc2 _]].
  unfold doTravel_by in H.
  rewrite (bind_ok _ _ w a w) in H by (unfold alien; by rewrite Ha).
  cbv zeta in H. fold new in H.
  rewrite (bind_ok _ _ _ _ _ (inRange_ok w new)) in H.
  destruct (decide (in_bounds w new)) as [Hin|Hout]; last first.
  { destruct (bool_decide _ && bool_decide _) eqn:E; simpl in H;
      [|by injection H as <-].
    apply andb_true_iff in E as [E1%bool_decide_eq_true E2%bool_decide_eq_true].
    by destruct Hout. }
  destruct Hin as [[Hn1 Hn1'] [Hn2 Hn2']].
  rewrite !bool_decide_eq_true_2 in H by done. simpl in H.
  destruct Hfree as [Hout|[Hempty|Hself]].
  - exfalso. apply Hout. by split.
  - assert (getAlien new w = Ok (None, w)) as Hnew
      by (rewrite getAlien_cell_at; by apply lift_ok).
    rewrite (bind_ok _ _ _ _ _
               (moveAlien_ok w _ new r a Hc1 Hc2 Hn1 Hn2 Hcell Hnew Ha)) in H.
    unfold update, moved in H. simpl in H.
    rewrite list_lookup_insert_eq in H by (by apply lookup_lt_Some in Ha).
    injection H as <-.
    apply getAlien_slot in Hcell as Hso; [|done..].
    intros i j r' Hij. unfold grid in Hij. simpl in Hij. fold (grid w) in Hij.
    simpl. rewrite list_insert_insert_eq.
    rewrite slot_put_cell in Hij. case_decide as Hcn.
    + assert (r' = r) as ->.
      { rewrite slot_put_cell in Hij.
        case_decide; destruct (slot (grid w) i j); by simplify_eq/=. }
      rewrite list_lookup_insert_eq by (by apply lookup_lt_Some in Ha).
      eexists; split; [done|]. destruct Hcn as [-> ->]. simpl.
      rewrite !Z2Nat.id by done. done.
    + rewrite slot_put_cell in Hij.
      case_decide as Hco'; [by destruct (slot (grid w) i j)|].
      destruct (Hco i j r' Hij) as (a' & Ha' & Hc').
      destruct (decide (r' = r)) as [->|Hne].
      * exfalso. apply Hco'. assert (a' = a) as -> by congruence.
        rewrite Hc'. simpl. by rewrite !Nat2Z.id.
      * rewrite list_lookup_insert_ne by done. eauto.
  - rewrite (bind_ok _ _ w tt w) in H.
    2:{ apply (moveAlien_noop _ _ _ (Some r)); [done|]. right. exists r.
        by rewrite Hself. }
    unfold update in H. rewrite Ha in H. injection H as <-.
    assert (Alien.set_coords new a = a) as ->
      by (rewrite Hself; by destruct a).
    simpl. rewrite list_insert_id by done.
    intros i j r' Hij. by apply Hco.
Qed.

(** X24.  From a well-formed state with a coherent board, every operation
    other than a move leaves the board coherent; so does the move of an
    alien found in the cell its [coords] name, when the cell it draws is off
    the board, empty, or its own.  What remains is the move refused because
    another alien is in the way. *)
Theorem coherence_lost_only_by_blocked_move w :
  well_formed w → coherent w →
  (∀ o w', (∀ r, o ≠ OpTravel r) → o ≠ OpTimestep →
           apply_op o w = Ok (tt, w') → coherent w')
  ∧ (∀ r a distx disty w',
       heap w !! r = Some a →
       getAlien (Alien.coords a) w = Ok (Some r, w) →
       ¬ in_bounds w (Alien.x a + distx, Alien.y a + disty)
       ∨ cell_at (grid w) (Alien.x a + distx, Alien.y a + disty) = Ok None
       ∨ (Alien.x a + distx, Alien.y a + disty) = Alien.coords a →
       doTravel_by r distx disty w = Ok (tt, w') → coherent w').
Proof.
  intros Hwf Hco. assert (tidy w) as Htidy by done. split.
  - intros o w' Htravel Hstep H.
    cut (tidy w'); [by intros [_ ?]|]. revert H.
    destruct o as [|x y|r|r|r|e| | |fuel|]; simpl; intros H.
    + exact (tidy_place_alien w tt w' Htidy H).
    + exact (tidy_attack x y w tt w' Htidy H).
    + exfalso. by eapply Htravel.
    + exact (tidy_doSpawn r w tt w' Htidy H).
    + exact (tidy_doGrow r w tt w' Htidy H).
    + exact (tidy_trigger_bomb e w tt w' Htidy H).
    + by destruct Hstep.
    + exact (tidy_Player_doTimestep w tt w' Htidy H).
    + exact (tidy_collect fuel w tt w' Htidy H).
    + exact (tidy_nuke_board w tt w' Htidy H).
  - intros r a distx disty w' Ha Hcell Hfree H.
    by destruct (tidy_doTravel_by w r a distx disty w' Htidy Ha Hcell Hfree H).
Qed.

Lemma coherence_lost_only_by_blocked_move_witness :
  ∃ w', apply_op (OpAttack 3 3) late_game = Ok (tt, w') ∧ coherent w'.
Proof.
  eexists. split; [vm_compute; reflexivity|].
  eapply (proj1 (coherence_lost_only_by_blocked_move late_game
                   (proj1 late_game_ok) (proj2 late_game_ok))
            (OpAttack 3 3)); [done|done|vm_compute; reflexivity].
Defined.


(** ** The one exception of the game

    The registry and the child lists of a game refer to aliens of the
    store, so that the collection cannot fail on a reference or on an
    index: it fails on a [None] it pops, with [AttributeError], or not at
    all. *)

Lemma linked_update r f :
  (∀ a c, Some c ∈ Alien.children (f a) → Some c ∈ Alien.children a) →
  invariant linked (update r f).
Proof.
  intros Hf. apply invariant_update. intros w a [Hreg Hkids] Ha. split; simpl.
  - intros r' Hr'. rewrite length_insert. by apply Hreg.
  - intros p a' c Hp Hc. rewrite length_insert.
    destruct (decide (p = r)) as [->|Hne].
    + rewrite list_lookup_insert_eq in Hp by (by apply lookup_lt_Some in Ha).
      injection Hp as <-. apply (Hkids r a c Ha). by apply Hf.
    + rewrite list_lookup_insert_ne in Hp by done. by apply (Hkids p a' c).
Qed.

Lemma linked_grow w a :
  linked w → Alien.children a = [] → linked (set_heap (heap w ++ [a]) w).
Proof.
  intros [Hreg Hkids] Ha. split; simpl.
  - intros r Hr. rewrite length_app. pose proof (Hreg r Hr). lia.
  - intros p a' c Hp Hc. rewrite length_app.
    apply lookup_app_Some in Hp as [Hp|[_ Hp]].
    + pose proof (Hkids p a' c Hp Hc). lia.
    + destruct (p - length (heap w))%nat; [|done]. injection Hp as <-.
      rewrite Ha in Hc. by apply elem_of_nil in Hc.
Qed.

Lemma linked_alloc a : Alien.children a = [] → invariant linked (alloc a).
Proof. intros Ha w r w' Hw [= <- <-]. by apply linked_grow. Qed.

Lemma linked_randbelow n : invariant linked (randbelow n).
Proof. apply invariant_randbelow. by intros w k [Hreg Hkids]. Qed.

Lemma linked_modify f :
  (∀ w, heap (f w) = heap w ∧ aliens (f w) = aliens w) →
  invariant linked (modify f).
Proof.
  intros Hf. apply invariant_modify. intros w [Hreg Hkids].
  destruct (Hf w) as [Hh Ha]. split; rewrite ?Hh, ?Ha; done.
Qed.

Ltac linked_modify := apply linked_modify; by intros ?.

Lemma linked_set_cell c v : invariant linked (set_cell c v).
Proof. unfold set_cell. invariant. linked_modify. Qed.

#[local] Hint Resolve linked_randbelow linked_set_cell : invariant.

Lemma linked_randint a b : invariant linked (randint a b).
Proof. unfold randint. invariant. Qed.

Lemma linked_getAlien c : invariant linked (getAlien c).
Proof. unfold getAlien. invariant. Qed.

#[local] Hint Resolve linked_randint linked_getAlien : invariant.

Lemma linked_isEmpty c : invariant linked (isEmpty c).
Proof. unfold isEmpty. invariant. Qed.

Lemma linked_inRange c : invariant linked (inRange c).
Proof. unfold inRange. invariant. Qed.

Lemma linked_clearCell c : invariant linked (clearCell c).
Proof. unfold clearCell. invariant. Qed.

Lemma linked_addAlien r : invariant linked (addAlien r).
Proof. unfold addAlien. invariant. Qed.

#[local] Hint Resolve linked_isEmpty linked_inRange linked_clearCell
  linked_addAlien : invariant.

Lemma linked_moveAlien old new : invariant linked (moveAlien old new).
Proof. unfold moveAlien. invariant. by apply linked_update. Qed.

Lemma linked_Alien_init c s : invariant linked (Alien_init c s).
Proof. unfold Alien_init. invariant. by apply linked_alloc. Qed.

Lemma linked_doDeath r : invariant linked (doDeath r).
Proof. unfold doDeath. invariant. by apply linked_update. Qed.

#[local] Hint Resolve linked_moveAlien linked_Alien_init linked_doDeath
  : invariant.

Lemma linked_doPop r s : invariant linked (doPop r s).
Proof. unfold doPop. invariant. by apply linked_update. Qed.

Lemma linked_doGrow r : invariant linked (doGrow r).
Proof. unfold doGrow. invariant. by apply linked_update. Qed.

Lemma linked_doTravel r : invariant linked (doTravel r).
Proof. unfold doTravel, doTravel_by. invariant. by apply linked_update. Qed.

Lemma linked_shuffle_from {A} i (l : list A) :
  invariant linked (shuffle_from i l).
Proof. revert l. induction i; intros l; simpl; invariant. Qed.

Lemma linked_first_empty cells : invariant linked (first_empty cells).
Proof. induction cells; simpl; invariant. Qed.

Lemma linked_collect_neighbors cells acc :
  invariant linked (collect_neighbors cells acc).
Proof. revert acc. induction cells; intros acc; simpl; invariant. Qed.

#[local] Hint Resolve linked_doPop linked_doGrow linked_doTravel
  linked_shuffle_from linked_first_empty linked_collect_neighbors : invariant.

Lemma linked_findEmptySpace r : invariant linked (findEmptySpace r).
Proof. unfold findEmptySpace, shuffle. invariant. Qed.

Lemma linked_getNeighbor r : invariant linked (getNeighbor r).
Proof. unfold getNeighbor. invariant. Qed.

#[local] Hint Resolve linked_findEmptySpace linked_getNeighbor : invariant.

(** A birth appends the child it has just put in the store. *)
Lemma linked_birth c s r :
  invariant linked
    (do child <- Alien_init c s;
     update r (λ a, Alien.set_children (Alien.children a ++ [Some child]) a)).
Proof.
  intros w [] w' Hw H.
  apply bind_inv in H as (child & w1 & Hinit & H).
  assert (linked w1 ∧ (child < length (heap w1))%nat) as [[Hreg Hkids] Hchild].
  { split; [by apply (linked_Alien_init c s w child w1)|].
    unfold Alien_init in Hinit.
    apply bind_inv in Hinit as (r' & w2 & [= <- <-] & Hinit).
    apply bind_inv in Hinit as ([] & w3 & Hadd & [= <- <-]).
    assert (length (heap w3) = length (heap w ++ [Alien.mk c s c.1 c.2 false []]))
      as ->.
    { unfold addAlien in Hadd.
      apply bind_inv in Hadd as (a & ? & [_ ->]%alien_inv & Hadd).
      by apply set_cell_exact in Hadd as (? & ? & ? & _ & _ & _ & ->). }
    rewrite length_app. simpl. lia. }
  apply update_inv in H as (a & Ha & ->). split; simpl.
  - intros r' Hr'. rewrite length_insert. by apply Hreg.
  - intros p a' c' Hp Hc'. rewrite length_insert.
    destruct (decide (p = r)) as [->|Hne].
    + rewrite list_lookup_insert_eq in Hp by (by apply lookup_lt_Some in Ha).
      injection Hp as <-. simpl in Hc'.
      apply elem_of_app in Hc' as [Hc'|[= ->]%list_elem_of_singleton];
        [by apply (Hkids r a c')|done].
    + rewrite list_lookup_insert_ne in Hp by done. by apply (Hkids p a' c').
Qed.

Lemma linked_doSpawn r : invariant linked (doSpawn r).
Proof.
  unfold doSpawn. do 3 (invariant_step; [eauto with invariant|]).
  invariant_step; [|apply invariant_ret].
  invariant_step; [|apply invariant_ret].
  invariant_step. invariant_step; [apply invariant_alien|].
  apply linked_birth.
Qed.

#[local] Hint Resolve linked_doSpawn : invariant.

Lemma linked_Alien_doTimestep r : invariant linked (Alien_doTimestep r).
Proof. unfold Alien_doTimestep. invariant. Qed.

#[local] Hint Resolve linked_Alien_doTimestep : invariant.

Lemma linked_Board_doTimestep : invariant linked Board_doTimestep.
Proof. unfold Board_doTimestep. invariant. Qed.

Lemma linked_Player_doTimestep : invariant linked Player_doTimestep.
Proof. unfold Player_doTimestep. linked_modify. Qed.

Lemma linked_set_consecutive_hits v :
  invariant linked (set_consecutive_hits v).
Proof. unfold set_consecutive_hits. linked_modify. Qed.

Lemma linked_kill_at c : invariant linked (kill_at c).
Proof. unfold kill_at. invariant. Qed.

#[local] Hint Resolve linked_Board_doTimestep linked_Player_doTimestep
  linked_set_consecutive_hits linked_kill_at : invariant.

Lemma linked_trigger_bomb c : invariant linked (trigger_bomb c).
Proof. unfold trigger_bomb. invariant. Qed.

Lemma linked_nuke_board : invariant linked nuke_board.
Proof. unfold nuke_board. invariant. Qed.

#[local] Hint Resolve linked_trigger_bomb linked_nuke_board : invariant.

Lemma linked_squish c s : invariant linked (squish c s).
Proof. unfold squish. invariant. Qed.

Lemma linked_total_strength l : invariant linked (total_strength l).
Proof. induction l as [|[r|] l IH]; simpl; invariant. Qed.

#[local] Hint Resolve linked_squish linked_total_strength : invariant.

Lemma linked_win_by_nuke : invariant linked win_by_nuke.
Proof. unfold win_by_nuke, total_alien_strength. invariant. Qed.

Lemma linked_all_cells cells p :
  (∀ c, invariant linked (p c)) → invariant linked (all_cells cells p).
Proof. intros Hp. induction cells; simpl; invariant. Qed.

Lemma linked_board_full : invariant linked board_full.
Proof. unfold board_full. apply linked_all_cells. intros c. invariant. Qed.

Lemma linked_isEmpty_board : invariant linked isEmpty_board.
Proof.
  unfold isEmpty_board. invariant. apply linked_all_cells.
  eauto with invariant.
Qed.

(** A placement registers the alien it has just put in the store. *)
Lemma linked_register c s :
  invariant linked
    (do r <- Alien_init c s; modify (λ w, set_aliens (aliens w ++ [r]) w)).
Proof.
  intros w [] w' Hw H.
  apply bind_inv in H as (r & w1 & Hinit & [= <-]).
  assert (linked w1 ∧ (r < length (heap w1))%nat) as [[Hreg Hkids] Hr].
  { split; [by apply (linked_Alien_init c s w r w1)|].
    unfold Alien_init in Hinit.
    apply bind_inv in Hinit as (r' & w2 & [= <- <-] & Hinit).
    apply bind_inv in Hinit as ([] & w3 & Hadd & [= <- <-]).
    assert (length (heap w3) = length (heap w ++ [Alien.mk c s c.1 c.2 false []]))
      as ->.
    { unfold addAlien in Hadd.
      apply bind_inv in Hadd as (a & ? & [_ ->]%alien_inv & Hadd).
      by apply set_cell_exact in Hadd as (? & ? & ? & _ & _ & _ & ->). }
    rewrite length_app. simpl. lia. }
  split; simpl; [|done].
  intros r' [Hr'|[= ->]%list_elem_of_singleton]%elem_of_app; [by apply Hreg|done].
Qed.

Lemma linked_place_alien : invariant linked place_alien.
Proof.
  unfold place_alien. do 3 (invariant_step; [eauto with invariant|]).
  invariant_step; [apply invariant_gets|]. cbv zeta.
  invariant_step; [eauto with invariant|]. invariant_step.
  apply linked_register.
Qed.

Lemma linked_attack x y : invariant linked (attack x y).
Proof. unfold attack. invariant. linked_modify. Qed.

Lemma elem_of_insert_None' (l : list (option ref)) i c :
  Some c ∈ <[i:=None]> l → Some c ∈ l.
Proof.
  intros [k Hk]%list_elem_of_lookup. apply list_elem_of_lookup.
  destruct (decide (k = i)) as [->|Hne].
  - destruct (decide (i < length l)%nat).
    + by rewrite list_lookup_insert_eq in Hk.
    + rewrite list_insert_ge in Hk by lia. eauto.
  - rewrite list_lookup_insert_ne in Hk by done. eauto.
Qed.

Lemma linked_clear_slot p idx : invariant linked (clear_slot p idx).
Proof.
  intros w [] w' Hw H. unfold clear_slot in H.
  apply bind_inv in H as (ap & ? & [Hap ->]%alien_inv & H).
  apply bind_inv in H as (l & ? & Hl & H).
  unfold lift in Hl. destruct (setitem _ _ _) as [l'| |] eqn:Hset; [|done..].
  injection Hl as <- <-. apply setitem_inv in Hset as (k & _ & ->).
  apply update_inv in H as (a & Ha & ->).
  destruct Hw as [Hreg Hkids]. split; simpl.
  - intros r' Hr'. rewrite length_insert. by apply Hreg.
  - intros p' a' c Hp Hc. rewrite length_insert.
    destruct (decide (p' = p)) as [->|Hne].
    + rewrite list_lookup_insert_eq in Hp by (by apply lookup_lt_Some in Ha).
      injection Hp as <-. simpl in Hc. apply elem_of_insert_None' in Hc.
      by apply (Hkids p ap c).
    + rewrite list_lookup_insert_ne in Hp by done. by apply (Hkids p' a' c).
Qed.

#[local] Hint Resolve linked_win_by_nuke linked_board_full
  linked_isEmpty_board linked_place_alien linked_attack linked_clear_slot
  : invariant.

Lemma linked_gc_loop fuel stack : invariant linked (gc_loop fuel stack).
Proof.
  revert stack. induction fuel as [|fuel IH]; intros stack; simpl; [done|].
  invariant.
Qed.

#[local] Hint Resolve linked_gc_loop : invariant.

Lemma linked_gc_root fuel r : invariant linked (gc_root fuel r).
Proof.
  unfold gc_root. invariant. apply linked_update. intros a' c'. simpl.
  by intros [_ ?]%list_elem_of_filter.
Qed.

Lemma linked_kept_roots l : invariant linked (kept_roots l).
Proof. induction l; simpl; invariant. Qed.

#[local] Hint Resolve linked_gc_root linked_kept_roots : invariant.

Lemma linked_garbage_collect fuel l :
  invariant linked (garbage_collect fuel l).
Proof. unfold garbage_collect. invariant. Qed.

Lemma linked_collect fuel : invariant linked (collect fuel).
Proof.
  intros w [] w' Hw H. unfold collect in H.
  apply bind_inv in H as (l & ? & [= <- <-] & H).
  apply bind_inv in H as (l' & w1 & Hgc & [= <-]).
  pose proof (linked_garbage_collect _ _ _ _ _ Hw Hgc) as [Hreg Hkids].
  assert (aliens w1 = aliens w) as Hsame.
  { revert Hgc. by apply (un_garbage_collect aliens (λ b, b = aliens w)). }
  apply garbage_collect_returns_live_roots in Hgc as [-> Hpr].
  split; simpl; [|done].
  intros r [_ Hr]%list_elem_of_filter. apply Hreg. by rewrite Hsame.
Qed.

Lemma linked_apply_op o : invariant linked (apply_op o).
Proof. destruct o; simpl; eauto using linked_collect with invariant. Qed.

Lemma linked_main_turn fuel c : invariant linked (main_turn fuel c).
Proof. unfold main_turn. invariant. apply linked_collect. Qed.

Lemma linked_initial rng : linked (initial rng).
Proof.
  split; simpl.
  - by intros r ?%elem_of_nil.
  - by intros p a c ?.
Qed.

Lemma linked_reachable rng w : reachable rng w → linked w.
Proof.
  intros [(ops & H)|(fuel & cmds & v & H)].
  - by apply (invariant_for_each _ ops apply_op linked_apply_op
                _ _ _ (linked_initial rng) H).
  - assert (invariant linked (play fuel cmds)) as Hplay.
    { clear. induction cmds as [|c cmds IH]; simpl; invariant.
      apply linked_main_turn. }
    by apply (Hplay _ _ _ (linked_initial rng) H).
Qed.


Lemma stack_ok_cleared w p i ap stack :
  heap w !! p = Some ap → stack_ok w stack →
  stack_ok (cleared p i ap w) stack.
Proof.
  intros Hp Hst cur par idx Hin. destruct (Hst cur par idx Hin) as [Hc Hpar].
  split; simpl.
  - intros c Hcur. rewrite length_insert. by apply Hc.
  - intros p' Hp'. destruct (Hpar p' Hp') as (ap' & Hap' & Hidx).
    destruct (decide (p' = p)) as [->|Hne].
    + rewrite list_lookup_insert_eq by (by apply lookup_lt_Some in Hp).
      eexists. split; [done|]. simpl. rewrite length_insert.
      by assert (ap' = ap) as -> by congruence.
    + rewrite list_lookup_insert_ne by done. eauto.
Qed.

(** The traversal fails on a [None] it pops, or not at all. *)
Lemma gc_loop_benign fuel :
  ∀ stack w, linked w → stack_ok w stack →
             only_AttributeError (gc_loop fuel stack w).
Proof.
  induction fuel as [|fuel IH]; intros stack w Hw Hst; simpl; [done|].
  destruct stack as [|[[current parent] idx] stack]; [done|].
  destruct (Hst current parent idx (list_elem_of_here _ _)) as [Hcur Hpar].
  assert (stack_ok w stack) as Hst'.
  { intros c p i Hin. by apply Hst, list_elem_of_further. }
  destruct current as [cur|]; [|done].
  destruct (lookup_lt_is_Some_2 (heap w) cur) as [a Ha]; [by apply Hcur|].
  rewrite (bind_ok _ _ w a w) by (unfold alien; by rewrite Ha).
  destruct (Alien.squished a).
  - destruct parent as [p|]; [|by apply IH].
    destruct (Hpar p eq_refl) as (ap & Hap & Hidx).
    destruct (lookup_lt_is_Some_2 (Alien.children ap) idx) as [s Hs]; [done|].
    rewrite (bind_ok _ _ _ _ _ (clear_slot_ok w p idx ap s Hap Hs)).
    apply IH; [|by apply stack_ok_cleared].
    by apply (linked_clear_slot p idx w tt _ Hw
                (clear_slot_ok w p idx ap s Hap Hs)).
  - apply IH; [done|].
    intros c p i [Hin|Hin]%elem_of_app; [|by apply Hst'].
    rewrite elem_of_reverse in Hin. unfold child_entries in Hin.
    apply list_elem_of_lookup in Hin as [k Hk].
    rewrite list_lookup_imap in Hk.
    destruct (Alien.children a !! k) as [o|] eqn:Ho; [|done].
    injection Hk as <- <- <-. split.
    + intros c ->. apply (ln_children _ Hw cur a c Ha).
      by apply list_elem_of_lookup_2 in Ho.
    + intros ? [= <-]. exists a. split; [done|]. by apply lookup_lt_Some in Ho.
Qed.

Lemma benign_bind {A B} (m : M A) (k : A → M B) w :
  only_AttributeError (m w) →
  (∀ a w', m w = Ok (a, w') → only_AttributeError (k a w')) →
  only_AttributeError (bind m k w).
Proof.
  unfold bind. destruct (m w) as [[a w']| |]; [|done..]. intros _ Hk.
  by apply Hk.
Qed.

Lemma gc_root_benign fuel r w :
  linked w → (r < length (heap w))%nat →
  only_AttributeError (gc_root fuel r w).
Proof.
  intros Hw Hr. unfold gc_root.
  destruct (lookup_lt_is_Some_2 (heap w) r) as [a Ha]; [done|].
  rewrite (bind_ok _ _ w a w) by (unfold alien; by rewrite Ha).
  destruct (Alien.squished a); [done|].
  apply benign_bind.
  - apply gc_loop_benign; [done|].
    intros c p i [[= -> -> ->]|[]%elem_of_nil]%elem_of_cons.
    split; [by intros ? [= <-]|done].
  - intros [] w1 H1.
    assert (prunes (heap w) (heap w1)) as Hpr
      by (revert H1; apply prunes_gc_loop).
    destruct (pr_node _ _ Hpr _ _ Ha) as (a1 & Ha1 & _).
    rewrite (bind_ok _ _ w1 a1 w1) by (unfold alien; by rewrite Ha1).
    unfold when. destruct (negb _); [|done].
    unfold update. by rewrite Ha1.
Qed.

Lemma gc_roots_benign fuel l :
  ∀ w, linked w → (∀ r, r ∈ l → (r < length (heap w))%nat) →
       only_AttributeError (for_each l (gc_root fuel) w).
Proof.
  induction l as [|r l IH]; intros w Hw Hl; simpl; [done|].
  apply benign_bind; [apply gc_root_benign; [done|apply Hl, list_elem_of_here]|].
  intros [] w1 H1. apply IH; [by apply (linked_gc_root fuel r w tt w1)|].
  intros r' Hr'.
  assert (prunes (heap w) (heap w1)) as Hpr
    by (revert H1; apply prunes_gc_root).
  rewrite (pr_len _ _ Hpr). by apply Hl, list_elem_of_further.
Qed.

Lemma collect_benign fuel w :
  linked w → only_AttributeError (collect fuel w).
Proof.
  intros Hw. unfold collect.
  rewrite (bind_ok _ _ w (aliens w) w) by done.
  apply benign_bind; [|done]. unfold garbage_collect.
  apply benign_bind; [apply gc_roots_benign; [done|apply Hw]|].
  intros [] w1 H1.
  assert (prunes (heap w) (heap w1)) as Hpr.
  { revert H1. apply respects_for_each; [apply _|]. intros r. respects. }
  rewrite kept_roots_ok; [done|].
  intros r Hr. apply lookup_lt_is_Some_2. rewrite (pr_len _ _ Hpr).
  by apply (ln_registry _ Hw).
Qed.


(** ** The main loop on its input *)

(** An iteration is its start followed, when the loop is not left there, by
    its end. *)
Lemma main_turn_split fuel c w :
  main_turn fuel c w =
    match turn_start w with
    | Ok (Some v, w1) => Ok (v, w1)
    | Ok (None, w1) => turn_end fuel c w1
    | Raise e => Raise e
    | OutOfFuel => OutOfFuel
    end.
Proof.
  unfold main_turn, turn_start, turn_end, turn_steps, bind.
  destruct (board_full w) as [[[] w1]| |]; [done| |done..].
  destruct (win_by_nuke w1) as [[[] w2]| |]; [done| |done..].
  destruct (place_alien w2) as [[[] w3]| |]; [|done..]. simpl.
  destruct (match c with
            | Coordinates userx usery => attack userx usery
            | NoCoordinates => ret tt
            end w3) as [[[] w4]| |]; [|done..].
  by destruct (Board_doTimestep w4) as [[[] w5]| |].
Qed.

Lemma all_cells_same cells p w b w' :
  (∀ c b1 w1 w2, p c w1 = Ok (b1, w2) → w2 = w1) →
  all_cells cells p w = Ok (b, w') → w' = w.
Proof.
  intros Hp. induction cells as [|c cells IH]; simpl; intros H.
  - by injection H as <- <-.
  - apply bind_inv in H as (b1 & w1 & H1 & H).
    apply Hp in H1 as ->. destruct b1; [by apply IH|by injection H as <- <-].
Qed.

Lemma isEmpty_board_same w e w' : isEmpty_board w = Ok (e, w') → w' = w.
Proof.
  unfold isEmpty_board. intros H.
  apply bind_inv in H as (b & ? & [= <- <-] & H).
  revert H. apply all_cells_same.
  intros c b1 w1 w2 H1. by apply isEmpty_inv in H1 as [-> _].
Qed.

Lemma printTrees_same fuel l w s w' :
  printTrees fuel l w = Ok (s, w') → w' = w.
Proof.
  revert s w'. induction l as [|r l IH]; intros s w' H; simpl in H.
  - by injection H as <- <-.
  - apply bind_inv in H as (tree & w1 & [-> _]%printTree_inv & H).
    apply bind_inv in H as (rest & w2 & ->%IH & [= <- <-]). done.
Qed.

(** *** The turn count *)

Lemma turn_start_turn w v w' :
  turn_start w = Ok (v, w') →
  Player.turn (player w') = Player.turn (player w)
  ∧ (v = None ∨ v = Some GameOver
     ∨ (v = Some WinByNuke ∧ Player.turn (player w) > 5)).
Proof.
  unfold turn_start. intros H.
  apply bind_inv in H as (full & w1 & H1 & H).
  player_kept_by @un_board_full H1.
  destruct full; [injection H as <- <-; split; [congruence|auto]|].
  apply bind_inv in H as (nuked & w2 & H2 & H).
  pose proof H2 as Hn. player_kept_by @un_win_by_nuke H2.
  destruct nuked.
  { injection H as <- <-. apply win_by_nuke_true in Hn.
    rewrite H1 in *. split; [congruence|auto]. }
  apply bind_inv in H as ([] & w3 & H3 & [= <- <-]).
  player_kept_by @un_place_alien H3. split; [congruence|auto].
Qed.

Lemma turn_end_turn fuel c w v w' :
  turn_end fuel c w = Ok (v, w') →
  Player.turn (player w') = Player.turn (player w) + 1
  ∧ (v = Running ∨ v = WinEmpty).
Proof.
  unfold turn_end, turn_steps. intros H.
  apply bind_inv in H as ([] & w6 & H & H').
  apply bind_inv in H as ([] & w4 & H4 & H).
  assert (Player.turn (player w4) = Player.turn (player w)) as Hturn.
  { destruct c; [by apply attack_turn in H4|by injection H4 as <-]. }
  apply bind_inv in H as ([] & w5 & H5 & [= <-]).
  player_kept_by @un_Board_doTimestep H5.
  apply bind_inv in H' as ([] & w7 & H7 & H').
  player_kept_by @un_collect H7.
  apply bind_inv in H' as (e & w8 & ->%isEmpty_board_same & [= <- <-]).
  split; [|destruct e; auto].
  rewrite H7. simpl. rewrite H5, Hturn. done.
Qed.

Lemma game_turn fuel lines :
  ∀ w0 o rest w,
    game fuel lines w0 = Ok ((o, rest), w) →
    ∃ read,
      lines = read ++ rest
      ∧ Player.turn (player w)
        = Player.turn (player w0)
          + Z.of_nat (length (filter (λ l, typed l = true) read))
      ∧ (o = Left WinByNuke → Player.turn (player w) > 5)
      ∧ (o = Waiting → rest = []).
Proof.
  induction lines as [|l lines IH]; intros w0 o rest w H.
  - simpl in H. apply bind_inv in H as (v & w1 & [Ht Hv]%turn_start_turn & H).
    exists []. destruct v as [v|]; injection H as <- <- <-.
    + split_and!; [done|simpl; lia| |done].
      intros [= ->]. destruct Hv as [?|[?|[_ ?]]]; [done..|lia].
    + split_and!; [done|simpl; lia|done|done].
  - simpl in H. apply bind_inv in H as (v & w1 & [Ht Hv]%turn_start_turn & H).
    destruct v as [v|].
    { injection H as <- <- <-. exists []. split_and!; [done|simpl; lia| |done].
      intros [= ->]. destruct Hv as [?|[?|[_ ?]]]; [done..|lia]. }
    destruct l as [c| |].
    + apply bind_inv in H as (v & w2 & [Ht2 Hv2]%turn_end_turn & H).
      destruct Hv2 as [-> | ->].
      * apply IH in H as (read & -> & Hturn & Hnuke & Hwait).
        exists (Typed c :: read). split_and!; [done| |done..].
        rewrite filter_cons_True by done. rewrite length_cons. lia.
      * injection H as <- <- <-. exists [Typed c].
        split_and!; [done| |done..].
        rewrite filter_cons_True by done. simpl. lia.
    + apply bind_inv in H as (reg & ? & [= <- <-] & H).
      apply bind_inv in H as (trees & w2 & ->%printTrees_same & H).
      apply IH in H as (read & -> & Hturn & Hnuke & Hwait).
      exists (Trees :: read). split_and!; [done| |done..].
      rewrite filter_cons_False by done. lia.
    + injection H as <- <- <-. exists [Quit]. split_and!; [done| |done..].
      rewrite filter_cons_False by done. simpl. lia.
Qed.

(** X12.  The lines the program has read are a prefix of its input, and the
    turn count is the number of lines read that are neither [TREES] nor
    [QUIT] or [EXIT], however the run ends: by a win or a loss, by [QUIT],
    or at [input()] with no line left, which is the only way for the model
    to stop with nothing unread.  A win by the nuke has a turn count of at
    least 6. *)
Theorem turn_counts_lines_read rng fuel lines o rest w :
  game fuel lines (initial rng) = Ok ((o, rest), w) →
  ∃ read,
    lines = read ++ rest
    ∧ Player.turn (player w)
      = Z.of_nat (length (filter (λ l, typed l = true) read))
    ∧ (o = Left WinByNuke → 6 ≤ Player.turn (player w))
    ∧ (o = Waiting → rest = []).
Proof.
  intros (read & Hread & Hturn & Hnuke & Hwait)%game_turn.
  exists read. split_and!; [done|by rewrite Hturn| |done].
  intros Ho. specialize (Hnuke Ho). lia.
Qed.

Lemma turn_counts_lines_read_witness :
  ∃ w read,
    game 10 [Typed NoCoordinates; Trees; Typed (Coordinates 3 3); Quit;
             Typed NoCoordinates]
      (initial (stream blocked_then_hit_draws))
    = Ok ((Quitted, [Typed NoCoordinates]), w)
    ∧ [Typed NoCoordinates; Trees; Typed (Coordinates 3 3); Quit;
       Typed NoCoordinates] = read ++ [Typed NoCoordinates]
    ∧ Player.turn (player w)
      = Z.of_nat (length (filter (λ l, typed l = true) read)).
Proof.
  eexists.
  edestruct (turn_counts_lines_read (stream blocked_then_hit_draws) 10
               [Typed NoCoordinates; Trees; Typed (Coordinates 3 3); Quit;
                Typed NoCoordinates] Quitted [Typed NoCoordinates])
    as (read & Hread & Hturn & _); [vm_compute; reflexivity|].
  exists read. split; [vm_compute; reflexivity|]. split; [exact Hread|exact Hturn].
Defined.

(** *** Where an iteration can fail *)

Ltac grows H Hv :=
  refine (valid_grows _ _ _ _ _ _ _ H Hv); [solve [invariant]|solve [respects]].

(** The start of an iteration returns, and keeps an invariant [J] of its
    steps. *)
Lemma turn_start_runs (J : World → Prop) w :
  invariant J board_full → invariant J win_by_nuke →
  invariant J place_alien →
  well_formed w → J w →
  ∃ v w1, turn_start w = Ok (v, w1) ∧ well_formed w1 ∧ J w1.
Proof.
  intros J1 J2 J3 Hwf HJ.
  assert (valid 0 w) as Hv by (split; [done|lia]).
  unfold turn_start.
  destruct (runs_board_full 0 w Hv) as (full & w1 & H1).
  assert (valid 0 w1) as Hv1 by grows H1 Hv.
  pose proof (J1 _ _ _ HJ H1) as HJ1.
  rewrite (bind_ok _ _ _ _ _ H1).
  destruct full; [eexists _, _; split_and!; [done|apply Hv1|done]|].
  destruct (runs_win_by_nuke 0 w1 Hv1) as (nuked & w2 & H2).
  assert (valid 0 w2) as Hv2 by grows H2 Hv1.
  pose proof (J2 _ _ _ HJ1 H2) as HJ2.
  rewrite (bind_ok _ _ _ _ _ H2).
  destruct nuked; [eexists _, _; split_and!; [done|apply Hv2|done]|].
  destruct (runs_place_alien 0 w2 Hv2) as ([] & w3 & H3).
  assert (valid 0 w3) as Hv3 by grows H3 Hv2.
  pose proof (J3 _ _ _ HJ2 H3) as HJ3.
  rewrite (bind_ok _ _ _ _ _ H3).
  eexists _, _; split_and!; [done|apply Hv3|done].
Qed.

(** So do the attack and the timesteps. *)
Lemma turn_steps_runs (J : World → Prop) c w :
  (∀ x y, invariant J (attack x y)) →
  invariant J Board_doTimestep → invariant J Player_doTimestep →
  well_formed w → J w →
  ∃ w2, turn_steps c w = Ok (tt, w2) ∧ well_formed w2 ∧ J w2.
Proof.
  intros J4 J5 J6 Hwf HJ.
  assert (valid 0 w) as Hv by (split; [done|lia]).
  unfold turn_steps.
  assert (∃ w4, match c with
                | Coordinates userx usery => attack userx usery
                | NoCoordinates => ret tt
                end w = Ok (tt, w4) ∧ valid 0 w4 ∧ J w4)
    as (w4 & H4 & Hv4 & HJ4).
  { destruct c as [x y|]; [|by exists w].
    destruct (runs_attack 0 x y w Hv) as ([] & w4 & H4). exists w4.
    split_and!; [done| |by apply (J4 x y _ _ _ HJ H4)]. grows H4 Hv. }
  rewrite (bind_ok _ _ _ _ _ H4).
  destruct (runs_Board_doTimestep 0 w4 Hv4) as ([] & w5 & H5).
  assert (valid 0 w5) as Hv5 by grows H5 Hv4.
  pose proof (J5 _ _ _ HJ4 H5) as HJ5.
  rewrite (bind_ok _ _ _ _ _ H5).
  destruct (runs_Player_doTimestep 0 w5 Hv5) as ([] & w6 & H6).
  assert (valid 0 w6) as Hv6 by grows H6 Hv5.
  pose proof (J6 _ _ _ HJ5 H6) as HJ6.
  exists w6. split_and!; [done|apply Hv6|done].
Qed.

(** The end of an iteration does what the collection does. *)
Lemma turn_end_cases (J : World → Prop) fuel c w1 w2 :
  invariant J (collect fuel) →
  turn_steps c w1 = Ok (tt, w2) → well_formed w2 → J w2 →
  match collect fuel w2 with
  | Ok (_, w3) =>
      well_formed w3 ∧ J w3
      ∧ ∃ v, turn_end fuel c w1 = Ok (v, w3) ∧ (v = Running ∨ v = WinEmpty)
  | Raise e => turn_end fuel c w1 = Raise e
  | OutOfFuel => turn_end fuel c w1 = OutOfFuel
  end.
Proof.
  intros J7 Hsteps Hwf HJ. unfold turn_end.
  rewrite (bind_ok _ _ _ _ _ Hsteps).
  destruct (collect fuel w2) as [[[] w3]|e|] eqn:H7.
  - assert (valid 0 w2) as Hv by (split; [done|lia]).
    assert (valid 0 w3) as Hv3 by grows H7 Hv.
    split_and!; [apply Hv3|by apply (J7 _ _ _ HJ H7)|].
    rewrite (bind_ok _ _ _ _ _ H7).
    destruct (runs_isEmpty_board 0 w3 Hv3) as (e & w4 & H8).
    pose proof (isEmpty_board_same _ _ _ H8) as ->.
    rewrite (bind_ok _ _ _ _ _ H8). destruct e; eauto.
  - unfold bind. by rewrite H7.
  - unfold bind. by rewrite H7.
Qed.

(** X25.  An iteration of the main loop that starts in a well-formed state
    fails in the collection or not at all.  The test of the full board, the
    nuke check and the placement return, in a well-formed state; when the
    loop is not left there, the attack (whatever the coordinates) and the two
    timesteps return as well, in a well-formed state; the iteration then
    raises exactly what the collection raises on that state, and when the
    collection returns it ends in the state the collection leaves, which is
    well formed. *)
Theorem main_turn_fails_only_in_collect fuel c w :
  well_formed w →
  ∃ v w1,
    turn_start w = Ok (v, w1) ∧ well_formed w1
    ∧ main_turn fuel c w
      = match v with
        | Some v' => Ok (v', w1)
        | None => turn_end fuel c w1
        end
    ∧ ∃ w2,
        turn_steps c w1 = Ok (tt, w2) ∧ well_formed w2
        ∧ match collect fuel w2 with
          | Ok (_, w3) =>
              well_formed w3
              ∧ ∃ v', turn_end fuel c w1 = Ok (v', w3)
                      ∧ (v' = Running ∨ v' = WinEmpty)
          | Raise e => turn_end fuel c w1 = Raise e
          | OutOfFuel => turn_end fuel c w1 = OutOfFuel
          end.
Proof.
  intros Hwf.
  destruct (turn_start_runs (λ _, True) w) as (v & w1 & H1 & Hwf1 & _);
    try done.
  exists v, w1. split_and!; [done..| |].
  { rewrite main_turn_split, H1. by destruct v. }
  destruct (turn_steps_runs (λ _, True) c w1) as (w2 & H2 & Hwf2 & _);
    try done.
  exists w2. split_and!; [done..|].
  pose proof (turn_end_cases (λ _, True) fuel c w1 w2) as Hend.
  destruct (collect fuel w2) as [[[] w3]|e|].
  - destruct Hend as (Hwf3 & _ & Hv); done.
  - by apply Hend.
  - by apply Hend.
Qed.

Lemma main_turn_fails_only_in_collect_witness :
  ∃ w1 w2,
    turn_start (initial (stream [])) = Ok (None, w1)
    ∧ turn_steps (Coordinates (-3) 99) w1 = Ok (tt, w2)
    ∧ well_formed w2.
Proof.
  destruct (main_turn_fails_only_in_collect 10 (Coordinates (-3) 99)
              (initial (stream [])))
    as (v & w1 & H1 & _ & _ & w2 & H2 & Hwf2 & _).
  { apply well_formed_check_sound. reflexivity. }
  assert (v = None) as ->.
  { vm_compute in H1. by injection H1 as <- _. }
  by exists w1, w2.
Defined.

(** *** The exceptions of a game *)

Lemma tree_loop_benign rec l :
  ∀ tree w,
    (∀ c s1 wa w1, rec c wa = Ok (s1, w1) → w1 = wa) →
    (∀ c, c ∈ l → only_AttributeError (rec c w)) →
    only_AttributeError (tree_loop rec l tree w).
Proof.
  induction l as [|c l IH]; intros tree w Hsame Hl; simpl; [done|].
  apply benign_bind; [apply Hl, list_elem_of_here|].
  intros s1 w1 H1. apply Hsame in H1 as ->.
  apply IH; [done|]. intros c' Hc'. by apply Hl, list_elem_of_further.
Qed.

Lemma printTree_benign fuel :
  ∀ node depth w,
    linked w → (∀ r, node = Some r → (r < length (heap w))%nat) →
    only_AttributeError (printTree fuel node depth w).
Proof.
  induction fuel as [|fuel IH]; intros node depth w Hw Hnode; simpl; [done|].
  destruct node as [r|]; [|done].
  destruct (lookup_lt_is_Some_2 (heap w) r) as [a Ha]; [by apply Hnode|].
  rewrite (bind_ok _ _ w a w) by (unfold alien; by rewrite Ha). cbv zeta.
  case_bool_decide; [done|].
  apply tree_loop_benign.
  - intros c s1 wa w1 H1. by apply printTree_inv in H1 as [-> _].
  - intros c Hc. apply IH; [done|]. intros r' ->.
    by apply (ln_children _ Hw r a r').
Qed.

Lemma printTrees_benign fuel l w :
  linked w → (∀ r, r ∈ l → (r < length (heap w))%nat) →
  only_AttributeError (printTrees fuel l w).
Proof.
  intros Hw. induction l as [|r l IH]; intros Hl; simpl; [done|].
  apply benign_bind.
  - apply printTree_benign; [done|]. intros ? [= <-].
    apply Hl, list_elem_of_here.
  - intros tree w1 [-> _]%printTree_inv. apply benign_bind; [|done].
    apply IH. intros r' Hr'. by apply Hl, list_elem_of_further.
Qed.

Lemma game_benign fuel lines :
  ∀ w, well_formed w → linked w → only_AttributeError (game fuel lines w).
Proof.
  induction lines as [|l lines IH]; intros w Hwf Hln;
    (destruct (turn_start_runs linked w) as (v & w1 & H1 & Hwf1 & Hln1);
     [apply linked_board_full|apply linked_win_by_nuke
     |apply linked_place_alien|done|done|]);
    simpl; rewrite (bind_ok _ _ _ _ _ H1); (destruct v as [v|]; [done|]);
    [done|].
  destruct l as [c| |]; [| |done].
  - destruct (turn_steps_runs linked c w1) as (w2 & H2 & Hwf2 & Hln2);
      [apply linked_attack|apply linked_Board_doTimestep
      |apply linked_Player_doTimestep|done|done|].
    pose proof (turn_end_cases linked fuel c w1 w2 (linked_collect fuel)
                  H2 Hwf2 Hln2) as Hend.
    pose proof (collect_benign fuel w2 Hln2) as Hb.
    destruct (collect fuel w2) as [[[] w3]|e|].
    + destruct Hend as (Hwf3 & Hln3 & v & Hv & Hcase).
      rewrite (bind_ok _ _ _ _ _ Hv).
      destruct Hcase as [-> | ->]; [by apply IH|done].
    + unfold bind. by rewrite Hend.
    + unfold bind. by rewrite Hend.
  - rewrite (bind_ok _ _ w1 (aliens w1) w1) by done.
    apply benign_bind; [apply printTrees_benign; [done|apply Hln1]|].
    intros trees w2 ->%printTrees_same. by apply IH.
Qed.


